(** * Organ combo firmware: a shallow embedding of [combo/combo.ino]

    The sketch drives a 120-pixel strip from a 32-bin magnitude spectrum
    with three engines (Trail, Lava, Spectrum) behind one mode controller.

    Conventions of the embedding.
    - [float] values are exact rationals ([Q]).  Rounding, overflow and
      NaN of single precision are not modelled, so an inequality that is
      tight in exact arithmetic is a statement about exact arithmetic.
      Module [F32] is the same sketch in the single precision of the
      boards the sketch is written for; the properties that rounding
      decides (peaks against floors, the spike test, the divisors) are
      stated on it.
    - Every [/] of the sketch goes through [fdiv], which is undefined on
      a zero divisor; all functions that divide live in the [option]
      monad, and "no division by zero" is "the result is [Some]".
    - [unsigned long] clock readings are integers reduced modulo 2^32.
    - [int] indices are integers ([Z]); arrays are lists.
    - [millis()], [random()] and the magnitude spectrum [vReal] left by
      the FFT are inputs of each cycle.
    - The pixel buffer of the strip library is an ideal store of 24-bit
      colours with the library's bounds check on the index. *)

From stdpp Require Import base list option.
From Stdlib Require Import ZArith QArith Qround Qabs Qpower Lqa Lia SpecFloat.

Local Open Scope Z_scope.

(** ** Machine arithmetic *)

Definition u32 (z : Z) : Z := z mod 2 ^ 32.

Definition fdiv (x y : Q) : option Q :=
  if Qeq_bool y 0 then None else Some (x / y)%Q.

(** [x < y] and [x > y] on floats, as booleans. *)
Definition fltb (x y : Q) : bool := negb (Qle_bool y x).
Definition fgtb (x y : Q) : bool := fltb y x.
Definition fgeb (x y : Q) : bool := Qle_bool y x.

(** The Arduino macros [constrain] and [abs]; [min] and [max] on [int]
    are [Z.min] and [Z.max]. *)
Definition constrain (amt low high : Q) : Q :=
  if fltb amt low then low else if fgtb amt high then high else amt.

Definition fabs (x : Q) : Q := if fgtb x 0 then x else (- x)%Q.

(** [(int)x]: truncation toward zero. *)
Definition ftoi (x : Q) : Z := Z.quot (Qnum x) (Z.pos (Qden x)).

(** Conversion of a float or an int to [uint8_t]. *)
Definition u8 (z : Z) : Z := z mod 256.
Definition ftou8 (x : Q) : Z := u8 (ftoi x).

Definition itof (z : Z) : Q := inject_Z z.

(** [random(lo, hi)] of the Arduino core on a raw draw [r] of [random()]. *)
Definition random (r : N) (lo hi : Z) : Z :=
  if hi <=? lo then lo else Z.of_N r mod (hi - lo) + lo.

(** ** Arrays and counted loops *)

Global Instance Q_inhabited : Inhabited Q := populate 0%Q.

Section Arrays.
Context {A : Type} `{Inhabited A}.

(** [l[i]] and [l[i] = v] for an index within the array. *)
Definition aget (l : list A) (i : Z) : A := l !!! Z.to_nat i.
Definition aset (l : list A) (i : Z) (v : A) : list A := <[Z.to_nat i := v]> l.

End Arrays.

Section Loops.
Context {S : Type}.

(** [for (i = lo; i < lo + n; i++) s = body i s], where the body may fail. *)
Fixpoint for_up (n : nat) (i : Z) (body : Z -> S -> option S) (s : S) : option S :=
  match n with
  | O => Some s
  | Datatypes.S k => s' ← body i s; for_up k (i + 1) body s'
  end.

Definition for_range (lo hi : Z) (body : Z -> S -> option S) (s : S) : option S :=
  for_up (Z.to_nat (hi - lo)) lo body s.

(** The same for a body that cannot fail. *)
Fixpoint loop_up (n : nat) (i : Z) (body : Z -> S -> S) (s : S) : S :=
  match n with
  | O => s
  | Datatypes.S k => loop_up k (i + 1) body (body i s)
  end.

Definition loop_range (lo hi : Z) (body : Z -> S -> S) (s : S) : S :=
  loop_up (Z.to_nat (hi - lo)) lo body s.

(** [for (i = hi; i > hi - n; i--) s = body i s]. *)
Fixpoint loop_down (n : nat) (i : Z) (body : Z -> S -> S) (s : S) : S :=
  match n with
  | O => s
  | Datatypes.S k => loop_down k (i - 1) body (body i s)
  end.

End Loops.

(** ** Hardware and FFT configuration *)

Definition NUM_LEDS : Z := 120.
Definition SAMPLES : Z := 64.
Definition NUM_BINS : Z := SAMPLES / 2.

(** ** The strip: [Color], [setPixelColor], [getPixelColor], [clear] *)

Definition Color (r g b : Z) : Z :=
  Z.lor (Z.lor (Z.shiftl (u8 r) 16) (Z.shiftl (u8 g) 8)) (u8 b).

Definition setPixelColor (strip : list Z) (n c : Z) : list Z :=
  if (0 <=? n) && (n <? NUM_LEDS) then aset strip n (Z.land c 16777215) else strip.

Definition getPixelColor (strip : list Z) (n : Z) : Z :=
  if (0 <=? n) && (n <? NUM_LEDS) then aget strip n else 0.

Definition strip_clear (strip : list Z) : list Z :=
  replicate (length strip) 0.

(** ** Mode switching configuration *)

Definition SWITCH_PERIODIC : bool := true.
Definition SWITCH_ON_SPIKE : bool := true.
Definition SWITCH_INTERVAL_MS : Z := 90000.
Definition MIN_MODE_TIME_MS : Z := 30000.
Definition SPIKE_THRESHOLD : Q := 0.5.

Inductive Mode := MODE_TRAIL | MODE_LAVA | MODE_SPECTRUM.
Definition NUM_MODES : Z := 3.

Definition Mode_to_Z (m : Mode) : Z :=
  match m with MODE_TRAIL => 0 | MODE_LAVA => 1 | MODE_SPECTRUM => 2 end.

Definition Mode_of_Z (z : Z) : Mode :=
  if z =? 0 then MODE_TRAIL else if z =? 1 then MODE_LAVA else MODE_SPECTRUM.

(** ** Shared audio tracker *)

Record Global := {
  globalAudioLevel : Q;
  globalAudioPeak : Q;
  globalLastAudioLevel : Q
}.

(** The mean of bins 1 .. NUM_BINS - 1. *)
Definition meanSpectrum (vReal : list Q) : option Q :=
  let audio := loop_range 1 NUM_BINS (fun i a => (a + aget vReal i)%Q) 0%Q in
  fdiv audio (itof (NUM_BINS - 1)).

Definition updateGlobalAudioLevel (vReal : list Q) (g : Global) : option Global :=
  audio ← meanSpectrum vReal;
  let last := globalAudioLevel g in
  let level :=
    if fgtb audio (globalAudioLevel g) then audio
    else (globalAudioLevel g * 0.7 + audio * 0.3)%Q in
  let peak :=
    if fgtb level (globalAudioPeak g) then level
    else (globalAudioPeak g * 0.99 + 50 * 0.01)%Q in
  Some {| globalAudioLevel := level;
          globalAudioPeak := peak;
          globalLastAudioLevel := last |}.

Definition detectAudioSpike (g : Global) : option bool :=
  if fgeb 50 (globalAudioPeak g) then Some false
  else
    q1 ← fdiv (globalAudioLevel g - 50) (globalAudioPeak g - 50);
    let cur := constrain q1 0 1 in
    q2 ← fdiv (globalLastAudioLevel g - 50) (globalAudioPeak g - 50);
    let last := constrain q2 0 1 in
    Some (fgtb cur SPIKE_THRESHOLD && fgtb cur (last + 0.25)%Q).

(** ** Trail: configuration and state *)

Definition TRAIL_REVERSE : bool := true.
Definition TRAIL_THRESHOLD : Q := 0.70.
Definition TRAIL_USE_INTENSITY : bool := true.
Definition TRAIL_SCROLL_MS : Z := 50.
Definition TRAIL_FADE : Q := 0.92.
Definition TRAIL_REALTIME_LEDS : Z := 8.
Definition TRAIL_NUM_BANDS : Z := 8.

Definition TRAIL_BAND_START : list Z := [1; 2; 3; 4; 6; 9; 12; 16].
Definition TRAIL_BAND_END : Z := 32.
Definition TRAIL_BAND_NOISE : list Q := [200; 80; 80; 80; 80; 80; 80; 80]%Q.
Definition TRAIL_COLORS : list Z :=
  [0x0044FF; 0x2200FF; 0x6600FF; 0x9900FF; 0xCC00FF; 0xFF00CC; 0xFF0088; 0xFF0044].

Record Trail := {
  trailBands : list Q;
  trailBandPeaks : list Q;
  trailLastScroll : Z
}.

(** ** Trail: functions *)

Definition trailLed (i : Z) : Z :=
  if TRAIL_REVERSE then NUM_LEDS - 1 - i else i.

(** [(color >> k) & 0xFF]. *)
Definition channel (color k : Z) : Z := Z.land (Z.shiftr color k) 255.

Definition trailDimColor (color : Z) (intensity : Q) : Z :=
  let r := ftou8 (itof (channel color 16) * intensity) in
  let g := ftou8 (itof (channel color 8) * intensity) in
  let b := ftou8 (itof (channel color 0) * intensity) in
  Color r g b.

Definition trailFadeColor (color : Z) (factor : Q) : Z :=
  let r := ftou8 (itof (channel color 16) * factor) in
  let g := ftou8 (itof (channel color 8) * factor) in
  let b := ftou8 (itof (channel color 0) * factor) in
  Color r g b.

Definition trailSetupPeaks (peaks : list Q) : list Q :=
  loop_range 0 TRAIL_NUM_BANDS (fun i p => aset p i (aget TRAIL_BAND_NOISE i)) peaks.

Definition trailSetup (t : Trail) (strip : list Z) : Trail * list Z :=
  ({| trailBands := trailBands t;
      trailBandPeaks := trailSetupPeaks (trailBandPeaks t);
      trailLastScroll := trailLastScroll t |},
   strip_clear strip).

(** "Analyze bands": the mean of each band's bins. *)
Definition trailAnalyzeBand (vReal : list Q) (b : Z) (bands : list Q) : option (list Q) :=
  let bands := aset bands b 0%Q in
  let endBin :=
    if b <? TRAIL_NUM_BANDS - 1 then aget TRAIL_BAND_START (b + 1) else TRAIL_BAND_END in
  let '(bands, count) :=
    loop_range (aget TRAIL_BAND_START b) endBin
      (fun i '(bands, count) => (aset bands b (aget bands b + aget vReal i)%Q, count + 1))
      (bands, 0) in
  if 0 <? count then
    q ← fdiv (aget bands b) (itof count); Some (aset bands b q)
  else Some bands.

Definition trailAnalyze (vReal : list Q) (bands : list Q) : option (list Q) :=
  for_range 0 TRAIL_NUM_BANDS (trailAnalyzeBand vReal) bands.

(** The intensity of an active band: the quotient and its [constrain]. *)
Definition trailIntensity (band noise peak : Q) : option Q :=
  q ← fdiv (band - noise) (peak - noise + 1);
  Some (constrain q 0.2 1.0).

Definition trailActive (band noise peak : Q) : bool :=
  fgtb band noise && fgtb band (peak * TRAIL_THRESHOLD).

(** "Update real-time LEDs", one band. *)
Definition trailRealtimeLed (bands peaks : list Q) (b : Z) (strip : list Z) : option (list Z) :=
  if trailActive (aget bands b) (aget TRAIL_BAND_NOISE b) (aget peaks b) then
    if TRAIL_USE_INTENSITY then
      intensity ← trailIntensity (aget bands b) (aget TRAIL_BAND_NOISE b) (aget peaks b);
      Some (setPixelColor strip (trailLed b) (trailDimColor (aget TRAIL_COLORS b) intensity))
    else Some (setPixelColor strip (trailLed b) (aget TRAIL_COLORS b))
  else Some (setPixelColor strip (trailLed b) 0).

Definition trailRealtime (bands peaks : list Q) (strip : list Z) : option (list Z) :=
  for_range 0 (Z.min TRAIL_REALTIME_LEDS TRAIL_NUM_BANDS) (trailRealtimeLed bands peaks) strip.

(** "Scroll history", one pixel; [fade] is the sketch's [TRAIL_FADE]. *)
Definition trailScrollPixel (fade : Q) (i : Z) (strip : list Z) : list Z :=
  if i >=? TRAIL_REALTIME_LEDS + TRAIL_REALTIME_LEDS then
    let c := getPixelColor strip (trailLed (i - TRAIL_REALTIME_LEDS)) in
    setPixelColor strip (trailLed i) (trailFadeColor c fade)
  else
    let srcLed := i - TRAIL_REALTIME_LEDS in
    setPixelColor strip (trailLed i) (getPixelColor strip (trailLed srcLed)).

Definition trailScroll (fade : Q) (strip : list Z) : list Z :=
  loop_down (Z.to_nat (NUM_LEDS - TRAIL_REALTIME_LEDS)) (NUM_LEDS - 1)
    (trailScrollPixel fade) strip.

(** "Update peaks", one band, in exact arithmetic, where a peak at its
    floor decays to its floor.  The decay as the boards compute it, with
    both products and the sum rounded, is [F32.trailPeakStep]; how the
    peaks stand to their floors is stated there. *)
Definition trailPeakStep (band noise peak : Q) : Q :=
  if fgtb band peak then band else (peak * 0.993 + noise * 0.007)%Q.

Definition trailUpdatePeaks (bands peaks : list Q) : list Q :=
  loop_range 0 TRAIL_NUM_BANDS
    (fun b p => aset p b (trailPeakStep (aget bands b) (aget TRAIL_BAND_NOISE b) (aget p b)))
    peaks.

Definition trailUpdate (vReal : list Q) (now : Z) (t : Trail) (strip : list Z)
  : option (Trail * list Z) :=
  bands ← trailAnalyze vReal (trailBands t);
  strip ← trailRealtime bands (trailBandPeaks t) strip;
  let '(lastScroll, strip) :=
    if u32 (now - trailLastScroll t) >=? TRAIL_SCROLL_MS
    then (now, trailScroll TRAIL_FADE strip)
    else (trailLastScroll t, strip) in
  Some ({| trailBands := bands;
           trailBandPeaks := trailUpdatePeaks bands (trailBandPeaks t);
           trailLastScroll := lastScroll |},
        strip).

(** ** Lava: configuration and state *)

Definition LAVA_MAX_BLOBS : Z := 8.
Definition LAVA_FADE_RATE : Q := 0.92.
Definition LAVA_DRIFT_SPEED : Q := 0.3.
Definition LAVA_SPAWN_SIZE : Q := 10.0.
Definition LAVA_SHRINK_RATE : Q := 0.97.
Definition LAVA_TRIGGER_THRESHOLD : Q := 0.3.
Definition LAVA_COLOR_MODE : Z := 1.
Definition LAVA_NUM_BANDS : Z := 6.

Definition LAVA_COLORS : list Z :=
  [0xFF0000; 0xFF4400; 0xFFAA00; 0x44FF00; 0x0088FF; 0x8800FF].

Record LavaBlob := {
  active : bool;
  position : Q;
  size : Q;
  brightness : Q;
  drift : Q;
  colorIndex : Z
}.

Global Instance LavaBlob_inhabited : Inhabited LavaBlob :=
  populate {| active := false; position := 0; size := 0; brightness := 0;
              drift := 0; colorIndex := 0 |}.

Record Lava := {
  lavaBlobs : list LavaBlob;
  lavaBandLevels : list Q;
  lavaBandPeaks : list Q;
  lavaDominantBand : Z;
  lavaAudioLevel : Q;
  lavaAudioPeak : Q;
  lavaLastAudioLevel : Q
}.

(** The four raw draws of [random()] that one [lavaSpawnBlob] may consume:
    position, drift direction, drift magnitude, colour. *)
Record Draws := {
  draw_position : N;
  draw_direction : N;
  draw_magnitude : N;
  draw_color : N
}.

(** ** Lava: functions *)

Definition set_active (a : bool) (b : LavaBlob) : LavaBlob :=
  {| active := a; position := position b; size := size b;
     brightness := brightness b; drift := drift b; colorIndex := colorIndex b |}.

Definition lavaSetup (l : Lava) : Lava :=
  {| lavaBlobs :=
       loop_range 0 LAVA_MAX_BLOBS
         (fun i blobs => aset blobs i (set_active false (aget blobs i))) (lavaBlobs l);
     lavaBandLevels := lavaBandLevels l;
     lavaBandPeaks :=
       loop_range 0 LAVA_NUM_BANDS (fun i p => aset p i 100%Q) (lavaBandPeaks l);
     lavaDominantBand := lavaDominantBand l;
     lavaAudioLevel := 0;
     lavaAudioPeak := 100;
     lavaLastAudioLevel := lavaLastAudioLevel l |}.

Definition bandBins : list Z := [1; 3; 5; 8; 12; 19; 32].

(** The peak follower of one band: instant rise, decay toward 50. *)
Definition lavaBandPeakStep (level peak : Q) : Q :=
  if fgtb level peak then level else (peak * 0.995 + 50 * 0.005)%Q.

Definition lavaNormalize (level peak : Q) : option Q :=
  if fgtb peak 50 then
    q ← fdiv (level - 50) (peak - 50); Some (constrain q 0 1)
  else Some 0%Q.

(** The state of the band loop of [lavaAnalyzeAudio]. *)
Record BandScan := {
  scanLevels : list Q;
  scanPeaks : list Q;
  maxBandLevel : Q;
  scanDominant : Z
}.

Definition lavaAnalyzeBand (vReal : list Q) (b : Z) (s : BandScan) : option BandScan :=
  let levels := aset (scanLevels s) b 0%Q in
  let levels :=
    loop_range (aget bandBins b) (aget bandBins (b + 1))
      (fun i lv => aset lv b (aget lv b + aget vReal i)%Q) levels in
  q ← fdiv (aget levels b) (itof (aget bandBins (b + 1) - aget bandBins b));
  let levels := aset levels b q in
  let peaks :=
    aset (scanPeaks s) b (lavaBandPeakStep (aget levels b) (aget (scanPeaks s) b)) in
  normalizedLevel ← lavaNormalize (aget levels b) (aget peaks b);
  if fgtb normalizedLevel (maxBandLevel s) then
    Some {| scanLevels := levels; scanPeaks := peaks;
            maxBandLevel := normalizedLevel; scanDominant := b |}
  else
    Some {| scanLevels := levels; scanPeaks := peaks;
            maxBandLevel := maxBandLevel s; scanDominant := scanDominant s |}.

Definition lavaAnalyzeAudio (vReal : list Q) (l : Lava) : option Lava :=
  s ← for_range 0 LAVA_NUM_BANDS (lavaAnalyzeBand vReal)
        {| scanLevels := lavaBandLevels l; scanPeaks := lavaBandPeaks l;
           maxBandLevel := 0; scanDominant := 0 |};
  audio ← meanSpectrum vReal;
  let last := lavaAudioLevel l in
  let level :=
    if fgtb audio (lavaAudioLevel l) then audio
    else (lavaAudioLevel l * 0.7 + audio * 0.3)%Q in
  let peak :=
    if fgtb level (lavaAudioPeak l) then level
    else (lavaAudioPeak l * 0.99 + 50 * 0.01)%Q in
  Some {| lavaBlobs := lavaBlobs l;
          lavaBandLevels := scanLevels s;
          lavaBandPeaks := scanPeaks s;
          lavaDominantBand := scanDominant s;
          lavaAudioLevel := level;
          lavaAudioPeak := peak;
          lavaLastAudioLevel := last |}.

(** The first loop of [lavaSpawnBlob]: the first inactive slot, or -1. *)
Fixpoint firstInactive (n : nat) (i : Z) (blobs : list LavaBlob) : Z :=
  match n with
  | O => -1
  | Datatypes.S k =>
      if negb (active (aget blobs i)) then i else firstInactive k (i + 1) blobs
  end.

(** The second loop: the slot of least brightness below 1.0, or -1. *)
Definition dimmest (blobs : list LavaBlob) : Q * Z :=
  loop_range 0 LAVA_MAX_BLOBS
    (fun i '(minBrightness, slot) =>
       if fltb (brightness (aget blobs i)) minBrightness
       then (brightness (aget blobs i), i)
       else (minBrightness, slot))
    (1.0%Q, -1).

Definition chooseSlot (blobs : list LavaBlob) : Z :=
  let slot := firstInactive (Z.to_nat LAVA_MAX_BLOBS) 0 blobs in
  if slot =? -1 then snd (dimmest blobs) else slot.

Definition lavaSpawnBlob (d : Draws) (intensity : Q) (l : Lava) : option Lava :=
  let slot := chooseSlot (lavaBlobs l) in
  if slot >=? 0 then
    q ← fdiv (itof (random (draw_magnitude d) 0 100)) 100.0;
    let blob :=
      {| active := true;
         position := itof (random (draw_position d) 10 (NUM_LEDS - 10));
         size := LAVA_SPAWN_SIZE * (0.7 + intensity * 0.5);
         brightness := 0.5 + intensity * 0.5;
         drift :=
           itof (if random (draw_direction d) 0 2 =? 0 then -1 else 1)
           * LAVA_DRIFT_SPEED * (0.5 + q);
         colorIndex :=
           if LAVA_COLOR_MODE =? 0 then random (draw_color d) 0 LAVA_NUM_BANDS
           else lavaDominantBand l |}%Q in
    Some {| lavaBlobs := aset (lavaBlobs l) slot blob;
            lavaBandLevels := lavaBandLevels l;
            lavaBandPeaks := lavaBandPeaks l;
            lavaDominantBand := lavaDominantBand l;
            lavaAudioLevel := lavaAudioLevel l;
            lavaAudioPeak := lavaAudioPeak l;
            lavaLastAudioLevel := lavaLastAudioLevel l |}
  else Some l.

Definition lavaCheckTrigger (d : Draws) (l : Lava) : option Lava :=
  normalizedAudio ← lavaNormalize (lavaAudioLevel l) (lavaAudioPeak l);
  normalizedLast ← lavaNormalize (lavaLastAudioLevel l) (lavaAudioPeak l);
  if fgtb normalizedAudio LAVA_TRIGGER_THRESHOLD
     && fgtb normalizedAudio (normalizedLast + 0.1)%Q
  then lavaSpawnBlob d normalizedAudio l
  else Some l.

Definition lavaUpdateBlob (b : LavaBlob) : LavaBlob :=
  if negb (active b) then b
  else
    let brightness1 := (brightness b * LAVA_FADE_RATE)%Q in
    let size1 := (size b * LAVA_SHRINK_RATE)%Q in
    let position1 := (position b + drift b)%Q in
    let active1 :=
      if fltb brightness1 0.02 || fltb size1 1 then false else active b in
    if fltb position1 0 || fgeb position1 (itof NUM_LEDS) then
      {| active := active1;
         position := constrain position1 0 (itof (NUM_LEDS - 1));
         size := size1; brightness := brightness1;
         drift := (drift b * -1)%Q; colorIndex := colorIndex b |}
    else
      {| active := active1; position := position1;
         size := size1; brightness := brightness1;
         drift := drift b; colorIndex := colorIndex b |}.

Definition lavaUpdateBlobsArr (blobs : list LavaBlob) : list LavaBlob :=
  loop_range 0 LAVA_MAX_BLOBS
    (fun i blobs => aset blobs i (lavaUpdateBlob (aget blobs i))) blobs.

Definition lavaUpdateBlobs (l : Lava) : Lava :=
  {| lavaBlobs := lavaUpdateBlobsArr (lavaBlobs l);
     lavaBandLevels := lavaBandLevels l;
     lavaBandPeaks := lavaBandPeaks l;
     lavaDominantBand := lavaDominantBand l;
     lavaAudioLevel := lavaAudioLevel l;
     lavaAudioPeak := lavaAudioPeak l;
     lavaLastAudioLevel := lavaLastAudioLevel l |}.

(** One channel of [lavaAddColorToPixel]: [min(255, old + new)]. *)
Definition addChannel (existing color k : Z) (brightness : Q) : Z :=
  let new := ftou8 (itof (channel color k) * brightness) in
  let old := u8 (channel existing k) in
  Z.min 255 (old + new).

Definition lavaAddColorToPixel (strip : list Z) (pixel color : Z) (brightness : Q) : list Z :=
  let existing := getPixelColor strip pixel in
  setPixelColor strip pixel
    (Color (addChannel existing color 16 brightness)
           (addChannel existing color 8 brightness)
           (addChannel existing color 0 brightness)).

(** The falloff of pixel [i] under a blob, scaled by brightness and clamped. *)
Definition lavaFalloff (i : Z) (center size brightness : Q) : option Q :=
  let distance := fabs (itof i - center) in
  q ← fdiv distance size;
  let falloff := (1.0 - q)%Q in
  let falloff := (falloff * falloff * brightness)%Q in
  Some (constrain falloff 0 1).

Definition lavaRenderBlob (blobs : list LavaBlob) (b : Z) (strip : list Z) : option (list Z) :=
  let blob := aget blobs b in
  if negb (active blob) then Some strip
  else
    let color := aget LAVA_COLORS (colorIndex blob) in
    let startLed := Z.max 0 (ftoi (position blob - size blob)) in
    let endLed := Z.min (NUM_LEDS - 1) (ftoi (position blob + size blob)) in
    for_range startLed (endLed + 1)
      (fun i strip =>
         falloff ← lavaFalloff i (position blob) (size blob) (brightness blob);
         Some (lavaAddColorToPixel strip i color falloff))
      strip.

Definition lavaRender (l : Lava) (strip : list Z) : option (list Z) :=
  for_range 0 LAVA_MAX_BLOBS (lavaRenderBlob (lavaBlobs l)) (strip_clear strip).

Definition lavaUpdate (d : Draws) (vReal : list Q) (l : Lava) (strip : list Z)
  : option (Lava * list Z) :=
  l ← lavaAnalyzeAudio vReal l;
  l ← lavaCheckTrigger d l;
  let l := lavaUpdateBlobs l in
  strip ← lavaRender l strip;
  Some (l, strip).

(** ** Spectrum: configuration *)

Definition SPECTRUM_SENSITIVITY : Q := 1.5.
Definition SPECTRUM_REVERSE : bool := false.
Definition SPECTRUM_RESOLUTION : Z := 4.
Definition SPECTRUM_NOISE_LOW : Q := 50.0.
Definition SPECTRUM_NOISE_MID : Q := 60.0.
Definition SPECTRUM_NOISE_HIGH : Q := 80.0.
Definition SPECTRUM_R : Z := 0.
Definition SPECTRUM_G : Z := 255.
Definition SPECTRUM_B : Z := 0.

Definition SPECTRUM_ACTIVE_LEDS : Z := NUM_LEDS / SPECTRUM_RESOLUTION.

(** ** Spectrum: functions *)

Definition spectrumGetNoiseFloor (freqRatio : Q) : Q :=
  if fltb freqRatio 0.33 then SPECTRUM_NOISE_LOW
  else if fltb freqRatio 0.66 then SPECTRUM_NOISE_MID
  else SPECTRUM_NOISE_HIGH.

Definition spectrumIntensityToColor (intensity : Q) : Z :=
  let intensity := constrain intensity 0.0 1.0 in
  Color (ftou8 (itof SPECTRUM_R * intensity))
        (ftou8 (itof SPECTRUM_G * intensity))
        (ftou8 (itof SPECTRUM_B * intensity)).

Definition spectrumSetup (peaks : list Q) : option (list Q) :=
  for_range 0 NUM_BINS
    (fun i p =>
       freqRatio ← fdiv (itof i) (itof (NUM_BINS - 1));
       Some (aset p i (spectrumGetNoiseFloor freqRatio * 2)%Q))
    peaks.

Definition spectrumPeakStep (v noiseFloor peak : Q) : Q :=
  if fgtb v peak then v else (peak * 0.995 + noiseFloor * 0.005)%Q.

Definition spectrumUpdatePeaks (vReal : list Q) (peaks : list Q) : option (list Q) :=
  for_range 1 NUM_BINS
    (fun b p =>
       freqRatio ← fdiv (itof b) (itof (NUM_BINS - 1));
       let noiseFloor := spectrumGetNoiseFloor freqRatio in
       Some (aset p b (spectrumPeakStep (aget vReal b) noiseFloor (aget p b))))
    peaks.

(** The intensity of one output LED from the interpolated value and peak. *)
Definition spectrumIntensity (value peak noiseFloor : Q) : option Q :=
  if fgtb value noiseFloor && fgtb peak noiseFloor then
    q ← fdiv (value - noiseFloor) (peak - noiseFloor);
    let intensity := (q * SPECTRUM_SENSITIVITY)%Q in
    Some (constrain intensity 0.0 1.0)
  else Some 0%Q.

Definition spectrumRenderLed (vReal peaks : list Q) (i : Z) (strip : list Z)
  : option (list Z) :=
  let ledPos := i * SPECTRUM_RESOLUTION in
  let ledIndex := if SPECTRUM_REVERSE then NUM_LEDS - 1 - ledPos else ledPos in
  ledRatio ← fdiv (itof i) (itof (SPECTRUM_ACTIVE_LEDS - 1));
  let binFloat := (1.0 + itof (NUM_BINS - 2) * ledRatio)%Q in
  let binLow := ftoi binFloat in
  let binHigh := Z.min (binLow + 1) (NUM_BINS - 1) in
  let frac := (binFloat - itof binLow)%Q in
  let value := (aget vReal binLow * (1.0 - frac) + aget vReal binHigh * frac)%Q in
  let peak := (aget peaks binLow * (1.0 - frac) + aget peaks binHigh * frac)%Q in
  let noiseFloor := spectrumGetNoiseFloor ledRatio in
  intensity ← spectrumIntensity value peak noiseFloor;
  if fgeb intensity 0.08 then
    Some (setPixelColor strip ledIndex (spectrumIntensityToColor intensity))
  else Some strip.

Definition spectrumUpdate (vReal peaks : list Q) (strip : list Z)
  : option (list Q * list Z) :=
  peaks ← spectrumUpdatePeaks vReal peaks;
  strip ← for_range 0 SPECTRUM_ACTIVE_LEDS (spectrumRenderLed vReal peaks)
            (strip_clear strip);
  Some (peaks, strip).

(** ** Mode switching *)

Record Firmware := {
  currentMode : Mode;
  lastSwitch : Z;
  lastSpikeSwitch : Z;
  global : Global;
  trail : Trail;
  lava : Lava;
  spectrumBinPeaks : list Q;
  strip : list Z
}.

(** [nextMode()]; [now] is the value [millis()] returns to it. *)
Definition nextMode (now : Z) (s : Firmware) : option Firmware :=
  let strip0 := strip_clear (strip s) in
  let mode := Mode_of_Z ((Mode_to_Z (currentMode s) + 1) mod NUM_MODES) in
  match mode with
  | MODE_TRAIL =>
      let '(t, strip1) := trailSetup (trail s) strip0 in
      Some {| currentMode := mode; lastSwitch := now;
              lastSpikeSwitch := lastSpikeSwitch s; global := global s;
              trail := t; lava := lava s;
              spectrumBinPeaks := spectrumBinPeaks s; strip := strip1 |}
  | MODE_LAVA =>
      Some {| currentMode := mode; lastSwitch := now;
              lastSpikeSwitch := lastSpikeSwitch s; global := global s;
              trail := trail s; lava := lavaSetup (lava s);
              spectrumBinPeaks := spectrumBinPeaks s; strip := strip0 |}
  | MODE_SPECTRUM =>
      peaks ← spectrumSetup (spectrumBinPeaks s);
      Some {| currentMode := mode; lastSwitch := now;
              lastSpikeSwitch := lastSpikeSwitch s; global := global s;
              trail := trail s; lava := lava s;
              spectrumBinPeaks := peaks; strip := strip0 |}
  end.

Definition set_lastSpikeSwitch (t : Z) (s : Firmware) : Firmware :=
  {| currentMode := currentMode s; lastSwitch := lastSwitch s;
     lastSpikeSwitch := t; global := global s;
     trail := trail s; lava := lava s;
     spectrumBinPeaks := spectrumBinPeaks s; strip := strip s |}.

(** [checkModeSwitch()]; [now] is its own reading of [millis()], [now']
    the reading a call of [nextMode()] takes. *)
Definition checkModeSwitch (now now' : Z) (s : Firmware) : option Firmware :=
  if SWITCH_PERIODIC && (u32 (now - lastSwitch s) >=? SWITCH_INTERVAL_MS) then
    nextMode now' s
  else if SWITCH_ON_SPIKE && (u32 (now - lastSpikeSwitch s) >=? MIN_MODE_TIME_MS) then
    spike ← detectAudioSpike (global s);
    if spike : bool then nextMode now' (set_lastSpikeSwitch now s)
    else Some s
  else Some s.

(** ** Setup and loop *)

(** The globals as the C++ initialisers leave them. *)
Definition boot : Firmware :=
  {| currentMode := MODE_TRAIL; lastSwitch := 0; lastSpikeSwitch := 0;
     global := {| globalAudioLevel := 0; globalAudioPeak := 100;
                  globalLastAudioLevel := 0 |};
     trail := {| trailBands := replicate 8 0%Q;
                 trailBandPeaks := replicate 8 0%Q;
                 trailLastScroll := 0 |};
     lava := {| lavaBlobs := replicate 8 inhabitant;
                lavaBandLevels := replicate 6 0%Q;
                lavaBandPeaks := replicate 6 0%Q;
                lavaDominantBand := 0;
                lavaAudioLevel := 0; lavaAudioPeak := 100;
                lavaLastAudioLevel := 0 |};
     spectrumBinPeaks := replicate 32 0%Q;
     strip := replicate 120 0 |}.

(** [setup()]; [t1] and [t2] are its two readings of [millis()]. *)
Definition setup (t1 t2 : Z) (s : Firmware) : option Firmware :=
  let '(t, strip1) := trailSetup (trail s) (strip_clear (strip s)) in
  peaks ← spectrumSetup (spectrumBinPeaks s);
  Some {| currentMode := currentMode s; lastSwitch := t1; lastSpikeSwitch := t2;
          global := global s; trail := t; lava := lavaSetup (lava s);
          spectrumBinPeaks := peaks; strip := strip1 |}.

(** What one pass of [loop()] reads from the outside. *)
Record Input := {
  vReal : list Q;        (* the magnitude spectrum after [computeFFT()] *)
  now_check : Z;         (* [millis()] in [checkModeSwitch] *)
  now_switch : Z;        (* [millis()] in [nextMode] *)
  now_trail : Z;         (* [millis()] in [trailUpdate] *)
  draws : Draws          (* [random()] in [lavaSpawnBlob] *)
}.

Definition set_global (g : Global) (s : Firmware) : Firmware :=
  {| currentMode := currentMode s; lastSwitch := lastSwitch s;
     lastSpikeSwitch := lastSpikeSwitch s; global := g;
     trail := trail s; lava := lava s;
     spectrumBinPeaks := spectrumBinPeaks s; strip := strip s |}.

Definition runEngine (i : Input) (s : Firmware) : option Firmware :=
  match currentMode s with
  | MODE_TRAIL =>
      '(t, strip1) ← trailUpdate (vReal i) (now_trail i) (trail s) (strip s);
      Some {| currentMode := currentMode s; lastSwitch := lastSwitch s;
              lastSpikeSwitch := lastSpikeSwitch s; global := global s;
              trail := t; lava := lava s;
              spectrumBinPeaks := spectrumBinPeaks s; strip := strip1 |}
  | MODE_LAVA =>
      '(l, strip1) ← lavaUpdate (draws i) (vReal i) (lava s) (strip s);
      Some {| currentMode := currentMode s; lastSwitch := lastSwitch s;
              lastSpikeSwitch := lastSpikeSwitch s; global := global s;
              trail := trail s; lava := l;
              spectrumBinPeaks := spectrumBinPeaks s; strip := strip1 |}
  | MODE_SPECTRUM =>
      '(peaks, strip1) ← spectrumUpdate (vReal i) (spectrumBinPeaks s) (strip s);
      Some {| currentMode := currentMode s; lastSwitch := lastSwitch s;
              lastSpikeSwitch := lastSpikeSwitch s; global := global s;
              trail := trail s; lava := lava s;
              spectrumBinPeaks := peaks; strip := strip1 |}
  end.

(** One pass of [loop()] after sampling and the FFT. *)
Definition loop (i : Input) (s : Firmware) : option Firmware :=
  g ← updateGlobalAudioLevel (vReal i) (global s);
  s ← checkModeSwitch (now_check i) (now_switch i) (set_global g s);
  runEngine i s.

(** Successive passes of [loop()]. *)
Fixpoint run (ins : list Input) (s : Firmware) : option Firmware :=
  match ins with
  | [] => Some s
  | i :: ins => s' ← loop i s; run ins s'
  end.

(** The states the firmware can be in between two passes of [loop()]. *)
Inductive reachable : Firmware -> Prop :=
| reach_setup t1 t2 s :
    setup t1 t2 boot = Some s -> reachable s
| reach_loop i s s' :
    reachable s -> loop i s = Some s' -> reachable s'.

(** * Vocabulary of the properties *)

(** The state [setup()] leaves when both clock readings are [t]. *)
Definition after_setup (t : Z) : Firmware := default boot (setup t t boot).

(** The cyclic order of the modes. *)
Definition successor (m : Mode) : Mode :=
  match m with
  | MODE_TRAIL => MODE_LAVA
  | MODE_LAVA => MODE_SPECTRUM
  | MODE_SPECTRUM => MODE_TRAIL
  end.

(** The noise floor [spectrumSetup] and [spectrumUpdate] use for bin [b]. *)
Definition binNoiseFloor (b : Z) : Q :=
  spectrumGetNoiseFloor (itof b / itof (NUM_BINS - 1)).

(** Every adaptive peak is at least its static floor. *)
Record peaks_above_floors (s : Firmware) : Prop := {
  trail_peaks_floor : forall b, 0 <= b < TRAIL_NUM_BANDS ->
    (aget TRAIL_BAND_NOISE b <= aget (trailBandPeaks (trail s)) b)%Q;
  lava_peaks_floor : forall b, 0 <= b < LAVA_NUM_BANDS ->
    (50 <= aget (lavaBandPeaks (lava s)) b)%Q;
  lava_audio_floor : (50 <= lavaAudioPeak (lava s))%Q;
  global_audio_floor : (50 <= globalAudioPeak (global s))%Q;
  spectrum_peaks_floor : forall b, 1 <= b < NUM_BINS ->
    (binNoiseFloor b <= aget (spectrumBinPeaks s) b)%Q
}.

(** The arrays have the lengths the sketch declares. *)
Record shaped (s : Firmware) : Prop := {
  len_trailBandPeaks : length (trailBandPeaks (trail s)) = 8%nat;
  len_lavaBlobs : length (lavaBlobs (lava s)) = 8%nat;
  len_lavaBandPeaks : length (lavaBandPeaks (lava s)) = 6%nat;
  len_spectrumBinPeaks : length (spectrumBinPeaks s) = 32%nat;
  len_strip : length (strip s) = 120%nat
}.

(** Every active blob of the pool is dimmer than [bound]. *)
Definition pool_below (bound : Q) (blobs : list LavaBlob) : Prop :=
  forall i, 0 <= i < LAVA_MAX_BLOBS ->
    active (aget blobs i) = true -> (brightness (aget blobs i) < bound)%Q.

(** What holds between two passes of [loop()]. *)
Record invariant (s : Firmware) : Prop := {
  inv_shaped : shaped s;
  inv_peaks : peaks_above_floors s;
  inv_pool : pool_below 1 (lavaBlobs (lava s))
}.

(** The spike detector fires in the pass that reads [i]: [g] is the
    tracker [updateGlobalAudioLevel] leaves for [detectAudioSpike]. *)
Inductive spikeIn (i : Input) (s : Firmware) : Prop :=
| spike_fires g :
    updateGlobalAudioLevel (vReal i) (global s) = Some g ->
    detectAudioSpike g = Some true ->
    spikeIn i s.

(** Some raw draws of [random()]. *)
Definition some_draws : Draws :=
  {| draw_position := 1234; draw_direction := 7;
     draw_magnitude := 55; draw_color := 3 |}.

(** A pass at clock reading [t] over a flat spectrum of magnitude [v]. *)
Definition flat (v : Q) (t : Z) : Input :=
  {| vReal := replicate 64 v;
     now_check := t; now_switch := t; now_trail := t;
     draws := some_draws |}.

(** The reading of C4 in which every engine restarts at its noise floor. *)
Definition resets_to_floors (s : Firmware) : Prop :=
  match currentMode s with
  | MODE_TRAIL =>
      forall b, 0 <= b < TRAIL_NUM_BANDS ->
        (aget (trailBandPeaks (trail s)) b == aget TRAIL_BAND_NOISE b)%Q
  | MODE_LAVA =>
      (forall i, 0 <= i < LAVA_MAX_BLOBS -> active (aget (lavaBlobs (lava s)) i) = false) /\
      (forall b, 0 <= b < LAVA_NUM_BANDS -> (aget (lavaBandPeaks (lava s)) b == 50)%Q) /\
      (lavaAudioPeak (lava s) == 50)%Q
  | MODE_SPECTRUM =>
      forall b, 1 <= b < NUM_BINS ->
        (aget (spectrumBinPeaks s) b == binNoiseFloor b)%Q
  end.

(** What [nextMode] does leave in the engine it enters. *)
Definition reinitialised (s : Firmware) : Prop :=
  match currentMode s with
  | MODE_TRAIL =>
      forall b, 0 <= b < TRAIL_NUM_BANDS ->
        aget (trailBandPeaks (trail s)) b = aget TRAIL_BAND_NOISE b
  | MODE_LAVA =>
      (forall i, 0 <= i < LAVA_MAX_BLOBS -> active (aget (lavaBlobs (lava s)) i) = false) /\
      (forall b, 0 <= b < LAVA_NUM_BANDS -> aget (lavaBandPeaks (lava s)) b = 100%Q) /\
      lavaAudioPeak (lava s) = 100%Q /\
      lavaAudioLevel (lava s) = 0%Q
  | MODE_SPECTRUM =>
      forall b, 0 <= b < NUM_BINS ->
        aget (spectrumBinPeaks s) b = (binNoiseFloor b * 2)%Q
  end.

(** Slot [slot] is the first inactive slot of the pool. *)
Definition first_inactive (blobs : list LavaBlob) (slot : Z) : Prop :=
  active (aget blobs slot) = false /\
  forall j, 0 <= j < slot -> active (aget blobs j) = true.

(** Every slot is active and [slot] is the first of least brightness. *)
Definition first_dimmest (blobs : list LavaBlob) (slot : Z) : Prop :=
  (forall j, 0 <= j < LAVA_MAX_BLOBS -> active (aget blobs j) = true) /\
  (forall j, 0 <= j < LAVA_MAX_BLOBS ->
     (brightness (aget blobs slot) <= brightness (aget blobs j))%Q) /\
  (forall j, 0 <= j < slot ->
     (brightness (aget blobs slot) < brightness (aget blobs j))%Q).

(** Some slot is free, or some blob is dimmer than 1.0. *)
Definition allocatable (blobs : list LavaBlob) : Prop :=
  exists i, 0 <= i < LAVA_MAX_BLOBS /\
    (active (aget blobs i) = false \/ (brightness (aget blobs i) < 1)%Q).

(** A full pool of blobs at full brightness, and a Lava state holding it. *)
Definition bright_blob : LavaBlob :=
  {| active := true; position := 60; size := 12; brightness := 1;
     drift := 0.3; colorIndex := 0 |}.

Definition bright_pool : Lava :=
  {| lavaBlobs := replicate 8 bright_blob;
     lavaBandLevels := replicate 6 0%Q;
     lavaBandPeaks := replicate 6 100%Q;
     lavaDominantBand := 0;
     lavaAudioLevel := 1000; lavaAudioPeak := 1000;
     lavaLastAudioLevel := 0 |}.

(** Pixel [k] of the strip in Trail's own numbering ([trailLed]). *)
Definition trailPixel (strip : list Z) (k : Z) : Z :=
  getPixelColor strip (trailLed k).

(** What the scroll step writes into Trail pixel [k >= 8]. *)
Definition scrolled (fade : Q) (strip : list Z) (k : Z) : Z :=
  if k >=? TRAIL_REALTIME_LEDS + TRAIL_REALTIME_LEDS
  then Z.land (trailFadeColor (trailPixel strip (k - TRAIL_REALTIME_LEDS)) fade) 16777215
  else Z.land (trailPixel strip (k - TRAIL_REALTIME_LEDS)) 16777215.

(** A frame buffer of the strip: 120 colours of 24 bits. *)
Definition frame (strip : list Z) : Prop :=
  length strip = 120%nat /\ Forall (fun c => 0 <= c < 2 ^ 24) strip.

(** After [steps] scroll steps without fade, the pattern that was in the
    realtime zone is found [shift] pixels further. *)
Definition pattern_shifted (steps : nat) (shift : Z) (strip : list Z) : Prop :=
  forall j, 0 <= j < TRAIL_REALTIME_LEDS ->
    trailPixel (Nat.iter steps (trailScroll 1) strip) (j + shift) = trailPixel strip j.

(** A dark strip whose first Trail pixel shows the colour of band 0. *)
Definition one_lit : list Z :=
  setPixelColor (replicate 120 0) (trailLed 0) (aget TRAIL_COLORS 0).

(** The level normalised against the peak, as [detectAudioSpike] computes
    it when the peak is above 50. *)
Definition normalized (level peak : Q) : Q :=
  constrain ((level - 50) / (peak - 50)) 0 1.

(** ** Vocabulary of the further properties *)

(** The engines a mode leaves alone. *)
Definition others_kept (m : Mode) (s s' : Firmware) : Prop :=
  match m with
  | MODE_TRAIL => lava s' = lava s /\ spectrumBinPeaks s' = spectrumBinPeaks s
  | MODE_LAVA => trail s' = trail s /\ spectrumBinPeaks s' = spectrumBinPeaks s
  | MODE_SPECTRUM => trail s' = trail s /\ lava s' = lava s
  end.

(** Every bin the sketch reads lies between [lo] and [hi]. *)
Definition bins_within (lo hi : Q) (v : list Q) : Prop :=
  forall k, 1 <= k < NUM_BINS -> (lo <= aget v k <= hi)%Q.

(** The normalised level of Lava band [b], as [lavaAnalyzeAudio] leaves it. *)
Definition bandNormalized (levels peaks : list Q) (b : Z) : Q :=
  default 0%Q (lavaNormalize (aget levels b) (aget peaks b)).

(** What the band loop of [lavaAnalyzeAudio] has established after the
    bands below [j]. *)
Record scanned (lo hi : Q) (v : list Q) (peaks0 : list Q) (j : Z) (s : BandScan) : Prop := {
  scanned_levels : length (scanLevels s) = 6%nat;
  scanned_peaks : length (scanPeaks s) = 6%nat;
  scanned_mean : bins_within lo hi v ->
    forall b, 0 <= b < j -> (lo <= aget (scanLevels s) b <= hi)%Q;
  scanned_step : forall b, 0 <= b < j ->
    aget (scanPeaks s) b = lavaBandPeakStep (aget (scanLevels s) b) (aget peaks0 b);
  scanned_rest : forall b, j <= b -> aget (scanPeaks s) b = aget peaks0 b;
  scanned_max : forall b, 0 <= b < j ->
    (bandNormalized (scanLevels s) (scanPeaks s) b <= maxBandLevel s)%Q;
  scanned_dominant :
    (maxBandLevel s = 0%Q /\ scanDominant s = 0) \/
    (0 <= scanDominant s < j /\
     maxBandLevel s = bandNormalized (scanLevels s) (scanPeaks s) (scanDominant s) /\
     forall b, 0 <= b < scanDominant s ->
       (bandNormalized (scanLevels s) (scanPeaks s) b < maxBandLevel s)%Q)
}.

(** Every bin the sketch reads is between 0 and 50. *)
Definition quiet (i : Input) : Prop := bins_within 0 50 (vReal i).

(** The drift of a spawned blob: 0.3 * (0.5 + n / 100) with n in 0 .. 99,
    in either direction. *)
Definition drift_in_range (d : Q) : Prop :=
  (0.15 <= d <= 0.447)%Q \/ (-0.447 <= d <= -0.15)%Q.

(** A blob as [lavaSpawnBlob] may leave it, or any blob in good standing. *)
Record blob_fresh (b : LavaBlob) : Prop := {
  fresh_brightness : (brightness b <= 1)%Q;
  fresh_size : (size b <= 12)%Q;
  fresh_drift : drift_in_range (drift b);
  fresh_color : 0 <= colorIndex b < LAVA_NUM_BANDS
}.

(** An active blob between two passes. *)
Record blob_ok (b : LavaBlob) : Prop := {
  ok_position : (0 <= position b < itof NUM_LEDS)%Q;
  ok_brightness : (0.02 <= brightness b <= 0.92)%Q;
  ok_size : (1 <= size b <= 11.64)%Q;
  ok_drift : drift_in_range (drift b);
  ok_color : 0 <= colorIndex b < LAVA_NUM_BANDS
}.

(** The Lava state between two passes. *)
Record lava_ok (l : Lava) : Prop := {
  ok_pool_length : length (lavaBlobs l) = 8%nat;
  ok_dominant : 0 <= lavaDominantBand l < LAVA_NUM_BANDS;
  ok_pool : forall i, 0 <= i < LAVA_MAX_BLOBS ->
    active (aget (lavaBlobs l) i) = true -> blob_ok (aget (lavaBlobs l) i)
}.

(** A Lava state with an empty pool, just after a jump of the loudness. *)
Definition loud_lava : Lava :=
  {| lavaBlobs := replicate 8 inhabitant;
     lavaBandLevels := replicate 6 0%Q;
     lavaBandPeaks := replicate 6 100%Q;
     lavaDominantBand := 2;
     lavaAudioLevel := 1000; lavaAudioPeak := 1000;
     lavaLastAudioLevel := 0 |}.

(** The pixels [lavaRender] visits for a blob. *)
Definition blob_span (b : LavaBlob) (p : Z) : Prop :=
  Z.max 0 (ftoi (position b - size b)) <= p
  <= Z.min (NUM_LEDS - 1) (ftoi (position b + size b)).

(** A pixel as Spectrum may leave it: dark, or on the grid and green. *)
Definition spectrum_pixel (strip : list Z) (p : Z) : Prop :=
  getPixelColor strip p = 0 \/
  (p mod SPECTRUM_RESOLUTION = 0 /\
   channel (getPixelColor strip p) 16 = 0 /\
   20 <= channel (getPixelColor strip p) 8 <= 255 /\
   channel (getPixelColor strip p) 0 = 0).

(** Two spectra that agree on the bins 1 .. NUM_BINS - 1. *)
Definition same_bins (v v' : list Q) : Prop :=
  forall k, 1 <= k < NUM_BINS -> aget v k = aget v' k.

(** The pass [flat v t] with another value in the DC bin. *)
Definition flat_with_dc (dc v : Q) (t : Z) : Input :=
  {| vReal := dc :: replicate 63 v;
     now_check := t; now_switch := t; now_trail := t;
     draws := some_draws |}.

(** Every tracked level and peak is at most [M]. *)
Record levels_below (M : Q) (s : Firmware) : Prop := {
  below_trail_bands : length (trailBands (trail s)) = 8%nat;
  below_lava_bands : length (lavaBandLevels (lava s)) = 6%nat;
  below_trail : forall b, 0 <= b < TRAIL_NUM_BANDS ->
    (aget (trailBandPeaks (trail s)) b <= M)%Q;
  below_lava : forall b, 0 <= b < LAVA_NUM_BANDS ->
    (aget (lavaBandPeaks (lava s)) b <= M)%Q;
  below_lava_level : (lavaAudioLevel (lava s) <= M)%Q;
  below_lava_peak : (lavaAudioPeak (lava s) <= M)%Q;
  below_global_level : (globalAudioLevel (global s) <= M)%Q;
  below_global_peak : (globalAudioPeak (global s) <= M)%Q;
  below_spectrum : forall b, 0 <= b < NUM_BINS ->
    (aget (spectrumBinPeaks s) b <= M)%Q
}.

(** What the mode controller reads and writes. *)
Definition control (s : Firmware) : Mode * Z * Z * Global :=
  (currentMode s, lastSwitch s, lastSpikeSwitch s, global s).

(** State [s] with another frame buffer. *)
Definition with_strip (st : list Z) (s : Firmware) : Firmware :=
  {| currentMode := currentMode s; lastSwitch := lastSwitch s;
     lastSpikeSwitch := lastSpikeSwitch s; global := global s;
     trail := trail s; lava := lava s;
     spectrumBinPeaks := spectrumBinPeaks s; strip := st |}.

(** The shared tracker after the spectra [vs]. *)
Fixpoint track (g : Global) (vs : list (list Q)) : option Global :=
  match vs with
  | [] => Some g
  | v :: vs => g' ← updateGlobalAudioLevel v g; track g' vs
  end.

(** * Single precision

    On the boards the sketch is written for (Arduino Nano and Uno, AVR)
    [float] and [double] are both IEEE 754 binary32, so every arithmetic
    operation and every decimal literal of the sketch is rounded to 24
    significant bits.  Module [F32] is the sketch in that arithmetic:
    a float is the rational it denotes, each operation is the exact one
    followed by [round] (to nearest, ties to even, subnormal values
    included), and comparisons are exact.  Overflow to infinity and NaN are
    not modelled.

    [F32] follows the mode controller, the loudness trackers, the band
    levels and every adaptive peak, together with each normalised level
    and intensity the engines compute from them: every normalisation of
    the sketch.  Colours, the frame buffer and the blobs of Lava, which
    none of these read, are left to the exact-arithmetic embedding
    above. *)

Module F32.

(** ** Rounding *)

(** The integer nearest to [q], ties to the even one. *)
Definition rne (q : Q) : Z :=
  let f := Qfloor q in
  match (q - inject_Z f ?= 1 # 2)%Q with
  | Lt => f
  | Eq => if Z.even f then f else f + 1
  | Gt => f + 1
  end.

(** Magnitudes are counted in units of 2^-149, the least positive binary32
    value.  Around a magnitude of [y] units the binary32 values are
    [spacing y] units apart: 24 significant bits, and one unit among the
    subnormal values. *)
Definition UNITS : Z := 2 ^ 149.

Definition spacing (y : Q) : Z := 2 ^ Z.max (Z.log2 (Qfloor y) - 23) 0.

Definition nearest (y : Q) : Z := rne (y / inject_Z (spacing y)) * spacing y.

(** The binary32 value nearest to [x >= 0], and to any [x]. *)
Definition magnitude (x : Q) : Q :=
  (inject_Z (nearest (x * inject_Z UNITS)) / inject_Z UNITS)%Q.

Definition round (x : Q) : Q :=
  if Qle_bool 0 x then Qred (magnitude x) else Qred (- magnitude (- x)).

(** [x + y], [x - y], [x * y] and [x / y] on floats; a decimal literal. *)
Definition fadd (x y : Q) : Q := round (x + y).
Definition fsub (x y : Q) : Q := round (x - y).
Definition fmul (x y : Q) : Q := round (x * y).
Definition fdiv (x y : Q) : option Q :=
  if Qeq_bool y 0 then None else Some (round (x / y)).
Definition lit (q : Q) : Q := round q.

(** ** Shared audio tracker *)

Definition SPIKE_THRESHOLD : Q := lit 0.5.

Definition meanSpectrum (vReal : list Q) : option Q :=
  let audio := loop_range 1 NUM_BINS (fun i a => fadd a (aget vReal i)) 0%Q in
  fdiv audio (itof (NUM_BINS - 1)).

Definition updateGlobalAudioLevel (vReal : list Q) (g : Global) : option Global :=
  audio ← meanSpectrum vReal;
  let last := globalAudioLevel g in
  let level :=
    if fgtb audio (globalAudioLevel g) then audio
    else fadd (fmul (globalAudioLevel g) (lit 0.7)) (fmul audio (lit 0.3)) in
  let peak :=
    if fgtb level (globalAudioPeak g) then level
    else fadd (fmul (globalAudioPeak g) (lit 0.99)) (fmul 50 (lit 0.01)) in
  Some {| globalAudioLevel := level;
          globalAudioPeak := peak;
          globalLastAudioLevel := last |}.

Definition detectAudioSpike (g : Global) : option bool :=
  if fgeb 50 (globalAudioPeak g) then Some false
  else
    q1 ← fdiv (fsub (globalAudioLevel g) 50) (fsub (globalAudioPeak g) 50);
    let cur := constrain q1 0 1 in
    q2 ← fdiv (fsub (globalLastAudioLevel g) 50) (fsub (globalAudioPeak g) 50);
    let last := constrain q2 0 1 in
    Some (fgtb cur SPIKE_THRESHOLD && fgtb cur (fadd last (lit 0.25))).

(** ** Trail *)

Definition TRAIL_THRESHOLD : Q := lit 0.70.

Record Trail := {
  trailBands : list Q;
  trailBandPeaks : list Q
}.

Definition trailSetup (t : Trail) : Trail :=
  {| trailBands := trailBands t;
     trailBandPeaks := trailSetupPeaks (trailBandPeaks t) |}.

Definition trailAnalyzeBand (vReal : list Q) (b : Z) (bands : list Q) : option (list Q) :=
  let bands := aset bands b 0%Q in
  let endBin :=
    if b <? TRAIL_NUM_BANDS - 1 then aget TRAIL_BAND_START (b + 1) else TRAIL_BAND_END in
  let '(bands, count) :=
    loop_range (aget TRAIL_BAND_START b) endBin
      (fun i '(bands, count) => (aset bands b (fadd (aget bands b) (aget vReal i)), count + 1))
      (bands, 0) in
  if 0 <? count then
    q ← fdiv (aget bands b) (itof count); Some (aset bands b q)
  else Some bands.

Definition trailAnalyze (vReal : list Q) (bands : list Q) : option (list Q) :=
  for_range 0 TRAIL_NUM_BANDS (trailAnalyzeBand vReal) bands.

Definition trailIntensity (band noise peak : Q) : option Q :=
  q ← fdiv (fsub band noise) (fadd (fsub peak noise) 1);
  Some (constrain q (lit 0.2) (lit 1.0)).

Definition trailActive (band noise peak : Q) : bool :=
  fgtb band noise && fgtb band (fmul peak TRAIL_THRESHOLD).

(** "Update real-time LEDs", one band: the intensity its pixel is lit
    with, 0 for a pixel switched off. *)
Definition trailRealtimeLed (bands peaks : list Q) (b : Z) (leds : list Q) : option (list Q) :=
  if trailActive (aget bands b) (aget TRAIL_BAND_NOISE b) (aget peaks b) then
    intensity ← trailIntensity (aget bands b) (aget TRAIL_BAND_NOISE b) (aget peaks b);
    Some (aset leds b intensity)
  else Some (aset leds b 0%Q).

Definition trailRealtime (bands peaks : list Q) : option (list Q) :=
  for_range 0 (Z.min TRAIL_REALTIME_LEDS TRAIL_NUM_BANDS) (trailRealtimeLed bands peaks)
    (replicate 8 0%Q).

(** "Update peaks", one band: the two literals, the two products and the
    sum are each rounded. *)
Definition trailPeakStep (band noise peak : Q) : Q :=
  if fgtb band peak then band
  else fadd (fmul peak (lit 0.993)) (fmul noise (lit 0.007)).

Definition trailUpdatePeaks (bands peaks : list Q) : list Q :=
  loop_range 0 TRAIL_NUM_BANDS
    (fun b p => aset p b (trailPeakStep (aget bands b) (aget TRAIL_BAND_NOISE b) (aget p b)))
    peaks.

(** [trailUpdate()] without the scroll: the intensities of the realtime
    pixels and the new state. *)
Definition trailUpdate (vReal : list Q) (t : Trail) : option (list Q * Trail) :=
  bands ← trailAnalyze vReal (trailBands t);
  leds ← trailRealtime bands (trailBandPeaks t);
  Some (leds, {| trailBands := bands;
                 trailBandPeaks := trailUpdatePeaks bands (trailBandPeaks t) |}).

(** ** Lava *)

Definition LAVA_TRIGGER_THRESHOLD : Q := lit 0.3.

Record Lava := {
  lavaBandLevels : list Q;
  lavaBandPeaks : list Q;
  lavaDominantBand : Z;
  lavaAudioLevel : Q;
  lavaAudioPeak : Q;
  lavaLastAudioLevel : Q
}.

Definition lavaSetup (l : Lava) : Lava :=
  {| lavaBandLevels := lavaBandLevels l;
     lavaBandPeaks :=
       loop_range 0 LAVA_NUM_BANDS (fun i p => aset p i 100%Q) (lavaBandPeaks l);
     lavaDominantBand := lavaDominantBand l;
     lavaAudioLevel := 0;
     lavaAudioPeak := 100;
     lavaLastAudioLevel := lavaLastAudioLevel l |}.

Definition lavaBandPeakStep (level peak : Q) : Q :=
  if fgtb level peak then level
  else fadd (fmul peak (lit 0.995)) (fmul 50 (lit 0.005)).

Definition lavaNormalize (level peak : Q) : option Q :=
  if fgtb peak 50 then
    q ← fdiv (fsub level 50) (fsub peak 50); Some (constrain q 0 1)
  else Some 0%Q.

Definition lavaAnalyzeBand (vReal : list Q) (b : Z) (s : BandScan) : option BandScan :=
  let levels := aset (scanLevels s) b 0%Q in
  let levels :=
    loop_range (aget bandBins b) (aget bandBins (b + 1))
      (fun i lv => aset lv b (fadd (aget lv b) (aget vReal i))) levels in
  q ← fdiv (aget levels b) (itof (aget bandBins (b + 1) - aget bandBins b));
  let levels := aset levels b q in
  let peaks :=
    aset (scanPeaks s) b (lavaBandPeakStep (aget levels b) (aget (scanPeaks s) b)) in
  normalizedLevel ← lavaNormalize (aget levels b) (aget peaks b);
  if fgtb normalizedLevel (maxBandLevel s) then
    Some {| scanLevels := levels; scanPeaks := peaks;
            maxBandLevel := normalizedLevel; scanDominant := b |}
  else
    Some {| scanLevels := levels; scanPeaks := peaks;
            maxBandLevel := maxBandLevel s; scanDominant := scanDominant s |}.

Definition lavaAnalyzeAudio (vReal : list Q) (l : Lava) : option Lava :=
  s ← for_range 0 LAVA_NUM_BANDS (lavaAnalyzeBand vReal)
        {| scanLevels := lavaBandLevels l; scanPeaks := lavaBandPeaks l;
           maxBandLevel := 0; scanDominant := 0 |};
  audio ← meanSpectrum vReal;
  let last := lavaAudioLevel l in
  let level :=
    if fgtb audio (lavaAudioLevel l) then audio
    else fadd (fmul (lavaAudioLevel l) (lit 0.7)) (fmul audio (lit 0.3)) in
  let peak :=
    if fgtb level (lavaAudioPeak l) then level
    else fadd (fmul (lavaAudioPeak l) (lit 0.99)) (fmul 50 (lit 0.01)) in
  Some {| lavaBandLevels := scanLevels s;
          lavaBandPeaks := scanPeaks s;
          lavaDominantBand := scanDominant s;
          lavaAudioLevel := level;
          lavaAudioPeak := peak;
          lavaLastAudioLevel := last |}.

(** [lavaCheckTrigger()] up to the call of [lavaSpawnBlob]: the intensity
    it would spawn with, if it spawns. *)
Definition lavaCheckTrigger (l : Lava) : option (option Q) :=
  normalizedAudio ← lavaNormalize (lavaAudioLevel l) (lavaAudioPeak l);
  normalizedLast ← lavaNormalize (lavaLastAudioLevel l) (lavaAudioPeak l);
  if fgtb normalizedAudio LAVA_TRIGGER_THRESHOLD
     && fgtb normalizedAudio (fadd normalizedLast (lit 0.1))
  then Some (Some normalizedAudio)
  else Some None.

Definition lavaUpdate (vReal : list Q) (l : Lava) : option (option Q * Lava) :=
  l ← lavaAnalyzeAudio vReal l;
  spawn ← lavaCheckTrigger l;
  Some (spawn, l).

(** ** Spectrum *)

Definition spectrumGetNoiseFloor (freqRatio : Q) : Q :=
  if fltb freqRatio (lit 0.33) then SPECTRUM_NOISE_LOW
  else if fltb freqRatio (lit 0.66) then SPECTRUM_NOISE_MID
  else SPECTRUM_NOISE_HIGH.

Definition spectrumSetup (peaks : list Q) : option (list Q) :=
  for_range 0 NUM_BINS
    (fun i p =>
       freqRatio ← fdiv (itof i) (itof (NUM_BINS - 1));
       Some (aset p i (fmul (spectrumGetNoiseFloor freqRatio) 2)))
    peaks.

Definition spectrumPeakStep (v noiseFloor peak : Q) : Q :=
  if fgtb v peak then v
  else fadd (fmul peak (lit 0.995)) (fmul noiseFloor (lit 0.005)).

Definition spectrumUpdatePeaks (vReal : list Q) (peaks : list Q) : option (list Q) :=
  for_range 1 NUM_BINS
    (fun b p =>
       freqRatio ← fdiv (itof b) (itof (NUM_BINS - 1));
       let noiseFloor := spectrumGetNoiseFloor freqRatio in
       Some (aset p b (spectrumPeakStep (aget vReal b) noiseFloor (aget p b))))
    peaks.

Definition spectrumIntensity (value peak noiseFloor : Q) : option Q :=
  if fgtb value noiseFloor && fgtb peak noiseFloor then
    q ← fdiv (fsub value noiseFloor) (fsub peak noiseFloor);
    let intensity := fmul q SPECTRUM_SENSITIVITY in
    Some (constrain intensity 0 1)
  else Some 0%Q.

(** The render loop, one output pixel: the intensity it is lit with, 0 for
    a pixel left dark. *)
Definition spectrumRenderLed (vReal peaks : list Q) (i : Z) (leds : list Q)
  : option (list Q) :=
  ledRatio ← fdiv (itof i) (itof (SPECTRUM_ACTIVE_LEDS - 1));
  let binFloat := fadd 1 (fmul (itof (NUM_BINS - 2)) ledRatio) in
  let binLow := ftoi binFloat in
  let binHigh := Z.min (binLow + 1) (NUM_BINS - 1) in
  let frac := fsub binFloat (itof binLow) in
  let value :=
    fadd (fmul (aget vReal binLow) (fsub 1 frac)) (fmul (aget vReal binHigh) frac) in
  let peak :=
    fadd (fmul (aget peaks binLow) (fsub 1 frac)) (fmul (aget peaks binHigh) frac) in
  let noiseFloor := spectrumGetNoiseFloor ledRatio in
  intensity ← spectrumIntensity value peak noiseFloor;
  if fgeb intensity (lit 0.08) then Some (aset leds i intensity)
  else Some leds.

Definition spectrumUpdate (vReal peaks : list Q) : option (list Q * list Q) :=
  peaks ← spectrumUpdatePeaks vReal peaks;
  leds ← for_range 0 SPECTRUM_ACTIVE_LEDS (spectrumRenderLed vReal peaks)
           (replicate 30 0%Q);
  Some (leds, peaks).

(** ** Mode switching, setup and loop *)

Record Firmware := {
  currentMode : Mode;
  lastSwitch : Z;
  lastSpikeSwitch : Z;
  global : Global;
  trail : Trail;
  lava : Lava;
  spectrumBinPeaks : list Q
}.

Definition nextMode (now : Z) (s : Firmware) : option Firmware :=
  let mode := Mode_of_Z ((Mode_to_Z (currentMode s) + 1) mod NUM_MODES) in
  match mode with
  | MODE_TRAIL =>
      Some {| currentMode := mode; lastSwitch := now;
              lastSpikeSwitch := lastSpikeSwitch s; global := global s;
              trail := trailSetup (trail s); lava := lava s;
              spectrumBinPeaks := spectrumBinPeaks s |}
  | MODE_LAVA =>
      Some {| currentMode := mode; lastSwitch := now;
              lastSpikeSwitch := lastSpikeSwitch s; global := global s;
              trail := trail s; lava := lavaSetup (lava s);
              spectrumBinPeaks := spectrumBinPeaks s |}
  | MODE_SPECTRUM =>
      peaks ← spectrumSetup (spectrumBinPeaks s);
      Some {| currentMode := mode; lastSwitch := now;
              lastSpikeSwitch := lastSpikeSwitch s; global := global s;
              trail := trail s; lava := lava s;
              spectrumBinPeaks := peaks |}
  end.

Definition set_lastSpikeSwitch (t : Z) (s : Firmware) : Firmware :=
  {| currentMode := currentMode s; lastSwitch := lastSwitch s;
     lastSpikeSwitch := t; global := global s;
     trail := trail s; lava := lava s;
     spectrumBinPeaks := spectrumBinPeaks s |}.

Definition checkModeSwitch (now now' : Z) (s : Firmware) : option Firmware :=
  if SWITCH_PERIODIC && (u32 (now - lastSwitch s) >=? SWITCH_INTERVAL_MS) then
    nextMode now' s
  else if SWITCH_ON_SPIKE && (u32 (now - lastSpikeSwitch s) >=? MIN_MODE_TIME_MS) then
    spike ← detectAudioSpike (global s);
    if spike : bool then nextMode now' (set_lastSpikeSwitch now s)
    else Some s
  else Some s.

Definition boot : Firmware :=
  {| currentMode := MODE_TRAIL; lastSwitch := 0; lastSpikeSwitch := 0;
     global := {| globalAudioLevel := 0; globalAudioPeak := 100;
                  globalLastAudioLevel := 0 |};
     trail := {| trailBands := replicate 8 0%Q;
                 trailBandPeaks := replicate 8 0%Q |};
     lava := {| lavaBandLevels := replicate 6 0%Q;
                lavaBandPeaks := replicate 6 0%Q;
                lavaDominantBand := 0;
                lavaAudioLevel := 0; lavaAudioPeak := 100;
                lavaLastAudioLevel := 0 |};
     spectrumBinPeaks := replicate 32 0%Q |}.

Definition setup (t1 t2 : Z) (s : Firmware) : option Firmware :=
  peaks ← spectrumSetup (spectrumBinPeaks s);
  Some {| currentMode := currentMode s; lastSwitch := t1; lastSpikeSwitch := t2;
          global := global s; trail := trailSetup (trail s);
          lava := lavaSetup (lava s); spectrumBinPeaks := peaks |}.

Definition set_global (g : Global) (s : Firmware) : Firmware :=
  {| currentMode := currentMode s; lastSwitch := lastSwitch s;
     lastSpikeSwitch := lastSpikeSwitch s; global := g;
     trail := trail s; lava := lava s;
     spectrumBinPeaks := spectrumBinPeaks s |}.

Definition runEngine (i : Input) (s : Firmware) : option Firmware :=
  match currentMode s with
  | MODE_TRAIL =>
      '(_, t) ← trailUpdate (vReal i) (trail s);
      Some {| currentMode := currentMode s; lastSwitch := lastSwitch s;
              lastSpikeSwitch := lastSpikeSwitch s; global := global s;
              trail := t; lava := lava s;
              spectrumBinPeaks := spectrumBinPeaks s |}
  | MODE_LAVA =>
      '(_, l) ← lavaUpdate (vReal i) (lava s);
      Some {| currentMode := currentMode s; lastSwitch := lastSwitch s;
              lastSpikeSwitch := lastSpikeSwitch s; global := global s;
              trail := trail s; lava := l;
              spectrumBinPeaks := spectrumBinPeaks s |}
  | MODE_SPECTRUM =>
      '(_, peaks) ← spectrumUpdate (vReal i) (spectrumBinPeaks s);
      Some {| currentMode := currentMode s; lastSwitch := lastSwitch s;
              lastSpikeSwitch := lastSpikeSwitch s; global := global s;
              trail := trail s; lava := lava s;
              spectrumBinPeaks := peaks |}
  end.

Definition loop (i : Input) (s : Firmware) : option Firmware :=
  g ← updateGlobalAudioLevel (vReal i) (global s);
  s ← checkModeSwitch (now_check i) (now_switch i) (set_global g s);
  runEngine i s.

Fixpoint run (ins : list Input) (s : Firmware) : option Firmware :=
  match ins with
  | [] => Some s
  | i :: ins => s' ← loop i s; run ins s'
  end.

Inductive reachable : Firmware -> Prop :=
| reach_setup t1 t2 s :
    setup t1 t2 boot = Some s -> reachable s
| reach_loop i s s' :
    reachable s -> loop i s = Some s' -> reachable s'.

(** ** Vocabulary of the properties in single precision *)

(** [x] is a binary32 value. *)
Definition representable (x : Q) : Prop := (round x == x)%Q.

(** The state [setup()] leaves when both clock readings are [t]. *)
Definition after_setup (t : Z) : Firmware := default boot (setup t t boot).

(** The values at which the decay of the Trail peaks comes to rest:
    199.99937 for band 0 and 79.99986 for the other bands. *)
Definition TRAIL_PEAK_REST : list Q :=
  [13107159 # 65536; 5242871 # 65536; 5242871 # 65536; 5242871 # 65536;
   5242871 # 65536; 5242871 # 65536; 5242871 # 65536; 5242871 # 65536].

(** The noise floor [spectrumSetup] and [spectrumUpdate] use for bin [b]. *)
Definition binNoiseFloor (b : Z) : Q :=
  spectrumGetNoiseFloor (round (itof b / itof (NUM_BINS - 1))).

(** Every adaptive peak is at least its floor, a Trail peak at least the
    value its decay comes to rest at. *)
Record peaks_near_floors (s : Firmware) : Prop := {
  trail_peaks_rest : forall b, 0 <= b < TRAIL_NUM_BANDS ->
    (aget TRAIL_PEAK_REST b <= aget (trailBandPeaks (trail s)) b)%Q;
  lava_peaks_floor : forall b, 0 <= b < LAVA_NUM_BANDS ->
    (50 <= aget (lavaBandPeaks (lava s)) b)%Q;
  lava_audio_floor : (50 <= lavaAudioPeak (lava s))%Q;
  global_audio_floor : (50 <= globalAudioPeak (global s))%Q;
  spectrum_peaks_floor : forall b, 1 <= b < NUM_BINS ->
    (binNoiseFloor b <= aget (spectrumBinPeaks s) b)%Q
}.

(** The arrays have the lengths the sketch declares. *)
Record shaped (s : Firmware) : Prop := {
  len_trailBands : length (trailBands (trail s)) = 8%nat;
  len_trailBandPeaks : length (trailBandPeaks (trail s)) = 8%nat;
  len_lavaBandLevels : length (lavaBandLevels (lava s)) = 6%nat;
  len_lavaBandPeaks : length (lavaBandPeaks (lava s)) = 6%nat;
  len_spectrumBinPeaks : length (spectrumBinPeaks s) = 32%nat
}.

(** What holds between two passes of [loop()]. *)
Record invariant (s : Firmware) : Prop := {
  inv_shaped : shaped s;
  inv_peaks : peaks_near_floors s
}.

(** The level normalised against the peak, as [detectAudioSpike] computes
    it when the peak is above 50. *)
Definition normalized (level peak : Q) : Q :=
  constrain (round (fsub level 50 / fsub peak 50)) 0 1.




(** The tracker after the spectra [vs]. *)
Fixpoint track (g : Global) (vs : list (list Q)) : option Global :=
  match vs with
  | [] => Some g
  | v :: vs => g' ← updateGlobalAudioLevel v g; track g' vs
  end.

End F32.

(** ** The Standard Library's specification of IEEE 754 arithmetic

    [SpecFloat] specifies the operations of any binary format; binary32 has
    24 bits of precision and [emax = 128].  It is used to cross-check
    [F32.round] on the computations that decide the properties below. *)

(** The rational a finite [spec_float] denotes. *)
Definition SF2Q (x : spec_float) : Q :=
  match x with
  | S754_finite s m e =>
      let q := if 0 <=? e then inject_Z (Z.pos m * 2 ^ e)
               else (inject_Z (Z.pos m) / inject_Z (2 ^ (- e)))%Q in
      Qred (if s then - q else q)
  | _ => 0%Q
  end.

(** An integer and a decimal literal [n / d] as binary32 values. *)
Definition b32 (z : Z) : spec_float := binary_normalize 24 128 z 0 false.
Definition b32lit (n d : Z) : spec_float := SFdiv 24 128 (b32 n) (b32 d).

(** The decay of a Trail peak, [peak * 0.993 + noise * 0.007], on
    [spec_float]. *)
Definition trailDecaySF (noise peak : spec_float) : spec_float :=
  SFadd 24 128 (SFmul 24 128 peak (b32lit 993 1000))
               (SFmul 24 128 noise (b32lit 7 1000)).

(** * Basic facts *)

(** ** Comparisons, division and [constrain] *)

Lemma fltb_spec (x y : Q) : BoolSpec (x < y)%Q (y <= x)%Q (fltb x y).
Proof.
  unfold fltb. destruct (Qle_bool y x) eqn:E; constructor.
  - now apply Qle_bool_iff.
  - apply Qnot_le_lt. intros Hle. apply Qle_bool_iff in Hle. congruence.
Qed.

Lemma fgtb_spec (x y : Q) : BoolSpec (y < x)%Q (x <= y)%Q (fgtb x y).
Proof. unfold fgtb. apply fltb_spec. Qed.

Lemma fgeb_spec (x y : Q) : BoolSpec (y <= x)%Q (x < y)%Q (fgeb x y).
Proof.
  unfold fgeb. destruct (Qle_bool y x) eqn:E; constructor.
  - now apply Qle_bool_iff.
  - apply Qnot_le_lt. intros Hle. apply Qle_bool_iff in Hle. congruence.
Qed.

(** Case analysis on every float comparison of the goal. *)
Ltac fcases :=
  repeat match goal with
    | |- context [fltb ?a ?b] => destruct (fltb_spec a b)
    | |- context [fgtb ?a ?b] => destruct (fgtb_spec a b)
    | |- context [fgeb ?a ?b] => destruct (fgeb_spec a b)
    end.

Lemma fdiv_Some (x y : Q) : ~ (y == 0)%Q -> fdiv x y = Some (x / y)%Q.
Proof.
  intros Hy. unfold fdiv. destruct (Qeq_bool y 0) eqn:E; [|done].
  apply Qeq_bool_iff in E. contradiction.
Qed.

Lemma constrain_bounds (x lo hi : Q) :
  (lo <= hi)%Q -> (lo <= constrain x lo hi <= hi)%Q.
Proof. intros Hlh. unfold constrain. fcases; lra. Qed.

(** ** Arrays *)

Section ArrayFacts.
Context {A : Type} `{Inhabited A}.
Implicit Types (l : list A) (i j : Z) (v : A).

Lemma length_aset l i v : length (aset l i v) = length l.
Proof. apply length_insert. Qed.

Lemma aget_aset_eq l i v :
  0 <= i < Z.of_nat (length l) -> aget (aset l i v) i = v.
Proof.
  intros Hi. unfold aget, aset.
  apply list_lookup_total_insert_eq. lia.
Qed.

Lemma aget_aset_ne l i j v :
  0 <= i -> 0 <= j -> i <> j -> aget (aset l i v) j = aget l j.
Proof.
  intros Hi Hj Hij. unfold aget, aset.
  apply list_lookup_total_insert_ne. lia.
Qed.

Lemma aget_replicate (n : nat) v i :
  0 <= i < Z.of_nat n -> aget (replicate n v) i = v.
Proof.
  intros Hi. unfold aget. apply lookup_total_replicate_2. lia.
Qed.
End ArrayFacts.

(** ** Loop rules *)

Section LoopFacts.
Context {S : Type}.

Lemma for_up_inv (P : Z -> S -> Prop) n i body s :
  P i s ->
  (forall j t, i <= j < i + Z.of_nat n -> P j t ->
     exists t', body j t = Some t' /\ P (j + 1) t') ->
  exists t', for_up n i body s = Some t' /\ P (i + Z.of_nat n) t'.
Proof.
  revert i s. induction n as [|n IH]; intros i s H0 Hstep.
  - exists s. split; [done|]. now replace (i + Z.of_nat 0) with i by lia.
  - destruct (Hstep i s) as (t & Ht & HP); [lia|done|].
    destruct (IH (i + 1) t) as (t' & Ht' & HP'); [done| |].
    + intros j u Hj Hu. apply Hstep; [lia|done].
    + exists t'. split.
      * cbn. rewrite Ht. exact Ht'.
      * now replace (i + Z.of_nat (Datatypes.S n)) with (i + 1 + Z.of_nat n) by lia.
Qed.

Lemma for_range_inv (P : Z -> S -> Prop) lo hi body s :
  lo <= hi ->
  P lo s ->
  (forall j t, lo <= j < hi -> P j t ->
     exists t', body j t = Some t' /\ P (j + 1) t') ->
  exists t', for_range lo hi body s = Some t' /\ P hi t'.
Proof.
  intros Hle H0 Hstep. unfold for_range.
  destruct (for_up_inv P (Z.to_nat (hi - lo)) lo body s) as (t & Ht & HP); [done| |].
  - intros j u Hj. apply Hstep. lia.
  - exists t. split; [done|]. now replace hi with (lo + Z.of_nat (Z.to_nat (hi - lo))) at 1 by lia.
Qed.

Lemma for_range_empty lo hi body (s : S) :
  hi <= lo -> for_range lo hi body s = Some s.
Proof. intros Hle. unfold for_range. now replace (Z.to_nat (hi - lo)) with O by lia. Qed.

Lemma loop_up_inv (P : Z -> S -> Prop) n i body s :
  P i s ->
  (forall j t, i <= j < i + Z.of_nat n -> P j t -> P (j + 1) (body j t)) ->
  P (i + Z.of_nat n) (loop_up n i body s).
Proof.
  revert i s. induction n as [|n IH]; intros i s H0 Hstep.
  - cbn. now replace (i + Z.of_nat 0) with i by lia.
  - cbn [loop_up].
    replace (i + Z.of_nat (Datatypes.S n)) with (i + 1 + Z.of_nat n) by lia.
    apply IH.
    + apply Hstep; [lia|done].
    + intros j u Hj Hu. apply Hstep; [lia|done].
Qed.

Lemma loop_range_inv (P : Z -> S -> Prop) lo hi body s :
  lo <= hi ->
  P lo s ->
  (forall j t, lo <= j < hi -> P j t -> P (j + 1) (body j t)) ->
  P hi (loop_range lo hi body s).
Proof.
  intros Hle H0 Hstep. unfold loop_range.
  replace hi with (lo + Z.of_nat (Z.to_nat (hi - lo))) at 1 by lia.
  apply loop_up_inv; [done|]. intros j u Hj. apply Hstep. lia.
Qed.

Lemma loop_down_inv (P : Z -> S -> Prop) n i body s :
  P i s ->
  (forall j t, i - Z.of_nat n < j <= i -> P j t -> P (j - 1) (body j t)) ->
  P (i - Z.of_nat n) (loop_down n i body s).
Proof.
  revert i s. induction n as [|n IH]; intros i s H0 Hstep.
  - cbn. now replace (i - Z.of_nat 0) with i by lia.
  - cbn [loop_down].
    replace (i - Z.of_nat (Datatypes.S n)) with (i - 1 - Z.of_nat n) by lia.
    apply IH.
    + apply Hstep; [lia|done].
    + intros j u Hj Hu. apply Hstep; [lia|done].
Qed.
End LoopFacts.

(** A loop that rewrites slot [i] of an array from its old content. *)
Section MapLoop.
Context {A : Type} `{Inhabited A}.

Lemma map_loop (f : Z -> A -> A) (n : Z) (l : list A) :
  0 <= n <= Z.of_nat (length l) ->
  let l' := loop_range 0 n (fun i p => aset p i (f i (aget p i))) l in
  length l' = length l /\
  forall i, 0 <= i ->
    aget l' i = if i <? n then f i (aget l i) else aget l i.
Proof.
  intros Hn.
  apply (loop_range_inv
    (fun k p => length p = length l /\
       forall i, 0 <= i -> aget p i = if i <? k then f i (aget l i) else aget l i)).
  - lia.
  - split; [done|]. intros i Hi. destruct (Z.ltb_spec i 0); [lia|done].
  - intros j p Hj [Hlen Hp]. split.
    + now rewrite length_aset.
    + intros i Hi. destruct (Z.eq_dec i j) as [->|Hne].
      * rewrite aget_aset_eq by lia. rewrite Hp by lia.
        destruct (Z.ltb_spec j j); [lia|].
        destruct (Z.ltb_spec j (j + 1)); [done|lia].
      * rewrite aget_aset_ne by lia. rewrite Hp by lia.
        destruct (Z.ltb_spec i j), (Z.ltb_spec i (j + 1)); try lia; done.
Qed.
End MapLoop.

(** ** Constants *)

Ltac consts :=
  cbv [NUM_LEDS SAMPLES NUM_BINS TRAIL_NUM_BANDS TRAIL_REALTIME_LEDS TRAIL_BAND_END
       TRAIL_SCROLL_MS LAVA_MAX_BLOBS LAVA_NUM_BANDS LAVA_COLOR_MODE
       SPECTRUM_RESOLUTION SPECTRUM_ACTIVE_LEDS NUM_MODES
       SWITCH_INTERVAL_MS MIN_MODE_TIME_MS] in *;
  change (64 / 2) with 32 in *; change (120 / 4) with 30 in *.

Lemma itof_nonzero (z : Z) : z <> 0 -> ~ (itof z == 0)%Q.
Proof. intros Hz. unfold itof, inject_Z, Qeq. simpl. lia. Qed.

Lemma itof_le (a b : Z) : a <= b -> (itof a <= itof b)%Q.
Proof. intros Hab. unfold itof. now rewrite <- Zle_Qle. Qed.

Lemma itof_lt (a b : Z) : a < b -> (itof a < itof b)%Q.
Proof. intros Hab. unfold itof. now rewrite <- Zlt_Qlt. Qed.

Lemma aget_aset_cases {A : Type} `{Inhabited A} (l : list A) (i j : Z) (v : A) :
  0 <= i -> 0 <= j ->
  (i = j /\ aget (aset l i v) j = v) \/ aget (aset l i v) j = aget l j.
Proof.
  intros Hi Hj. destruct (Z.eq_dec i j) as [->|Hne].
  - destruct (Z.lt_ge_cases j (Z.of_nat (length l))).
    + left. split; [done|]. apply aget_aset_eq. lia.
    + right. unfold aset. rewrite list_insert_ge; [done|lia].
  - right. now apply aget_aset_ne.
Qed.

Lemma meanSpectrum_total (v : list Q) : exists a, meanSpectrum v = Some a.
Proof.
  unfold meanSpectrum. eexists. apply fdiv_Some. apply itof_nonzero. consts. lia.
Qed.

(** ** The strip *)

Lemma length_strip_clear (strip : list Z) : length (strip_clear strip) = length strip.
Proof. unfold strip_clear. apply length_replicate. Qed.

Lemma length_setPixelColor (strip : list Z) (n c : Z) :
  length (setPixelColor strip n c) = length strip.
Proof. unfold setPixelColor. destruct (_ && _); [apply length_aset|done]. Qed.

(** ** The shared tracker *)

Lemma updateGlobalAudioLevel_total (v : list Q) (g : Global) :
  exists g', updateGlobalAudioLevel v g = Some g'.
Proof.
  unfold updateGlobalAudioLevel. destruct (meanSpectrum_total v) as [a ->].
  cbn. eauto.
Qed.

Lemma updateGlobalAudioLevel_floor (v : list Q) (g g' : Global) :
  updateGlobalAudioLevel v g = Some g' ->
  (50 <= globalAudioPeak g)%Q -> (50 <= globalAudioPeak g')%Q.
Proof.
  unfold updateGlobalAudioLevel. destruct (meanSpectrum_total v) as [a ->].
  cbn. intros [= <-] Hp. cbn. fcases; lra.
Qed.

Lemma detectAudioSpike_total (g : Global) : exists b, detectAudioSpike g = Some b.
Proof.
  unfold detectAudioSpike. destruct (fgeb_spec 50 (globalAudioPeak g)); [eauto|].
  rewrite !fdiv_Some by lra. cbn. eauto.
Qed.

(** ** Trail *)

Lemma trailPeakStep_floor (band noise peak : Q) :
  (noise <= peak)%Q -> (noise <= trailPeakStep band noise peak)%Q.
Proof. intros Hp. unfold trailPeakStep. fcases; lra. Qed.

Lemma trailSetupPeaks_spec (peaks : list Q) :
  length peaks = 8%nat ->
  length (trailSetupPeaks peaks) = 8%nat /\
  forall b, 0 <= b < TRAIL_NUM_BANDS ->
    aget (trailSetupPeaks peaks) b = aget TRAIL_BAND_NOISE b.
Proof.
  intros Hlen. unfold trailSetupPeaks.
  destruct (map_loop (fun i _ => aget TRAIL_BAND_NOISE i) TRAIL_NUM_BANDS peaks)
    as [Hl Hget].
  { consts. lia. }
  cbv zeta in Hl, Hget. split; [congruence|].
  intros b Hb. rewrite Hget by lia.
  destruct (Z.ltb_spec b TRAIL_NUM_BANDS); [done|lia].
Qed.

Lemma trailUpdatePeaks_spec (bands peaks : list Q) :
  length peaks = 8%nat ->
  length (trailUpdatePeaks bands peaks) = 8%nat /\
  forall b, 0 <= b < TRAIL_NUM_BANDS ->
    aget (trailUpdatePeaks bands peaks) b =
    trailPeakStep (aget bands b) (aget TRAIL_BAND_NOISE b) (aget peaks b).
Proof.
  intros Hlen. unfold trailUpdatePeaks.
  destruct (map_loop
    (fun b x => trailPeakStep (aget bands b) (aget TRAIL_BAND_NOISE b) x)
    TRAIL_NUM_BANDS peaks) as [Hl Hget].
  { consts. lia. }
  cbv zeta in Hl, Hget. split; [congruence|].
  intros b Hb. rewrite Hget by lia.
  destruct (Z.ltb_spec b TRAIL_NUM_BANDS); [done|lia].
Qed.

Lemma trailAnalyzeBand_total (v : list Q) (b : Z) (bands : list Q) :
  exists bands', trailAnalyzeBand v b bands = Some bands'.
Proof.
  unfold trailAnalyzeBand.
  destruct (loop_range _ _ _ _) as [bands1 count].
  destruct (Z.ltb_spec 0 count); [|eauto].
  rewrite fdiv_Some by (apply itof_nonzero; lia). cbn. eauto.
Qed.

Lemma trailAnalyze_total (v : list Q) (bands : list Q) :
  exists bands', trailAnalyze v bands = Some bands'.
Proof.
  unfold trailAnalyze.
  destruct (for_range_inv (fun _ _ => True) 0 TRAIL_NUM_BANDS
              (trailAnalyzeBand v) bands) as (t & Ht & _); [consts; lia|done| |eauto].
  intros j u _ _. destruct (trailAnalyzeBand_total v j u) as [u' Hu]. eauto.
Qed.

Lemma trailIntensity_total (band noise peak : Q) :
  (noise <= peak)%Q -> exists x, trailIntensity band noise peak = Some x.
Proof.
  intros Hp. unfold trailIntensity. rewrite fdiv_Some by lra. cbn. eauto.
Qed.

Lemma trailRealtime_total (bands peaks : list Q) (strip : list Z) :
  (forall b, 0 <= b < TRAIL_NUM_BANDS ->
     (aget TRAIL_BAND_NOISE b <= aget peaks b)%Q) ->
  exists strip', trailRealtime bands peaks strip = Some strip' /\
    length strip' = length strip.
Proof.
  intros Hp. unfold trailRealtime.
  destruct (for_range_inv (fun _ t => length t = length strip) 0
              (Z.min TRAIL_REALTIME_LEDS TRAIL_NUM_BANDS)
              (trailRealtimeLed bands peaks) strip) as (t & Ht & Hl);
    [consts; lia|done| |eauto].
  intros j u Hj Hu. unfold trailRealtimeLed.
  destruct (trailActive _ _ _).
  - cbv [TRAIL_USE_INTENSITY].
    destruct (trailIntensity_total (aget bands j) (aget TRAIL_BAND_NOISE j) (aget peaks j))
      as [x ->].
    { apply Hp. revert Hj. consts. lia. }
    cbn. eexists. split; [reflexivity|]. now rewrite length_setPixelColor.
  - eexists. split; [reflexivity|]. now rewrite length_setPixelColor.
Qed.

Lemma length_trailScroll (fade : Q) (strip : list Z) :
  length (trailScroll fade strip) = length strip.
Proof.
  unfold trailScroll.
  apply (loop_down_inv (fun _ t => length t = length strip)); [done|].
  intros j t _ Ht. unfold trailScrollPixel.
  destruct (_ >=? _); now rewrite length_setPixelColor.
Qed.

Lemma trailUpdate_total (v : list Q) (now : Z) (t : Trail) (strip : list Z) :
  length (trailBandPeaks t) = 8%nat ->
  (forall b, 0 <= b < TRAIL_NUM_BANDS ->
     (aget TRAIL_BAND_NOISE b <= aget (trailBandPeaks t) b)%Q) ->
  exists t' strip',
    trailUpdate v now t strip = Some (t', strip') /\
    length strip' = length strip /\
    length (trailBandPeaks t') = 8%nat /\
    (forall b, 0 <= b < TRAIL_NUM_BANDS ->
       (aget TRAIL_BAND_NOISE b <= aget (trailBandPeaks t') b)%Q).
Proof.
  intros Hlen Hp. unfold trailUpdate.
  destruct (trailAnalyze_total v (trailBands t)) as [bands ->]. cbn.
  destruct (trailRealtime_total bands (trailBandPeaks t) strip Hp) as (strip1 & -> & Hs1).
  cbn.
  destruct (trailUpdatePeaks_spec bands (trailBandPeaks t) Hlen) as [Hl Hget].
  destruct (u32 _ >=? _); eexists _, _; (split; [reflexivity|]); cbn;
    (split; [now rewrite ?length_trailScroll|]);
    (split; [done|]); intros b Hb; rewrite Hget by done;
    apply trailPeakStep_floor, Hp, Hb.
Qed.

(** ** Lava *)

Lemma lavaBandPeakStep_floor (level peak : Q) :
  (50 <= peak)%Q -> (50 <= lavaBandPeakStep level peak)%Q.
Proof. intros Hp. unfold lavaBandPeakStep. fcases; lra. Qed.

Lemma lavaNormalize_total (level peak : Q) :
  exists x, lavaNormalize level peak = Some x /\ (0 <= x <= 1)%Q.
Proof.
  unfold lavaNormalize. destruct (fgtb_spec peak 50).
  - rewrite fdiv_Some by lra. cbn. eexists. split; [reflexivity|].
    apply constrain_bounds. lra.
  - exists 0%Q. split; [done|lra].
Qed.

Lemma bandBins_width (b : Z) :
  0 <= b < LAVA_NUM_BANDS -> aget bandBins (b + 1) - aget bandBins b <> 0.
Proof.
  consts. intros Hb.
  assert (b = 0 \/ b = 1 \/ b = 2 \/ b = 3 \/ b = 4 \/ b = 5) as Hc by lia.
  destruct Hc as [->|[->|[->|[->|[->| ->]]]]]; vm_compute; discriminate.
Qed.

Lemma lavaAnalyzeBand_spec (v : list Q) (b : Z) (s : BandScan) :
  0 <= b < LAVA_NUM_BANDS ->
  exists s', lavaAnalyzeBand v b s = Some s' /\
    exists level, scanPeaks s' = aset (scanPeaks s) b
                    (lavaBandPeakStep level (aget (scanPeaks s) b)).
Proof.
  intros Hb. unfold lavaAnalyzeBand.
  rewrite fdiv_Some by (apply itof_nonzero, bandBins_width, Hb). cbn.
  match goal with
  | |- context [lavaNormalize ?x ?y] =>
      destruct (lavaNormalize_total x y) as (n & -> & _)
  end.
  cbn. destruct (fgtb _ _); eexists; (split; [reflexivity|]); cbn; eauto.
Qed.

Lemma lavaAnalyzeAudio_spec (v : list Q) (l : Lava) :
  length (lavaBandPeaks l) = 6%nat ->
  (forall b, 0 <= b < LAVA_NUM_BANDS -> (50 <= aget (lavaBandPeaks l) b)%Q) ->
  (50 <= lavaAudioPeak l)%Q ->
  exists l', lavaAnalyzeAudio v l = Some l' /\
    lavaBlobs l' = lavaBlobs l /\
    length (lavaBandPeaks l') = 6%nat /\
    (forall b, 0 <= b < LAVA_NUM_BANDS -> (50 <= aget (lavaBandPeaks l') b)%Q) /\
    (50 <= lavaAudioPeak l')%Q.
Proof.
  intros Hlen Hp Ha. unfold lavaAnalyzeAudio.
  destruct (for_range_inv
    (fun _ s => length (scanPeaks s) = 6%nat /\
       forall b, 0 <= b < LAVA_NUM_BANDS -> (50 <= aget (scanPeaks s) b)%Q)
    0 LAVA_NUM_BANDS (lavaAnalyzeBand v)
    {| scanLevels := lavaBandLevels l; scanPeaks := lavaBandPeaks l;
       maxBandLevel := 0; scanDominant := 0 |}) as (s & -> & Hl & Hs).
  - consts. lia.
  - done.
  - intros j u Hj [Hul Hu].
    destruct (lavaAnalyzeBand_spec v j u Hj) as (u' & Hu' & level & Hpk).
    exists u'. split; [done|]. rewrite Hpk. split; [now rewrite length_aset|].
    intros b Hb. destruct (aget_aset_cases (scanPeaks u) j b
      (lavaBandPeakStep level (aget (scanPeaks u) j))) as [[_ ->]| ->]; try lia.
    + apply lavaBandPeakStep_floor, Hu, Hj.
    + apply Hu, Hb.
  - cbn. destruct (meanSpectrum_total v) as [a ->]. cbn.
    eexists. split; [reflexivity|]. cbn. repeat split; try done.
    fcases; lra.
Qed.

Lemma lavaSpawnBlob_spec (d : Draws) (x : Q) (l : Lava) :
  exists l', lavaSpawnBlob d x l = Some l' /\
    lavaBandPeaks l' = lavaBandPeaks l /\
    lavaAudioPeak l' = lavaAudioPeak l /\
    (lavaBlobs l' = lavaBlobs l \/
     exists slot blob, 0 <= slot /\
       lavaBlobs l' = aset (lavaBlobs l) slot blob /\
       brightness blob = (0.5 + x * 0.5)%Q).
Proof.
  unfold lavaSpawnBlob. destruct (Z.geb_spec (chooseSlot (lavaBlobs l)) 0).
  - rewrite fdiv_Some by (vm_compute; discriminate). cbn.
    eexists. split; [reflexivity|]. cbn. repeat split.
    right. eexists _, _. split; [eassumption|]. split; reflexivity.
  - exists l. repeat split; auto.
Qed.

Lemma lavaCheckTrigger_spec (d : Draws) (l : Lava) :
  length (lavaBlobs l) = 8%nat ->
  pool_below 1 (lavaBlobs l) ->
  exists l', lavaCheckTrigger d l = Some l' /\
    lavaBandPeaks l' = lavaBandPeaks l /\
    lavaAudioPeak l' = lavaAudioPeak l /\
    length (lavaBlobs l') = 8%nat /\
    forall i, 0 <= i < LAVA_MAX_BLOBS ->
      active (aget (lavaBlobs l') i) = true ->
      (brightness (aget (lavaBlobs l') i) <= 1)%Q.
Proof.
  intros Hlen Hpool. unfold lavaCheckTrigger.
  destruct (lavaNormalize_total (lavaAudioLevel l) (lavaAudioPeak l)) as (x & -> & Hx).
  destruct (lavaNormalize_total (lavaLastAudioLevel l) (lavaAudioPeak l)) as (y & -> & Hy).
  cbn. destruct (_ && _).
  - destruct (lavaSpawnBlob_spec d x l) as (l' & -> & Hbp & Hap & Hb).
    exists l'. repeat split; try done.
    + destruct Hb as [->|(slot & blob & _ & -> & _)]; [done|now rewrite length_aset].
    + intros i Hi Hact. destruct Hb as [Hb|(slot & blob & Hslot & Hb & Hbr)].
      * rewrite Hb in *. apply Qlt_le_weak, Hpool; done.
      * rewrite Hb in *.
        destruct (aget_aset_cases (lavaBlobs l) slot i blob) as [[_ E]|E]; try lia;
          rewrite E in *.
        -- rewrite Hbr. lra.
        -- apply Qlt_le_weak, Hpool; done.
  - exists l. repeat split; try done.
    intros i Hi Hact. apply Qlt_le_weak, Hpool; done.
Qed.

Lemma lavaUpdateBlob_spec (b : LavaBlob) :
  (active b = true -> (brightness b <= 1)%Q) ->
  active (lavaUpdateBlob b) = true ->
  (brightness (lavaUpdateBlob b) < 1)%Q /\ (1 <= size (lavaUpdateBlob b))%Q.
Proof.
  unfold lavaUpdateBlob. destruct (active b) eqn:Hact; cbn.
  2: { rewrite Hact. done. }
  intros Hb. specialize (Hb eq_refl). unfold LAVA_FADE_RATE, LAVA_SHRINK_RATE.
  destruct (fltb_spec (brightness b * 0.92) 0.02), (fltb_spec (size b * 0.97) 1);
    cbn; destruct (_ || _); cbn; try done; intros _; split; lra.
Qed.

Lemma lavaUpdateBlobsArr_spec (blobs : list LavaBlob) :
  length blobs = 8%nat ->
  length (lavaUpdateBlobsArr blobs) = 8%nat /\
  forall i, 0 <= i < LAVA_MAX_BLOBS ->
    aget (lavaUpdateBlobsArr blobs) i = lavaUpdateBlob (aget blobs i).
Proof.
  intros Hlen. unfold lavaUpdateBlobsArr.
  destruct (map_loop (fun _ b => lavaUpdateBlob b) LAVA_MAX_BLOBS blobs) as [Hl Hget].
  { consts. lia. }
  cbv zeta in Hl, Hget. split; [congruence|].
  intros i Hi. rewrite Hget by lia.
  destruct (Z.ltb_spec i LAVA_MAX_BLOBS); [done|lia].
Qed.

Lemma lavaFalloff_total (i : Z) (center size brightness : Q) :
  ~ (size == 0)%Q ->
  exists x, lavaFalloff i center size brightness = Some x /\ (0 <= x <= 1)%Q.
Proof.
  intros Hs. unfold lavaFalloff. rewrite fdiv_Some by done. cbn.
  eexists. split; [reflexivity|]. apply constrain_bounds. lra.
Qed.

Lemma lavaRenderBlob_total (blobs : list LavaBlob) (b : Z) (strip : list Z) :
  (active (aget blobs b) = true -> (1 <= size (aget blobs b))%Q) ->
  exists strip', lavaRenderBlob blobs b strip = Some strip' /\
    length strip' = length strip.
Proof.
  intros Hsz. unfold lavaRenderBlob.
  destruct (active (aget blobs b)); cbn; [|eauto]. specialize (Hsz eq_refl).
  set (lo := Z.max 0 _). set (hi := Z.min _ _).
  destruct (Z.le_gt_cases lo (hi + 1)).
  - match goal with
    | |- context [for_range lo (hi + 1) ?body strip] =>
        destruct (for_range_inv (fun _ t => length t = length strip)
                    lo (hi + 1) body strip)
          as (t & Ht & Hl); [done|done| |eauto]
    end.
    intros j u _ Hu.
    destruct (lavaFalloff_total j (position (aget blobs b)) (size (aget blobs b))
                (brightness (aget blobs b))) as (x & -> & _); [lra|].
    cbn. eexists. split; [reflexivity|].
    unfold lavaAddColorToPixel. now rewrite length_setPixelColor.
  - rewrite for_range_empty by lia. eauto.
Qed.

Lemma lavaRender_total (l : Lava) (strip : list Z) :
  (forall b, 0 <= b < LAVA_MAX_BLOBS ->
     active (aget (lavaBlobs l) b) = true -> (1 <= size (aget (lavaBlobs l) b))%Q) ->
  exists strip', lavaRender l strip = Some strip' /\
    length strip' = length strip.
Proof.
  intros Hsz. unfold lavaRender.
  destruct (for_range_inv (fun _ t => length t = length strip) 0 LAVA_MAX_BLOBS
              (lavaRenderBlob (lavaBlobs l)) (strip_clear strip)) as (t & Ht & Hl);
    [consts; lia|apply length_strip_clear| |eauto].
  intros j u Hj Hu.
  destruct (lavaRenderBlob_total (lavaBlobs l) j u) as (u' & Hu' & Hl'); [eauto|].
  exists u'. split; [done|congruence].
Qed.

Lemma lavaUpdate_spec (d : Draws) (v : list Q) (l : Lava) (strip : list Z) :
  length (lavaBlobs l) = 8%nat ->
  pool_below 1 (lavaBlobs l) ->
  length (lavaBandPeaks l) = 6%nat ->
  (forall b, 0 <= b < LAVA_NUM_BANDS -> (50 <= aget (lavaBandPeaks l) b)%Q) ->
  (50 <= lavaAudioPeak l)%Q ->
  exists l' strip', lavaUpdate d v l strip = Some (l', strip') /\
    length strip' = length strip /\
    length (lavaBlobs l') = 8%nat /\
    pool_below 1 (lavaBlobs l') /\
    length (lavaBandPeaks l') = 6%nat /\
    (forall b, 0 <= b < LAVA_NUM_BANDS -> (50 <= aget (lavaBandPeaks l') b)%Q) /\
    (50 <= lavaAudioPeak l')%Q.
Proof.
  intros Hlen Hpool Hpl Hp Ha. unfold lavaUpdate.
  destruct (lavaAnalyzeAudio_spec v l Hpl Hp Ha) as (l1 & -> & Hb1 & Hpl1 & Hp1 & Ha1).
  cbn. rewrite <- Hb1 in Hlen, Hpool.
  destruct (lavaCheckTrigger_spec d l1 Hlen Hpool) as (l2 & -> & Hbp2 & Hap2 & Hl2 & Hle).
  cbn. destruct (lavaUpdateBlobsArr_spec (lavaBlobs l2) Hl2) as [Hl3 Hget].
  assert (forall i, 0 <= i < LAVA_MAX_BLOBS ->
            active (aget (lavaBlobs (lavaUpdateBlobs l2)) i) = true ->
            (brightness (aget (lavaBlobs (lavaUpdateBlobs l2)) i) < 1)%Q /\
            (1 <= size (aget (lavaBlobs (lavaUpdateBlobs l2)) i))%Q) as Hupd.
  { intros i Hi. cbn. rewrite Hget by done. apply lavaUpdateBlob_spec, Hle, Hi. }
  destruct (lavaRender_total (lavaUpdateBlobs l2) strip) as (strip' & -> & Hs').
  { intros b Hb Hact. now apply Hupd. }
  cbn. eexists _, _. split; [reflexivity|]. cbn.
  rewrite Hbp2, Hap2. repeat split; try done.
  intros i Hi Hact. rewrite Hget in * by done.
  apply lavaUpdateBlob_spec; [apply Hle, Hi|done].
Qed.

(** ** Spectrum *)

Lemma spectrumPeakStep_floor (v noiseFloor peak : Q) :
  (noiseFloor <= peak)%Q -> (noiseFloor <= spectrumPeakStep v noiseFloor peak)%Q.
Proof. intros Hp. unfold spectrumPeakStep. fcases; lra. Qed.

Lemma spectrumGetNoiseFloor_pos (r : Q) : (50 <= spectrumGetNoiseFloor r)%Q.
Proof.
  unfold spectrumGetNoiseFloor, SPECTRUM_NOISE_LOW, SPECTRUM_NOISE_MID,
    SPECTRUM_NOISE_HIGH.
  fcases; lra.
Qed.

Lemma freqRatio_Some (b : Z) :
  fdiv (itof b) (itof (NUM_BINS - 1)) = Some (itof b / itof (NUM_BINS - 1))%Q.
Proof. apply fdiv_Some, itof_nonzero. consts. lia. Qed.

Lemma spectrumSetup_spec (peaks : list Q) :
  length peaks = 32%nat ->
  exists peaks', spectrumSetup peaks = Some peaks' /\
    length peaks' = 32%nat /\
    forall b, 0 <= b < NUM_BINS -> aget peaks' b = (binNoiseFloor b * 2)%Q.
Proof.
  intros Hlen. unfold spectrumSetup.
  destruct (for_range_inv
    (fun k p => length p = 32%nat /\
       forall b, 0 <= b < k -> aget p b = (binNoiseFloor b * 2)%Q)
    0 NUM_BINS
    (fun i p =>
       freqRatio ← fdiv (itof i) (itof (NUM_BINS - 1));
       Some (aset p i (spectrumGetNoiseFloor freqRatio * 2)%Q))
    peaks) as (p' & Hp' & Hl & Hget).
  - consts. lia.
  - split; [done|]. intros b Hb. lia.
  - intros j u Hj [Hul Hu]. rewrite freqRatio_Some. cbn.
    eexists. split; [reflexivity|]. split; [now rewrite length_aset|].
    intros b Hb. destruct (Z.eq_dec b j) as [->|Hne].
    + rewrite aget_aset_eq; [done|]. revert Hj. consts. lia.
    + rewrite aget_aset_ne by lia. apply Hu. lia.
  - eauto.
Qed.

Lemma spectrumUpdatePeaks_spec (v peaks : list Q) :
  length peaks = 32%nat ->
  (forall b, 1 <= b < NUM_BINS -> (binNoiseFloor b <= aget peaks b)%Q) ->
  exists peaks', spectrumUpdatePeaks v peaks = Some peaks' /\
    length peaks' = 32%nat /\
    forall b, 1 <= b < NUM_BINS -> (binNoiseFloor b <= aget peaks' b)%Q.
Proof.
  intros Hlen Hp. unfold spectrumUpdatePeaks.
  destruct (for_range_inv
    (fun _ p => length p = 32%nat /\
       forall b, 1 <= b < NUM_BINS -> (binNoiseFloor b <= aget p b)%Q)
    1 NUM_BINS
    (fun b p =>
       freqRatio ← fdiv (itof b) (itof (NUM_BINS - 1));
       let noiseFloor := spectrumGetNoiseFloor freqRatio in
       Some (aset p b (spectrumPeakStep (aget v b) noiseFloor (aget p b))))
    peaks) as (p' & Hp' & Hl & Hget).
  - consts. lia.
  - done.
  - intros j u Hj [Hul Hu]. rewrite freqRatio_Some. cbn.
    eexists. split; [reflexivity|]. split; [now rewrite length_aset|].
    intros b Hb.
    match goal with
    | |- context [aset u j ?x] =>
        destruct (aget_aset_cases u j b x) as [[<- ->]| ->]; try lia
    end.
    + apply spectrumPeakStep_floor. fold (binNoiseFloor j). apply Hu, Hj.
    + apply Hu, Hb.
  - eauto.
Qed.

Lemma spectrumIntensity_total (value peak noiseFloor : Q) :
  exists x, spectrumIntensity value peak noiseFloor = Some x /\ (0 <= x <= 1)%Q.
Proof.
  unfold spectrumIntensity.
  destruct (fgtb_spec value noiseFloor), (fgtb_spec peak noiseFloor); cbn;
    try (exists 0%Q; split; [done|lra]).
  rewrite fdiv_Some by lra. cbn. eexists. split; [reflexivity|].
  match goal with
  | |- context [constrain ?a ?lo ?hi] =>
      pose proof (constrain_bounds a lo hi) as Hc
  end.
  lra.
Qed.

Lemma spectrumRenderLed_total (v peaks : list Q) (i : Z) (strip : list Z) :
  exists strip', spectrumRenderLed v peaks i strip = Some strip' /\
    length strip' = length strip.
Proof.
  unfold spectrumRenderLed.
  rewrite fdiv_Some by (apply itof_nonzero; consts; lia). cbn.
  match goal with
  | |- context [spectrumIntensity ?a ?b ?c] =>
      destruct (spectrumIntensity_total a b c) as (x & -> & _)
  end.
  cbn. destruct (fgeb _ _); [|eauto].
  eexists. split; [reflexivity|]. now rewrite length_setPixelColor.
Qed.

Lemma spectrumUpdate_spec (v peaks : list Q) (strip : list Z) :
  length peaks = 32%nat ->
  (forall b, 1 <= b < NUM_BINS -> (binNoiseFloor b <= aget peaks b)%Q) ->
  exists peaks' strip', spectrumUpdate v peaks strip = Some (peaks', strip') /\
    length strip' = length strip /\
    length peaks' = 32%nat /\
    forall b, 1 <= b < NUM_BINS -> (binNoiseFloor b <= aget peaks' b)%Q.
Proof.
  intros Hlen Hp. unfold spectrumUpdate.
  destruct (spectrumUpdatePeaks_spec v peaks Hlen Hp) as (p' & -> & Hl & Hget). cbn.
  destruct (for_range_inv (fun _ t => length t = length strip) 0 SPECTRUM_ACTIVE_LEDS
              (spectrumRenderLed v p') (strip_clear strip)) as (t & -> & Hlt);
    [consts; lia|apply length_strip_clear| |].
  - intros j u _ Hu. destruct (spectrumRenderLed_total v p' j u) as (u' & Hu' & Hl').
    exists u'. split; [done|congruence].
  - cbn. eauto 6.
Qed.

(** ** Setup of the engines and mode switching *)

Lemma lavaSetup_spec (l : Lava) :
  length (lavaBlobs l) = 8%nat ->
  length (lavaBandPeaks l) = 6%nat ->
  length (lavaBlobs (lavaSetup l)) = 8%nat /\
  (forall i, 0 <= i < LAVA_MAX_BLOBS -> active (aget (lavaBlobs (lavaSetup l)) i) = false) /\
  length (lavaBandPeaks (lavaSetup l)) = 6%nat /\
  (forall b, 0 <= b < LAVA_NUM_BANDS -> aget (lavaBandPeaks (lavaSetup l)) b = 100%Q) /\
  lavaAudioPeak (lavaSetup l) = 100%Q /\
  lavaAudioLevel (lavaSetup l) = 0%Q.
Proof.
  intros Hb Hp. unfold lavaSetup. cbn.
  destruct (map_loop (fun _ b => set_active false b) LAVA_MAX_BLOBS (lavaBlobs l))
    as [Hl1 Hg1]; [consts; lia|].
  destruct (map_loop (fun _ _ => 100%Q) LAVA_NUM_BANDS (lavaBandPeaks l))
    as [Hl2 Hg2]; [consts; lia|].
  cbv zeta in *. repeat split; try congruence.
  - intros i Hi. rewrite Hg1 by lia.
    destruct (Z.ltb_spec i LAVA_MAX_BLOBS); [done|lia].
  - intros b Hb'. rewrite Hg2 by lia.
    destruct (Z.ltb_spec b LAVA_NUM_BANDS); [done|lia].
Qed.

Lemma next_mode_eq (m : Mode) :
  Mode_of_Z ((Mode_to_Z m + 1) mod NUM_MODES) = successor m.
Proof. now destruct m. Qed.

Lemma spectrumSetup_total (peaks : list Q) : exists peaks', spectrumSetup peaks = Some peaks'.
Proof.
  unfold spectrumSetup.
  match goal with
  | |- context [for_range 0 NUM_BINS ?body peaks] =>
      destruct (for_range_inv (fun _ _ => True) 0 NUM_BINS body peaks)
        as (t & Ht & _); [consts; lia|done| |eauto]
  end.
  intros j u _ _. rewrite freqRatio_Some. cbn. eauto.
Qed.

Lemma nextMode_total (now : Z) (s : Firmware) :
  exists s', nextMode now s = Some s' /\
    currentMode s' = successor (currentMode s) /\
    lastSwitch s' = now /\
    lastSpikeSwitch s' = lastSpikeSwitch s /\
    global s' = global s.
Proof.
  unfold nextMode. rewrite next_mode_eq.
  destruct (currentMode s); cbn.
  - eexists. split; [reflexivity|]. done.
  - destruct (spectrumSetup_total (spectrumBinPeaks s)) as [p ->]. cbn.
    eexists. split; [reflexivity|]. done.
  - eexists. split; [reflexivity|]. done.
Qed.

Lemma binNoiseFloor_pos (b : Z) : (50 <= binNoiseFloor b)%Q.
Proof. apply spectrumGetNoiseFloor_pos. Qed.

Lemma pool_below_inactive (bound : Q) (blobs : list LavaBlob) :
  (forall i, 0 <= i < LAVA_MAX_BLOBS -> active (aget blobs i) = false) ->
  pool_below bound blobs.
Proof. intros Hoff i Hi Hact. rewrite Hoff in Hact; done. Qed.

Ltac fw_simpl :=
  cbn [currentMode lastSwitch lastSpikeSwitch global trail lava spectrumBinPeaks strip
       trailBands trailBandPeaks trailLastScroll trailSetup fst snd] in *.

Lemma nextMode_invariant (now : Z) (s s' : Firmware) :
  invariant s -> nextMode now s = Some s' -> invariant s'.
Proof.
  intros [[Ht Hb Hl Hs Hst] [Pt Pl Pa Pg Ps] Hpool].
  unfold nextMode. rewrite next_mode_eq.
  destruct (currentMode s); cbn [successor].
  - (* into Lava *)
    intros [= <-].
    destruct (lavaSetup_spec (lava s) Hb Hl) as (L1 & L2 & L3 & L4 & L5 & _).
    split; [split|split|]; fw_simpl; rewrite ?length_strip_clear; try done;
      try (intros b Hb'; rewrite L4 by done; lra);
      try (rewrite L5; lra);
      try (now apply pool_below_inactive).
  - (* into Spectrum *)
    destruct (spectrumSetup_spec (spectrumBinPeaks s) Hs) as (p & -> & S1 & S2).
    cbn [mbind option_bind]. intros [= <-].
    split; [split|split|]; fw_simpl; rewrite ?length_strip_clear; try done.
    intros b Hb'. rewrite S2 by lia. pose proof (binNoiseFloor_pos b). lra.
  - (* into Trail *)
    destruct (trailSetupPeaks_spec (trailBandPeaks (trail s)) Ht) as [T1 T2].
    unfold trailSetup. intros [= <-].
    split; [split|split|]; fw_simpl; rewrite ?length_strip_clear; try done.
    intros b Hb'. rewrite T2 by done. lra.
Qed.

Lemma checkModeSwitch_invariant (now now' : Z) (s : Firmware) :
  invariant s ->
  exists s', checkModeSwitch now now' s = Some s' /\ invariant s'.
Proof.
  intros Hinv. unfold checkModeSwitch.
  destruct (_ && _).
  - destruct (nextMode_total now' s) as (s' & Hs' & _).
    exists s'. split; [done|]. eapply nextMode_invariant; eauto.
  - destruct (_ && _); [|eauto].
    destruct (detectAudioSpike_total (global s)) as [b ->]. cbn.
    destruct b; [|eauto].
    destruct (nextMode_total now' (set_lastSpikeSwitch now s)) as (s' & Hs' & _).
    exists s'. split; [done|]. eapply nextMode_invariant; [|exact Hs'].
    destruct Hinv as [[] [] ?]. split; [split|split|]; done.
Qed.

Lemma runEngine_invariant (i : Input) (s : Firmware) :
  invariant s ->
  exists s', runEngine i s = Some s' /\ invariant s' /\
    currentMode s' = currentMode s /\
    lastSwitch s' = lastSwitch s /\
    lastSpikeSwitch s' = lastSpikeSwitch s /\
    global s' = global s.
Proof.
  intros [[Ht Hb Hl Hs Hst] [Pt Pl Pa Pg Ps] Hpool]. unfold runEngine.
  destruct (currentMode s) eqn:Hmode.
  - destruct (trailUpdate_total (vReal i) (now_trail i) (trail s) (strip s) Ht Pt)
      as (t' & strip' & -> & T0 & T1 & T2). cbn [mbind option_bind].
    eexists. split; [reflexivity|]. split; [|done].
    split; [split|split|]; fw_simpl; try done; congruence.
  - destruct (lavaUpdate_spec (draws i) (vReal i) (lava s) (strip s) Hb Hpool Hl Pl Pa)
      as (l' & strip' & -> & L0 & L1 & L2 & L3 & L4 & L5). cbn [mbind option_bind].
    eexists. split; [reflexivity|]. split; [|done].
    split; [split|split|]; fw_simpl; try done; congruence.
  - destruct (spectrumUpdate_spec (vReal i) (spectrumBinPeaks s) (strip s) Hs Ps)
      as (p' & strip' & -> & S0 & S1 & S2). cbn [mbind option_bind].
    eexists. split; [reflexivity|]. split; [|done].
    split; [split|split|]; fw_simpl; try done; congruence.
Qed.

(** ** The invariant of the main loop *)

Lemma set_global_invariant (g : Global) (s : Firmware) :
  invariant s -> (50 <= globalAudioPeak g)%Q -> invariant (set_global g s).
Proof. intros [[] [] ?] Hg. split; [split|split|]; done. Qed.

(** One pass of [loop()], step by step. *)
Lemma loop_steps (i : Input) (s : Firmware) :
  invariant s ->
  exists g s1 s',
    updateGlobalAudioLevel (vReal i) (global s) = Some g /\
    checkModeSwitch (now_check i) (now_switch i) (set_global g s) = Some s1 /\
    loop i s = Some s' /\ invariant s' /\
    currentMode s' = currentMode s1 /\
    lastSwitch s' = lastSwitch s1 /\
    lastSpikeSwitch s' = lastSpikeSwitch s1 /\
    global s' = global s1.
Proof.
  intros Hinv. unfold loop.
  destruct (updateGlobalAudioLevel_total (vReal i) (global s)) as [g Hg].
  assert (invariant (set_global g s)) as Hinv1.
  { apply set_global_invariant; [done|].
    eapply updateGlobalAudioLevel_floor; [exact Hg|]. now destruct Hinv as [_ [] _]. }
  destruct (checkModeSwitch_invariant (now_check i) (now_switch i) _ Hinv1)
    as (s1 & Hs1 & Hinv2).
  destruct (runEngine_invariant i s1 Hinv2) as (s' & Hs' & Hinv3 & Hc).
  exists g, s1, s'. rewrite Hg. cbn [mbind option_bind]. rewrite Hs1.
  cbn [mbind option_bind]. done.
Qed.

Lemma loop_invariant (i : Input) (s : Firmware) :
  invariant s -> exists s', loop i s = Some s' /\ invariant s'.
Proof.
  intros Hinv. destruct (loop_steps i s Hinv) as (g & s1 & s' & _ & _ & Hl & Hi & _).
  eauto.
Qed.

Lemma setup_invariant (t1 t2 : Z) :
  exists s, setup t1 t2 boot = Some s /\ invariant s /\
    currentMode s = MODE_TRAIL /\ lastSwitch s = t1 /\ lastSpikeSwitch s = t2.
Proof.
  unfold setup, trailSetup.
  destruct (spectrumSetup_spec (spectrumBinPeaks boot) eq_refl) as (p & -> & S1 & S2).
  destruct (trailSetupPeaks_spec (trailBandPeaks (trail boot)) eq_refl) as [T1 T2].
  destruct (lavaSetup_spec (lava boot) eq_refl eq_refl) as (L1 & L2 & L3 & L4 & L5 & _).
  cbn [mbind option_bind]. eexists. split; [reflexivity|]. split; [|done].
  split; [split|split|]; fw_simpl; rewrite ?length_strip_clear; try done.
  - intros b Hb. generalize (T2 b Hb).
    generalize (aget (trailSetupPeaks (trailBandPeaks (trail boot))) b).
    intros q ->. lra.
  - intros b Hb. rewrite L4 by done. lra.
  - intros b Hb. rewrite S2 by lia. pose proof (binNoiseFloor_pos b). lra.
  - now apply pool_below_inactive.
Qed.

Lemma reachable_invariant (s : Firmware) : reachable s -> invariant s.
Proof.
  induction 1 as [t1 t2 s Hs|i s s' _ IH Hl].
  - destruct (setup_invariant t1 t2) as (s0 & Hs0 & Hinv & _). congruence.
  - destruct (loop_invariant i s IH) as (s0 & Hs0 & Hinv). congruence.
Qed.

Lemma after_setup_eq (t : Z) : setup t t boot = Some (after_setup t).
Proof.
  unfold after_setup. destruct (setup_invariant t t) as (s & -> & _). done.
Qed.

Lemma after_setup_reachable (t : Z) : reachable (after_setup t).
Proof. eapply reach_setup, after_setup_eq. Qed.

(** ** Cases of [checkModeSwitch] *)

Lemma checkModeSwitch_periodic (now now' : Z) (s : Firmware) :
  SWITCH_INTERVAL_MS <= u32 (now - lastSwitch s) ->
  checkModeSwitch now now' s = nextMode now' s.
Proof.
  intros Hp. unfold checkModeSwitch.
  destruct (Z.geb_spec (u32 (now - lastSwitch s)) SWITCH_INTERVAL_MS); [done|lia].
Qed.

Lemma checkModeSwitch_spike (now now' : Z) (s : Firmware) :
  u32 (now - lastSwitch s) < SWITCH_INTERVAL_MS ->
  MIN_MODE_TIME_MS <= u32 (now - lastSpikeSwitch s) ->
  detectAudioSpike (global s) = Some true ->
  checkModeSwitch now now' s = nextMode now' (set_lastSpikeSwitch now s).
Proof.
  intros Hp Hd Hspike. unfold checkModeSwitch.
  destruct (Z.geb_spec (u32 (now - lastSwitch s)) SWITCH_INTERVAL_MS); [lia|].
  destruct (Z.geb_spec (u32 (now - lastSpikeSwitch s)) MIN_MODE_TIME_MS); [|lia].
  cbn [andb SWITCH_PERIODIC SWITCH_ON_SPIKE]. now rewrite Hspike.
Qed.

Lemma checkModeSwitch_dwell (now now' : Z) (s : Firmware) :
  u32 (now - lastSwitch s) < SWITCH_INTERVAL_MS ->
  u32 (now - lastSpikeSwitch s) < MIN_MODE_TIME_MS ->
  checkModeSwitch now now' s = Some s.
Proof.
  intros Hp Hd. unfold checkModeSwitch.
  destruct (Z.geb_spec (u32 (now - lastSwitch s)) SWITCH_INTERVAL_MS); [lia|].
  destruct (Z.geb_spec (u32 (now - lastSpikeSwitch s)) MIN_MODE_TIME_MS); [lia|done].
Qed.

Lemma dwell_below_interval : MIN_MODE_TIME_MS < SWITCH_INTERVAL_MS.
Proof. done. Qed.

Lemma u32_elapsed (t d : Z) : 0 <= d < 2 ^ 32 -> u32 (u32 (t + d) - t) = d.
Proof.
  intros Hd. unfold u32. rewrite Zminus_mod_idemp_l.
  replace (t + d - t) with d by lia. now apply Z.mod_small.
Qed.

Lemma run_invariant (ins : list Input) (s : Firmware) :
  invariant s -> exists s', run ins s = Some s' /\ invariant s'.
Proof.
  revert s. induction ins as [|i ins IH]; intros s Hinv; [eauto|].
  destruct (loop_invariant i s Hinv) as (s1 & Hs1 & Hinv1).
  destruct (IH s1 Hinv1) as (s' & Hs' & Hinv').
  exists s'. cbn. rewrite Hs1. done.
Qed.

(** While neither timer has expired, the controller stays where it is. *)
Lemma run_dwell (tsw tsp : Z) (m : Mode) (ins : list Input) (s : Firmware) :
  invariant s ->
  currentMode s = m -> lastSwitch s = tsw -> lastSpikeSwitch s = tsp ->
  Forall (fun i => u32 (now_check i - tsw) < SWITCH_INTERVAL_MS /\
                   u32 (now_check i - tsp) < MIN_MODE_TIME_MS) ins ->
  exists s', run ins s = Some s' /\ invariant s' /\
    currentMode s' = m /\ lastSwitch s' = tsw /\ lastSpikeSwitch s' = tsp.
Proof.
  revert s. induction ins as [|i ins IH]; intros s Hinv Hm Hsw Hsp Hall.
  - exists s. done.
  - inversion Hall as [|i0 ins0 [Hi1 Hi2] Hall']; subst i0 ins0.
    destruct (loop_steps i s Hinv) as (g & s1 & s' & Hg & Hc & Hl & Hinv' & E1 & E2 & E3 & _).
    rewrite checkModeSwitch_dwell in Hc by (cbn; congruence).
    injection Hc as <-. cbn in E1, E2, E3.
    destruct (IH s' Hinv') as (s2 & Hs2 & Hrest); [congruence..|exact Hall'|].
    exists s2. cbn. rewrite Hl. done.
Qed.

(** * Mode controller *)

(** C2.  Starting in Trail with both timers set at [t0], a spike detected
    at [t0 + MIN_MODE_TIME_MS + 1] switches to Lava in that very pass of
    [loop()]; in every later pass taken less than [MIN_MODE_TIME_MS] after
    that switch, whatever the audio (a second spike included), the mode
    stays Lava and neither timer moves. *)
Theorem spike_switch_then_dwell (s : Firmware) (t0 : Z) (i1 : Input) :
  reachable s ->
  currentMode s = MODE_TRAIL -> lastSwitch s = t0 -> lastSpikeSwitch s = t0 ->
  now_check i1 = u32 (t0 + MIN_MODE_TIME_MS + 1) ->
  spikeIn i1 s ->
  MIN_MODE_TIME_MS < SWITCH_INTERVAL_MS /\
  exists s1, loop i1 s = Some s1 /\
    currentMode s1 = MODE_LAVA /\
    lastSwitch s1 = now_switch i1 /\
    lastSpikeSwitch s1 = now_check i1 /\
    forall ins,
      Forall (fun i =>
                u32 (now_check i - now_check i1) < MIN_MODE_TIME_MS /\
                u32 (now_check i - now_switch i1) <= u32 (now_check i - now_check i1))
             ins ->
      exists s2, run ins s1 = Some s2 /\
        currentMode s2 = MODE_LAVA /\
        lastSwitch s2 = now_switch i1 /\
        lastSpikeSwitch s2 = now_check i1.
Proof.
  intros Hr Hm Hsw Hsp Hnow Hspike. split; [apply dwell_below_interval|].
  apply reachable_invariant in Hr.
  destruct (loop_steps i1 s Hr) as (g & sm & s1 & Hg & Hc & Hl & Hinv & E1 & E2 & E3 & _).
  destruct Hspike as [g' Hg' Hspike]. rewrite Hg in Hg'. injection Hg' as <-.
  assert (u32 (now_check i1 - t0) = MIN_MODE_TIME_MS + 1) as Hel.
  { rewrite Hnow, <- Z.add_assoc. apply u32_elapsed. done. }
  rewrite checkModeSwitch_spike in Hc; cbn [set_global lastSwitch lastSpikeSwitch global];
    rewrite ?Hsw, ?Hsp, ?Hel; try done.
  destruct (nextMode_total (now_switch i1) (set_lastSpikeSwitch (now_check i1) (set_global g s)))
    as (sm' & Hsm & N1 & N2 & N3 & _).
  rewrite Hsm in Hc. injection Hc as <-.
  cbn [set_lastSpikeSwitch set_global currentMode lastSpikeSwitch] in N1, N3.
  rewrite Hm in N1. cbn [successor] in N1.
  exists s1. repeat split; try congruence.
  intros ins Hins.
  destruct (run_dwell (now_switch i1) (now_check i1) MODE_LAVA ins s1)
    as (s2 & Hs2 & _ & R1 & R2 & R3); try congruence.
  - eapply List.Forall_impl; [|exact Hins]. intros i [Hi1 Hi2].
    pose proof dwell_below_interval. lia.
  - exists s2. done.
Qed.

(** A spike 30001 ms after a setup at 5 ms switches to Lava; a second spike
    one millisecond later leaves the mode alone. *)
Lemma spike_switch_then_dwell_witness :
  exists s1, loop (flat 1000 30006) (after_setup 5) = Some s1 /\
    currentMode s1 = MODE_LAVA /\
    spikeIn (flat 5000 30007) s1 /\
    exists s2, run [flat 5000 30007] s1 = Some s2 /\ currentMode s2 = MODE_LAVA.
Proof.
  destruct (spike_switch_then_dwell (after_setup 5) 5 (flat 1000 30006))
    as (_ & s1 & H1 & H2 & _ & _ & H5).
  - apply after_setup_reachable.
  - vm_compute. reflexivity.
  - vm_compute. reflexivity.
  - vm_compute. reflexivity.
  - vm_compute. reflexivity.
  - eapply spike_fires; vm_compute; reflexivity.
  - exists s1. split; [exact H1|]. split; [exact H2|].
    destruct (H5 [flat 5000 30007]) as (s2 & R1 & R2 & _).
    + constructor; [|constructor]. split; vm_compute; [reflexivity|discriminate].
    + split; [|exists s2; split; [exact R1|exact R2]].
      pose proof H1 as H1c. vm_compute in H1c. injection H1c as <-.
      eapply spike_fires; vm_compute; reflexivity.
Defined.

(** C10.  [nextMode()] sets [lastSwitch] and leaves [lastSpikeSwitch]
    alone.  So a pass in which the periodic timer expires advances the mode
    without moving the spike guard, and if [MIN_MODE_TIME_MS] has elapsed
    since the last spike-triggered switch, a spike in the very next pass
    advances the mode again. *)
Theorem periodic_switch_leaves_spike_guard :
  (forall now s0, exists s', nextMode now s0 = Some s' /\
     lastSwitch s' = now /\ lastSpikeSwitch s' = lastSpikeSwitch s0) /\
  (forall s i1 i2,
     reachable s ->
     SWITCH_INTERVAL_MS <= u32 (now_check i1 - lastSwitch s) ->
     u32 (now_check i2 - now_switch i1) < SWITCH_INTERVAL_MS ->
     MIN_MODE_TIME_MS <= u32 (now_check i2 - lastSpikeSwitch s) ->
     exists s1, loop i1 s = Some s1 /\
       currentMode s1 = successor (currentMode s) /\
       lastSwitch s1 = now_switch i1 /\
       lastSpikeSwitch s1 = lastSpikeSwitch s /\
       (spikeIn i2 s1 ->
        exists s2, loop i2 s1 = Some s2 /\
          currentMode s2 = successor (successor (currentMode s)) /\
          lastSwitch s2 = now_switch i2 /\
          lastSpikeSwitch s2 = now_check i2)).
Proof.
  split.
  { intros now s0. destruct (nextMode_total now s0) as (s' & Hs' & _ & N2 & N3 & _).
    exists s'. done. }
  intros s i1 i2 Hr Hper Hfresh Hguard.
  apply reachable_invariant in Hr.
  destruct (loop_steps i1 s Hr) as (g & sm & s1 & Hg & Hc & Hl & Hinv & E1 & E2 & E3 & _).
  rewrite checkModeSwitch_periodic in Hc by done.
  destruct (nextMode_total (now_switch i1) (set_global g s)) as (sm' & Hsm & N1 & N2 & N3 & _).
  rewrite Hsm in Hc. injection Hc as <-.
  cbn [set_global currentMode lastSpikeSwitch] in N1, N3.
  exists s1. repeat split; try congruence.
  intros Hspike.
  destruct (loop_steps i2 s1 Hinv)
    as (g2 & sm2 & s2 & Hg2 & Hc2 & Hl2 & _ & F1 & F2 & F3 & _).
  destruct Hspike as [g' Hg' Hspike]. rewrite Hg2 in Hg'. injection Hg' as <-.
  rewrite checkModeSwitch_spike in Hc2;
    cbn [set_global lastSwitch lastSpikeSwitch global]; try congruence.
  destruct (nextMode_total (now_switch i2)
              (set_lastSpikeSwitch (now_check i2) (set_global g2 s1)))
    as (sm3 & Hsm3 & M1 & M2 & M3 & _).
  rewrite Hsm3 in Hc2. injection Hc2 as <-.
  cbn [set_lastSpikeSwitch set_global currentMode lastSpikeSwitch] in M1, M3.
  exists s2. repeat split; congruence.
Qed.

(** The periodic timer expires 90000 ms after setup; a spike one millisecond
    later, 90001 ms after the last spike-triggered switch, switches again. *)
Lemma periodic_switch_leaves_spike_guard_witness :
  exists s1 s2,
    loop (flat 0 90000) (after_setup 0) = Some s1 /\ currentMode s1 = MODE_LAVA /\
    lastSpikeSwitch s1 = 0 /\
    loop (flat 1000 90001) s1 = Some s2 /\ currentMode s2 = MODE_SPECTRUM /\
    lastSpikeSwitch s2 = 90001.
Proof.
  destruct (proj2 periodic_switch_leaves_spike_guard
              (after_setup 0) (flat 0 90000) (flat 1000 90001))
    as (s1 & H1 & H2 & _ & H4 & H5).
  - apply after_setup_reachable.
  - vm_compute. discriminate.
  - vm_compute. reflexivity.
  - vm_compute. discriminate.
  - pose proof H1 as H1c. vm_compute in H1c. injection H1c as <-.
    destruct H5 as (s2 & K1 & K2 & _ & K4).
    + eapply spike_fires; vm_compute; reflexivity.
    + eexists _, s2.
      split; [exact H1|]. split; [exact H2|]. split; [exact H4|].
      split; [exact K1|]. split; [exact K2|exact K4].
Defined.

(** * Re-initialisation on a mode change *)

Lemma getPixelColor_clear (strip : list Z) (n : Z) :
  length strip = 120%nat -> getPixelColor (strip_clear strip) n = 0.
Proof.
  intros Hlen. unfold getPixelColor, strip_clear.
  destruct (Z.leb_spec 0 n), (Z.ltb_spec n NUM_LEDS); cbn [andb]; try done.
  apply aget_replicate. rewrite Hlen. revert H0. consts. lia.
Qed.

(** C4, as the code has it.  [nextMode] always answers, moves to the next
    mode of the cycle, clears the frame buffer and re-initialises the engine
    it enters: Trail's band peaks are set to their noise floors; Lava's
    blobs are all deactivated, its band peaks and loudness peak are set to
    100 and its loudness level to 0; Spectrum's bin peaks are set to twice
    their noise floors. *)
Theorem nextMode_reinitialises (now : Z) (s : Firmware) :
  shaped s ->
  exists s', nextMode now s = Some s' /\
    currentMode s' = successor (currentMode s) /\
    (forall n, getPixelColor (strip s') n = 0) /\
    reinitialised s'.
Proof.
  intros [Ht Hb Hl Hs Hst].
  unfold nextMode. rewrite next_mode_eq.
  destruct (currentMode s); cbn [successor].
  - destruct (lavaSetup_spec (lava s) Hb Hl) as (L1 & L2 & L3 & L4 & L5 & L6).
    eexists. split; [reflexivity|]. unfold reinitialised. fw_simpl.
    split; [done|]. split; [|done].
    intros n. now apply getPixelColor_clear.
  - destruct (spectrumSetup_spec (spectrumBinPeaks s) Hs) as (p & -> & S1 & S2).
    cbn [mbind option_bind].
    eexists. split; [reflexivity|]. unfold reinitialised. fw_simpl.
    split; [done|]. split; [|done].
    intros n. now apply getPixelColor_clear.
  - destruct (trailSetupPeaks_spec (trailBandPeaks (trail s)) Ht) as [T1 T2].
    unfold trailSetup.
    eexists. split; [reflexivity|]. unfold reinitialised. fw_simpl.
    split; [done|]. split; [|done].
    intros n. apply getPixelColor_clear. now rewrite length_strip_clear.
Qed.

Lemma after_setup_shaped (t : Z) : shaped (after_setup t).
Proof. now destruct (reachable_invariant _ (after_setup_reachable t)). Qed.

(** Leaving Trail for Lava right after setup. *)
Lemma nextMode_reinitialises_witness :
  exists s', nextMode 1000 (after_setup 0) = Some s' /\ reinitialised s'.
Proof.
  destruct (nextMode_reinitialises 1000 (after_setup 0) (after_setup_shaped 0))
    as (s' & H1 & _ & _ & H4).
  exists s'. split; [exact H1|exact H4].
Defined.

(** C4 as stated fails: entering Lava leaves the Lava peaks at 100, not at
    the floor 50, and entering Spectrum leaves the bin peaks at twice their
    floors. *)
Lemma resets_to_floors_counterexample :
  exists s1 s2,
    nextMode 1000 (after_setup 0) = Some s1 /\ currentMode s1 = MODE_LAVA /\
    ~ resets_to_floors s1 /\
    nextMode 2000 s1 = Some s2 /\ currentMode s2 = MODE_SPECTRUM /\
    ~ resets_to_floors s2.
Proof.
  eexists _, _. split; [vm_compute; reflexivity|].
  split; [reflexivity|]. split.
  { intros (_ & _ & H). vm_compute in H. discriminate. }
  split; [vm_compute; reflexivity|].
  split; [reflexivity|].
  intros H. specialize (H 1 ltac:(done)). vm_compute in H. discriminate.
Qed.

(** * Lava: spawning a blob *)

Lemma firstInactive_spec (blobs : list LavaBlob) (n : nat) (i : Z) :
  (firstInactive n i blobs = -1 /\
   forall j, i <= j < i + Z.of_nat n -> active (aget blobs j) = true) \/
  (i <= firstInactive n i blobs < i + Z.of_nat n /\
   active (aget blobs (firstInactive n i blobs)) = false /\
   forall j, i <= j < firstInactive n i blobs -> active (aget blobs j) = true).
Proof.
  revert i. induction n as [|n IH]; intros i.
  - left. split; [done|]. intros j Hj. lia.
  - cbn [firstInactive]. destruct (active (aget blobs i)) eqn:Hact; cbn [negb].
    + destruct (IH (i + 1)) as [[-> Hall]|(Hr & Hoff & Hon)].
      * left. split; [done|]. intros j Hj.
        destruct (Z.eq_dec j i) as [->|]; [done|]. apply Hall. lia.
      * right. split; [lia|]. split; [done|]. intros j Hj.
        destruct (Z.eq_dec j i) as [->|]; [done|]. apply Hon. lia.
    + right. split; [lia|]. split; [done|]. intros j Hj. lia.
Qed.

Lemma dimmest_spec (blobs : list LavaBlob) :
  (snd (dimmest blobs) = -1 /\
   forall j, 0 <= j < LAVA_MAX_BLOBS -> (1 <= brightness (aget blobs j))%Q) \/
  (0 <= snd (dimmest blobs) < LAVA_MAX_BLOBS /\
   (brightness (aget blobs (snd (dimmest blobs))) < 1)%Q /\
   (forall j, 0 <= j < LAVA_MAX_BLOBS ->
      (brightness (aget blobs (snd (dimmest blobs))) <= brightness (aget blobs j))%Q) /\
   (forall j, 0 <= j < snd (dimmest blobs) ->
      (brightness (aget blobs (snd (dimmest blobs))) < brightness (aget blobs j))%Q)).
Proof.
  set (P := fun k (p : Q * Z) =>
    (snd p = -1 /\ (fst p == 1)%Q /\
     forall j, 0 <= j < k -> (1 <= brightness (aget blobs j))%Q) \/
    (0 <= snd p < k /\ fst p = brightness (aget blobs (snd p)) /\
     (brightness (aget blobs (snd p)) < 1)%Q /\
     (forall j, 0 <= j < k ->
        (brightness (aget blobs (snd p)) <= brightness (aget blobs j))%Q) /\
     (forall j, 0 <= j < snd p ->
        (brightness (aget blobs (snd p)) < brightness (aget blobs j))%Q))).
  assert (P LAVA_MAX_BLOBS (dimmest blobs)) as Hfin.
  { unfold dimmest. apply (loop_range_inv P); unfold P.
    - consts. lia.
    - left. cbn. split; [done|]. split; [lra|]. intros j Hj. lia.
    - intros k [m sl] Hk. cbn [fst snd].
      destruct (fltb_spec (brightness (aget blobs k)) m) as [Hlt|Hge]; cbn [fst snd].
      + intros [(-> & Hm & Hall)|(Hsl & -> & Hb & Hmin & Hfirst)]; right.
        * split; [lia|]. split; [done|]. split; [lra|]. split.
          -- intros j Hj. destruct (Z.eq_dec j k) as [->|]; [lra|].
             specialize (Hall j ltac:(lia)). lra.
          -- intros j Hj. specialize (Hall j ltac:(lia)). lra.
        * split; [lia|]. split; [done|]. split; [lra|]. split.
          -- intros j Hj. destruct (Z.eq_dec j k) as [->|]; [lra|].
             specialize (Hmin j ltac:(lia)). lra.
          -- intros j Hj. specialize (Hmin j ltac:(lia)). lra.
      + intros [(-> & Hm & Hall)|(Hsl & -> & Hb & Hmin & Hfirst)]; [left|right].
        * split; [done|]. split; [done|]. intros j Hj.
          destruct (Z.eq_dec j k) as [->|]; [lra|]. apply Hall. lia.
        * split; [lia|]. split; [done|]. split; [done|]. split; [|done].
          intros j Hj. destruct (Z.eq_dec j k) as [->|]; [lra|]. apply Hmin. lia. }
  destruct Hfin as [(H1 & _ & H2)|(H1 & _ & H2)]; [left|right]; done.
Qed.

(** How [lavaSpawnBlob] picks its slot. *)
Lemma chooseSlot_spec (blobs : list LavaBlob) :
  (chooseSlot blobs = -1 /\
   forall j, 0 <= j < LAVA_MAX_BLOBS ->
     active (aget blobs j) = true /\ (1 <= brightness (aget blobs j))%Q) \/
  (0 <= chooseSlot blobs < LAVA_MAX_BLOBS /\
   (first_inactive blobs (chooseSlot blobs) \/ first_dimmest blobs (chooseSlot blobs))).
Proof.
  unfold chooseSlot.
  destruct (firstInactive_spec blobs (Z.to_nat LAVA_MAX_BLOBS) 0)
    as [[-> Hall]|(Hr & Hoff & Hon)].
  - cbn [Z.eqb Pos.eqb].
    assert (forall j, 0 <= j < LAVA_MAX_BLOBS -> active (aget blobs j) = true) as Hact.
    { intros j Hj. apply Hall. revert Hj. consts. lia. }
    destruct (dimmest_spec blobs) as [[-> Hb]|(Hr & Hb & Hmin & Hfirst)].
    + left. split; [done|]. intros j Hj. split; [apply Hact|apply Hb]; done.
    + right. split; [done|]. right. done.
  - destruct (Z.eqb_spec (firstInactive (Z.to_nat LAVA_MAX_BLOBS) 0 blobs) (-1)); [lia|].
    right. split; [revert Hr; consts; lia|]. left. done.
Qed.

(** The blob [lavaSpawnBlob] writes, whatever the slot. *)
Lemma lavaSpawnBlob_writes (d : Draws) (x : Q) (l : Lava) :
  0 <= chooseSlot (lavaBlobs l) ->
  exists l' blob, lavaSpawnBlob d x l = Some l' /\
    lavaBlobs l' = aset (lavaBlobs l) (chooseSlot (lavaBlobs l)) blob /\
    active blob = true /\
    position blob = itof (random (draw_position d) 10 (NUM_LEDS - 10)) /\
    size blob = (LAVA_SPAWN_SIZE * (0.7 + x * 0.5))%Q /\
    brightness blob = (0.5 + x * 0.5)%Q.
Proof.
  intros Hslot. unfold lavaSpawnBlob.
  destruct (Z.geb_spec (chooseSlot (lavaBlobs l)) 0); [|lia].
  rewrite fdiv_Some by (vm_compute; discriminate). cbn [mbind option_bind].
  eexists _, _. split; [reflexivity|]. cbn. done.
Qed.

Lemma random_range (r : N) (lo hi : Z) : lo < hi -> lo <= random r lo hi < hi.
Proof.
  intros Hlh. unfold random. destruct (Z.leb_spec hi lo); [lia|].
  pose proof (Z.mod_pos_bound (Z.of_N r) (hi - lo)). lia.
Qed.

Lemma allocatable_slot (blobs : list LavaBlob) :
  allocatable blobs ->
  0 <= chooseSlot blobs < LAVA_MAX_BLOBS /\
  (first_inactive blobs (chooseSlot blobs) \/ first_dimmest blobs (chooseSlot blobs)).
Proof.
  intros (i & Hi & Hfree).
  destruct (chooseSlot_spec blobs) as [[_ Hfull]|Hok]; [|done].
  destruct (Hfull i Hi) as [Hact Hb].
  destruct Hfree as [Hoff|Hdim]; [congruence|lra].
Qed.

(** C5.  On a pool with no active blob, [lavaSpawnBlob] with intensity 1.0
    leaves exactly one active blob, whatever [random()] returns; its size
    is [LAVA_SPAWN_SIZE * 1.2 = 12], its brightness 1, and its position
    lies in [10, 110). *)
Theorem spawn_on_empty_pool (d : Draws) (l : Lava) :
  length (lavaBlobs l) = 8%nat ->
  (forall i, 0 <= i < LAVA_MAX_BLOBS -> active (aget (lavaBlobs l) i) = false) ->
  exists l' slot, lavaSpawnBlob d 1.0 l = Some l' /\
    0 <= slot < LAVA_MAX_BLOBS /\
    (forall i, 0 <= i < LAVA_MAX_BLOBS ->
       (active (aget (lavaBlobs l') i) = true <-> i = slot)) /\
    (size (aget (lavaBlobs l') slot) == LAVA_SPAWN_SIZE * 1.2)%Q /\
    (size (aget (lavaBlobs l') slot) == 12)%Q /\
    (brightness (aget (lavaBlobs l') slot) == 1)%Q /\
    (10 <= position (aget (lavaBlobs l') slot))%Q /\
    (position (aget (lavaBlobs l') slot) < itof (NUM_LEDS - 10))%Q /\
    (itof (NUM_LEDS - 10) == 110)%Q.
Proof.
  intros Hlen Hoff.
  assert (chooseSlot (lavaBlobs l) = 0) as Hslot.
  { destruct (allocatable_slot (lavaBlobs l)) as [Hr [[_ Hon]|[Hact _]]].
    - exists 0. split; [consts; lia|]. left. apply Hoff. consts. lia.
    - destruct (Z.eq_dec (chooseSlot (lavaBlobs l)) 0) as [|Hne]; [done|].
      specialize (Hon 0 ltac:(lia)). rewrite Hoff in Hon; [done|consts; lia].
    - specialize (Hact 0 ltac:(consts; lia)).
      rewrite Hoff in Hact; [done|consts; lia]. }
  destruct (lavaSpawnBlob_writes d 1.0 l) as (l' & blob & Hl' & Hb & Ha & Hp & Hs & Hbr);
    [lia|].
  rewrite Hslot in Hb.
  assert (aget (lavaBlobs l') 0 = blob) as H0.
  { rewrite Hb. apply aget_aset_eq. lia. }
  exists l', 0. split; [done|]. split; [consts; lia|]. split.
  { intros i Hi. destruct (Z.eq_dec i 0) as [->|Hne].
    - rewrite H0. done.
    - rewrite Hb, aget_aset_ne by lia. rewrite Hoff by done. split; [done|lia]. }
  rewrite H0, Hs, Hbr, Hp. unfold LAVA_SPAWN_SIZE.
  pose proof (random_range (draw_position d) 10 (NUM_LEDS - 10) ltac:(done)) as [Hlo Hhi].
  split; [lra|]. split; [lra|]. split; [lra|].
  split; [change 10%Q with (itof 10); now apply itof_le|].
  split; [now apply itof_lt|]. reflexivity.
Qed.

(** The pool as [setup()] leaves it. *)
Lemma spawn_on_empty_pool_witness :
  exists l', lavaSpawnBlob some_draws 1.0 (lava (after_setup 0)) = Some l' /\
    (size (aget (lavaBlobs l') 0) == 12)%Q.
Proof.
  destruct (spawn_on_empty_pool some_draws (lava (after_setup 0)))
    as (l' & slot & H1 & H2 & H3 & _ & H5 & _).
  - vm_compute. reflexivity.
  - intros i Hi.
    assert (i = 0 \/ i = 1 \/ i = 2 \/ i = 3 \/ i = 4 \/ i = 5 \/ i = 6 \/ i = 7) as Hc
      by (revert Hi; unfold LAVA_MAX_BLOBS; lia).
    destruct Hc as [->|[->|[->|[->|[->|[->|[->| ->]]]]]]]; vm_compute; reflexivity.
  - exists l'. split; [exact H1|].
    pose proof H1 as H1c. vm_compute in H1c. injection H1c as <-.
    vm_compute. reflexivity.
Defined.

(** Outside the pools the firmware holds: on a full pool whose blobs all
    have brightness 1.0 the scan for the dimmest blob, which starts from
    1.0 with a strict comparison, finds no slot, and [lavaSpawnBlob]
    returns without writing. *)
Lemma lavaSpawnBlob_on_bright_full_pool :
  length (lavaBlobs bright_pool) = 8%nat /\
  (forall i, 0 <= i < LAVA_MAX_BLOBS -> active (aget (lavaBlobs bright_pool) i) = true) /\
  chooseSlot (lavaBlobs bright_pool) = -1 /\
  lavaSpawnBlob some_draws 1 bright_pool = Some bright_pool.
Proof.
  split; [reflexivity|]. split.
  - intros i Hi.
    assert (i = 0 \/ i = 1 \/ i = 2 \/ i = 3 \/ i = 4 \/ i = 5 \/ i = 6 \/ i = 7) as Hc
      by (revert Hi; unfold LAVA_MAX_BLOBS; lia).
    destruct Hc as [->|[->|[->|[->|[->|[->|[->| ->]]]]]]]; reflexivity.
  - split; vm_compute; reflexivity.
Qed.

(** * Colours and pixels *)

Lemma lor_disjoint (x y n : Z) :
  0 <= n -> 0 <= y < 2 ^ n -> Z.lor (x * 2 ^ n) y = x * 2 ^ n + y.
Proof.
  intros Hn Hy. rewrite <- Z.add_lor_land.
  replace (Z.land (x * 2 ^ n) y) with 0; [lia|].
  symmetry. apply Z.bits_inj'. intros k Hk. rewrite Z.land_spec, Z.bits_0.
  destruct (Z.lt_ge_cases k n).
  - rewrite Z.mul_pow2_bits_low by lia. reflexivity.
  - destruct (Z.eq_dec y 0) as [->|].
    { rewrite Z.bits_0. apply Bool.andb_false_r. }
    rewrite (Z.bits_above_log2 y k); [apply Bool.andb_false_r|lia|].
    apply Z.lt_le_trans with n; [|lia]. apply Z.log2_lt_pow2; lia.
Qed.

Lemma u8_range (z : Z) : 0 <= u8 z < 256.
Proof. unfold u8. apply Z.mod_pos_bound. lia. Qed.

Lemma u8_small (z : Z) : 0 <= z < 256 -> u8 z = z.
Proof. intros Hz. unfold u8. now apply Z.mod_small. Qed.

Lemma Color_sum (r g b : Z) : Color r g b = u8 r * 65536 + u8 g * 256 + u8 b.
Proof.
  unfold Color. pose proof (u8_range r). pose proof (u8_range g).
  pose proof (u8_range b).
  rewrite !Z.shiftl_mul_pow2 by lia.
  rewrite (lor_disjoint (u8 r) (u8 g * 2 ^ 8) 16);
    [|lia|change (2 ^ 8) with 256; change (2 ^ 16) with 65536; lia].
  replace (u8 r * 2 ^ 16 + u8 g * 2 ^ 8) with ((u8 r * 256 + u8 g) * 2 ^ 8)
    by (change (2 ^ 8) with 256; change (2 ^ 16) with 65536; lia).
  rewrite lor_disjoint; [|lia|change (2 ^ 8) with 256; lia].
  change (2 ^ 8) with 256. lia.
Qed.

Lemma Color_range (r g b : Z) : 0 <= Color r g b < 2 ^ 24.
Proof.
  rewrite Color_sum. pose proof (u8_range r). pose proof (u8_range g).
  pose proof (u8_range b). change (2 ^ 24) with 16777216. lia.
Qed.

Lemma channel_eq (c k : Z) : 0 <= k -> channel c k = (c / 2 ^ k) mod 256.
Proof.
  intros Hk. unfold channel. rewrite Z.shiftr_div_pow2 by done.
  change 255 with (Z.ones 8). now rewrite Z.land_ones.
Qed.

Lemma channel_range (c k : Z) : 0 <= k -> 0 <= channel c k < 256.
Proof. intros Hk. rewrite channel_eq by done. apply Z.mod_pos_bound. lia. Qed.

Lemma mask24 (c : Z) : Z.land c 16777215 = c mod 16777216.
Proof. change 16777215 with (Z.ones 24). now rewrite Z.land_ones. Qed.

Lemma mask24_small (c : Z) : 0 <= c < 2 ^ 24 -> Z.land c 16777215 = c.
Proof. intros Hc. rewrite mask24. now apply Z.mod_small. Qed.

(** The three channels of a colour built by [Color]. *)
Lemma channel_Color (r g b : Z) :
  channel (Color r g b) 16 = u8 r /\
  channel (Color r g b) 8 = u8 g /\
  channel (Color r g b) 0 = u8 b.
Proof.
  rewrite !channel_eq by lia. rewrite Color_sum.
  pose proof (u8_range r). pose proof (u8_range g). pose proof (u8_range b).
  change (2 ^ 16) with 65536. change (2 ^ 8) with 256. change (2 ^ 0) with 1.
  repeat split; Z.to_euclidean_division_equations; lia.
Qed.

(** A 24-bit colour is the [Color] of its three channels. *)
Lemma Color_channels (c : Z) :
  0 <= c < 2 ^ 24 -> Color (channel c 16) (channel c 8) (channel c 0) = c.
Proof.
  intros Hc. rewrite Color_sum.
  rewrite !u8_small by (apply channel_range; lia).
  rewrite !channel_eq by lia.
  change (2 ^ 16) with 65536. change (2 ^ 8) with 256. change (2 ^ 0) with 1.
  change (2 ^ 24) with 16777216 in Hc.
  Z.to_euclidean_division_equations; lia.
Qed.

Lemma ftou8_times_one (x : Z) : 0 <= x < 256 -> ftou8 (itof x * 1) = x.
Proof.
  intros Hx. unfold ftou8, ftoi, itof. cbn [Qmult Qnum Qden inject_Z].
  rewrite Z.mul_1_r. change (Z.pos (1 * 1)) with 1. rewrite Z.quot_1_r.
  now apply u8_small.
Qed.

Lemma trailFadeColor_one (c : Z) : 0 <= c < 2 ^ 24 -> trailFadeColor c 1 = c.
Proof.
  intros Hc. unfold trailFadeColor.
  rewrite !ftou8_times_one by (apply channel_range; lia).
  now apply Color_channels.
Qed.

Lemma getPixelColor_set_eq (strip : list Z) (n c : Z) :
  length strip = 120%nat -> 0 <= n < NUM_LEDS ->
  getPixelColor (setPixelColor strip n c) n = Z.land c 16777215.
Proof.
  intros Hlen Hn. unfold getPixelColor, setPixelColor.
  destruct (Z.leb_spec 0 n), (Z.ltb_spec n NUM_LEDS); try lia. cbn [andb].
  apply aget_aset_eq. rewrite Hlen. revert Hn. consts. lia.
Qed.

Lemma getPixelColor_set_ne (strip : list Z) (n m c : Z) :
  n <> m -> getPixelColor (setPixelColor strip n c) m = getPixelColor strip m.
Proof.
  intros Hne. unfold getPixelColor, setPixelColor.
  destruct (Z.leb_spec 0 m), (Z.ltb_spec m NUM_LEDS); cbn [andb]; try done.
  destruct (Z.leb_spec 0 n), (Z.ltb_spec n NUM_LEDS); cbn [andb]; try done.
  apply aget_aset_ne; lia.
Qed.

Lemma getPixelColor_frame (strip : list Z) (n : Z) :
  frame strip -> 0 <= getPixelColor strip n < 2 ^ 24.
Proof.
  intros [Hlen Hall]. unfold getPixelColor.
  destruct (Z.leb_spec 0 n), (Z.ltb_spec n NUM_LEDS); cbn [andb]; try lia.
  unfold aget. rewrite Forall_lookup in Hall.
  destruct (lookup_lt_is_Some_2 strip (Z.to_nat n)) as [c Hc].
  { rewrite Hlen. revert H0. consts. lia. }
  rewrite (list_lookup_total_correct _ _ _ Hc). now apply (Hall _ _ Hc).
Qed.

(** * Trail: the scroll step *)

Lemma trailScroll_pixel (fade : Q) (strip : list Z) (k : Z) :
  length strip = 120%nat -> 0 <= k < NUM_LEDS ->
  trailPixel (trailScroll fade strip) k =
  if k <? TRAIL_REALTIME_LEDS then trailPixel strip k else scrolled fade strip k.
Proof.
  intros Hlen Hk. unfold trailScroll.
  set (P := fun j t =>
    length t = 120%nat /\
    forall k, 0 <= k < NUM_LEDS ->
      trailPixel t k = if k <=? j then trailPixel strip k else scrolled fade strip k).
  assert (P (NUM_LEDS - 1 - Z.of_nat (Z.to_nat (NUM_LEDS - TRAIL_REALTIME_LEDS)))
            (loop_down (Z.to_nat (NUM_LEDS - TRAIL_REALTIME_LEDS)) (NUM_LEDS - 1)
               (trailScrollPixel fade) strip)) as [_ Hfin].
  { apply loop_down_inv; unfold P.
    - split; [done|]. intros k' Hk'.
      destruct (Z.leb_spec k' (NUM_LEDS - 1)); [done|lia].
    - intros j t Hj [Ht Hpix].
      assert (TRAIL_REALTIME_LEDS <= j < NUM_LEDS) as Hj' by (revert Hj; consts; lia).
      assert (trailPixel (trailScrollPixel fade j t) j = scrolled fade strip j) as Hnew.
      { unfold trailScrollPixel, scrolled, trailPixel.
        pose proof (Hpix (j - TRAIL_REALTIME_LEDS)) as Hsrc. unfold trailPixel in Hsrc.
        destruct (Z.leb_spec (j - TRAIL_REALTIME_LEDS) j);
          [|revert Hj'; consts; lia].
        destruct (j >=? _);
          (rewrite getPixelColor_set_eq;
             [|done|cbv [trailLed TRAIL_REVERSE]; revert Hj'; consts; lia]);
          rewrite Hsrc by (revert Hj'; consts; lia); done. }
      split.
      + unfold trailScrollPixel. destruct (j >=? _); now rewrite length_setPixelColor.
      + intros k' Hk'. destruct (Z.eq_dec k' j) as [->|Hne].
        * rewrite Hnew. destruct (Z.leb_spec j (j - 1)); [lia|done].
        * assert (trailPixel (trailScrollPixel fade j t) k' = trailPixel t k') as ->.
          { unfold trailScrollPixel, trailPixel.
            destruct (j >=? _); apply getPixelColor_set_ne;
              cbv [trailLed TRAIL_REVERSE]; lia. }
          rewrite Hpix by done.
          destruct (Z.leb_spec k' j), (Z.leb_spec k' (j - 1)); try lia; done. }
  rewrite Hfin by done.
  destruct (Z.leb_spec k (NUM_LEDS - 1 - Z.of_nat (Z.to_nat (NUM_LEDS - TRAIL_REALTIME_LEDS)))),
    (Z.ltb_spec k TRAIL_REALTIME_LEDS); try done; revert H H0; consts; lia.
Qed.

(** Without fade, on 24-bit colours, a scroll step moves every pixel
    beyond the realtime zone 8 places on and changes nothing else. *)
Lemma trailScroll_one_pixel (strip : list Z) (k : Z) :
  length strip = 120%nat -> 0 <= k < NUM_LEDS ->
  0 <= trailPixel strip (k - TRAIL_REALTIME_LEDS) < 2 ^ 24 ->
  trailPixel (trailScroll 1 strip) k =
  if k <? TRAIL_REALTIME_LEDS then trailPixel strip k
  else trailPixel strip (k - TRAIL_REALTIME_LEDS).
Proof.
  intros Hlen Hk Hc. rewrite trailScroll_pixel by done.
  destruct (k <? _); [done|]. unfold scrolled.
  destruct (k >=? _); rewrite ?trailFadeColor_one by done; now apply mask24_small.
Qed.

Lemma trailScroll_iter (strip : list Z) (n : nat) :
  frame strip ->
  length (Nat.iter n (trailScroll 1) strip) = 120%nat /\
  forall k, 0 <= k < NUM_LEDS ->
    trailPixel (Nat.iter n (trailScroll 1) strip) k =
    trailPixel strip (k - 8 * Z.min (Z.of_nat n) (k / 8)).
Proof.
  intros Hf. induction n as [|n [IHl IHp]].
  - split; [apply Hf|]. intros k Hk. change (Nat.iter 0 (trailScroll 1) strip) with strip.
    f_equal. revert Hk. consts. intros Hk. Z.to_euclidean_division_equations. lia.
  - rewrite Nat.iter_succ. split; [now rewrite length_trailScroll|].
    intros k Hk.
    assert (0 <= trailPixel (Nat.iter n (trailScroll 1) strip) (k - TRAIL_REALTIME_LEDS)
            < 2 ^ 24) as Hc.
    { destruct (Z.lt_ge_cases k 8) as [Hlt|Hge].
      - unfold trailPixel, getPixelColor, trailLed, TRAIL_REVERSE.
        destruct (Z.leb_spec 0 (NUM_LEDS - 1 - (k - TRAIL_REALTIME_LEDS))),
          (Z.ltb_spec (NUM_LEDS - 1 - (k - TRAIL_REALTIME_LEDS)) NUM_LEDS);
          cbn [andb]; try done.
        revert H0. consts. lia.
      - rewrite IHp by (revert Hk; consts; lia). now apply getPixelColor_frame. }
    rewrite trailScroll_one_pixel by done.
    destruct (Z.ltb_spec k TRAIL_REALTIME_LEDS) as [Hlt|Hge].
    + rewrite IHp by done. f_equal. revert Hlt Hk. consts. intros Hlt Hk.
      Z.to_euclidean_division_equations. lia.
    + rewrite IHp by (revert Hk Hge; consts; lia). f_equal.
      revert Hge Hk. consts. intros Hge Hk.
      Z.to_euclidean_division_equations. lia.
Qed.

Lemma one_lit_frame : frame one_lit.
Proof.
  split; [reflexivity|].
  refine (bool_decide_unpack (Forall (fun c => 0 <= c < 2 ^ 24) one_lit) _).
  vm_compute. exact I.
Qed.

(** C7 as stated fails: after 15 = NUM_LEDS / TRAIL_REALTIME_LEDS steps the
    pattern is neither 15 pixels on nor 15 blocks (120 pixels, beyond the
    end of the strip) on. *)
Lemma pattern_shifted_counterexample :
  frame one_lit /\
  ~ pattern_shifted 15 15 one_lit /\
  ~ pattern_shifted 15 (15 * TRAIL_REALTIME_LEDS) one_lit.
Proof.
  split; [apply one_lit_frame|].
  split; intros H; specialize (H 0 ltac:(done)); vm_compute in H; discriminate.
Qed.

(** * Intensities and colour channels *)

Lemma ftoi_range (q : Q) (n : Z) :
  0 <= n -> (0 <= q)%Q -> (q <= itof n)%Q -> 0 <= ftoi q <= n.
Proof.
  destruct q as [a d]. unfold Qle, ftoi, itof. cbn [Qnum Qden inject_Z].
  intros Hn H0 H1. rewrite Z.quot_div_nonneg by lia.
  split; [apply Z.div_pos; lia|].
  apply Z.div_le_upper_bound; lia.
Qed.

Lemma scaled_channel_range (c k : Z) (x : Q) :
  0 <= k -> (0 <= x <= 1)%Q -> 0 <= ftoi (itof (channel c k) * x) <= 255.
Proof.
  intros Hk Hx. pose proof (channel_range c k Hk) as Hc.
  assert (0 <= itof (channel c k) <= 255)%Q as Hq.
  { split; [change 0%Q with (itof 0)|change 255%Q with (itof 255)];
      apply itof_le; lia. }
  apply ftoi_range; [lia| |change (itof 255) with 255%Q]; nra.
Qed.

Lemma ftou8_range (q : Q) : 0 <= ftou8 q < 256.
Proof. apply u8_range. Qed.

Lemma addChannel_range (existing color k : Z) (brightness : Q) :
  0 <= addChannel existing color k brightness <= 255.
Proof.
  unfold addChannel.
  pose proof (ftou8_range (itof (channel color k) * brightness)).
  pose proof (u8_range (channel existing k)). lia.
Qed.

Lemma lavaAddColorToPixel_channels (strip : list Z) (pixel color : Z) (brightness : Q) :
  length strip = 120%nat -> 0 <= pixel < NUM_LEDS ->
  forall k, k = 16 \/ k = 8 \/ k = 0 ->
    channel (getPixelColor (lavaAddColorToPixel strip pixel color brightness) pixel) k =
    Z.min 255 (channel (getPixelColor strip pixel) k
               + ftou8 (itof (channel color k) * brightness)).
Proof.
  intros Hlen Hp k Hk. unfold lavaAddColorToPixel.
  rewrite getPixelColor_set_eq by done.
  rewrite mask24_small by apply Color_range.
  destruct (channel_Color
    (addChannel (getPixelColor strip pixel) color 16 brightness)
    (addChannel (getPixelColor strip pixel) color 8 brightness)
    (addChannel (getPixelColor strip pixel) color 0 brightness)) as (C16 & C8 & C0).
  assert (forall j, 0 <= j ->
            u8 (addChannel (getPixelColor strip pixel) color j brightness) =
            Z.min 255 (channel (getPixelColor strip pixel) j
                       + ftou8 (itof (channel color j) * brightness))) as Hadd.
  { intros j Hj. rewrite u8_small.
    - unfold addChannel. rewrite u8_small by now apply channel_range. done.
    - pose proof (addChannel_range (getPixelColor strip pixel) color j brightness). lia. }
  destruct Hk as [->|[->| ->]].
  - rewrite C16. now apply Hadd.
  - rewrite C8. now apply Hadd.
  - rewrite C0. now apply Hadd.
Qed.

(** C9.  Each engine's intensity is clamped before it scales a colour:
    Trail's into [0.2, 1], Lava's falloff times brightness and Spectrum's
    intensity into [0, 1]; a channel scaled by such an intensity stays within
    0 .. 255; and [lavaAddColorToPixel] leaves in each channel of the pixel
    [min(255, old + new)], never more than 255. *)
Theorem intensities_in_unit_range :
  (forall band noise peak x,
     trailIntensity band noise peak = Some x -> (0.2 <= x <= 1)%Q) /\
  (forall i center size brightness x,
     lavaFalloff i center size brightness = Some x -> (0 <= x <= 1)%Q) /\
  (forall value peak noiseFloor,
     exists x, spectrumIntensity value peak noiseFloor = Some x /\ (0 <= x <= 1)%Q) /\
  (forall c k x, 0 <= k -> (0 <= x <= 1)%Q ->
     0 <= ftoi (itof (channel c k) * x) <= 255) /\
  (forall existing color k brightness,
     0 <= addChannel existing color k brightness <= 255) /\
  (forall strip pixel color brightness,
     length strip = 120%nat -> 0 <= pixel < NUM_LEDS ->
     forall k, k = 16 \/ k = 8 \/ k = 0 ->
       channel (getPixelColor (lavaAddColorToPixel strip pixel color brightness) pixel) k =
       Z.min 255 (channel (getPixelColor strip pixel) k
                  + ftou8 (itof (channel color k) * brightness)) /\
       channel (getPixelColor (lavaAddColorToPixel strip pixel color brightness) pixel) k
       <= 255).
Proof.
  split; [|split; [|split; [|split; [|split]]]].
  - intros band noise peak x. unfold trailIntensity.
    destruct (fdiv _ _) as [q|]; [|done]. cbn [mbind option_bind]. intros [= <-].
    pose proof (constrain_bounds q 0.2 1.0). lra.
  - intros i center size brightness x. unfold lavaFalloff.
    destruct (fdiv _ _) as [q|]; [|done]. cbn [mbind option_bind]. intros [= <-].
    apply constrain_bounds. lra.
  - apply spectrumIntensity_total.
  - apply scaled_channel_range.
  - apply addChannel_range.
  - intros strip pixel color brightness Hlen Hp k Hk.
    rewrite lavaAddColorToPixel_channels by done. split; [done|]. lia.
Qed.

(** A loud Trail band, a pixel 3 places from the centre of a blob of size 12,
    and the green channel of a Lava colour at half brightness. *)
Lemma intensities_in_unit_range_witness :
  (exists x, trailIntensity 300 80 200 = Some x /\ (0.2 <= x <= 1)%Q) /\
  (exists x, lavaFalloff 7 10 12 0.5 = Some x /\ (0 <= x <= 1)%Q) /\
  0 <= ftoi (itof (channel 0xFF4400 8) * 0.5) <= 255 /\
  channel (getPixelColor (lavaAddColorToPixel one_lit 119 0xFF4400 0.5) 119) 0 <= 255.
Proof.
  destruct intensities_in_unit_range as (H1 & H2 & _ & H4 & _ & H6).
  split; [|split; [|split]].
  - eexists. split; [vm_compute; reflexivity|].
    apply (H1 300%Q 80%Q 200%Q). vm_compute. reflexivity.
  - eexists. split; [vm_compute; reflexivity|].
    apply (H2 7 10%Q 12%Q 0.5%Q). vm_compute. reflexivity.
  - apply H4; [vm_compute; discriminate|]. split; vm_compute; discriminate.
  - apply (H6 one_lit 119 0xFF4400 0.5%Q).
    + reflexivity.
    + vm_compute. split; [discriminate|reflexivity].
    + right. right. reflexivity.
Defined.

(** * Spike detection *)

Lemma detectAudioSpike_floor (g : Global) :
  (globalAudioPeak g <= 50)%Q -> detectAudioSpike g = Some false.
Proof.
  intros Hp. unfold detectAudioSpike.
  destruct (fgeb_spec 50 (globalAudioPeak g)); [done|lra].
Qed.

Lemma detectAudioSpike_eq (g : Global) :
  (50 < globalAudioPeak g)%Q ->
  detectAudioSpike g =
  Some (fgtb (normalized (globalAudioLevel g) (globalAudioPeak g)) SPIKE_THRESHOLD
        && fgtb (normalized (globalAudioLevel g) (globalAudioPeak g))
             (normalized (globalLastAudioLevel g) (globalAudioPeak g) + 0.25)%Q).
Proof.
  intros Hp. unfold detectAudioSpike.
  destruct (fgeb_spec 50 (globalAudioPeak g)); [lra|].
  rewrite !fdiv_Some by lra. reflexivity.
Qed.

(** * Divisions *)

Lemma lavaNormalize_floor (level peak : Q) :
  (peak <= 50)%Q -> lavaNormalize level peak = Some 0%Q.
Proof.
  intros Hp. unfold lavaNormalize. destruct (fgtb_spec peak 50); [lra|done].
Qed.

Lemma lavaCheckTrigger_floor (d : Draws) (l : Lava) :
  (lavaAudioPeak l <= 50)%Q -> lavaCheckTrigger d l = Some l.
Proof.
  intros Hp. unfold lavaCheckTrigger. rewrite !lavaNormalize_floor by done.
  cbn [mbind option_bind]. unfold LAVA_TRIGGER_THRESHOLD.
  destruct (fgtb_spec 0 0.3); [lra|done].
Qed.

Lemma spectrumIntensity_floor (value peak noiseFloor : Q) :
  (value <= noiseFloor)%Q \/ (peak <= noiseFloor)%Q ->
  spectrumIntensity value peak noiseFloor = Some 0%Q.
Proof.
  intros Hvp. unfold spectrumIntensity.
  destruct (fgtb_spec value noiseFloor), (fgtb_spec peak noiseFloor);
    cbn [andb]; try done. lra.
Qed.

Lemma spectrumIntensity_quotient (value peak noiseFloor : Q) :
  (noiseFloor < value)%Q -> (noiseFloor < peak)%Q ->
  spectrumIntensity value peak noiseFloor =
  Some (constrain ((value - noiseFloor) / (peak - noiseFloor) * SPECTRUM_SENSITIVITY)
          0.0 1.0).
Proof.
  intros Hv Hp. unfold spectrumIntensity.
  destruct (fgtb_spec value noiseFloor), (fgtb_spec peak noiseFloor);
    cbn [andb]; try lra.
  rewrite fdiv_Some by lra. reflexivity.
Qed.

(** * The passes of [loop()], taken apart *)

Lemma loop_inv (i : Input) (s s' : Firmware) :
  loop i s = Some s' ->
  exists g s1,
    updateGlobalAudioLevel (vReal i) (global s) = Some g /\
    checkModeSwitch (now_check i) (now_switch i) (set_global g s) = Some s1 /\
    runEngine i s1 = Some s'.
Proof.
  unfold loop.
  destruct (updateGlobalAudioLevel (vReal i) (global s)) as [g|] eqn:Hg; [|done].
  cbn [mbind option_bind].
  destruct (checkModeSwitch (now_check i) (now_switch i) (set_global g s)) as [s1|] eqn:Hc;
    [|done].
  cbn [mbind option_bind]. intros Hr. exists g, s1. done.
Qed.

Lemma checkModeSwitch_cases (now now' : Z) (s s1 : Firmware) :
  checkModeSwitch now now' s = Some s1 ->
  s1 = s \/
  nextMode now' s = Some s1 \/
  nextMode now' (set_lastSpikeSwitch now s) = Some s1.
Proof.
  unfold checkModeSwitch. destruct (_ && _); [auto|].
  destruct (_ && _); [|intros [= <-]; auto].
  destruct (detectAudioSpike (global s)) as [[|]|]; cbn [mbind option_bind];
    [auto|intros [= <-]; auto|done].
Qed.

Lemma runEngine_fields (i : Input) (s s' : Firmware) :
  runEngine i s = Some s' ->
  currentMode s' = currentMode s /\
  lastSwitch s' = lastSwitch s /\
  lastSpikeSwitch s' = lastSpikeSwitch s /\
  global s' = global s.
Proof.
  unfold runEngine. destruct (currentMode s) eqn:Hm.
  - destruct (trailUpdate _ _ _ _) as [[t st]|]; cbn [mbind option_bind]; [|done].
    intros [= <-]. done.
  - destruct (lavaUpdate _ _ _ _) as [[l st]|]; cbn [mbind option_bind]; [|done].
    intros [= <-]. done.
  - destruct (spectrumUpdate _ _ _) as [[p st]|]; cbn [mbind option_bind]; [|done].
    intros [= <-]. done.
Qed.

Lemma runEngine_frame (i : Input) (s s' : Firmware) :
  runEngine i s = Some s' -> others_kept (currentMode s) s s'.
Proof.
  unfold runEngine, others_kept. destruct (currentMode s) eqn:Hm.
  - destruct (trailUpdate _ _ _ _) as [[t st]|]; cbn [mbind option_bind]; [|done].
    intros [= <-]. done.
  - destruct (lavaUpdate _ _ _ _) as [[l st]|]; cbn [mbind option_bind]; [|done].
    intros [= <-]. done.
  - destruct (spectrumUpdate _ _ _) as [[p st]|]; cbn [mbind option_bind]; [|done].
    intros [= <-]. done.
Qed.

Lemma nextMode_frame (now : Z) (s s' : Firmware) :
  nextMode now s = Some s' -> others_kept (currentMode s') s s'.
Proof.
  unfold nextMode. rewrite next_mode_eq.
  destruct (currentMode s); cbn [successor].
  - intros [= <-]. done.
  - destruct (spectrumSetup _) as [p|]; cbn [mbind option_bind]; [|done].
    intros [= <-]. done.
  - unfold trailSetup. intros [= <-]. done.
Qed.

Lemma nextMode_fields (now : Z) (s s' : Firmware) :
  nextMode now s = Some s' ->
  currentMode s' = successor (currentMode s) /\
  lastSwitch s' = now /\
  lastSpikeSwitch s' = lastSpikeSwitch s /\
  global s' = global s.
Proof.
  intros Hn. destruct (nextMode_total now s) as (s0 & Hs0 & Hf).
  rewrite Hn in Hs0. injection Hs0 as <-. exact Hf.
Qed.

(** X1.  One pass of [loop()] moves the mode at most one step round the
    cycle.  If the mode is unchanged, so are both switch timers; if it
    changes, it is to the successor mode, [lastSwitch] is the clock reading
    [nextMode] took, and [lastSpikeSwitch] is either unchanged (periodic
    switch) or the reading of [checkModeSwitch] (spike switch). *)
Theorem loop_mode_step (i : Input) (s s' : Firmware) :
  loop i s = Some s' ->
  (currentMode s' = currentMode s /\
   lastSwitch s' = lastSwitch s /\
   lastSpikeSwitch s' = lastSpikeSwitch s) \/
  (currentMode s' = successor (currentMode s) /\
   lastSwitch s' = now_switch i /\
   (lastSpikeSwitch s' = lastSpikeSwitch s \/ lastSpikeSwitch s' = now_check i)).
Proof.
  intros Hl. destruct (loop_inv i s s' Hl) as (g & s1 & _ & Hc & Hr).
  destruct (runEngine_fields i s1 s' Hr) as (-> & -> & -> & _).
  destruct (checkModeSwitch_cases _ _ _ _ Hc) as [->|[Hn|Hn]].
  - left. done.
  - right. destruct (nextMode_fields _ _ _ Hn) as (-> & -> & -> & _). auto.
  - right. destruct (nextMode_fields _ _ _ Hn) as (-> & -> & -> & _). auto.
Qed.

Lemma loop_mode_step_witness :
  exists s', loop (flat 1000 30006) (after_setup 5) = Some s' /\
    ((currentMode s' = currentMode (after_setup 5) /\
      lastSwitch s' = lastSwitch (after_setup 5) /\
      lastSpikeSwitch s' = lastSpikeSwitch (after_setup 5)) \/
     (currentMode s' = successor (currentMode (after_setup 5)) /\
      lastSwitch s' = now_switch (flat 1000 30006) /\
      (lastSpikeSwitch s' = lastSpikeSwitch (after_setup 5) \/
       lastSpikeSwitch s' = now_check (flat 1000 30006)))).
Proof.
  destruct (loop_invariant (flat 1000 30006) (after_setup 5)) as (s' & Hs' & _).
  { apply reachable_invariant, after_setup_reachable. }
  exists s'. split; [exact Hs'|].
  exact (loop_mode_step (flat 1000 30006) (after_setup 5) s' Hs').
Defined.

(** X2.  A pass changes the state of one engine only, the engine of the
    mode that is current when the pass ends: the Trail state, the Lava state
    and the Spectrum bin peaks of the other two are left as they were. *)
Theorem loop_keeps_other_engines (i : Input) (s s' : Firmware) :
  loop i s = Some s' -> others_kept (currentMode s') s s'.
Proof.
  intros Hl. destruct (loop_inv i s s' Hl) as (g & s1 & _ & Hc & Hr).
  pose proof (runEngine_frame i s1 s' Hr) as Hf.
  destruct (runEngine_fields i s1 s' Hr) as (-> & _).
  assert (others_kept (currentMode s1) s s1) as Hk.
  { destruct (checkModeSwitch_cases _ _ _ _ Hc) as [->|[Hn|Hn]].
    - unfold others_kept. now destruct (currentMode (set_global g s)).
    - apply nextMode_frame in Hn. revert Hn. unfold others_kept.
      now destruct (currentMode s1).
    - apply nextMode_frame in Hn. revert Hn. unfold others_kept.
      now destruct (currentMode s1). }
  revert Hf Hk. unfold others_kept.
  destruct (currentMode s1); intros [-> ->] [-> ->]; done.
Qed.

Lemma loop_keeps_other_engines_witness :
  exists s', loop (flat 1000 30006) (after_setup 5) = Some s' /\
    others_kept (currentMode s') (after_setup 5) s'.
Proof.
  destruct (loop_invariant (flat 1000 30006) (after_setup 5)) as (s' & Hs' & _).
  { apply reachable_invariant, after_setup_reachable. }
  exists s'. split; [exact Hs'|].
  exact (loop_keeps_other_engines (flat 1000 30006) (after_setup 5) s' Hs').
Defined.

(** X3.  The switch timers are compared as differences modulo 2^32, so
    they survive the wrap-around of [millis()]: [d] milliseconds after the
    last switch, with [d] below 2^32, the periodic switch fires when
    [d >= SWITCH_INTERVAL_MS], whatever the two clock readings are; and when
    both timers were set together and [d < MIN_MODE_TIME_MS], nothing
    happens. *)
Theorem mode_timers_survive_wraparound (s : Firmware) (d now' : Z) :
  0 <= d < 2 ^ 32 ->
  (SWITCH_INTERVAL_MS <= d ->
   checkModeSwitch (u32 (lastSwitch s + d)) now' s = nextMode now' s) /\
  (d < MIN_MODE_TIME_MS -> lastSpikeSwitch s = lastSwitch s ->
   checkModeSwitch (u32 (lastSwitch s + d)) now' s = Some s).
Proof.
  intros Hd. split.
  - intros Hi. apply checkModeSwitch_periodic. now rewrite u32_elapsed.
  - intros Hm Heq. apply checkModeSwitch_dwell.
    + rewrite u32_elapsed by done. pose proof dwell_below_interval. lia.
    + rewrite Heq, u32_elapsed by done. done.
Qed.

Lemma mode_timers_survive_wraparound_witness :
  u32 (lastSwitch (after_setup 4294966296) + 90000) < lastSwitch (after_setup 4294966296) /\
  checkModeSwitch (u32 (lastSwitch (after_setup 4294966296) + 90000)) 89000
    (after_setup 4294966296)
  = nextMode 89000 (after_setup 4294966296).
Proof.
  split; [vm_compute; reflexivity|].
  apply (mode_timers_survive_wraparound (after_setup 4294966296) 90000 89000).
  - vm_compute. split; [discriminate|reflexivity].
  - vm_compute. discriminate.
Defined.

(** X4.  Three calls of [nextMode] from any state all succeed, visit the
    two other modes and return to the mode they started from; they touch
    neither [lastSpikeSwitch] nor the shared loudness tracker. *)
Theorem switches_round_robin (s : Firmware) (t1 t2 t3 : Z) :
  exists s1 s2 s3,
    nextMode t1 s = Some s1 /\ nextMode t2 s1 = Some s2 /\ nextMode t3 s2 = Some s3 /\
    currentMode s3 = currentMode s /\
    currentMode s1 <> currentMode s /\
    currentMode s2 <> currentMode s /\
    currentMode s2 <> currentMode s1 /\
    lastSpikeSwitch s3 = lastSpikeSwitch s /\
    global s3 = global s.
Proof.
  destruct (nextMode_total t1 s) as (s1 & H1 & M1 & _ & P1 & G1).
  destruct (nextMode_total t2 s1) as (s2 & H2 & M2 & _ & P2 & G2).
  destruct (nextMode_total t3 s2) as (s3 & H3 & M3 & _ & P3 & G3).
  exists s1, s2, s3. rewrite M3, M2, M1, P3, P2, P1, G3, G2, G1.
  destruct (currentMode s); done.
Qed.

(** * Loop rules for loops that may fail *)

Section LoopPost.
Context {S : Type}.

Lemma for_up_post (P : Z -> S -> Prop) n i body s t :
  P i s ->
  (forall j u u', i <= j < i + Z.of_nat n -> P j u -> body j u = Some u' -> P (j + 1) u') ->
  for_up n i body s = Some t -> P (i + Z.of_nat n) t.
Proof.
  revert i s. induction n as [|n IH]; intros i s H0 Hstep.
  - cbn. intros [= <-]. now replace (i + Z.of_nat 0) with i by lia.
  - cbn [for_up]. destruct (body i s) as [u|] eqn:Hb; [|done].
    cbn [mbind option_bind]. intros Ht.
    replace (i + Z.of_nat (Datatypes.S n)) with (i + 1 + Z.of_nat n) by lia.
    apply (IH (i + 1) u); [| |exact Ht].
    + apply (Hstep i s u); [lia|done|done].
    + intros j w w' Hj. apply Hstep. lia.
Qed.

Lemma for_range_post (P : Z -> S -> Prop) lo hi body s t :
  lo <= hi ->
  P lo s ->
  (forall j u u', lo <= j < hi -> P j u -> body j u = Some u' -> P (j + 1) u') ->
  for_range lo hi body s = Some t -> P hi t.
Proof.
  intros Hle H0 Hstep Ht. unfold for_range in Ht.
  replace hi with (lo + Z.of_nat (Z.to_nat (hi - lo))) at 1 by lia.
  apply (for_up_post P _ lo body s t); [done| |done].
  intros j u u' Hj. apply Hstep. lia.
Qed.

Lemma for_up_ext n i (body body' : Z -> S -> option S) s :
  (forall j u, i <= j < i + Z.of_nat n -> body j u = body' j u) ->
  for_up n i body s = for_up n i body' s.
Proof.
  revert i s. induction n as [|n IH]; intros i s Hext; [done|].
  cbn [for_up]. rewrite Hext by lia. destruct (body' i s) as [u|]; [|done].
  cbn [mbind option_bind]. apply IH. intros j w Hj. apply Hext. lia.
Qed.

Lemma for_range_ext lo hi (body body' : Z -> S -> option S) s :
  (forall j u, lo <= j < hi -> body j u = body' j u) ->
  for_range lo hi body s = for_range lo hi body' s.
Proof.
  intros Hext. unfold for_range. apply for_up_ext. intros j u Hj. apply Hext. lia.
Qed.

Lemma loop_up_ext n i (body body' : Z -> S -> S) s :
  (forall j u, i <= j < i + Z.of_nat n -> body j u = body' j u) ->
  loop_up n i body s = loop_up n i body' s.
Proof.
  revert i s. induction n as [|n IH]; intros i s Hext; [done|].
  cbn [loop_up]. rewrite Hext by lia. apply IH. intros j w Hj. apply Hext. lia.
Qed.

Lemma loop_range_ext lo hi (body body' : Z -> S -> S) s :
  (forall j u, lo <= j < hi -> body j u = body' j u) ->
  loop_range lo hi body s = loop_range lo hi body' s.
Proof.
  intros Hext. unfold loop_range. apply loop_up_ext. intros j u Hj. apply Hext. lia.
Qed.
End LoopPost.

(** * The mean of the spectrum *)

Lemma itof_succ (z : Z) : (itof (z + 1) == itof z + 1)%Q.
Proof. unfold itof. now rewrite inject_Z_plus. Qed.

Lemma mean_bounds (x lo hi : Q) (n : Z) :
  0 < n -> (itof n * lo <= x <= itof n * hi)%Q -> (lo <= x / itof n <= hi)%Q.
Proof.
  intros Hn [Hl Hh]. assert (0 < itof n)%Q as Hp.
  { change 0%Q with (itof 0). now apply itof_lt. }
  split.
  - apply Qle_shift_div_l; [done|]. lra.
  - apply Qle_shift_div_r; [done|]. lra.
Qed.

Lemma meanSpectrum_bounds (lo hi : Q) (v : list Q) :
  bins_within lo hi v ->
  exists a, meanSpectrum v = Some a /\ (lo <= a <= hi)%Q.
Proof.
  intros Hv. unfold meanSpectrum.
  rewrite fdiv_Some by (apply itof_nonzero; consts; lia).
  eexists. split; [reflexivity|]. apply mean_bounds; [consts; lia|].
  apply (loop_range_inv
    (fun j acc => (itof (j - 1) * lo <= acc <= itof (j - 1) * hi)%Q)).
  - consts. lia.
  - change (itof (1 - 1)) with 0%Q. lra.
  - intros j acc Hj Hacc. specialize (Hv j Hj).
    replace (j + 1 - 1) with (j - 1 + 1) by lia.
    pose proof (itof_succ (j - 1)) as E.
    set (c := itof (j - 1)) in *. set (c' := itof (j - 1 + 1)) in *.
    nra.
Qed.

(** * Band levels *)

Lemma trail_band_range (b : Z) :
  0 <= b < TRAIL_NUM_BANDS ->
  1 <= aget TRAIL_BAND_START b
    < (if b <? TRAIL_NUM_BANDS - 1 then aget TRAIL_BAND_START (b + 1) else TRAIL_BAND_END) /\
  (if b <? TRAIL_NUM_BANDS - 1 then aget TRAIL_BAND_START (b + 1) else TRAIL_BAND_END)
    <= NUM_BINS.
Proof.
  consts. intros Hb.
  assert (b = 0 \/ b = 1 \/ b = 2 \/ b = 3 \/ b = 4 \/ b = 5 \/ b = 6 \/ b = 7) as Hc by lia.
  destruct Hc as [->|[->|[->|[->|[->|[->|[->| ->]]]]]]]; vm_compute; repeat split; discriminate.
Qed.

Lemma lava_band_range (b : Z) :
  0 <= b < LAVA_NUM_BANDS ->
  1 <= aget bandBins b < aget bandBins (b + 1) /\ aget bandBins (b + 1) <= NUM_BINS.
Proof.
  consts. intros Hb.
  assert (b = 0 \/ b = 1 \/ b = 2 \/ b = 3 \/ b = 4 \/ b = 5) as Hc by lia.
  destruct Hc as [->|[->|[->|[->|[->| ->]]]]]; vm_compute; repeat split; discriminate.
Qed.

(** The accumulation loop of a band: slot [b] gains the bins [lo .. hi - 1]. *)
Lemma band_sum (v l : list Q) (b start e : Z) (lo hi : Q) :
  (forall k, start <= k < e -> (lo <= aget v k <= hi)%Q) ->
  start <= e -> 0 <= b < Z.of_nat (length l) ->
  let l' := loop_range start e (fun i lv => aset lv b (aget lv b + aget v i)%Q) l in
  length l' = length l /\
  (aget l b + itof (e - start) * lo <= aget l' b <= aget l b + itof (e - start) * hi)%Q /\
  forall b', 0 <= b' -> b' <> b -> aget l' b' = aget l b'.
Proof.
  intros Hv Hle Hb.
  apply (loop_range_inv
    (fun j lv => length lv = length l /\
       (aget l b + itof (j - start) * lo <= aget lv b
        <= aget l b + itof (j - start) * hi)%Q /\
       forall b', 0 <= b' -> b' <> b -> aget lv b' = aget l b')).
  - done.
  - split; [done|]. split; [|done].
    replace (start - start) with 0 by lia. change (itof 0) with 0%Q. lra.
  - intros j lv Hj (Hl & Hs & Ho). split; [now rewrite length_aset|]. split.
    + rewrite aget_aset_eq by lia. specialize (Hv j Hj).
      replace (j + 1 - start) with (j - start + 1) by lia.
      pose proof (itof_succ (j - start)) as E.
      set (c := itof (j - start)) in *. set (c' := itof (j - start + 1)) in *.
      nra.
    + intros b' Hb' Hne. rewrite aget_aset_ne by lia. now apply Ho.
Qed.

Lemma band_sum_shape (v l : list Q) (b start e : Z) :
  start <= e -> 0 <= b ->
  let l' := loop_range start e (fun i lv => aset lv b (aget lv b + aget v i)%Q) l in
  length l' = length l /\
  forall b', 0 <= b' -> b' <> b -> aget l' b' = aget l b'.
Proof.
  intros Hle Hb.
  apply (loop_range_inv
    (fun (j : Z) lv => length lv = length l /\
       forall b', 0 <= b' -> b' <> b -> aget lv b' = aget l b')).
  - done.
  - done.
  - intros j lv Hj (Hl & Ho). split; [now rewrite length_aset|].
    intros b' Hb' Hne. rewrite aget_aset_ne by lia. now apply Ho.
Qed.

Lemma trailAnalyzeBand_mean (lo hi : Q) (v : list Q) (b : Z) (bands bands' : list Q) :
  bins_within lo hi v ->
  0 <= b < TRAIL_NUM_BANDS -> length bands = 8%nat ->
  trailAnalyzeBand v b bands = Some bands' ->
  length bands' = 8%nat /\
  (lo <= aget bands' b <= hi)%Q /\
  forall b', 0 <= b' -> b' <> b -> aget bands' b' = aget bands b'.
Proof.
  intros Hv Hb Hlen. unfold trailAnalyzeBand.
  pose proof (trail_band_range b Hb) as Hr.
  set (start := aget TRAIL_BAND_START b) in *.
  set (e := if b <? TRAIL_NUM_BANDS - 1 then _ else _) in *.
  assert (0 <= b < 8) as Hb8 by (revert Hb; consts; lia).
  match goal with
  | |- context [loop_range start e ?body ?init] =>
      pose proof (loop_range_inv
        (fun j st => length (fst st) = 8%nat /\ snd st = j - start /\
           (itof (snd st) * lo <= aget (fst st) b <= itof (snd st) * hi)%Q /\
           forall b', 0 <= b' -> b' <> b -> aget (fst st) b' = aget bands b')
        start e body init) as HL
  end.
  destruct HL as (Hl & Hc & Hs & Ho).
  - lia.
  - cbn [fst snd]. split; [now rewrite length_aset|]. split; [lia|]. split.
    + rewrite aget_aset_eq by lia. change (itof 0) with 0%Q. lra.
    + intros b' Hb' Hne. now rewrite aget_aset_ne by lia.
  - intros j [bs c] Hj (Hl & Hc & Hs & Ho). cbn [fst snd] in *.
    split; [now rewrite length_aset|]. split; [lia|]. split.
    + rewrite aget_aset_eq by lia.
      assert (lo <= aget v j <= hi)%Q as Hvj by (apply Hv; lia).
      pose proof (itof_succ c) as E.
      set (q := itof c) in *. set (q' := itof (c + 1)) in *. nra.
    + intros b' Hb' Hne. rewrite aget_aset_ne by lia. now apply Ho.
  - destruct (loop_range start e _ _) as [bs c]. cbn [fst snd] in *.
    destruct (Z.ltb_spec 0 c); [|lia].
    rewrite fdiv_Some by (apply itof_nonzero; lia). cbn [mbind option_bind].
    intros [= <-]. split; [now rewrite length_aset|]. split.
    + rewrite aget_aset_eq by lia. now apply mean_bounds.
    + intros b' Hb' Hne. rewrite aget_aset_ne by lia. now apply Ho.
Qed.

Lemma trailAnalyze_mean (lo hi : Q) (v : list Q) (bands bands' : list Q) :
  bins_within lo hi v -> length bands = 8%nat ->
  trailAnalyze v bands = Some bands' ->
  length bands' = 8%nat /\
  forall b, 0 <= b < TRAIL_NUM_BANDS -> (lo <= aget bands' b <= hi)%Q.
Proof.
  intros Hv Hlen. unfold trailAnalyze. intros Ht.
  apply (for_range_post
      (fun j bs => length bs = 8%nat /\ forall b, 0 <= b < j -> (lo <= aget bs b <= hi)%Q)
      0 TRAIL_NUM_BANDS (trailAnalyzeBand v) bands bands'); [unfold TRAIL_NUM_BANDS; lia| | |exact Ht].
  - split; [done|]. intros b Hb. lia.
  - intros j u u' Hj [Hl Hu] Hstep.
    destruct (trailAnalyzeBand_mean lo hi v j u u' Hv Hj Hl Hstep) as (Hl' & Hm & Ho).
    split; [done|]. intros b Hb. destruct (Z.eq_dec b j) as [->|Hne]; [done|].
    rewrite Ho by lia. apply Hu. lia.
Qed.

Lemma lavaAnalyzeBand_result (lo hi : Q) (v : list Q) (b : Z) (s s' : BandScan) :
  0 <= b < LAVA_NUM_BANDS ->
  length (scanLevels s) = 6%nat -> length (scanPeaks s) = 6%nat ->
  lavaAnalyzeBand v b s = Some s' ->
  length (scanLevels s') = 6%nat /\ length (scanPeaks s') = 6%nat /\
  (forall b', 0 <= b' -> b' <> b ->
     aget (scanLevels s') b' = aget (scanLevels s) b' /\
     aget (scanPeaks s') b' = aget (scanPeaks s) b') /\
  aget (scanPeaks s') b = lavaBandPeakStep (aget (scanLevels s') b) (aget (scanPeaks s) b) /\
  (bins_within lo hi v -> (lo <= aget (scanLevels s') b <= hi)%Q) /\
  (0 <= bandNormalized (scanLevels s') (scanPeaks s') b <= 1)%Q /\
  (((maxBandLevel s < bandNormalized (scanLevels s') (scanPeaks s') b)%Q /\
    maxBandLevel s' = bandNormalized (scanLevels s') (scanPeaks s') b /\
    scanDominant s' = b) \/
   ((bandNormalized (scanLevels s') (scanPeaks s') b <= maxBandLevel s)%Q /\
    maxBandLevel s' = maxBandLevel s /\
    scanDominant s' = scanDominant s)).
Proof.
  intros Hb Hl Hp. unfold lavaAnalyzeBand. cbv zeta.
  pose proof (lava_band_range b Hb) as [Hr1 Hr2].
  assert (0 <= b < 6) as Hb6 by (revert Hb; consts; lia).
  set (start := aget bandBins b) in *. set (e := aget bandBins (b + 1)) in *.
  set (l0 := aset (scanLevels s) b 0%Q).
  assert (length l0 = 6%nat) as Hl0 by (unfold l0; now rewrite length_aset).
  assert (aget l0 b = 0%Q) as Hz by (unfold l0; apply aget_aset_eq; lia).
  set (l1 := loop_range start e _ l0).
  rewrite fdiv_Some by (apply itof_nonzero; lia). cbn [mbind option_bind].
  set (q := (aget l1 b / itof (e - start))%Q).
  assert (length l1 = 6%nat /\
          (forall b', 0 <= b' -> b' <> b -> aget l1 b' = aget (scanLevels s) b') /\
          (bins_within lo hi v -> (lo <= q <= hi)%Q)) as (Hl1 & Ho1 & Hq).
  { destruct (band_sum_shape v l0 b start e) as [H1 H2]; [lia|lia|].
    cbv zeta in H1, H2. fold l1 in H1, H2.
    split; [congruence|]. split.
    - intros b' Hb' Hne. rewrite H2 by done.
      unfold l0. now rewrite aget_aset_ne by lia.
    - intros Hv. destruct (band_sum v l0 b start e lo hi) as (_ & H3 & _).
      + intros k Hk. apply Hv. lia.
      + lia.
      + lia.
      + cbv zeta in H3. fold l1 in H3.
        unfold q. apply mean_bounds; [lia|]. rewrite Hz in H3. lra. }
  set (l2 := aset l1 b q).
  assert (aget l2 b = q) as Hq2 by (unfold l2; apply aget_aset_eq; lia).
  set (p2 := aset (scanPeaks s) b _).
  destruct (lavaNormalize_total (aget l2 b) (aget p2 b)) as (n & Hn & Hn01).
  assert (bandNormalized l2 p2 b = n) as Hbn by (unfold bandNormalized; now rewrite Hn).
  rewrite Hn. cbn [mbind option_bind].
  assert (length l2 = 6%nat) as Hl2 by (unfold l2; now rewrite length_aset).
  assert (length p2 = 6%nat) as Hp2 by (unfold p2; now rewrite length_aset).
  assert (forall b', 0 <= b' -> b' <> b ->
            aget l2 b' = aget (scanLevels s) b' /\ aget p2 b' = aget (scanPeaks s) b') as Ho.
  { intros b' Hb' Hne. unfold l2, p2. rewrite !aget_aset_ne by lia. split; [|done].
    now apply Ho1. }
  assert (aget p2 b = lavaBandPeakStep (aget l2 b) (aget (scanPeaks s) b)) as Hstep.
  { unfold p2. apply aget_aset_eq. lia. }
  destruct (fgtb_spec n (maxBandLevel s)); intros [= <-]; cbn [scanLevels scanPeaks
    maxBandLevel scanDominant]; rewrite Hbn;
    (split; [done|]); (split; [done|]); (split; [done|]); (split; [done|]);
    (split; [now rewrite Hq2|]); (split; [done|]); [left|right]; done.
Qed.


Lemma bandNormalized_ext (levels peaks levels' peaks' : list Q) (b : Z) :
  aget levels' b = aget levels b -> aget peaks' b = aget peaks b ->
  bandNormalized levels' peaks' b = bandNormalized levels peaks b.
Proof. unfold bandNormalized. now intros -> ->. Qed.

Lemma scanned_next (lo hi : Q) (v peaks0 : list Q) (j : Z) (s s' : BandScan) :
  0 <= j < LAVA_NUM_BANDS ->
  scanned lo hi v peaks0 j s ->
  lavaAnalyzeBand v j s = Some s' ->
  scanned lo hi v peaks0 (j + 1) s'.
Proof.
  intros Hj [Sl Sp Sm Ss Sr Sx Sd] Hb.
  destruct (lavaAnalyzeBand_result lo hi v j s s' Hj Sl Sp Hb)
    as (Hl & Hp & Ho & Hstep & Hmean & Hn & Hcase).
  assert (forall b, 0 <= b -> b <> j ->
            bandNormalized (scanLevels s') (scanPeaks s') b =
            bandNormalized (scanLevels s) (scanPeaks s) b) as Hnb.
  { intros b Hb0 Hne. destruct (Ho b Hb0 Hne). now apply bandNormalized_ext. }
  assert (forall b, 0 <= b < j -> (bandNormalized (scanLevels s) (scanPeaks s) b
                                   <= maxBandLevel s)%Q) as Sx' by exact Sx.
  split.
  - done.
  - done.
  - intros Hv b Hb'. destruct (Z.eq_dec b j) as [->|Hne]; [now apply Hmean|].
    destruct (Ho b) as [-> _]; [lia|done|]. apply Sm; [done|lia].
  - intros b Hb'. destruct (Z.eq_dec b j) as [->|Hne].
    + rewrite Hstep. f_equal. apply Sr. lia.
    + destruct (Ho b) as [-> ->]; [lia|done|]. apply Ss. lia.
  - intros b Hb'. destruct (Ho b) as [_ ->]; [lia|lia|]. apply Sr. lia.
  - intros b Hb'. destruct Hcase as [(Hlt & -> & _)|(Hle & -> & _)].
    + destruct (Z.eq_dec b j) as [->|Hne]; [lra|].
      rewrite Hnb by lia. pose proof (Sx' b ltac:(lia)). lra.
    + destruct (Z.eq_dec b j) as [->|Hne]; [done|].
      rewrite Hnb by lia. apply Sx'. lia.
  - destruct Hcase as [(Hlt & -> & ->)|(Hle & -> & ->)].
    + right. split; [lia|]. split; [done|].
      intros b Hb'. rewrite Hnb by lia. pose proof (Sx' b ltac:(lia)). lra.
    + destruct Sd as [[-> ->]|(Hd & Hm & Hb')].
      * left. done.
      * right. split; [lia|]. rewrite !Hnb by lia. split; [done|].
        intros b Hb''. rewrite Hnb by lia. now apply Hb'.
Qed.

Lemma lavaAnalyzeAudio_inv (v : list Q) (l l' : Lava) :
  lavaAnalyzeAudio v l = Some l' ->
  exists s a,
    for_range 0 LAVA_NUM_BANDS (lavaAnalyzeBand v)
      {| scanLevels := lavaBandLevels l; scanPeaks := lavaBandPeaks l;
         maxBandLevel := 0; scanDominant := 0 |} = Some s /\
    meanSpectrum v = Some a /\
    lavaBlobs l' = lavaBlobs l /\
    lavaBandLevels l' = scanLevels s /\
    lavaBandPeaks l' = scanPeaks s /\
    lavaDominantBand l' = scanDominant s /\
    lavaLastAudioLevel l' = lavaAudioLevel l /\
    lavaAudioLevel l' =
      (if fgtb a (lavaAudioLevel l) then a else (lavaAudioLevel l * 0.7 + a * 0.3)%Q) /\
    lavaAudioPeak l' =
      (if fgtb (lavaAudioLevel l') (lavaAudioPeak l) then lavaAudioLevel l'
       else (lavaAudioPeak l * 0.99 + 50 * 0.01)%Q).
Proof.
  unfold lavaAnalyzeAudio.
  destruct (for_range 0 LAVA_NUM_BANDS _ _) as [s|]; [|done]. cbn [mbind option_bind].
  destruct (meanSpectrum v) as [a|]; [|done]. cbn [mbind option_bind].
  intros [= <-]. exists s, a. done.
Qed.

Lemma lavaAnalyzeAudio_scanned (lo hi : Q) (v : list Q) (l l' : Lava) :
  length (lavaBandLevels l) = 6%nat -> length (lavaBandPeaks l) = 6%nat ->
  lavaAnalyzeAudio v l = Some l' ->
  exists s, scanned lo hi v (lavaBandPeaks l) LAVA_NUM_BANDS s /\
    lavaBandLevels l' = scanLevels s /\
    lavaBandPeaks l' = scanPeaks s /\
    lavaDominantBand l' = scanDominant s.
Proof.
  intros Hl Hp Ha.
  destruct (lavaAnalyzeAudio_inv v l l' Ha) as (s & a & Hs & _ & _ & E1 & E2 & E3 & _).
  exists s. split; [|done].
  revert Hs. apply (for_range_post (scanned lo hi v (lavaBandPeaks l))).
  - unfold LAVA_NUM_BANDS. lia.
  - split; cbn [scanLevels scanPeaks maxBandLevel scanDominant];
      [done|done|intros _ b Hb; lia|intros b Hb; lia|done|intros b Hb; lia|left; done].
  - intros j u u' Hj Hu Hstep. now apply (scanned_next lo hi v _ j u u').
Qed.







(** * The loudness trackers *)

Lemma updateGlobalAudioLevel_inv (v : list Q) (g g' : Global) :
  updateGlobalAudioLevel v g = Some g' ->
  exists a, meanSpectrum v = Some a /\
    globalLastAudioLevel g' = globalAudioLevel g /\
    globalAudioLevel g' =
      (if fgtb a (globalAudioLevel g) then a else (globalAudioLevel g * 0.7 + a * 0.3)%Q) /\
    globalAudioPeak g' =
      (if fgtb (globalAudioLevel g') (globalAudioPeak g) then globalAudioLevel g'
       else (globalAudioPeak g * 0.99 + 50 * 0.01)%Q).
Proof.
  unfold updateGlobalAudioLevel. destruct (meanSpectrum v) as [a|]; [|done].
  cbn [mbind option_bind]. intros [= <-]. exists a. done.
Qed.

(** * Quiet input *)

Lemma detectAudioSpike_low (g : Global) :
  (globalAudioLevel g <= 50 + SPIKE_THRESHOLD * (globalAudioPeak g - 50))%Q ->
  detectAudioSpike g = Some false.
Proof.
  intros Hlow.
  destruct (Qlt_le_dec 50 (globalAudioPeak g)) as [Hp|Hp];
    [|now apply detectAudioSpike_floor].
  rewrite detectAudioSpike_eq by done.
  assert (normalized (globalAudioLevel g) (globalAudioPeak g) <= SPIKE_THRESHOLD)%Q as Hn.
  { unfold normalized.
    assert ((globalAudioLevel g - 50) / (globalAudioPeak g - 50) <= SPIKE_THRESHOLD)%Q.
    { apply Qle_shift_div_r; [lra|]. lra. }
    revert H. unfold constrain, SPIKE_THRESHOLD. fcases; lra. }
  destruct (fgtb_spec (normalized (globalAudioLevel g) (globalAudioPeak g)) SPIKE_THRESHOLD);
    [lra|done].
Qed.

Lemma checkModeSwitch_no_spike (now now' : Z) (s : Firmware) :
  u32 (now - lastSwitch s) < SWITCH_INTERVAL_MS ->
  detectAudioSpike (global s) = Some false ->
  checkModeSwitch now now' s = Some s.
Proof.
  intros Hp Hs. unfold checkModeSwitch.
  destruct (Z.geb_spec (u32 (now - lastSwitch s)) SWITCH_INTERVAL_MS); [lia|].
  cbn [andb SWITCH_PERIODIC SWITCH_ON_SPIKE]. rewrite Hs.
  destruct (_ >=? _); done.
Qed.

Lemma quiet_pass (i : Input) (s : Firmware) :
  invariant s ->
  (globalAudioLevel (global s) <= 50)%Q ->
  quiet i ->
  u32 (now_check i - lastSwitch s) < SWITCH_INTERVAL_MS ->
  exists s', loop i s = Some s' /\ invariant s' /\
    currentMode s' = currentMode s /\
    lastSwitch s' = lastSwitch s /\
    lastSpikeSwitch s' = lastSpikeSwitch s /\
    (globalAudioLevel (global s') <= 50)%Q.
Proof.
  intros Hinv Hlev Hq Ht.
  destruct (loop_steps i s Hinv) as (g & s1 & s' & Hg & Hc & Hl & Hinv' & E1 & E2 & E3 & E4).
  destruct (updateGlobalAudioLevel_inv _ _ _ Hg) as (a & Ha & _ & Hlv & Hpk).
  destruct (meanSpectrum_bounds 0 50 (vReal i) Hq) as (a' & Ha' & Ha50).
  assert (a' = a) as -> by congruence.
  assert (globalAudioLevel g <= 50)%Q as Hg50.
  { rewrite Hlv. fcases; lra. }
  assert (50 <= globalAudioPeak g)%Q as Hp50.
  { eapply updateGlobalAudioLevel_floor; [exact Hg|]. now destruct Hinv as [_ [] _]. }
  rewrite checkModeSwitch_no_spike in Hc.
  - injection Hc as <-. exists s'. rewrite E1, E2, E3, E4. done.
  - exact Ht.
  - apply detectAudioSpike_low. cbn [global set_global]. unfold SPIKE_THRESHOLD. lra.
Qed.

(** X8.  From a reachable state whose loudness level is at most 50, passes
    whose bins 1 .. 31 all lie in [0, 50] never trigger a spike switch: as
    long as the periodic interval has not elapsed, the mode and both timers
    stay as they are, also after the minimum dwell. *)
Theorem quiet_input_keeps_the_mode (s : Firmware) (ins : list Input) :
  reachable s ->
  (globalAudioLevel (global s) <= 50)%Q ->
  Forall (fun i => quiet i /\ u32 (now_check i - lastSwitch s) < SWITCH_INTERVAL_MS) ins ->
  exists s', run ins s = Some s' /\
    currentMode s' = currentMode s /\
    lastSwitch s' = lastSwitch s /\
    lastSpikeSwitch s' = lastSpikeSwitch s.
Proof.
  intros Hr. apply reachable_invariant in Hr. revert s Hr.
  induction ins as [|i ins IH]; intros s Hinv Hlev Hall.
  - exists s. done.
  - inversion Hall as [|i0 ins0 [Hq Ht] Hall']; subst i0 ins0.
    destruct (quiet_pass i s Hinv Hlev Hq Ht) as (s1 & Hs1 & Hinv1 & M1 & S1 & P1 & L1).
    destruct (IH s1 Hinv1 L1) as (s' & Hs' & M' & S' & P').
    { rewrite S1. exact Hall'. }
    exists s'. cbn [run]. rewrite Hs1. cbn [mbind option_bind].
    split; [exact Hs'|]. split; [congruence|]. split; congruence.
Qed.

Lemma quiet_flat (x : Q) (t : Z) : (0 <= x <= 50)%Q -> quiet (flat x t).
Proof.
  intros Hx k Hk. cbn [vReal flat].
  rewrite aget_replicate by (revert Hk; consts; lia). lra.
Qed.

Lemma quiet_input_keeps_the_mode_witness :
  exists s', run [flat 40 31000; flat 10 60000] (after_setup 0) = Some s' /\
    currentMode s' = currentMode (after_setup 0) /\
    lastSwitch s' = lastSwitch (after_setup 0) /\
    lastSpikeSwitch s' = lastSpikeSwitch (after_setup 0).
Proof.
  apply (quiet_input_keeps_the_mode (after_setup 0) [flat 40 31000; flat 10 60000]).
  - apply after_setup_reachable.
  - vm_compute. discriminate.
  - constructor; [split|].
    + apply quiet_flat. split; vm_compute; discriminate.
    + vm_compute. reflexivity.
    + constructor; [split|constructor].
      * apply quiet_flat. split; vm_compute; discriminate.
      * vm_compute. reflexivity.
Defined.

(** * Lava: the life of a blob *)

Lemma blob_ok_fresh (b : LavaBlob) : blob_ok b -> blob_fresh b.
Proof. intros [? ? ? ? ?]. split; try done; lra. Qed.

Lemma lavaUpdateBlob_inactive (b : LavaBlob) :
  active b = false -> lavaUpdateBlob b = b.
Proof. intros Hoff. unfold lavaUpdateBlob. now rewrite Hoff. Qed.

Lemma lavaUpdateBlob_active (b : LavaBlob) :
  active (lavaUpdateBlob b) = true ->
  active b = true /\
  brightness (lavaUpdateBlob b) = (brightness b * LAVA_FADE_RATE)%Q /\
  size (lavaUpdateBlob b) = (size b * LAVA_SHRINK_RATE)%Q /\
  (0.02 <= brightness b * LAVA_FADE_RATE)%Q /\
  (1 <= size b * LAVA_SHRINK_RATE)%Q /\
  colorIndex (lavaUpdateBlob b) = colorIndex b /\
  (drift (lavaUpdateBlob b) = drift b \/ drift (lavaUpdateBlob b) = (drift b * -1)%Q) /\
  (0 <= position (lavaUpdateBlob b) < itof NUM_LEDS)%Q.
Proof.
  destruct (active b) eqn:Hact.
  2: { rewrite lavaUpdateBlob_inactive by done. congruence. }
  unfold lavaUpdateBlob. rewrite Hact. cbn [negb].
  destruct (fltb_spec (brightness b * LAVA_FADE_RATE) 0.02),
    (fltb_spec (size b * LAVA_SHRINK_RATE) 1); cbn [orb];
    destruct (fltb_spec (position b + drift b) 0),
      (fgeb_spec (position b + drift b) (itof NUM_LEDS)); cbn [orb];
    cbn [active brightness size colorIndex drift position]; try discriminate;
    intros _; repeat split; auto;
    try (pose proof (constrain_bounds (position b + drift b) 0 (itof (NUM_LEDS - 1)));
         change (itof (NUM_LEDS - 1)) with 119%Q in *;
         change (itof NUM_LEDS) with 120%Q in *; lra);
    change (itof NUM_LEDS) with 120%Q in *; lra.
Qed.

Lemma lavaUpdateBlob_ok (b : LavaBlob) :
  blob_fresh b -> active (lavaUpdateBlob b) = true -> blob_ok (lavaUpdateBlob b).
Proof.
  intros [Hb Hs Hd Hc] Hact.
  destruct (lavaUpdateBlob_active b Hact) as (_ & E1 & E2 & B1 & S1 & E3 & Hdr & Hpos).
  unfold LAVA_FADE_RATE, LAVA_SHRINK_RATE in *.
  split; rewrite ?E1, ?E2, ?E3; try done; try lra.
  destruct Hdr as [-> | ->]; [done|]. unfold drift_in_range in *. lra.
Qed.

Lemma lavaAnalyzeBand_dominant (v : list Q) (b : Z) (s s' : BandScan) :
  lavaAnalyzeBand v b s = Some s' ->
  scanDominant s' = b \/ scanDominant s' = scanDominant s.
Proof.
  unfold lavaAnalyzeBand. cbv zeta.
  destruct (fdiv _ _) as [q|]; [|done]. cbn [mbind option_bind].
  destruct (lavaNormalize _ _) as [n|]; [|done]. cbn [mbind option_bind].
  destruct (fgtb _ _); intros [= <-]; cbn [scanDominant]; auto.
Qed.

Lemma lavaAnalyzeAudio_dominant (v : list Q) (l l' : Lava) :
  lavaAnalyzeAudio v l = Some l' ->
  lavaBlobs l' = lavaBlobs l /\ 0 <= lavaDominantBand l' < LAVA_NUM_BANDS.
Proof.
  intros Ha.
  destruct (lavaAnalyzeAudio_inv v l l' Ha) as (s & a & Hs & _ & Hb & _ & _ & -> & _).
  split; [done|]. revert Hs.
  apply (for_range_post (fun j s => 0 <= scanDominant s < Z.max j 1)).
  - unfold LAVA_NUM_BANDS. lia.
  - cbn [scanDominant]. lia.
  - intros j u u' Hj Hu Hstep.
    destruct (lavaAnalyzeBand_dominant v j u u' Hstep) as [-> | ->]; lia.
Qed.

Lemma lavaSpawnBlob_blob (d : Draws) (x : Q) (l l' : Lava) :
  lavaSpawnBlob d x l = Some l' ->
  lavaDominantBand l' = lavaDominantBand l /\
  (lavaBlobs l' = lavaBlobs l \/
   exists slot blob, 0 <= slot /\
     lavaBlobs l' = aset (lavaBlobs l) slot blob /\
     active blob = true /\
     (10 <= position blob < 110)%Q /\
     brightness blob = (0.5 + x * 0.5)%Q /\
     size blob = (LAVA_SPAWN_SIZE * (0.7 + x * 0.5))%Q /\
     drift_in_range (drift blob) /\
     colorIndex blob = lavaDominantBand l).
Proof.
  unfold lavaSpawnBlob.
  destruct (Z.geb_spec (chooseSlot (lavaBlobs l)) 0) as [Hslot|Hslot];
    [|intros [= <-]; auto].
  rewrite fdiv_Some by (vm_compute; discriminate). cbn [mbind option_bind].
  intros [= <-]. cbn [lavaDominantBand lavaBlobs]. split; [done|]. right.
  eexists _, _. split; [exact Hslot|]. split; [reflexivity|].
  cbn [active brightness size drift colorIndex position].
  pose proof (random_range (draw_magnitude d) 0 100 ltac:(lia)) as Hm.
  pose proof (random_range (draw_position d) 10 (NUM_LEDS - 10) ltac:(consts; lia)) as Hp.
  assert (0 <= itof (random (draw_magnitude d) 0 100) / 100.0 <= 0.99)%Q as Hq.
  { assert (0 <= itof (random (draw_magnitude d) 0 100) <= 99)%Q as Hr.
    { split; [change 0%Q with (itof 0)|change 99%Q with (itof 99)]; apply itof_le; lia. }
    split; [apply Qle_shift_div_l|apply Qle_shift_div_r]; lra. }
  split; [done|]. split; [|split; [done|split; [done|split]]].
  - split; [change 10%Q with (itof 10)|change 110%Q with (itof 110)].
    + apply itof_le. lia.
    + apply itof_lt. revert Hp. consts. lia.
  - unfold drift_in_range, LAVA_DRIFT_SPEED.
    destruct (random (draw_direction d) 0 2 =? 0).
    + right. change (itof (-1)) with (-1)%Q. lra.
    + left. change (itof 1) with 1%Q. lra.
  - cbv [LAVA_COLOR_MODE]. cbn [Z.eqb]. done.
Qed.

Lemma lavaCheckTrigger_inv (d : Draws) (l l' : Lava) :
  lavaCheckTrigger d l = Some l' ->
  l' = l \/
  exists x, (LAVA_TRIGGER_THRESHOLD < x <= 1)%Q /\ lavaSpawnBlob d x l = Some l'.
Proof.
  unfold lavaCheckTrigger.
  destruct (lavaNormalize_total (lavaAudioLevel l) (lavaAudioPeak l)) as (x & -> & Hx).
  destruct (lavaNormalize_total (lavaLastAudioLevel l) (lavaAudioPeak l)) as (y & -> & Hy).
  cbn [mbind option_bind].
  destruct (fgtb_spec x LAVA_TRIGGER_THRESHOLD); cbn [andb];
    [|intros [= <-]; auto].
  destruct (fgtb _ _); [|intros [= <-]; auto].
  intros Hs. right. exists x. split; [lra|done].
Qed.

(** X9.  [lavaCheckTrigger] either leaves the pool as it is or writes one
    slot with an active blob at least 10 pixels from either end of the
    strip, of brightness in (0.65, 1], size in (8.5, 12], drift of magnitude
    between 0.15 and 0.447, and the colour index of the dominant band. *)
Theorem trigger_spawns_a_bright_blob (d : Draws) (l l' : Lava) :
  lavaCheckTrigger d l = Some l' ->
  lavaBlobs l' = lavaBlobs l \/
  exists slot blob, 0 <= slot /\
    lavaBlobs l' = aset (lavaBlobs l) slot blob /\
    active blob = true /\
    (10 <= position blob < 110)%Q /\
    (0.65 < brightness blob <= 1)%Q /\
    (8.5 < size blob <= 12)%Q /\
    drift_in_range (drift blob) /\
    colorIndex blob = lavaDominantBand l.
Proof.
  intros Ht. destruct (lavaCheckTrigger_inv d l l' Ht) as [->|(x & Hx & Hs)]; [auto|].
  destruct (lavaSpawnBlob_blob d x l l' Hs) as
    (_ & [Hb|(slot & blob & H0 & Hb & Ha & Hp & Hbr & Hsz & Hd & Hc)]); [auto|].
  right. exists slot, blob. rewrite Hbr, Hsz.
  unfold LAVA_TRIGGER_THRESHOLD, LAVA_SPAWN_SIZE in *.
  repeat split; try done; lra.
Qed.

Lemma lavaCheckTrigger_pool (d : Draws) (l l' : Lava) :
  lava_ok l -> lavaCheckTrigger d l = Some l' ->
  length (lavaBlobs l') = 8%nat /\
  lavaDominantBand l' = lavaDominantBand l /\
  forall i, 0 <= i < LAVA_MAX_BLOBS ->
    active (aget (lavaBlobs l') i) = true -> blob_fresh (aget (lavaBlobs l') i).
Proof.
  intros [Hlen Hdom Hpool] Ht.
  destruct (lavaCheckTrigger_inv d l l' Ht) as [->|(x & Hx & Hs)].
  { split; [done|]. split; [done|]. intros i Hi Hact. now apply blob_ok_fresh, Hpool. }
  destruct (lavaSpawnBlob_blob d x l l' Hs) as
    (Hd' & [Hb|(slot & blob & H0 & Hb & Ha & Hp & Hbr & Hsz & Hd & Hc)]); rewrite Hb.
  { split; [done|]. split; [done|]. intros i Hi Hact. now apply blob_ok_fresh, Hpool. }
  split; [now rewrite length_aset|]. split; [done|].
  intros i Hi.
  destruct (aget_aset_cases (lavaBlobs l) slot i blob) as [[_ ->]| ->]; try lia.
  - intros _. unfold LAVA_TRIGGER_THRESHOLD, LAVA_SPAWN_SIZE in *.
    split; rewrite ?Hbr, ?Hsz, ?Hc; try done; lra.
  - intros Hact. now apply blob_ok_fresh, Hpool.
Qed.

Lemma lavaUpdate_inv (d : Draws) (v : list Q) (l l' : Lava) (strip strip' : list Z) :
  lavaUpdate d v l strip = Some (l', strip') ->
  exists l1 l2,
    lavaAnalyzeAudio v l = Some l1 /\
    lavaCheckTrigger d l1 = Some l2 /\
    l' = lavaUpdateBlobs l2 /\
    lavaRender l' strip = Some strip'.
Proof.
  unfold lavaUpdate.
  destruct (lavaAnalyzeAudio v l) as [l1|] eqn:Ha; [|done]. cbn [mbind option_bind].
  destruct (lavaCheckTrigger d l1) as [l2|] eqn:Ht; [|done]. cbn [mbind option_bind].
  destruct (lavaRender (lavaUpdateBlobs l2) strip) as [st|] eqn:Hr; [|done].
  cbn [mbind option_bind]. intros [= <- <-]. exists l1, l2. done.
Qed.

Lemma lavaUpdate_ok (d : Draws) (v : list Q) (l l' : Lava) (strip strip' : list Z) :
  lava_ok l -> lavaUpdate d v l strip = Some (l', strip') -> lava_ok l'.
Proof.
  intros Hok Hu.
  destruct (lavaUpdate_inv d v l l' strip strip' Hu) as (l1 & l2 & Ha & Ht & -> & _).
  destruct (lavaAnalyzeAudio_dominant v l l1 Ha) as [Hb1 Hd1].
  assert (lava_ok l1) as Hok1.
  { destruct Hok as [Hlen _ Hpool]. split; rewrite ?Hb1; done. }
  destruct (lavaCheckTrigger_pool d l1 l2 Hok1 Ht) as (Hlen2 & Hd2 & Hfresh).
  destruct (lavaUpdateBlobsArr_spec (lavaBlobs l2) Hlen2) as [Hlen3 Hget].
  split; cbn [lavaUpdateBlobs lavaBlobs lavaDominantBand].
  - done.
  - now rewrite Hd2.
  - intros i Hi. rewrite Hget by done. intros Hact.
    apply lavaUpdateBlob_ok; [|done]. apply Hfresh; [done|].
    now destruct (lavaUpdateBlob_active _ Hact).
Qed.

Lemma setup_lava (t1 t2 : Z) (s s' : Firmware) :
  setup t1 t2 s = Some s' -> lava s' = lavaSetup (lava s).
Proof.
  unfold setup, trailSetup.
  destruct (spectrumSetup _) as [p|]; [|done]. cbn [mbind option_bind].
  now intros [= <-].
Qed.

Lemma nextMode_lava (now : Z) (s s' : Firmware) :
  nextMode now s = Some s' -> lava s' = lava s \/ lava s' = lavaSetup (lava s).
Proof.
  unfold nextMode. destruct (Mode_of_Z _).
  - unfold trailSetup. intros [= <-]. auto.
  - intros [= <-]. auto.
  - destruct (spectrumSetup _) as [p|]; [|done]. cbn [mbind option_bind].
    intros [= <-]. auto.
Qed.

Lemma runEngine_lava (i : Input) (s s' : Firmware) :
  runEngine i s = Some s' ->
  lava s' = lava s \/
  exists strip', lavaUpdate (draws i) (vReal i) (lava s) (strip s) = Some (lava s', strip').
Proof.
  unfold runEngine. destruct (currentMode s).
  - destruct (trailUpdate _ _ _ _) as [[t st]|]; cbn [mbind option_bind]; [|done].
    intros [= <-]. auto.
  - destruct (lavaUpdate _ _ _ _) as [[l st]|]; cbn [mbind option_bind]; [|done].
    intros [= <-]. right. exists st. done.
  - destruct (spectrumUpdate _ _ _) as [[p st]|]; cbn [mbind option_bind]; [|done].
    intros [= <-]. auto.
Qed.

Lemma lavaSetup_ok (l : Lava) :
  length (lavaBlobs l) = 8%nat -> length (lavaBandPeaks l) = 6%nat ->
  0 <= lavaDominantBand l < LAVA_NUM_BANDS ->
  lava_ok (lavaSetup l).
Proof.
  intros Hb Hp Hd. destruct (lavaSetup_spec l Hb Hp) as (L1 & L2 & _).
  split; [done|done|]. intros i Hi Hact. rewrite L2 in Hact; done.
Qed.

(** X10.  In every reachable state [lavaDominantBand] and the colour index
    of every active blob are valid indices of [LAVA_COLORS], and every
    active blob lies on the strip (position in [0, 120)), has brightness in
    [0.02, 0.92], size in [1, 11.64] and a drift of magnitude between 0.15
    and 0.447. *)
Theorem blobs_stay_well_formed (s : Firmware) :
  reachable s ->
  0 <= lavaDominantBand (lava s) < LAVA_NUM_BANDS /\
  forall i, 0 <= i < LAVA_MAX_BLOBS ->
    active (aget (lavaBlobs (lava s)) i) = true ->
    blob_ok (aget (lavaBlobs (lava s)) i).
Proof.
  intros Hr. enough (lava_ok (lava s)) as [_ Hd Hp] by done.
  induction Hr as [t1 t2 s Hs|i s s' Hr IH Hl].
  - rewrite (setup_lava t1 t2 boot s Hs). apply lavaSetup_ok; [done|done|].
    cbn. unfold LAVA_NUM_BANDS. lia.
  - apply reachable_invariant in Hr. destruct Hr as [[_ Hb Hp _ _] _ _].
    destruct (loop_inv i s s' Hl) as (g & s1 & _ & Hc & He).
    assert (lava_ok (lava s1)) as Hok1.
    { assert (forall s0, lava s0 = lava s -> forall n, nextMode n s0 = Some s1 ->
                lava_ok (lava s1)) as Hnext.
      { intros s0 Hs0 n Hn. destruct (nextMode_lava n s0 s1 Hn) as [-> | ->];
          rewrite Hs0; [done|]. apply lavaSetup_ok; [done|done|apply IH]. }
      destruct (checkModeSwitch_cases _ _ _ _ Hc) as [->|[Hn|Hn]].
      - exact IH.
      - now apply (Hnext (set_global g s) eq_refl (now_switch i)).
      - now apply (Hnext (set_lastSpikeSwitch (now_check i) (set_global g s)) eq_refl
                     (now_switch i)). }
    destruct (runEngine_lava i s1 s' He) as [->|[strip' Hu]]; [done|].
    now apply (lavaUpdate_ok (draws i) (vReal i) (lava s1) (lava s') (strip s1) strip').
Qed.

Lemma blobs_stay_well_formed_witness :
  exists s', loop (flat 1000 30006) (after_setup 5) = Some s' /\
    0 <= lavaDominantBand (lava s') < LAVA_NUM_BANDS /\
    forall i, 0 <= i < LAVA_MAX_BLOBS ->
      active (aget (lavaBlobs (lava s')) i) = true ->
      blob_ok (aget (lavaBlobs (lava s')) i).
Proof.
  destruct (loop_invariant (flat 1000 30006) (after_setup 5)) as (s' & Hs' & _).
  { apply reachable_invariant, after_setup_reachable. }
  exists s'. split; [exact Hs'|].
  apply (blobs_stay_well_formed s').
  exact (reach_loop (flat 1000 30006) (after_setup 5) s' (after_setup_reachable 5) Hs').
Defined.

Lemma trigger_spawns_a_bright_blob_witness :
  exists l', lavaCheckTrigger some_draws loud_lava = Some l' /\
    (lavaBlobs l' = lavaBlobs loud_lava \/
     exists slot blob, 0 <= slot /\
       lavaBlobs l' = aset (lavaBlobs loud_lava) slot blob /\
       active blob = true /\
       (10 <= position blob < 110)%Q /\
       (0.65 < brightness blob <= 1)%Q /\
       (8.5 < size blob <= 12)%Q /\
       drift_in_range (drift blob) /\
       colorIndex blob = lavaDominantBand loud_lava).
Proof.
  destruct (lavaCheckTrigger some_draws loud_lava) as [l'|] eqn:E;
    [|vm_compute in E; discriminate E].
  exists l'. split; [reflexivity|].
  exact (trigger_spawns_a_bright_blob some_draws loud_lava l' E).
Defined.

Lemma lavaUpdateBlob_iter (n : nat) (b : LavaBlob) :
  active (Nat.iter n lavaUpdateBlob b) = true ->
  brightness (Nat.iter n lavaUpdateBlob b)
  = Nat.iter n (fun x => (x * LAVA_FADE_RATE)%Q) (brightness b) /\
  (n <> O -> (0.02 <= brightness (Nat.iter n lavaUpdateBlob b))%Q).
Proof.
  induction n as [|n IH]; [done|].
  rewrite !Nat.iter_succ. intros Hact.
  destruct (lavaUpdateBlob_active _ Hact) as (Hact' & -> & _ & Hb & _).
  destruct (IH Hact') as [E _]. rewrite E in Hb |- *. done.
Qed.

Lemma fade_iter_mono (n : nat) (x y : Q) :
  (x <= y)%Q ->
  (Nat.iter n (fun x => x * LAVA_FADE_RATE) x <= Nat.iter n (fun x => x * LAVA_FADE_RATE) y)%Q.
Proof.
  intros Hxy. induction n as [|n IH]; [done|].
  rewrite !Nat.iter_succ. unfold LAVA_FADE_RATE in *. lra.
Qed.

Lemma lavaUpdateBlobsArr_iter (n : nat) (blobs : list LavaBlob) :
  length blobs = 8%nat ->
  length (Nat.iter n lavaUpdateBlobsArr blobs) = 8%nat /\
  forall i, 0 <= i < LAVA_MAX_BLOBS ->
    aget (Nat.iter n lavaUpdateBlobsArr blobs) i = Nat.iter n lavaUpdateBlob (aget blobs i).
Proof.
  intros Hlen. induction n as [|n [IHl IHg]]; [done|].
  rewrite Nat.iter_succ.
  destruct (lavaUpdateBlobsArr_spec _ IHl) as [Hl Hg].
  split; [done|]. intros i Hi. rewrite Hg, IHg by done. now rewrite Nat.iter_succ.
Qed.

(** X11.  Without a new spawn, a pool whose blobs have brightness at most 1
    is empty after 47 rounds of [lavaUpdateBlobs]; a round leaves an
    inactive slot untouched. *)
Theorem blobs_fade_out (blobs : list LavaBlob) :
  length blobs = 8%nat ->
  (forall i, 0 <= i < LAVA_MAX_BLOBS -> (brightness (aget blobs i) <= 1)%Q) ->
  (forall i, 0 <= i < LAVA_MAX_BLOBS ->
     active (aget (Nat.iter 47 lavaUpdateBlobsArr blobs) i) = false) /\
  (forall i, 0 <= i < LAVA_MAX_BLOBS ->
     active (aget blobs i) = false ->
     aget (lavaUpdateBlobsArr blobs) i = aget blobs i).
Proof.
  intros Hlen Hb. split.
  - intros i Hi. destruct (lavaUpdateBlobsArr_iter 47 blobs Hlen) as [_ ->]; [|done].
    destruct (active (Nat.iter 47 lavaUpdateBlob (aget blobs i))) eqn:Hact; [|done].
    exfalso. destruct (lavaUpdateBlob_iter 47 (aget blobs i) Hact) as [E Hge].
    specialize (Hge ltac:(done)). rewrite E in Hge.
    pose proof (fade_iter_mono 47 _ _ (Hb i Hi)) as Hm.
    assert (Nat.iter 47 (fun x => x * LAVA_FADE_RATE) 1 < 0.02)%Q as Hlt
      by (vm_compute; reflexivity).
    lra.
  - intros i Hi Hoff. destruct (lavaUpdateBlobsArr_spec blobs Hlen) as [_ ->]; [|done].
    now apply lavaUpdateBlob_inactive.
Qed.

Lemma blobs_fade_out_witness :
  (forall i, 0 <= i < LAVA_MAX_BLOBS ->
     active (aget (Nat.iter 47 lavaUpdateBlobsArr (lavaBlobs bright_pool)) i) = false) /\
  active (aget (Nat.iter 46 lavaUpdateBlobsArr (lavaBlobs bright_pool)) 0) = true.
Proof.
  split; [|vm_compute; reflexivity].
  apply (blobs_fade_out (lavaBlobs bright_pool) eq_refl).
  intros i Hi. cbn [lavaBlobs bright_pool].
  rewrite aget_replicate by (revert Hi; consts; lia). vm_compute. discriminate.
Defined.

(** * Lava: blending and rendering *)

Lemma setPixelColor_twice (strip : list Z) (p x y : Z) :
  setPixelColor (setPixelColor strip p x) p y = setPixelColor strip p y.
Proof.
  unfold setPixelColor. destruct (_ && _); [|done].
  unfold aset. apply list_insert_insert_eq.
Qed.

Lemma setPixelColor_comm (strip : list Z) (p q x y : Z) :
  p <> q ->
  setPixelColor (setPixelColor strip p x) q y = setPixelColor (setPixelColor strip q y) p x.
Proof.
  intros Hne. unfold setPixelColor.
  destruct (Z.leb_spec 0 p), (Z.ltb_spec p NUM_LEDS),
    (Z.leb_spec 0 q), (Z.ltb_spec q NUM_LEDS); cbn [andb]; try done.
  unfold aset. apply list_insert_insert_ne. lia.
Qed.

Lemma setPixelColor_outside (strip : list Z) (p c : Z) :
  ~ 0 <= p < NUM_LEDS -> setPixelColor strip p c = strip.
Proof.
  intros Hp. unfold setPixelColor.
  destruct (Z.leb_spec 0 p), (Z.ltb_spec p NUM_LEDS); cbn [andb]; try done. lia.
Qed.

(** Two saturating additions into one channel come to the same in either
    order. *)
Lemma addChannel_twice (existing c1 c2 k : Z) (b1 b2 : Q) :
  k = 16 \/ k = 8 \/ k = 0 ->
  addChannel
    (Color (addChannel existing c1 16 b1) (addChannel existing c1 8 b1)
           (addChannel existing c1 0 b1)) c2 k b2
  = addChannel
    (Color (addChannel existing c2 16 b2) (addChannel existing c2 8 b2)
           (addChannel existing c2 0 b2)) c1 k b1.
Proof.
  intros Hk.
  destruct (channel_Color (addChannel existing c1 16 b1) (addChannel existing c1 8 b1)
              (addChannel existing c1 0 b1)) as (A16 & A8 & A0).
  destruct (channel_Color (addChannel existing c2 16 b2) (addChannel existing c2 8 b2)
              (addChannel existing c2 0 b2)) as (B16 & B8 & B0).
  assert (forall j, 0 <= j ->
    Z.min 255 (u8 (u8 (addChannel existing c1 j b1)) + ftou8 (itof (channel c2 j) * b2))
    = Z.min 255 (u8 (u8 (addChannel existing c2 j b2)) + ftou8 (itof (channel c1 j) * b1)))
    as Hsym.
  { intros j Hj.
    pose proof (addChannel_range existing c1 j b1).
    pose proof (addChannel_range existing c2 j b2).
    rewrite !u8_small by (rewrite ?u8_small; lia).
    unfold addChannel.
    pose proof (ftou8_range (itof (channel c1 j) * b1)).
    pose proof (ftou8_range (itof (channel c2 j) * b2)).
    pose proof (u8_range (channel existing j)). lia. }
  destruct Hk as [->|[->| ->]]; unfold addChannel at 1 5.
  - rewrite A16, B16. now apply Hsym.
  - rewrite A8, B8. now apply Hsym.
  - rewrite A0, B0. now apply Hsym.
Qed.

(** X12.  On a strip of 120 pixels two calls of [lavaAddColorToPixel] give
    the same strip in either order, for one pixel or for two different ones;
    and a call never lowers a channel of the pixel it writes. *)
Theorem blending_adds_light_in_any_order (strip : list Z) (p q c1 c2 : Z) (b1 b2 : Q) :
  length strip = 120%nat ->
  lavaAddColorToPixel (lavaAddColorToPixel strip p c1 b1) q c2 b2
  = lavaAddColorToPixel (lavaAddColorToPixel strip q c2 b2) p c1 b1 /\
  (0 <= p < NUM_LEDS ->
   forall k, k = 16 \/ k = 8 \/ k = 0 ->
     channel (getPixelColor strip p) k
     <= channel (getPixelColor (lavaAddColorToPixel strip p c1 b1) p) k).
Proof.
  intros Hlen. split.
  - unfold lavaAddColorToPixel.
    destruct (Z.eq_dec p q) as [<-|Hne].
    + destruct (Z.le_gt_cases 0 p), (Z.lt_ge_cases p NUM_LEDS);
        try (rewrite !(setPixelColor_outside _ p) by lia; reflexivity).
      rewrite !getPixelColor_set_eq by done.
      rewrite !mask24_small by apply Color_range.
      rewrite !setPixelColor_twice.
      rewrite (addChannel_twice (getPixelColor strip p) c1 c2 16 b1 b2) by auto.
      rewrite (addChannel_twice (getPixelColor strip p) c1 c2 8 b1 b2) by auto.
      rewrite (addChannel_twice (getPixelColor strip p) c1 c2 0 b1 b2) by auto.
      reflexivity.
    + rewrite (getPixelColor_set_ne strip p q) by done.
      rewrite (getPixelColor_set_ne strip q p) by auto.
      now apply setPixelColor_comm.
  - intros Hp k Hk. rewrite lavaAddColorToPixel_channels by assumption.
    assert (0 <= k) as Hk0 by (destruct Hk as [->|[->| ->]]; lia).
    pose proof (channel_range (getPixelColor strip p) k Hk0).
    pose proof (ftou8_range (itof (channel c1 k) * b1)). lia.
Qed.

Lemma blending_adds_light_in_any_order_witness :
  lavaAddColorToPixel (lavaAddColorToPixel one_lit 119 0xFF4400 0.5) 119 0x0088FF 0.9
  = lavaAddColorToPixel (lavaAddColorToPixel one_lit 119 0x0088FF 0.9) 119 0xFF4400 0.5.
Proof.
  exact (proj1 (blending_adds_light_in_any_order one_lit 119 119 0xFF4400 0x0088FF
                  0.5 0.9 eq_refl)).
Defined.

Lemma lavaRenderBlob_outside (blobs : list LavaBlob) (b p : Z) (strip strip' : list Z) :
  (active (aget blobs b) = true -> ~ blob_span (aget blobs b) p) ->
  lavaRenderBlob blobs b strip = Some strip' ->
  getPixelColor strip' p = getPixelColor strip p.
Proof.
  intros Hout. unfold lavaRenderBlob, blob_span in *.
  destruct (active (aget blobs b)); cbn [negb]; [|now intros [= <-]].
  specialize (Hout eq_refl).
  set (lo := Z.max 0 _) in *. set (hi := Z.min _ _) in *.
  destruct (Z.le_gt_cases lo (hi + 1)).
  - apply (for_range_post (fun _ t => getPixelColor t p = getPixelColor strip p));
      [done|done|].
    intros j u u' Hj Hu. destruct (lavaFalloff _ _ _ _) as [x|]; [|done].
    cbn [mbind option_bind]. intros [= <-].
    unfold lavaAddColorToPixel. rewrite getPixelColor_set_ne by lia. exact Hu.
  - rewrite for_range_empty by lia. now intros [= <-].
Qed.

(** X13.  After [lavaRender] a pixel that lies in the span of no active
    blob is dark; with no active blob the whole strip is. *)
Theorem lavaRender_dark_outside (l : Lava) (strip strip' : list Z) (p : Z) :
  length strip = 120%nat ->
  lavaRender l strip = Some strip' ->
  (forall b, 0 <= b < LAVA_MAX_BLOBS ->
     active (aget (lavaBlobs l) b) = true -> ~ blob_span (aget (lavaBlobs l) b) p) ->
  getPixelColor strip' p = 0.
Proof.
  intros Hlen Hr Hout. revert Hr. unfold lavaRender.
  apply (for_range_post (fun _ t => getPixelColor t p = 0)).
  - unfold LAVA_MAX_BLOBS. lia.
  - now apply getPixelColor_clear.
  - intros j u u' Hj Hu Hstep.
    rewrite (lavaRenderBlob_outside (lavaBlobs l) j p u u'); [done| |done].
    now apply Hout.
Qed.

Lemma lavaRender_dark_outside_witness :
  exists strip', lavaRender bright_pool one_lit = Some strip' /\
    getPixelColor strip' 5 = 0.
Proof.
  destruct (lavaRender bright_pool one_lit) as [strip'|] eqn:E;
    [|vm_compute in E; discriminate E].
  exists strip'. split; [reflexivity|].
  apply (lavaRender_dark_outside bright_pool one_lit strip' 5 eq_refl E).
  intros b Hb _. cbn [lavaBlobs bright_pool].
  rewrite aget_replicate by (revert Hb; consts; lia).
  unfold blob_span. vm_compute. intros [H _]. apply H. reflexivity.
Defined.

(** * Trail: colours *)

Lemma ftoi_lt (q : Q) (n : Z) : (0 <= q)%Q -> (q < itof n)%Q -> ftoi q < n.
Proof.
  destruct q as [a d]. unfold Qle, Qlt, ftoi, itof. cbn [Qnum Qden inject_Z].
  intros H0 H1. rewrite Z.quot_div_nonneg by lia.
  apply Z.div_lt_upper_bound; lia.
Qed.

Lemma ftoi_ge (q : Q) (n : Z) : 0 <= n -> (itof n <= q)%Q -> n <= ftoi q.
Proof.
  destruct q as [a d]. unfold Qle, ftoi, itof. cbn [Qnum Qden inject_Z].
  intros H0 H1. rewrite Z.quot_div_nonneg by lia.
  apply Z.div_le_lower_bound; lia.
Qed.

Lemma itof_channel_range (c k : Z) : 0 <= k -> (0 <= itof (channel c k) <= 255)%Q.
Proof.
  intros Hk. pose proof (channel_range c k Hk).
  split; [change 0%Q with (itof 0)|change 255%Q with (itof 255)]; apply itof_le; lia.
Qed.

(** A channel scaled by a factor of [0, 1], as the Trail colour functions
    and [lavaAddColorToPixel] compute it. *)
Lemma scaled_channel (c k : Z) (f : Q) :
  0 <= k -> (0 <= f <= 1)%Q ->
  ftou8 (itof (channel c k) * f) = ftoi (itof (channel c k) * f) /\
  0 <= ftoi (itof (channel c k) * f) <= channel c k /\
  ((f < 1)%Q -> 0 < channel c k -> ftoi (itof (channel c k) * f) < channel c k).
Proof.
  intros Hk Hf. pose proof (channel_range c k Hk) as Hc.
  pose proof (itof_channel_range c k Hk) as Hq.
  assert (0 <= ftoi (itof (channel c k) * f) <= channel c k) as Hr.
  { apply ftoi_range; [lia| |]; nra. }
  split; [|split; [done|]].
  - unfold ftou8. apply u8_small. lia.
  - intros Hf1 Hpos. apply ftoi_lt; [nra|].
    assert (0 < itof (channel c k))%Q by (change 0%Q with (itof 0); now apply itof_lt).
    nra.
Qed.

Lemma trailFadeColor_channels (c : Z) (f : Q) :
  (0 <= f <= 1)%Q ->
  forall k, k = 16 \/ k = 8 \/ k = 0 ->
    channel (trailFadeColor c f) k = ftoi (itof (channel c k) * f).
Proof.
  intros Hf k Hk. unfold trailFadeColor.
  destruct (channel_Color (ftou8 (itof (channel c 16) * f)) (ftou8 (itof (channel c 8) * f))
              (ftou8 (itof (channel c 0) * f))) as (C16 & C8 & C0).
  destruct Hk as [->|[->| ->]]; rewrite ?C16, ?C8, ?C0;
    rewrite u8_small by apply ftou8_range; now apply scaled_channel.
Qed.

(** X14.  For a factor in [0, 1] each channel of the result of
    [trailFadeColor] and of [trailDimColor] is at most the channel it was
    computed from, and strictly less for a non-zero channel and a factor
    below 1; the result is a 24-bit colour. *)
Theorem fading_darkens (c : Z) (f : Q) (k : Z) :
  (0 <= f <= 1)%Q -> k = 16 \/ k = 8 \/ k = 0 ->
  0 <= channel (trailFadeColor c f) k <= channel c k /\
  ((f < 1)%Q -> 0 < channel c k -> channel (trailFadeColor c f) k < channel c k) /\
  0 <= channel (trailDimColor c f) k <= channel c k /\
  0 <= trailFadeColor c f < 2 ^ 24.
Proof.
  intros Hf Hk. rewrite trailFadeColor_channels by done.
  assert (0 <= k) as Hk0 by (destruct Hk as [->|[->| ->]]; lia).
  destruct (scaled_channel c k f Hk0 Hf) as (_ & Hr & Hs).
  split; [exact Hr|]. split; [exact Hs|]. split.
  - change (trailDimColor c f) with (trailFadeColor c f).
    rewrite trailFadeColor_channels by done. exact Hr.
  - unfold trailFadeColor. apply Color_range.
Qed.

Lemma fading_darkens_witness :
  0 <= channel (trailFadeColor 0xFF0088 TRAIL_FADE) 16 <= channel 0xFF0088 16.
Proof.
  apply (fading_darkens 0xFF0088 TRAIL_FADE 16).
  - split; vm_compute; discriminate.
  - left. reflexivity.
Defined.

(** * Trail: the realtime zone and the history *)

Lemma Color_zero (r g b : Z) : Color r g b = 0 -> u8 r = 0 /\ u8 g = 0 /\ u8 b = 0.
Proof.
  rewrite Color_sum. pose proof (u8_range r). pose proof (u8_range g).
  pose proof (u8_range b). lia.
Qed.

(** A colour with a full channel stays visible at any Trail intensity. *)
Lemma trailDimColor_visible (c k : Z) (x : Q) :
  k = 16 \/ k = 8 \/ k = 0 -> channel c k = 255 -> (0.2 <= x <= 1)%Q ->
  trailDimColor c x <> 0.
Proof.
  intros Hk Hc Hx. unfold trailDimColor. intros Hz. apply Color_zero in Hz.
  assert (0 <= k) as Hk0 by (destruct Hk as [->|[->| ->]]; lia).
  assert (51 <= ftou8 (itof (channel c k) * x)) as Hge.
  { destruct (scaled_channel c k x Hk0) as (-> & _); [lra|].
    apply ftoi_ge; [lia|]. rewrite Hc. change (itof 255) with 255%Q.
    change (itof 51) with 51%Q. lra. }
  pose proof (ftou8_range (itof (channel c k) * x)) as Hr.
  rewrite <- (u8_small _ Hr) in Hge.
  destruct Hz as (Z16 & Z8 & Z0). destruct Hk as [->|[->| ->]]; lia.
Qed.

Lemma trail_color_full_channel (b : Z) :
  0 <= b < TRAIL_NUM_BANDS ->
  exists k, (k = 16 \/ k = 8 \/ k = 0) /\ channel (aget TRAIL_COLORS b) k = 255.
Proof.
  consts. intros Hb.
  assert (b = 0 \/ b = 1 \/ b = 2 \/ b = 3 \/ b = 4 \/ b = 5 \/ b = 6 \/ b = 7) as Hc by lia.
  destruct Hc as [->|[->|[->|[->|[->|[->|[->| ->]]]]]]];
    first [exists 0; split; [auto|reflexivity] | exists 16; split; [auto|reflexivity]].
Qed.

Lemma trailRealtimeLed_inv (bands peaks : list Q) (b : Z) (strip strip' : list Z) :
  0 <= b < TRAIL_NUM_BANDS ->
  trailRealtimeLed bands peaks b strip = Some strip' ->
  exists c, strip' = setPixelColor strip (trailLed b) c /\
    0 <= c < 2 ^ 24 /\
    (c = 0 <-> trailActive (aget bands b) (aget TRAIL_BAND_NOISE b) (aget peaks b) = false).
Proof.
  intros Hb. unfold trailRealtimeLed.
  destruct (trailActive _ _ _).
  - cbv [TRAIL_USE_INTENSITY].
    destruct (trailIntensity _ _ _) as [x|] eqn:Hx; [|done].
    cbn [mbind option_bind]. intros [= <-].
    exists (trailDimColor (aget TRAIL_COLORS b) x). split; [done|].
    split; [unfold trailDimColor; apply Color_range|].
    split; [|done]. intros Hz. exfalso.
    destruct (trail_color_full_channel b Hb) as (k & Hk & Hc).
    apply (trailDimColor_visible (aget TRAIL_COLORS b) k x Hk Hc); [|exact Hz].
    revert Hx. unfold trailIntensity.
    destruct (fdiv _ _) as [q|]; [|done]. cbn [mbind option_bind]. intros [= <-].
    pose proof (constrain_bounds q 0.2 1.0). lra.
  - intros [= <-]. exists 0. split; [done|]. split; [done|]. done.
Qed.

Lemma trailRealtime_pixels (bands peaks : list Q) (strip strip' : list Z) :
  length strip = 120%nat ->
  trailRealtime bands peaks strip = Some strip' ->
  length strip' = 120%nat /\
  (forall b, 0 <= b < TRAIL_REALTIME_LEDS ->
     0 <= trailPixel strip' b < 2 ^ 24 /\
     (trailPixel strip' b = 0 <->
      trailActive (aget bands b) (aget TRAIL_BAND_NOISE b) (aget peaks b) = false)) /\
  (forall k, TRAIL_REALTIME_LEDS <= k -> trailPixel strip' k = trailPixel strip k).
Proof.
  intros Hlen. unfold trailRealtime.
  change (Z.min TRAIL_REALTIME_LEDS TRAIL_NUM_BANDS) with TRAIL_REALTIME_LEDS.
  apply (for_range_post (fun j t =>
    length t = 120%nat /\
    (forall b, 0 <= b < j ->
       0 <= trailPixel t b < 2 ^ 24 /\
       (trailPixel t b = 0 <->
        trailActive (aget bands b) (aget TRAIL_BAND_NOISE b) (aget peaks b) = false)) /\
    (forall k, j <= k -> trailPixel t k = trailPixel strip k))).
  - unfold TRAIL_REALTIME_LEDS. lia.
  - split; [done|]. split; [|done]. intros b Hb. lia.
  - intros j u u' Hj (Hl & Hlow & Hhigh) Hstep.
    destruct (trailRealtimeLed_inv bands peaks j u u') as (c & -> & Hc & Hiff);
      [revert Hj; consts; lia|done|].
    split; [now rewrite length_setPixelColor|]. split.
    + intros b Hb. destruct (Z.eq_dec b j) as [->|Hne].
      * unfold trailPixel. rewrite getPixelColor_set_eq;
          [|done|cbv [trailLed TRAIL_REVERSE]; revert Hj; consts; lia].
        rewrite mask24_small by done. done.
      * unfold trailPixel. rewrite getPixelColor_set_ne
          by (cbv [trailLed TRAIL_REVERSE]; lia).
        apply Hlow. lia.
    + intros k Hk. unfold trailPixel. rewrite getPixelColor_set_ne
        by (cbv [trailLed TRAIL_REVERSE]; lia).
      apply Hhigh. lia.
Qed.



Lemma trailUpdate_inv (v : list Q) (now : Z) (t t' : Trail) (strip strip' : list Z) :
  trailUpdate v now t strip = Some (t', strip') ->
  exists bands strip1,
    trailAnalyze v (trailBands t) = Some bands /\
    trailRealtime bands (trailBandPeaks t) strip = Some strip1 /\
    trailBands t' = bands /\
    trailBandPeaks t' = trailUpdatePeaks bands (trailBandPeaks t) /\
    ((TRAIL_SCROLL_MS <= u32 (now - trailLastScroll t) /\
      trailLastScroll t' = now /\ strip' = trailScroll TRAIL_FADE strip1) \/
     (u32 (now - trailLastScroll t) < TRAIL_SCROLL_MS /\
      trailLastScroll t' = trailLastScroll t /\ strip' = strip1)).
Proof.
  unfold trailUpdate.
  destruct (trailAnalyze v (trailBands t)) as [bands|] eqn:Ha; [|done].
  cbn [mbind option_bind].
  destruct (trailRealtime bands (trailBandPeaks t) strip) as [strip1|] eqn:Hr; [|done].
  cbn [mbind option_bind].
  destruct (Z.geb_spec (u32 (now - trailLastScroll t)) TRAIL_SCROLL_MS) as [Hge|Hlt];
    cbv beta iota; intros Heq; injection Heq as <- <-; exists bands, strip1;
    cbn [trailBands trailBandPeaks trailLastScroll];
    (split; [reflexivity|]); (split; [exact Hr|]); (split; [reflexivity|]);
    (split; [reflexivity|]); [left|right]; (split; [assumption|]); split; reflexivity.
Qed.

(** X16.  [trailUpdate] scrolls only when at least [TRAIL_SCROLL_MS] have
    passed, modulo 2^32, since the last scroll.  If not, the history (Trail
    pixels 8 and up) and [trailLastScroll] are unchanged.  If so,
    [trailLastScroll] is the clock reading, pixels 8 .. 15 repeat the
    realtime pixels just written, and each pixel from 16 on is the faded
    colour of the pixel 8 places before it in the old strip. *)
Theorem trail_history_scrolls (v : list Q) (now : Z) (t t' : Trail) (strip strip' : list Z) :
  length strip = 120%nat ->
  trailUpdate v now t strip = Some (t', strip') ->
  (u32 (now - trailLastScroll t) < TRAIL_SCROLL_MS ->
   trailLastScroll t' = trailLastScroll t /\
   forall k, TRAIL_REALTIME_LEDS <= k -> trailPixel strip' k = trailPixel strip k) /\
  (TRAIL_SCROLL_MS <= u32 (now - trailLastScroll t) ->
   trailLastScroll t' = now /\
   (forall j, 0 <= j < TRAIL_REALTIME_LEDS ->
      trailPixel strip' (j + TRAIL_REALTIME_LEDS) = trailPixel strip' j) /\
   (forall k, TRAIL_REALTIME_LEDS + TRAIL_REALTIME_LEDS <= k < NUM_LEDS ->
      trailPixel strip' k
      = trailFadeColor (trailPixel strip (k - TRAIL_REALTIME_LEDS)) TRAIL_FADE)).
Proof.
  intros Hlen Hu.
  destruct (trailUpdate_inv v now t t' strip strip' Hu)
    as (bands & strip1 & _ & Hr & _ & _ & Hcase).
  destruct (trailRealtime_pixels bands (trailBandPeaks t) strip strip1 Hlen Hr)
    as (Hl1 & Hlow & Hhigh).
  split.
  - intros Hlt. destruct Hcase as [(Hge & _)|(_ & -> & ->)]; [lia|].
    split; [reflexivity|exact Hhigh].
  - intros Hge. destruct Hcase as [(_ & -> & ->)|(Hlt & _)]; [|lia].
    split; [reflexivity|]. split.
    + intros j Hj.
      rewrite !trailScroll_pixel by (try exact Hl1; revert Hj; consts; lia).
      destruct (Z.ltb_spec (j + TRAIL_REALTIME_LEDS) TRAIL_REALTIME_LEDS);
        [revert Hj; consts; lia|].
      destruct (Z.ltb_spec j TRAIL_REALTIME_LEDS); [|lia].
      unfold scrolled.
      destruct (Z.geb_spec (j + TRAIL_REALTIME_LEDS)
                  (TRAIL_REALTIME_LEDS + TRAIL_REALTIME_LEDS)); [lia|].
      replace (j + TRAIL_REALTIME_LEDS - TRAIL_REALTIME_LEDS) with j by lia.
      apply mask24_small. now destruct (Hlow j Hj).
    + intros k Hk. rewrite trailScroll_pixel by (try exact Hl1; revert Hk; consts; lia).
      destruct (Z.ltb_spec k TRAIL_REALTIME_LEDS); [revert Hk; consts; lia|].
      unfold scrolled.
      destruct (Z.geb_spec k (TRAIL_REALTIME_LEDS + TRAIL_REALTIME_LEDS)); [|lia].
      rewrite Hhigh by (revert Hk; consts; lia).
      apply mask24_small. unfold trailFadeColor. apply Color_range.
Qed.

Lemma trail_history_scrolls_witness :
  exists t' strip',
    trailUpdate (replicate 64 300%Q) 50 (trail (after_setup 0)) one_lit = Some (t', strip') /\
    trailLastScroll t' = 50 /\
    trailPixel strip' (0 + TRAIL_REALTIME_LEDS) = trailPixel strip' 0.
Proof.
  destruct (trailUpdate (replicate 64 300%Q) 50 (trail (after_setup 0)) one_lit)
    as [[t' strip']|] eqn:E; [|vm_compute in E; discriminate E].
  exists t', strip'. split; [reflexivity|].
  destruct (trail_history_scrolls (replicate 64 300%Q) 50 (trail (after_setup 0)) t'
              one_lit strip' eq_refl E) as [_ H].
  destruct H as (H1 & H2 & _).
  - vm_compute. discriminate.
  - split; [exact H1|]. apply H2. vm_compute. split; [discriminate|reflexivity].
Defined.

(** * Spectrum: the rendered frame *)

Lemma spectrumRenderLed_inv (v peaks : list Q) (i : Z) (strip strip' : list Z) :
  spectrumRenderLed v peaks i strip = Some strip' ->
  strip' = strip \/
  exists x, (0.08 <= x <= 1)%Q /\
    strip' = setPixelColor strip (i * SPECTRUM_RESOLUTION) (spectrumIntensityToColor x).
Proof.
  unfold spectrumRenderLed. cbv zeta.
  destruct (fdiv (itof i) _) as [r|]; [|done]. cbn [mbind option_bind].
  match goal with
  | |- context [spectrumIntensity ?a ?b ?c] =>
      destruct (spectrumIntensity_total a b c) as (x & -> & Hx)
  end.
  cbn [mbind option_bind]. destruct (fgeb_spec x 0.08); intros [= <-]; [|auto].
  right. exists x. split; [lra|]. reflexivity.
Qed.

(** The colour of a lit Spectrum pixel. *)
Lemma spectrumIntensityToColor_green (x : Q) :
  (0.08 <= x <= 1)%Q ->
  0 <= spectrumIntensityToColor x < 2 ^ 24 /\
  channel (spectrumIntensityToColor x) 16 = 0 /\
  20 <= channel (spectrumIntensityToColor x) 8 <= 255 /\
  channel (spectrumIntensityToColor x) 0 = 0.
Proof.
  intros Hx. unfold spectrumIntensityToColor. cbv zeta.
  set (y := constrain x 0.0 1.0).
  assert (0.08 <= y <= 1)%Q as Hy by (unfold y, constrain; fcases; lra).
  split; [apply Color_range|].
  destruct (channel_Color (ftou8 (itof SPECTRUM_R * y)) (ftou8 (itof SPECTRUM_G * y))
              (ftou8 (itof SPECTRUM_B * y))) as (-> & -> & ->).
  rewrite !u8_small by apply ftou8_range.
  assert (ftou8 (itof 0 * y) = 0) as Hzero.
  { unfold ftou8. assert (0 <= ftoi (itof 0 * y) <= 0) as H.
    { apply ftoi_range; [lia| |]; change (itof 0) with 0%Q; lra. }
    replace (ftoi (itof 0 * y)) with 0 by lia. reflexivity. }
  change SPECTRUM_R with 0. change SPECTRUM_B with 0. change SPECTRUM_G with 255.
  rewrite Hzero. split; [done|]. split; [|done].
  assert (20 <= ftoi (itof 255 * y) <= 255) as Hg.
  { split.
    - apply ftoi_ge; [lia|]. change (itof 20) with 20%Q. change (itof 255) with 255%Q. lra.
    - apply ftoi_range; [lia| |]; change (itof 255) with 255%Q; lra. }
  unfold ftou8. rewrite u8_small by lia. exact Hg.
Qed.

Lemma spectrumUpdate_inv (v peaks peaks' : list Q) (strip strip' : list Z) :
  spectrumUpdate v peaks strip = Some (peaks', strip') ->
  spectrumUpdatePeaks v peaks = Some peaks' /\
  for_range 0 SPECTRUM_ACTIVE_LEDS (spectrumRenderLed v peaks') (strip_clear strip)
  = Some strip'.
Proof.
  unfold spectrumUpdate.
  destruct (spectrumUpdatePeaks v peaks) as [p|]; [|done]. cbn [mbind option_bind].
  destruct (for_range 0 SPECTRUM_ACTIVE_LEDS _ _) as [st|] eqn:Hr; [|done].
  cbn [mbind option_bind]. intros [= <- <-]. done.
Qed.

(** X17.  After [spectrumUpdate] every pixel is dark, or sits at a multiple
    of [SPECTRUM_RESOLUTION] and is pure green with a green channel between
    20 and 255. *)
Theorem spectrum_frame_is_a_green_grid (v peaks peaks' : list Q) (strip strip' : list Z) :
  length strip = 120%nat ->
  spectrumUpdate v peaks strip = Some (peaks', strip') ->
  forall p, spectrum_pixel strip' p.
Proof.
  intros Hlen Hu. destruct (spectrumUpdate_inv v peaks peaks' strip strip' Hu) as [_ Hr].
  revert Hr.
  apply (for_range_post (fun _ t => length t = 120%nat /\ forall p, spectrum_pixel t p)).
  - consts. lia.
  - split; [now rewrite length_strip_clear|]. intros p. left. now apply getPixelColor_clear.
  - intros j u u' Hj [Hl Hu'] Hstep.
    destruct (spectrumRenderLed_inv v peaks' j u u' Hstep) as [->|(x & Hx & ->)];
      [split; assumption|]. clear Hstep.
    split; [rewrite length_setPixelColor; exact Hl|]. intros p.
    destruct (Z.eq_dec p (j * SPECTRUM_RESOLUTION)) as [->|Hne].
    + right. rewrite getPixelColor_set_eq by (try exact Hl; revert Hj; consts; lia).
      destruct (spectrumIntensityToColor_green x Hx) as (Hc & H16 & H8 & H0).
      rewrite mask24_small by exact Hc.
      split; [apply Z_mod_mult|]. split; [exact H16|]. split; [exact H8|exact H0].
    + unfold spectrum_pixel. rewrite getPixelColor_set_ne by lia. apply Hu'.
Qed.

Lemma spectrum_frame_is_a_green_grid_witness :
  exists peaks' strip',
    spectrumUpdate (replicate 64 300%Q) (spectrumBinPeaks (after_setup 0)) one_lit
    = Some (peaks', strip') /\
    spectrum_pixel strip' 119.
Proof.
  destruct (spectrumUpdate (replicate 64 300%Q) (spectrumBinPeaks (after_setup 0)) one_lit)
    as [[peaks' strip']|] eqn:E; [|vm_compute in E; discriminate E].
  exists peaks', strip'. split; [reflexivity|].
  exact (spectrum_frame_is_a_green_grid (replicate 64 300%Q)
           (spectrumBinPeaks (after_setup 0)) peaks' one_lit strip' eq_refl E 119).
Defined.

(** * The bins the firmware reads *)

Section SameBins.
Variables v v' : list Q.
Hypothesis Hsame : same_bins v v'.

Lemma meanSpectrum_same : meanSpectrum v = meanSpectrum v'.
Proof.
  unfold meanSpectrum. f_equal. apply loop_range_ext.
  intros j a Hj. now rewrite (Hsame j Hj).
Qed.

Lemma updateGlobalAudioLevel_same (g : Global) :
  updateGlobalAudioLevel v g = updateGlobalAudioLevel v' g.
Proof. unfold updateGlobalAudioLevel. now rewrite meanSpectrum_same. Qed.

Lemma trailAnalyzeBand_same (b : Z) (bands : list Q) :
  0 <= b < TRAIL_NUM_BANDS ->
  trailAnalyzeBand v b bands = trailAnalyzeBand v' b bands.
Proof.
  intros Hb. unfold trailAnalyzeBand. cbv zeta.
  pose proof (trail_band_range b Hb) as [Hr1 Hr2].
  set (start := aget TRAIL_BAND_START b) in *.
  set (e := if b <? TRAIL_NUM_BANDS - 1 then _ else _) in *.
  assert (loop_range start e
            (fun i '(bands, count) =>
               (aset bands b (aget bands b + aget v i)%Q, count + 1))
            (aset bands b 0%Q, 0)
          = loop_range start e
            (fun i '(bands, count) =>
               (aset bands b (aget bands b + aget v' i)%Q, count + 1))
            (aset bands b 0%Q, 0)) as ->; [|reflexivity].
  apply loop_range_ext. intros j [bs c] Hj. rewrite (Hsame j); [reflexivity|lia].
Qed.

Lemma trailAnalyze_same (bands : list Q) : trailAnalyze v bands = trailAnalyze v' bands.
Proof.
  unfold trailAnalyze. apply for_range_ext. intros j u Hj. now apply trailAnalyzeBand_same.
Qed.

Lemma trailUpdate_same (now : Z) (t : Trail) (strip : list Z) :
  trailUpdate v now t strip = trailUpdate v' now t strip.
Proof. unfold trailUpdate. now rewrite trailAnalyze_same. Qed.

Lemma lavaAnalyzeBand_same (b : Z) (s : BandScan) :
  0 <= b < LAVA_NUM_BANDS ->
  lavaAnalyzeBand v b s = lavaAnalyzeBand v' b s.
Proof.
  intros Hb. unfold lavaAnalyzeBand. cbv zeta.
  pose proof (lava_band_range b Hb) as [Hr1 Hr2].
  assert (loop_range (aget bandBins b) (aget bandBins (b + 1))
            (fun i lv => aset lv b (aget lv b + aget v i)%Q) (aset (scanLevels s) b 0%Q)
          = loop_range (aget bandBins b) (aget bandBins (b + 1))
            (fun i lv => aset lv b (aget lv b + aget v' i)%Q) (aset (scanLevels s) b 0%Q))
    as ->; [|reflexivity].
  apply loop_range_ext. intros j lv Hj. rewrite (Hsame j); [reflexivity|lia].
Qed.

Lemma lavaAnalyzeAudio_same (l : Lava) : lavaAnalyzeAudio v l = lavaAnalyzeAudio v' l.
Proof.
  unfold lavaAnalyzeAudio. rewrite meanSpectrum_same.
  rewrite (for_range_ext 0 LAVA_NUM_BANDS (lavaAnalyzeBand v) (lavaAnalyzeBand v'));
    [reflexivity|].
  intros j u Hj. now apply lavaAnalyzeBand_same.
Qed.

Lemma lavaUpdate_same (d : Draws) (l : Lava) (strip : list Z) :
  lavaUpdate d v l strip = lavaUpdate d v' l strip.
Proof. unfold lavaUpdate. now rewrite lavaAnalyzeAudio_same. Qed.

Lemma spectrumUpdatePeaks_same (peaks : list Q) :
  spectrumUpdatePeaks v peaks = spectrumUpdatePeaks v' peaks.
Proof.
  unfold spectrumUpdatePeaks. apply for_range_ext.
  intros j p Hj. now rewrite (Hsame j Hj).
Qed.

Lemma spectrumRenderLed_same (peaks : list Q) (i : Z) (strip : list Z) :
  0 <= i < SPECTRUM_ACTIVE_LEDS ->
  spectrumRenderLed v peaks i strip = spectrumRenderLed v' peaks i strip.
Proof.
  intros Hi. unfold spectrumRenderLed. cbv zeta.
  rewrite fdiv_Some by (apply itof_nonzero; consts; lia). cbn [mbind option_bind].
  set (r := (itof i / itof (SPECTRUM_ACTIVE_LEDS - 1))%Q).
  assert (0 <= r <= 1)%Q as Hr.
  { assert (0 <= itof i <= itof (SPECTRUM_ACTIVE_LEDS - 1))%Q as Hq.
    { split; [change 0%Q with (itof 0)|]; apply itof_le; revert Hi; consts; lia. }
    assert (0 < itof (SPECTRUM_ACTIVE_LEDS - 1))%Q as Hp by (vm_compute; reflexivity).
    unfold r. split; [apply Qle_shift_div_l|apply Qle_shift_div_r]; lra. }
  set (binLow := ftoi (1.0 + itof (NUM_BINS - 2) * r)).
  assert (1 <= binLow <= NUM_BINS - 1) as Hlow.
  { unfold binLow. change (itof (NUM_BINS - 2)) with 30%Q. split.
    - apply ftoi_ge; [lia|]. change (itof 1) with 1%Q. lra.
    - apply ftoi_range; [consts; lia|lra|]. change (itof (NUM_BINS - 1)) with 31%Q. lra. }
  rewrite (Hsame binLow) by (revert Hlow; consts; lia).
  rewrite (Hsame (Z.min (binLow + 1) (NUM_BINS - 1))) by (revert Hlow; consts; lia).
  reflexivity.
Qed.

Lemma spectrumUpdate_same (peaks : list Q) (strip : list Z) :
  spectrumUpdate v peaks strip = spectrumUpdate v' peaks strip.
Proof.
  unfold spectrumUpdate. rewrite spectrumUpdatePeaks_same.
  destruct (spectrumUpdatePeaks v' peaks) as [p|]; [|reflexivity].
  cbn [mbind option_bind].
  rewrite (for_range_ext 0 SPECTRUM_ACTIVE_LEDS (spectrumRenderLed v p)
             (spectrumRenderLed v' p)); [reflexivity|].
  intros j u Hj. now apply spectrumRenderLed_same.
Qed.
End SameBins.

(** X18.  A pass of [loop()] reads only the bins 1 .. 31 of the spectrum:
    two inputs that agree on these bins, on the clock readings and on the
    random draws give the same result from any state, whatever the DC bin
    and the bins from 32 on hold. *)
Theorem only_bins_1_to_31_matter (i i' : Input) (s : Firmware) :
  same_bins (vReal i) (vReal i') ->
  now_check i = now_check i' -> now_switch i = now_switch i' ->
  now_trail i = now_trail i' -> draws i = draws i' ->
  loop i s = loop i' s.
Proof.
  intros Hv Hc Hs Ht Hd. unfold loop.
  rewrite (updateGlobalAudioLevel_same _ _ Hv), Hc, Hs.
  destruct (updateGlobalAudioLevel (vReal i') (global s)) as [g|]; [|reflexivity].
  cbn [mbind option_bind].
  destruct (checkModeSwitch _ _ _) as [s1|]; [|reflexivity].
  cbn [mbind option_bind]. unfold runEngine.
  rewrite (trailUpdate_same _ _ Hv), (lavaUpdate_same _ _ Hv), (spectrumUpdate_same _ _ Hv).
  rewrite Ht, Hd. reflexivity.
Qed.

Lemma aget_cons_pos {A : Type} `{Inhabited A} (x : A) (l : list A) (k : Z) :
  1 <= k -> aget (x :: l) k = aget l (k - 1).
Proof.
  intros Hk. unfold aget.
  replace (Z.to_nat k) with (Datatypes.S (Z.to_nat (k - 1))) by lia. reflexivity.
Qed.

Lemma only_bins_1_to_31_matter_witness :
  loop (flat 300 100) (after_setup 0) = loop (flat_with_dc 9999 300 100) (after_setup 0).
Proof.
  apply (only_bins_1_to_31_matter (flat 300 100) (flat_with_dc 9999 300 100) (after_setup 0));
    try reflexivity.
  intros k Hk. cbn [vReal flat flat_with_dc].
  rewrite aget_cons_pos by lia.
  rewrite !aget_replicate by (revert Hk; consts; lia). reflexivity.
Defined.

(** * Lava: the profile of a blob *)

Lemma fabs_nonneg (x : Q) : (0 <= fabs x)%Q.
Proof. unfold fabs. fcases; lra. Qed.

(** X19.  For a blob of positive size and brightness in [0, 1], among
    pixels within [size] of the centre a pixel nearer to the centre gets at
    least the falloff of one farther away; the falloff is at most the
    brightness, equals it at the centre and is 0 at distance [size]. *)
Theorem falloff_peaks_at_the_centre (center size brightness : Q) (i j : Z) :
  (0 < size)%Q -> (0 <= brightness <= 1)%Q ->
  (fabs (itof i - center) <= fabs (itof j - center))%Q ->
  (fabs (itof j - center) <= size)%Q ->
  exists x y,
    lavaFalloff i center size brightness = Some x /\
    lavaFalloff j center size brightness = Some y /\
    (0 <= y)%Q /\ (y <= x)%Q /\ (x <= brightness)%Q /\
    ((itof i == center)%Q -> (x == brightness)%Q) /\
    ((fabs (itof j - center) == size)%Q -> (y == 0)%Q).
Proof.
  intros Hs Hb Hij Hj. unfold lavaFalloff.
  rewrite !fdiv_Some by lra. cbn [mbind option_bind].
  eexists _, _. split; [reflexivity|]. split; [reflexivity|].
  pose proof (fabs_nonneg (itof i - center)) as Hi0.
  pose proof (fabs_nonneg (itof j - center)) as Hj0.
  assert (fabs (itof i - center) / size * size == fabs (itof i - center))%Q as Ei
    by (field; lra).
  assert (fabs (itof j - center) / size * size == fabs (itof j - center))%Q as Ej
    by (field; lra).
  assert (itof i == center -> fabs (itof i - center) == 0)%Q as Hc.
  { intros E. unfold fabs. fcases; lra. }
  revert Ei Ej Hc Hi0 Hj0 Hij Hj.
  generalize (fabs (itof i - center)). generalize (fabs (itof j - center)).
  intros dj di. generalize (di / size)%Q. generalize (dj / size)%Q.
  intros qj qi Ei Ej Hc Hi0 Hj0 Hij Hj.
  assert (0 <= qi)%Q as Hqi by nra.
  assert (qi <= qj)%Q as Hqij by nra.
  assert (qj <= 1)%Q as Hqj by nra.
  assert (0 <= (1.0 - qj) * (1.0 - qj) * brightness)%Q as Y0.
  { repeat apply Qmult_le_0_compat; lra. }
  assert ((1.0 - qj) * (1.0 - qj) <= (1.0 - qi) * (1.0 - qi))%Q as SQ.
  { assert (0 <= (qj - qi) * (2 - qi - qj))%Q by (apply Qmult_le_0_compat; lra). lra. }
  assert ((1.0 - qi) * (1.0 - qi) <= 1)%Q as S1.
  { assert (0 <= qi * (2 - qi))%Q by (apply Qmult_le_0_compat; lra). lra. }
  assert ((1.0 - qj) * (1.0 - qj) * brightness <= (1.0 - qi) * (1.0 - qi) * brightness)%Q
    as YX by (apply Qmult_le_compat_r; lra).
  assert ((1.0 - qi) * (1.0 - qi) * brightness <= brightness)%Q as XB.
  { rewrite <- (Qmult_1_l brightness) at 2. apply Qmult_le_compat_r; lra. }
  assert (itof i == center -> (1.0 - qi) * (1.0 - qi) * brightness == brightness)%Q as XC.
  { intros E. specialize (Hc E). assert (qi == 0)%Q as -> by nra. ring. }
  assert (dj == size -> (1.0 - qj) * (1.0 - qj) * brightness == 0)%Q as YZ.
  { intros E. assert (qj == 1)%Q as -> by nra. ring. }
  generalize dependent ((1.0 - qi) * (1.0 - qi) * brightness)%Q.
  generalize dependent ((1.0 - qj) * (1.0 - qj) * brightness)%Q.
  intros y Y0 YZ x YX XB XC.
  unfold constrain. fcases; repeat split; try lra; intros E;
    try specialize (XC E); try specialize (YZ E); lra.
Qed.

Lemma falloff_peaks_at_the_centre_witness :
  exists x y,
    lavaFalloff 60 60 12 0.5 = Some x /\
    lavaFalloff 66 60 12 0.5 = Some y /\
    (0 <= y)%Q /\ (y <= x)%Q /\ (x <= 0.5)%Q.
Proof.
  destruct (falloff_peaks_at_the_centre 60 12 0.5 60 66)
    as (x & y & Hx & Hy & H0 & Hyx & Hxb & _).
  - vm_compute. reflexivity.
  - split; vm_compute; discriminate.
  - vm_compute. discriminate.
  - vm_compute. discriminate.
  - exists x, y. split; [exact Hx|]. split; [exact Hy|]. split; [exact H0|].
    split; [exact Hyx|exact Hxb].
Defined.

(** * Peaks and levels are bounded by the input *)

Lemma trail_noise_le (b : Z) :
  0 <= b < TRAIL_NUM_BANDS -> (aget TRAIL_BAND_NOISE b <= 200)%Q.
Proof.
  consts. intros Hb.
  assert (b = 0 \/ b = 1 \/ b = 2 \/ b = 3 \/ b = 4 \/ b = 5 \/ b = 6 \/ b = 7) as Hc by lia.
  destruct Hc as [->|[->|[->|[->|[->|[->|[->| ->]]]]]]]; vm_compute; discriminate.
Qed.

Lemma spectrumGetNoiseFloor_le (r : Q) : (spectrumGetNoiseFloor r <= 80)%Q.
Proof.
  unfold spectrumGetNoiseFloor, SPECTRUM_NOISE_LOW, SPECTRUM_NOISE_MID,
    SPECTRUM_NOISE_HIGH.
  fcases; lra.
Qed.

Lemma trailPeakStep_le (M band noise peak : Q) :
  (band <= M)%Q -> (noise <= M)%Q -> (peak <= M)%Q ->
  (trailPeakStep band noise peak <= M)%Q.
Proof. intros. unfold trailPeakStep. fcases; lra. Qed.

Lemma lavaBandPeakStep_le (M level peak : Q) :
  (50 <= M)%Q -> (level <= M)%Q -> (peak <= M)%Q ->
  (lavaBandPeakStep level peak <= M)%Q.
Proof. intros. unfold lavaBandPeakStep. fcases; lra. Qed.

Lemma spectrumPeakStep_le (M x noise peak : Q) :
  (x <= M)%Q -> (noise <= M)%Q -> (peak <= M)%Q ->
  (spectrumPeakStep x noise peak <= M)%Q.
Proof. intros. unfold spectrumPeakStep. fcases; lra. Qed.

Lemma spectrumUpdatePeaks_le (M : Q) (v peaks peaks' : list Q) :
  (80 <= M)%Q -> bins_within 0 M v ->
  (forall b, 0 <= b < NUM_BINS -> (aget peaks b <= M)%Q) ->
  spectrumUpdatePeaks v peaks = Some peaks' ->
  forall b, 0 <= b < NUM_BINS -> (aget peaks' b <= M)%Q.
Proof.
  intros HM Hv Hp. unfold spectrumUpdatePeaks.
  apply (for_range_post
    (fun (_ : Z) p => forall b, 0 <= b < NUM_BINS -> (aget p b <= M)%Q));
    [vm_compute; discriminate|exact Hp|].
  intros j u u' Hj Hu. rewrite freqRatio_Some. cbn [mbind option_bind].
  intros [= <-] b Hb.
  match goal with
  | |- context [aset u j ?x] =>
      destruct (aget_aset_cases u j b x) as [[_ ->]| ->]; try lia
  end.
  - apply spectrumPeakStep_le.
    + apply Hv. lia.
    + pose proof (spectrumGetNoiseFloor_le (itof j / itof (NUM_BINS - 1))). lra.
    + apply Hu. lia.
  - now apply Hu.
Qed.

Lemma lavaCheckTrigger_keeps (d : Draws) (l l' : Lava) :
  lavaCheckTrigger d l = Some l' ->
  lavaBandLevels l' = lavaBandLevels l /\
  lavaBandPeaks l' = lavaBandPeaks l /\
  lavaAudioLevel l' = lavaAudioLevel l /\
  lavaAudioPeak l' = lavaAudioPeak l.
Proof.
  intros Ht. destruct (lavaCheckTrigger_inv d l l' Ht) as [->|(x & _ & Hs)]; [done|].
  revert Hs. unfold lavaSpawnBlob. destruct (_ >=? _); [|now intros [= <-]].
  destruct (fdiv _ _) as [q|]; [|done]. cbn [mbind option_bind]. now intros [= <-].
Qed.

Lemma audio_step_le (M a level peak : Q) :
  (50 <= M)%Q -> (a <= M)%Q -> (level <= M)%Q -> (peak <= M)%Q ->
  let level' := if fgtb a level then a else (level * 0.7 + a * 0.3)%Q in
  (level' <= M)%Q /\
  ((if fgtb level' peak then level' else (peak * 0.99 + 50 * 0.01)%Q) <= M)%Q.
Proof.
  intros HM Ha Hl Hp level'. subst level'.
  destruct (fgtb_spec a level); cbv iota; fcases; split; lra.
Qed.

Lemma setup_levels_from (t1 t2 : Z) (s0 s : Firmware) :
  shaped s0 ->
  length (trailBands (trail s0)) = 8%nat ->
  length (lavaBandLevels (lava s0)) = 6%nat ->
  (globalAudioLevel (global s0) <= 200)%Q -> (globalAudioPeak (global s0) <= 200)%Q ->
  setup t1 t2 s0 = Some s -> levels_below 200 s.
Proof.
  intros [Ht Hb Hl Hs Hst] Htb Hlb Hg1 Hg2. unfold setup, trailSetup.
  destruct (spectrumSetup_spec (spectrumBinPeaks s0) Hs) as (p & -> & _ & S2).
  destruct (trailSetupPeaks_spec (trailBandPeaks (trail s0)) Ht) as [_ T2].
  destruct (lavaSetup_spec (lava s0) Hb Hl) as (_ & _ & _ & L4 & L5 & L6).
  cbn [mbind option_bind]. intros [= <-].
  split; cbn [trail lava global spectrumBinPeaks trailBands trailBandPeaks].
  - exact Htb.
  - exact Hlb.
  - intros b Hb'. rewrite T2 by exact Hb'. now apply trail_noise_le.
  - intros b Hb'. rewrite L4 by exact Hb'. lra.
  - rewrite L6. lra.
  - rewrite L5. lra.
  - exact Hg1.
  - exact Hg2.
  - intros b Hb'. rewrite S2 by exact Hb'.
    pose proof (spectrumGetNoiseFloor_le (itof b / itof (NUM_BINS - 1))).
    unfold binNoiseFloor. lra.
Qed.

Lemma boot_shaped : shaped boot.
Proof. split; reflexivity. Qed.

Lemma setup_levels (t1 t2 : Z) (s : Firmware) :
  setup t1 t2 boot = Some s -> levels_below 200 s.
Proof.
  apply setup_levels_from; [exact boot_shaped|reflexivity|reflexivity| |];
    vm_compute; discriminate.
Qed.

Lemma levels_below_weaken (M M' : Q) (s : Firmware) :
  (M <= M')%Q -> levels_below M s -> levels_below M' s.
Proof.
  intros HM [B1 B2 B3 B4 B5 B6 B7 B8 B9].
  split; try assumption; try lra.
  - intros b Hb. specialize (B3 b Hb). lra.
  - intros b Hb. specialize (B4 b Hb). lra.
  - intros b Hb. specialize (B9 b Hb). lra.
Qed.

Lemma nextMode_levels (M : Q) (now : Z) (s s' : Firmware) :
  (200 <= M)%Q -> shaped s -> levels_below M s ->
  nextMode now s = Some s' -> levels_below M s'.
Proof.
  intros HM [Ht Hb Hl Hs Hst] [B1 B2 B3 B4 B5 B6 B7 B8 B9]. unfold nextMode.
  destruct (Mode_of_Z _).
  - destruct (trailSetupPeaks_spec (trailBandPeaks (trail s)) Ht) as [_ T2].
    unfold trailSetup. intros [= <-].
    split; cbn [trail lava global spectrumBinPeaks trailBands trailBandPeaks];
      try assumption.
    intros b Hb'. rewrite T2 by exact Hb'. pose proof (trail_noise_le b Hb'). lra.
  - destruct (lavaSetup_spec (lava s) Hb Hl) as (_ & _ & _ & L4 & L5 & L6).
    intros [= <-].
    split; cbn [trail lava global spectrumBinPeaks]; try assumption.
    + intros b Hb'. rewrite L4 by exact Hb'. lra.
    + rewrite L6. lra.
    + rewrite L5. lra.
  - destruct (spectrumSetup_spec (spectrumBinPeaks s) Hs) as (p & -> & _ & S2).
    cbn [mbind option_bind]. intros [= <-].
    split; cbn [trail lava global spectrumBinPeaks]; try assumption.
    intros b Hb'. rewrite S2 by exact Hb'.
    pose proof (spectrumGetNoiseFloor_le (itof b / itof (NUM_BINS - 1))).
    unfold binNoiseFloor. lra.
Qed.

Lemma runEngine_levels (M : Q) (i : Input) (s s' : Firmware) :
  (200 <= M)%Q -> shaped s -> levels_below M s ->
  bins_within 0 M (vReal i) ->
  runEngine i s = Some s' -> levels_below M s'.
Proof.
  intros HM [Ht Hb Hl Hs Hst] [B1 B2 B3 B4 B5 B6 B7 B8 B9] Hv. unfold runEngine.
  destruct (currentMode s).
  - destruct (trailUpdate _ _ _ _) as [[t st]|] eqn:E; cbn [mbind option_bind]; [|done].
    intros [= <-].
    destruct (trailUpdate_inv _ _ _ _ _ _ E) as (bands & st1 & Ha & _ & Eb & Ep & _).
    destruct (trailAnalyze_mean 0 M _ _ _ Hv B1 Ha) as [Hbl Hbm].
    destruct (trailUpdatePeaks_spec bands (trailBandPeaks (trail s)) Ht) as [_ Hget].
    split; cbn [trail lava global spectrumBinPeaks]; try assumption.
    + now rewrite Eb.
    + intros b Hb'. rewrite Ep, Hget by exact Hb'. apply trailPeakStep_le.
      * apply Hbm, Hb'.
      * pose proof (trail_noise_le b Hb'). lra.
      * apply B3, Hb'.
  - destruct (lavaUpdate _ _ _ _) as [[l st]|] eqn:E; cbn [mbind option_bind]; [|done].
    intros [= <-].
    destruct (lavaUpdate_inv _ _ _ _ _ _ E) as (l1 & l2 & Ha & Hc & -> & _).
    destruct (lavaAnalyzeAudio_scanned 0 M _ _ _ B2 Hl Ha) as (sc & Hsc & E1 & E2 & _).
    destruct (lavaAnalyzeAudio_inv _ _ _ Ha) as (sc' & a & _ & Hmean & _ & _ & _ & _ & _ & Elv & Epk).
    destruct (meanSpectrum_bounds 0 M _ Hv) as (a' & Ha' & Ha'M).
    assert (a' = a) as -> by congruence.
    destruct (audio_step_le M a (lavaAudioLevel (lava s)) (lavaAudioPeak (lava s)))
      as [Hlv Hpk]; [lra|lra|exact B5|exact B6|].
    destruct (lavaCheckTrigger_keeps _ _ _ Hc) as (K1 & K2 & K3 & K4).
    split; cbn [trail lava global spectrumBinPeaks lavaUpdateBlobs lavaBandLevels
                lavaBandPeaks lavaAudioLevel lavaAudioPeak]; try assumption.
    + rewrite K1, E1. apply (scanned_levels _ _ _ _ _ _ Hsc).
    + intros b Hb'. rewrite K2, E2. rewrite (scanned_step _ _ _ _ _ _ Hsc) by exact Hb'.
      apply lavaBandPeakStep_le; [lra| |apply B4, Hb'].
      apply (scanned_mean _ _ _ _ _ _ Hsc Hv b Hb').
    + rewrite K3, Elv. exact Hlv.
    + rewrite K4, Epk, Elv. exact Hpk.
  - destruct (spectrumUpdate _ _ _) as [[p st]|] eqn:E; cbn [mbind option_bind]; [|done].
    intros [= <-].
    destruct (spectrumUpdate_inv _ _ _ _ _ E) as [Hp _].
    split; cbn [trail lava global spectrumBinPeaks]; try assumption.
    apply (spectrumUpdatePeaks_le M (vReal i) (spectrumBinPeaks s) p); try assumption. lra.
Qed.

Lemma loop_levels (M : Q) (i : Input) (s s' : Firmware) :
  (200 <= M)%Q -> invariant s -> levels_below M s ->
  bins_within 0 M (vReal i) ->
  loop i s = Some s' -> levels_below M s'.
Proof.
  intros HM Hinv Hlev Hv Hl.
  destruct (loop_inv i s s' Hl) as (g & s1 & Hg & Hc & He).
  destruct (updateGlobalAudioLevel_inv _ _ _ Hg) as (a & Hmean & _ & Elv & Epk).
  destruct (meanSpectrum_bounds 0 M _ Hv) as (a' & Ha' & Ha'M).
  assert (a' = a) as -> by congruence.
  destruct Hlev as [B1 B2 B3 B4 B5 B6 B7 B8 B9].
  destruct (audio_step_le M a (globalAudioLevel (global s)) (globalAudioPeak (global s)))
    as [Hlv Hpk]; [lra|lra|exact B7|exact B8|].
  assert (levels_below M (set_global g s)) as Hlev1.
  { split; cbn [set_global trail lava global spectrumBinPeaks]; try assumption.
    - rewrite Elv. exact Hlv.
    - rewrite Epk, Elv. exact Hpk. }
  assert (shaped (set_global g s)) as Hsh1.
  { destruct Hinv as [[] _ _]. split; assumption. }
  assert (invariant (set_global g s)) as Hinv1.
  { apply set_global_invariant; [exact Hinv|].
    eapply updateGlobalAudioLevel_floor; [exact Hg|]. now destruct Hinv as [_ [] _]. }
  assert (levels_below M s1 /\ shaped s1) as [Hlev2 Hsh2].
  { destruct (checkModeSwitch_invariant (now_check i) (now_switch i) _ Hinv1)
      as (s1' & Hs1' & [Hsh _ _]).
    assert (s1' = s1) as -> by congruence. split; [|exact Hsh].
    destruct (checkModeSwitch_cases _ _ _ _ Hc) as [->|[Hn|Hn]].
    - exact Hlev1.
    - exact (nextMode_levels M _ _ _ HM Hsh1 Hlev1 Hn).
    - apply (nextMode_levels M _ _ _ HM) in Hn; [exact Hn| |].
      + destruct Hsh1. split; assumption.
      + destruct Hlev1. split; assumption. }
  exact (runEngine_levels M i s1 s' HM Hsh2 Hlev2 Hv He).
Qed.

(** X21.  After [setup()], as long as every bin 1 .. 31 of every spectrum
    lies in [0, M] with [M >= 200], every band peak, bin peak, loudness peak
    and loudness level is at most [M], and the band-level arrays keep their
    lengths. *)
Theorem peaks_bounded_by_the_input (M : Q) (t1 t2 : Z) (s0 s' : Firmware)
    (ins : list Input) :
  (200 <= M)%Q ->
  setup t1 t2 boot = Some s0 ->
  Forall (fun i => bins_within 0 M (vReal i)) ins ->
  run ins s0 = Some s' ->
  levels_below M s'.
Proof.
  intros HM Hs Hall.
  assert (reachable s0) as Hr by (eapply reach_setup; exact Hs).
  assert (levels_below M s0) as Hlev.
  { apply (levels_below_weaken 200 M); [exact HM|]. exact (setup_levels t1 t2 s0 Hs). }
  clear Hs. revert s0 Hr Hlev.
  induction Hall as [|i ins Hi Hall IH]; intros s0 Hr Hlev.
  - cbn [run]. now intros [= <-].
  - cbn [run]. destruct (loop i s0) as [s1|] eqn:Hl; [|done]. cbn [mbind option_bind].
    apply IH.
    + exact (reach_loop i s0 s1 Hr Hl).
    + exact (loop_levels M i s0 s1 HM (reachable_invariant s0 Hr) Hlev Hi Hl).
Qed.

Lemma peaks_bounded_by_the_input_witness :
  exists s', run [flat 300 100; flat 280 200] (after_setup 0) = Some s' /\
    levels_below 300 s'.
Proof.
  destruct (run_invariant [flat 300 100; flat 280 200] (after_setup 0)) as (s' & Hs' & _).
  { apply reachable_invariant, after_setup_reachable. }
  exists s'. split; [exact Hs'|].
  apply (peaks_bounded_by_the_input 300 0 0 (after_setup 0) s'
           [flat 300 100; flat 280 200]).
  - vm_compute. discriminate.
  - apply after_setup_eq.
  - constructor; [|constructor; [|constructor]].
    + intros k Hk. cbn [vReal flat].
      rewrite aget_replicate by (revert Hk; consts; lia). split; vm_compute; discriminate.
    + intros k Hk. cbn [vReal flat].
      rewrite aget_replicate by (revert Hk; consts; lia). split; vm_compute; discriminate.
  - exact Hs'.
Defined.

(** * Quiet input lights nothing *)

Lemma ftoi_floor (q : Q) :
  (0 <= q)%Q -> (itof (ftoi q) <= q)%Q /\ (q < itof (ftoi q) + 1)%Q.
Proof.
  intros Hq. rewrite <- itof_succ. destruct q as [a d].
  unfold Qle, Qlt, ftoi, itof in *. cbn [Qnum Qden inject_Z] in *.
  rewrite Z.quot_div_nonneg by lia.
  pose proof (Z.mul_div_le a (Z.pos d) ltac:(lia)).
  pose proof (Z.mul_succ_div_gt a (Z.pos d) ltac:(lia)). lia.
Qed.

Lemma trail_noise_ge (b : Z) :
  0 <= b < TRAIL_NUM_BANDS -> (80 <= aget TRAIL_BAND_NOISE b)%Q.
Proof.
  consts. intros Hb.
  assert (b = 0 \/ b = 1 \/ b = 2 \/ b = 3 \/ b = 4 \/ b = 5 \/ b = 6 \/ b = 7) as Hc by lia.
  destruct Hc as [->|[->|[->|[->|[->|[->|[->| ->]]]]]]]; vm_compute; discriminate.
Qed.

Lemma spectrumRenderLed_quiet (v peaks : list Q) (i : Z) (strip : list Z) :
  bins_within 0 50 v -> 0 <= i < SPECTRUM_ACTIVE_LEDS ->
  spectrumRenderLed v peaks i strip = Some strip.
Proof.
  intros Hv Hi. unfold spectrumRenderLed. cbv zeta.
  rewrite fdiv_Some by (apply itof_nonzero; consts; lia). cbn [mbind option_bind].
  set (r := (itof i / itof (SPECTRUM_ACTIVE_LEDS - 1))%Q).
  assert (0 <= r <= 1)%Q as Hr.
  { assert (0 <= itof i <= itof (SPECTRUM_ACTIVE_LEDS - 1))%Q as Hq.
    { split; [change 0%Q with (itof 0)|]; apply itof_le; revert Hi; consts; lia. }
    assert (0 < itof (SPECTRUM_ACTIVE_LEDS - 1))%Q as Hp by (vm_compute; reflexivity).
    unfold r. split; [apply Qle_shift_div_l|apply Qle_shift_div_r]; lra. }
  change (itof (NUM_BINS - 2)) with 30%Q.
  set (binFloat := (1.0 + 30 * r)%Q).
  assert (1 <= binFloat <= 31)%Q as Hbf by (unfold binFloat; lra).
  set (binLow := ftoi binFloat).
  assert (1 <= binLow <= NUM_BINS - 1) as Hlow.
  { unfold binLow. split.
    - apply ftoi_ge; [lia|]. change (itof 1) with 1%Q. lra.
    - apply ftoi_range; [consts; lia|lra|]. change (itof (NUM_BINS - 1)) with 31%Q. lra. }
  destruct (ftoi_floor binFloat) as [Hf1 Hf2]; [lra|]. fold binLow in Hf1, Hf2.
  pose proof (Hv binLow ltac:(revert Hlow; consts; lia)) as Hvl.
  pose proof (Hv (Z.min (binLow + 1) (NUM_BINS - 1)) ltac:(revert Hlow; consts; lia)) as Hvh.
  set (frac := (binFloat - itof binLow)%Q) in *.
  assert (0 <= frac <= 1)%Q as Hfr by (unfold frac; lra).
  rewrite spectrumIntensity_floor.
  - cbn [mbind option_bind]. destruct (fgeb_spec 0 0.08); [lra|reflexivity].
  - left. pose proof (spectrumGetNoiseFloor_pos r).
    assert (0 <= (50 - aget v binLow) * (1.0 - frac))%Q
      by (apply Qmult_le_0_compat; lra).
    assert (0 <= (50 - aget v (Z.min (binLow + 1) (NUM_BINS - 1))) * frac)%Q
      by (apply Qmult_le_0_compat; lra).
    lra.
Qed.

Lemma lavaNormalize_low (level peak x : Q) :
  (level <= 50)%Q -> lavaNormalize level peak = Some x -> (x <= 0)%Q.
Proof.
  intros Hl. unfold lavaNormalize. destruct (fgtb_spec peak 50).
  - rewrite fdiv_Some by lra. cbn [mbind option_bind]. intros [= <-].
    assert ((level - 50) / (peak - 50) <= 0)%Q.
    { apply Qle_shift_div_r; lra. }
    unfold constrain. fcases; lra.
  - intros [= <-]. lra.
Qed.

(** X22.  When every bin 1 .. 31 lies in [0, 50]: Trail leaves its 8
    realtime pixels dark, Spectrum leaves the whole strip dark, and Lava,
    with a loudness level of at most 50, spawns no blob and keeps its level
    at most 50. *)
Theorem quiet_input_lights_nothing (v : list Q) :
  bins_within 0 50 v ->
  (forall now t t' strip strip',
     length strip = 120%nat -> length (trailBands t) = 8%nat ->
     trailUpdate v now t strip = Some (t', strip') ->
     forall b, 0 <= b < TRAIL_REALTIME_LEDS -> trailPixel strip' b = 0) /\
  (forall peaks peaks' strip strip',
     length strip = 120%nat ->
     spectrumUpdate v peaks strip = Some (peaks', strip') ->
     forall p, getPixelColor strip' p = 0) /\
  (forall d l l' strip strip',
     (lavaAudioLevel l <= 50)%Q ->
     lavaUpdate d v l strip = Some (l', strip') ->
     lavaBlobs l' = lavaUpdateBlobsArr (lavaBlobs l) /\
     (lavaAudioLevel l' <= 50)%Q).
Proof.
  intros Hv. split; [|split].
  - intros now t t' strip strip' Hlen Hbl Hu b Hb.
    destruct (trailUpdate_inv v now t t' strip strip' Hu)
      as (bands & strip1 & Ha & Hr & _ & _ & Hcase).
    destruct (trailAnalyze_mean 0 50 v _ _ Hv Hbl Ha) as [_ Hbm].
    destruct (trailRealtime_pixels bands (trailBandPeaks t) strip strip1 Hlen Hr)
      as (Hl1 & Hlow & _).
    assert (trailPixel strip1 b = 0) as Hz.
    { apply (Hlow b Hb). unfold trailActive.
      assert (0 <= b < TRAIL_NUM_BANDS) as Hb' by (revert Hb; consts; lia).
      pose proof (Hbm b Hb'). pose proof (trail_noise_ge b Hb').
      destruct (fgtb_spec (aget bands b) (aget TRAIL_BAND_NOISE b)); [lra|reflexivity]. }
    destruct Hcase as [(_ & _ & ->)|(_ & _ & ->)]; [|exact Hz].
    rewrite trailScroll_pixel by (try exact Hl1; revert Hb; consts; lia).
    destruct (Z.ltb_spec b TRAIL_REALTIME_LEDS); [exact Hz|lia].
  - intros peaks peaks' strip strip' Hlen Hu.
    destruct (spectrumUpdate_inv v peaks peaks' strip strip' Hu) as [_ Hr]. revert Hr.
    apply (for_range_post (fun (_ : Z) t => forall p, getPixelColor t p = 0));
      [vm_compute; discriminate| |].
    + intros p. now apply getPixelColor_clear.
    + intros j u u' Hj Hu'. rewrite spectrumRenderLed_quiet by assumption.
      now intros [= <-].
  - intros d l l' strip strip' Hlev Hu.
    destruct (lavaUpdate_inv d v l l' strip strip' Hu) as (l1 & l2 & Ha & Hc & -> & _).
    destruct (lavaAnalyzeAudio_inv v l l1 Ha)
      as (sc & a & _ & Hmean & Hb1 & _ & _ & _ & _ & Elv & _).
    destruct (meanSpectrum_bounds 0 50 v Hv) as (a' & Ha' & Ha50).
    assert (a' = a) as -> by congruence.
    assert (lavaAudioLevel l1 <= 50)%Q as Hl1 by (rewrite Elv; fcases; lra).
    assert (l2 = l1) as ->.
    { revert Hc. unfold lavaCheckTrigger.
      destruct (lavaNormalize (lavaAudioLevel l1) (lavaAudioPeak l1)) as [x|] eqn:Hx;
        [|done].
      destruct (lavaNormalize (lavaLastAudioLevel l1) (lavaAudioPeak l1)) as [y|]; [|done].
      cbn [mbind option_bind]. pose proof (lavaNormalize_low _ _ _ Hl1 Hx).
      unfold LAVA_TRIGGER_THRESHOLD. destruct (fgtb_spec x 0.3); [lra|].
      cbn [andb]. now intros [= <-]. }
    cbn [lavaUpdateBlobs lavaBlobs lavaAudioLevel]. now rewrite Hb1.
Qed.

Lemma quiet_input_lights_nothing_witness :
  exists peaks' strip',
    spectrumUpdate (replicate 64 40%Q) (spectrumBinPeaks (after_setup 0)) one_lit
    = Some (peaks', strip') /\
    getPixelColor strip' 119 = 0.
Proof.
  destruct (spectrumUpdate (replicate 64 40%Q) (spectrumBinPeaks (after_setup 0)) one_lit)
    as [[peaks' strip']|] eqn:E; [|vm_compute in E; discriminate E].
  exists peaks', strip'. split; [reflexivity|].
  destruct (quiet_input_lights_nothing (replicate 64 40%Q)) as (_ & H & _).
  - intros k Hk. rewrite aget_replicate by (revert Hk; consts; lia).
    split; vm_compute; discriminate.
  - exact (H (spectrumBinPeaks (after_setup 0)) peaks' one_lit strip' eq_refl E 119).
Defined.

(** * The mode controller and the engines *)

Lemma control_eq (s s2 : Firmware) :
  control s = control s2 ->
  currentMode s = currentMode s2 /\ lastSwitch s = lastSwitch s2 /\
  lastSpikeSwitch s = lastSpikeSwitch s2 /\ global s = global s2.
Proof. unfold control. intros [= -> -> -> ->]. done. Qed.

Lemma nextMode_control (now : Z) (s s2 s1 s1' : Firmware) :
  control s = control s2 ->
  nextMode now s = Some s1 -> nextMode now s2 = Some s1' ->
  control s1 = control s1'.
Proof.
  intros Hc H1 H2. destruct (control_eq s s2 Hc) as (Em & _ & Ep & Eg).
  destruct (nextMode_fields now s s1 H1) as (M1 & S1 & P1 & G1).
  destruct (nextMode_fields now s2 s1' H2) as (M2 & S2 & P2 & G2).
  unfold control. congruence.
Qed.

Lemma checkModeSwitch_control (now now' : Z) (s s2 s1 s1' : Firmware) :
  control s = control s2 ->
  checkModeSwitch now now' s = Some s1 -> checkModeSwitch now now' s2 = Some s1' ->
  control s1 = control s1'.
Proof.
  intros Hc. destruct (control_eq s s2 Hc) as (Em & Es & Ep & Eg).
  destruct (Z.lt_ge_cases (u32 (now - lastSwitch s)) SWITCH_INTERVAL_MS) as [Hlt|Hge].
  - destruct (Z.lt_ge_cases (u32 (now - lastSpikeSwitch s)) MIN_MODE_TIME_MS) as [Hd|Hd].
    + rewrite !checkModeSwitch_dwell by congruence. congruence.
    + destruct (detectAudioSpike_total (global s)) as [[|] Hb].
      * rewrite !checkModeSwitch_spike by congruence.
        apply nextMode_control. unfold control in *. cbn. congruence.
      * rewrite !checkModeSwitch_no_spike by congruence. congruence.
  - rewrite !checkModeSwitch_periodic by (rewrite <- ?Es; lia).
    now apply nextMode_control.
Qed.

(** X23.  The mode, the two switch timers and the shared loudness tracker
    after a pass depend only on their values before it and on the input:
    two states that agree on them still agree on them after the same pass,
    whatever their engine states and strips hold. *)
Theorem mode_control_ignores_engines (i : Input) (s s2 s' s2' : Firmware) :
  control s = control s2 ->
  loop i s = Some s' -> loop i s2 = Some s2' ->
  control s' = control s2'.
Proof.
  intros Hc H1 H2. destruct (control_eq s s2 Hc) as (_ & _ & _ & Eg).
  destruct (loop_inv i s s' H1) as (g & s1 & Hg & Hc1 & He1).
  destruct (loop_inv i s2 s2' H2) as (g2 & s12 & Hg2 & Hc2 & He2).
  rewrite Eg in Hg. assert (g2 = g) as -> by congruence.
  assert (control s1 = control s12) as Hc'.
  { apply (checkModeSwitch_control (now_check i) (now_switch i)
             (set_global g s) (set_global g s2) s1 s12); [|exact Hc1|exact Hc2].
    unfold control in *. cbn. congruence. }
  destruct (runEngine_fields i s1 s' He1) as (M1 & S1 & P1 & G1).
  destruct (runEngine_fields i s12 s2' He2) as (M2 & S2 & P2 & G2).
  destruct (control_eq s1 s12 Hc') as (Em & Es & Ep & Eg').
  unfold control. congruence.
Qed.

Lemma mode_control_ignores_engines_witness :
  exists s' s2',
    loop (flat 1000 30006) (after_setup 5) = Some s' /\
    loop (flat 1000 30006) (with_strip one_lit (after_setup 5)) = Some s2' /\
    control s' = control s2'.
Proof.
  destruct (loop (flat 1000 30006) (after_setup 5)) as [s'|] eqn:E1;
    [|vm_compute in E1; discriminate E1].
  destruct (loop (flat 1000 30006) (with_strip one_lit (after_setup 5))) as [s2'|] eqn:E2;
    [|vm_compute in E2; discriminate E2].
  exists s', s2'. split; [reflexivity|]. split; [reflexivity|].
  exact (mode_control_ignores_engines (flat 1000 30006) (after_setup 5)
           (with_strip one_lit (after_setup 5)) s' s2' eq_refl E1 E2).
Defined.

(** * Louder is never dimmer *)

Lemma constrain_mono (x y lo hi : Q) :
  (lo <= hi)%Q -> (x <= y)%Q -> (constrain x lo hi <= constrain y lo hi)%Q.
Proof. intros Hlh Hxy. unfold constrain. fcases; lra. Qed.

Lemma Qdiv_le_mono (x y d : Q) : (0 < d)%Q -> (x <= y)%Q -> (x / d <= y / d)%Q.
Proof.
  intros Hd Hxy. apply Qle_shift_div_l; [exact Hd|].
  assert (x / d * d == x)%Q as -> by (field; lra). exact Hxy.
Qed.

Lemma ftoi_mono (p q : Q) : (0 <= p)%Q -> (p <= q)%Q -> ftoi p <= ftoi q.
Proof.
  intros Hp Hpq. destruct (ftoi_floor p Hp) as [Hf _].
  apply ftoi_ge; [|lra].
  assert (0 <= ftoi p <= ftoi p) as [H0 _]; [|exact H0].
  destruct p as [a d]. unfold Qle, ftoi in *. cbn [Qnum Qden] in *.
  rewrite Z.quot_div_nonneg by lia. split; [apply Z.div_pos; lia|lia].
Qed.

(** X24.  In each engine a louder input never gives a dimmer pixel: for a
    fixed peak and noise floor the intensity of Trail, the intensity of
    Spectrum and the normalised level of Lava do not decrease when the level
    rises, and a colour channel scaled by a greater intensity of [0, 1] is
    not smaller. *)
Theorem louder_is_never_dimmer :
  (forall noise peak band1 band2 x1 x2,
     (noise <= peak)%Q -> (band1 <= band2)%Q ->
     trailIntensity band1 noise peak = Some x1 ->
     trailIntensity band2 noise peak = Some x2 -> (x1 <= x2)%Q) /\
  (forall noiseFloor peak value1 value2 x1 x2,
     (value1 <= value2)%Q ->
     spectrumIntensity value1 peak noiseFloor = Some x1 ->
     spectrumIntensity value2 peak noiseFloor = Some x2 -> (x1 <= x2)%Q) /\
  (forall peak level1 level2 x1 x2,
     (level1 <= level2)%Q ->
     lavaNormalize level1 peak = Some x1 ->
     lavaNormalize level2 peak = Some x2 -> (x1 <= x2)%Q) /\
  (forall c k x1 x2,
     0 <= k -> (0 <= x1)%Q -> (x1 <= x2)%Q -> (x2 <= 1)%Q ->
     ftou8 (itof (channel c k) * x1) <= ftou8 (itof (channel c k) * x2)).
Proof.
  split; [|split; [|split]].
  - intros noise peak band1 band2 x1 x2 Hp Hb. unfold trailIntensity.
    rewrite !fdiv_Some by lra. cbn [mbind option_bind]. intros [= <-] [= <-].
    apply constrain_mono; [lra|]. apply Qdiv_le_mono; lra.
  - intros noiseFloor peak value1 value2 x1 x2 Hv H1 H2.
    destruct (Qlt_le_dec noiseFloor peak) as [Hp|Hp].
    2: { rewrite spectrumIntensity_floor in H1, H2 by (right; exact Hp).
         injection H1 as <-. injection H2 as <-. lra. }
    destruct (Qlt_le_dec noiseFloor value1) as [Hv1|Hv1].
    + rewrite spectrumIntensity_quotient in H1, H2 by lra.
      injection H1 as <-. injection H2 as <-.
      apply constrain_mono; [lra|]. unfold SPECTRUM_SENSITIVITY.
      pose proof (Qdiv_le_mono (value1 - noiseFloor) (value2 - noiseFloor)
                    (peak - noiseFloor) ltac:(lra) ltac:(lra)).
      lra.
    + rewrite spectrumIntensity_floor in H1 by (left; exact Hv1). injection H1 as <-.
      destruct (spectrumIntensity_total value2 peak noiseFloor) as (y & Hy & Hy01).
      rewrite Hy in H2. injection H2 as <-. lra.
  - intros peak level1 level2 x1 x2 Hl. unfold lavaNormalize.
    destruct (fgtb_spec peak 50); [|intros [= <-] [= <-]; lra].
    rewrite !fdiv_Some by lra. cbn [mbind option_bind]. intros [= <-] [= <-].
    apply constrain_mono; [lra|]. apply Qdiv_le_mono; lra.
  - intros c k x1 x2 Hk H0 H12 H1.
    destruct (scaled_channel c k x1 Hk) as (-> & _); [lra|].
    destruct (scaled_channel c k x2 Hk) as (-> & _); [lra|].
    pose proof (itof_channel_range c k Hk).
    apply ftoi_mono; nra.
Qed.

Lemma louder_is_never_dimmer_witness :
  (forall x1 x2, trailIntensity 150 80 200 = Some x1 ->
     trailIntensity 190 80 200 = Some x2 -> (x1 <= x2)%Q) /\
  ftou8 (itof (channel 0xFF0088 0) * 0.3) <= ftou8 (itof (channel 0xFF0088 0) * 0.8).
Proof.
  destruct louder_is_never_dimmer as (H1 & _ & _ & H4). split.
  - intros x1 x2. apply (H1 80 200 150 190 x1 x2)%Q; vm_compute; discriminate.
  - apply (H4 0xFF0088 0 0.3%Q 0.8%Q); vm_compute; discriminate.
Defined.

(** * Single precision: rounding *)

Lemma rne_bounds (q : Q) : Qfloor q <= F32.rne q <= Qfloor q + 1.
Proof.
  unfold F32.rne. cbv zeta.
  destruct (_ ?= _)%Q; [destruct (Z.even _)|..]; lia.
Qed.

Lemma rne_inject (z : Z) : F32.rne (inject_Z z) = z.
Proof.
  unfold F32.rne. cbv zeta. rewrite Qfloor_Z.
  destruct (Qcompare_spec (inject_Z z - inject_Z z) (1 # 2)); [lra|done|lra].
Qed.

Lemma rne_mono (p q : Q) : (p <= q)%Q -> F32.rne p <= F32.rne q.
Proof.
  intros Hpq. pose proof (Qfloor_resp_le p q Hpq) as Hf.
  destruct (Z.eq_dec (Qfloor p) (Qfloor q)) as [E|N].
  - unfold F32.rne. cbv zeta. rewrite E.
    destruct (Qcompare_spec (p - inject_Z (Qfloor q)) (1 # 2)) as [H1|H1|H1],
             (Qcompare_spec (q - inject_Z (Qfloor q)) (1 # 2)) as [H2|H2|H2];
      try destruct (Z.even _); try lia; lra.
  - pose proof (rne_bounds p). pose proof (rne_bounds q). lia.
Qed.

Lemma rne_comp (p q : Q) : (p == q)%Q -> F32.rne p = F32.rne q.
Proof.
  intros E. apply Z.le_antisymm; apply rne_mono; rewrite E; apply Qle_refl.
Qed.

Lemma inject_Z_pos (z : Z) : 0 < z -> (0 < inject_Z z)%Q.
Proof. intros Hz. change 0%Q with (inject_Z 0). now rewrite <- Zlt_Qlt. Qed.

Lemma spacing_pos (y : Q) : 0 < F32.spacing y.
Proof. unfold F32.spacing. apply Z.pow_pos_nonneg; lia. Qed.

Lemma Qdiv_le_int (y : Q) (c k : Z) :
  0 < c -> (y <= inject_Z (k * c))%Q -> (y / inject_Z c <= inject_Z k)%Q.
Proof.
  intros Hc Hy. apply Qle_shift_div_r; [now apply inject_Z_pos|].
  now rewrite <- inject_Z_mult.
Qed.

Lemma Qdiv_ge_int (y : Q) (c k : Z) :
  0 < c -> (inject_Z (k * c) <= y)%Q -> (inject_Z k <= y / inject_Z c)%Q.
Proof.
  intros Hc Hy. apply Qle_shift_div_l; [now apply inject_Z_pos|].
  now rewrite <- inject_Z_mult.
Qed.

(** Below [y] there are at most 24 bits of [spacing y]. *)
Lemma below_spacing (y : Q) : (y <= inject_Z (2 ^ 24 * F32.spacing y))%Q.
Proof.
  unfold F32.spacing. set (n := Qfloor y).
  assert (n + 1 <= 2 ^ 24 * 2 ^ Z.max (Z.log2 n - 23) 0) as Hn.
  { rewrite <- Z.pow_add_r by lia.
    destruct (Z.le_gt_cases n 0) as [Hle|Hgt].
    - assert (1 <= 2 ^ (24 + Z.max (Z.log2 n - 23) 0)); [|lia].
      apply (Z.pow_le_mono_r 2 0); lia.
    - pose proof (Z.log2_spec n Hgt) as [_ Hhi].
      assert (2 ^ Z.succ (Z.log2 n) <= 2 ^ (24 + Z.max (Z.log2 n - 23) 0)); [|lia].
      apply Z.pow_le_mono_r; lia. }
  pose proof (Qlt_floor y) as Hy. fold n in Hy.
  apply Qlt_le_weak. eapply Qlt_le_trans; [exact Hy|]. now rewrite <- Zle_Qle.
Qed.

(** With more than one unit of spacing, [y] has its 24 bits. *)
Lemma above_spacing (y : Q) :
  1 < F32.spacing y -> (inject_Z (2 ^ 23 * F32.spacing y) <= y)%Q.
Proof.
  unfold F32.spacing. set (n := Qfloor y). intros Hs.
  assert (0 < Z.log2 n - 23) as Ht.
  { destruct (Z.le_gt_cases (Z.log2 n - 23) 0) as [Hle|]; [|done].
    rewrite Z.max_r in Hs by done. change (2 ^ 0) with 1 in Hs. lia. }
  rewrite Z.max_l by lia.
  assert (0 < n) as Hn.
  { destruct (Z.le_gt_cases n 0) as [Hle|]; [|done].
    rewrite Z.log2_nonpos in Ht by done. lia. }
  pose proof (Z.log2_spec n Hn) as [Hlo _].
  rewrite <- Z.pow_add_r by lia. replace (23 + (Z.log2 n - 23)) with (Z.log2 n) by lia.
  eapply Qle_trans; [|apply Qfloor_le]. fold n. now rewrite <- Zle_Qle.
Qed.

Lemma spacing_mono (p q : Q) : (p <= q)%Q -> F32.spacing p <= F32.spacing q.
Proof.
  intros Hpq. unfold F32.spacing. apply Z.pow_le_mono_r; [lia|].
  pose proof (Z.log2_le_mono _ _ (Qfloor_resp_le p q Hpq)). lia.
Qed.

Lemma nearest_mono (p q : Q) : (p <= q)%Q -> F32.nearest p <= F32.nearest q.
Proof.
  intros Hpq. pose proof (spacing_mono p q Hpq) as Hs.
  pose proof (spacing_pos p) as Hp. pose proof (spacing_pos q) as Hq.
  unfold F32.nearest. destruct (Z.eq_dec (F32.spacing p) (F32.spacing q)) as [E|N].
  - rewrite E. apply Z.mul_le_mono_nonneg_r; [lia|]. apply rne_mono.
    apply Qmult_le_compat_r; [done|]. apply Qinv_le_0_compat.
    apply Qlt_le_weak. now apply inject_Z_pos.
  - assert (F32.rne (p / inject_Z (F32.spacing p)) <= 2 ^ 24) as H1.
    { rewrite <- (rne_inject (2 ^ 24)). apply rne_mono.
      apply Qdiv_le_int; [done|]. apply below_spacing. }
    assert (2 ^ 23 <= F32.rne (q / inject_Z (F32.spacing q))) as H2.
    { rewrite <- (rne_inject (2 ^ 23)). apply rne_mono.
      apply Qdiv_ge_int; [done|]. apply above_spacing. lia. }
    assert (2 * F32.spacing p <= F32.spacing q) as H3.
    { revert Hs N. unfold F32.spacing.
      generalize (Z.max (Z.log2 (Qfloor p) - 23) 0) (Z.max (Z.log2 (Qfloor q) - 23) 0)
        (Z.le_max_r (Z.log2 (Qfloor p) - 23) 0) (Z.le_max_r (Z.log2 (Qfloor q) - 23) 0).
      intros a b Ha Hb Hle Hne.
      assert (a < b) as Hab.
      { destruct (Z.lt_ge_cases a b) as [|Hge]; [done|].
        pose proof (Z.pow_le_mono_r 2 b a ltac:(lia) Hge). lia. }
      replace (2 * 2 ^ a) with (2 ^ (a + 1)) by (rewrite Z.pow_add_r by lia; lia).
      apply Z.pow_le_mono_r; lia. }
    change (2 ^ 24) with 16777216 in *. change (2 ^ 23) with 8388608 in *. nia.
Qed.

Lemma nearest_comp (p q : Q) : (p == q)%Q -> F32.nearest p = F32.nearest q.
Proof.
  intros E. apply Z.le_antisymm; apply nearest_mono; rewrite E; apply Qle_refl.
Qed.

Lemma nearest_nonneg (y : Q) : (0 <= y)%Q -> 0 <= F32.nearest y.
Proof.
  intros Hy. unfold F32.nearest. pose proof (spacing_pos y).
  apply Z.mul_nonneg_nonneg; [|lia].
  rewrite <- (rne_inject 0). apply rne_mono.
  apply Qdiv_ge_int; [done|]. exact Hy.
Qed.

Lemma units_pos : (0 < inject_Z F32.UNITS)%Q.
Proof. apply inject_Z_pos. reflexivity. Qed.

Lemma magnitude_mono (x y : Q) : (x <= y)%Q -> (F32.magnitude x <= F32.magnitude y)%Q.
Proof.
  intros Hxy. unfold F32.magnitude. pose proof units_pos as Hu.
  apply Qmult_le_compat_r; [|apply Qinv_le_0_compat; lra].
  rewrite <- Zle_Qle. apply nearest_mono.
  apply Qmult_le_compat_r; [done|lra].
Qed.

Lemma magnitude_nonneg (x : Q) : (0 <= x)%Q -> (0 <= F32.magnitude x)%Q.
Proof.
  intros Hx. unfold F32.magnitude. pose proof units_pos as Hu.
  apply Qle_shift_div_l; [done|]. rewrite Qmult_0_l.
  change 0%Q with (inject_Z 0). rewrite <- Zle_Qle. apply nearest_nonneg.
  apply Qmult_le_0_compat; lra.
Qed.

Lemma round_nonneg_eq (x : Q) : (0 <= x)%Q -> (F32.round x == F32.magnitude x)%Q.
Proof.
  intros Hx. unfold F32.round. apply Qle_bool_iff in Hx. rewrite Hx. apply Qred_correct.
Qed.

Lemma round_neg_eq (x : Q) : (x < 0)%Q -> (F32.round x == - F32.magnitude (- x))%Q.
Proof.
  intros Hx. unfold F32.round. destruct (Qle_bool 0 x) eqn:E.
  - apply Qle_bool_iff in E. lra.
  - apply Qred_correct.
Qed.

(** Rounding keeps the order. *)
Lemma round_mono (x y : Q) : (x <= y)%Q -> (F32.round x <= F32.round y)%Q.
Proof.
  intros Hxy.
  destruct (Qlt_le_dec x 0) as [Hx|Hx], (Qlt_le_dec y 0) as [Hy|Hy].
  - rewrite (round_neg_eq x Hx), (round_neg_eq y Hy).
    pose proof (magnitude_mono (- y) (- x) ltac:(lra)). lra.
  - rewrite (round_neg_eq x Hx), (round_nonneg_eq y Hy).
    pose proof (magnitude_nonneg (- x) ltac:(lra)).
    pose proof (magnitude_nonneg y Hy). lra.
  - lra.
  - rewrite (round_nonneg_eq x Hx), (round_nonneg_eq y Hy). now apply magnitude_mono.
Qed.

Lemma round_comp (x y : Q) : (x == y)%Q -> (F32.round x == F32.round y)%Q.
Proof.
  intros E. apply Qle_antisym; apply round_mono; rewrite E; apply Qle_refl.
Qed.

Lemma round_nonneg (x : Q) : (0 <= x)%Q -> (0 <= F32.round x)%Q.
Proof.
  intros Hx. rewrite (round_nonneg_eq x Hx). now apply magnitude_nonneg.
Qed.

Lemma round_nonpos (x : Q) : (x <= 0)%Q -> (F32.round x <= 0)%Q.
Proof.
  intros Hx. pose proof (round_mono x 0 Hx) as H.
  assert (F32.round 0 == 0)%Q as E by (vm_compute; reflexivity). lra.
Qed.

(** An integer of at most 24 bits, scaled by a power of two, is on the
    grid. *)
Lemma nearest_on_grid (m a : Z) :
  0 <= m <= 2 ^ 24 -> 0 <= a -> F32.nearest (inject_Z (m * 2 ^ a)) = m * 2 ^ a.
Proof.
  intros Hm Ha. set (N := m * 2 ^ a).
  assert (exists k, N = k * F32.spacing (inject_Z N)) as [k Hk].
  { unfold F32.spacing. rewrite Qfloor_Z.
    destruct (Z.eq_dec m 0) as [->|Hm0].
    { exists 0. unfold N. lia. }
    assert (0 < 2 ^ a) as Hpa by (apply Z.pow_pos_nonneg; lia).
    assert (Z.log2 N = a + Z.log2 m) as Hlog.
    { unfold N. apply Z.log2_mul_pow2; lia. }
    destruct (Z.eq_dec m (2 ^ 24)) as [->|Hm24].
    - exists (2 ^ 23). rewrite Hlog. rewrite Z.log2_pow2 by lia.
      rewrite Z.max_l by lia. unfold N.
      rewrite <- !Z.pow_add_r by lia. f_equal. lia.
    - assert (Z.log2 m < 24) as Hl by (apply Z.log2_lt_pow2; lia).
      pose proof (Z.log2_nonneg m) as Hl0.
      set (b := Z.max (Z.log2 N - 23) 0).
      assert (0 <= b <= a) as Hb by (unfold b; lia).
      exists (m * 2 ^ (a - b)). unfold N.
      rewrite <- Z.mul_assoc, <- Z.pow_add_r by lia. do 2 f_equal. lia. }
  unfold F32.nearest. pose proof (spacing_pos (inject_Z N)) as Hs.
  rewrite (rne_comp _ (inject_Z k)); [rewrite rne_inject; symmetry; exact Hk|].
  rewrite Hk at 1. rewrite inject_Z_mult. field.
  intros E. apply inject_Z_pos in Hs. lra.
Qed.

(** What [nearest] returns it returns again. *)
Lemma nearest_fixed (y : Q) :
  (0 <= y)%Q -> F32.nearest (inject_Z (F32.nearest y)) = F32.nearest y.
Proof.
  intros Hy. pose proof (spacing_pos y).
  unfold F32.nearest at 2 3. unfold F32.spacing at 2 4.
  apply nearest_on_grid; [|lia]. split.
  - rewrite <- (rne_inject 0). apply rne_mono. apply Qdiv_ge_int; [done|exact Hy].
  - rewrite <- (rne_inject (2 ^ 24)). apply rne_mono.
    apply Qdiv_le_int; [done|]. apply below_spacing.
Qed.

Lemma magnitude_mono_eq (x y : Q) : (x == y)%Q -> (F32.magnitude x == F32.magnitude y)%Q.
Proof.
  intros E. apply Qle_antisym; apply magnitude_mono; rewrite E; apply Qle_refl.
Qed.

Lemma magnitude_idem (x : Q) :
  (0 <= x)%Q -> (F32.magnitude (F32.magnitude x) == F32.magnitude x)%Q.
Proof.
  intros Hx. pose proof units_pos as Hu. unfold F32.magnitude at 1.
  rewrite (nearest_comp _ (inject_Z (F32.nearest (x * inject_Z F32.UNITS)))).
  - rewrite nearest_fixed; [reflexivity|]. apply Qmult_le_0_compat; lra.
  - unfold F32.magnitude. field. lra.
Qed.

(** A rounded value is a binary32 value. *)
Lemma round_idem (x : Q) : (F32.round (F32.round x) == F32.round x)%Q.
Proof.
  destruct (Qlt_le_dec x 0) as [Hx|Hx].
  - pose proof (magnitude_nonneg (- x) ltac:(lra)) as Hm.
    rewrite (round_comp _ _ (round_neg_eq x Hx)), (round_neg_eq x Hx).
    destruct (Qlt_le_dec (- F32.magnitude (- x)) 0) as [Hn|Hn].
    + rewrite (round_neg_eq _ Hn).
      rewrite (magnitude_mono_eq (- - F32.magnitude (- x)) (F32.magnitude (- x))) by ring.
      rewrite magnitude_idem by lra. reflexivity.
    + assert (F32.magnitude (- x) == 0)%Q as E by lra.
      rewrite (round_comp _ 0) by lra. rewrite E. reflexivity.
  - rewrite (round_comp _ _ (round_nonneg_eq x Hx)), (round_nonneg_eq x Hx).
    rewrite round_nonneg_eq by now apply magnitude_nonneg.
    now apply magnitude_idem.
Qed.

Lemma representable_round (x : Q) : F32.representable (F32.round x).
Proof. apply round_idem. Qed.

(** A binary32 value is a whole number of units. *)
Lemma representable_units (x : Q) :
  F32.representable x -> exists k, (x == inject_Z k / inject_Z F32.UNITS)%Q.
Proof.
  unfold F32.representable. intros Hx.
  destruct (Qlt_le_dec x 0) as [Hn|Hp].
  - rewrite (round_neg_eq x Hn) in Hx. unfold F32.magnitude in Hx.
    exists (- F32.nearest (- x * inject_Z F32.UNITS)).
    rewrite <- Hx at 1. rewrite inject_Z_opp. field.
    pose proof units_pos. lra.
  - rewrite (round_nonneg_eq x Hp) in Hx. unfold F32.magnitude in Hx.
    exists (F32.nearest (x * inject_Z F32.UNITS)). now rewrite <- Hx at 1.
Qed.

(** The difference of two distinct binary32 values does not round to 0. *)
Lemma round_gap (x y : Q) :
  F32.representable x -> F32.representable y -> (x < y)%Q -> (0 < F32.round (y - x))%Q.
Proof.
  intros Hx Hy Hxy.
  destruct (representable_units x Hx) as [kx Ex].
  destruct (representable_units y Hy) as [ky Ey].
  pose proof units_pos as Hu.
  assert (kx < ky) as Hk.
  { rewrite Zlt_Qlt. rewrite Ex, Ey in Hxy.
    apply (Qmult_lt_r _ _ (/ inject_Z F32.UNITS)); [now apply Qinv_lt_0_compat|].
    exact Hxy. }
  assert (1 / inject_Z F32.UNITS <= y - x)%Q as Hd.
  { rewrite Ex, Ey.
    assert (inject_Z 1 <= inject_Z ky - inject_Z kx)%Q as H1.
    { unfold Qminus. rewrite <- inject_Z_opp, <- inject_Z_plus, <- Zle_Qle. lia. }
    apply Qle_shift_div_r; [done|].
    assert ((inject_Z ky / inject_Z F32.UNITS - inject_Z kx / inject_Z F32.UNITS)
              * inject_Z F32.UNITS == inject_Z ky - inject_Z kx)%Q as -> by (field; lra).
    exact H1. }
  pose proof (round_mono _ _ Hd) as Hr.
  assert (0 < F32.round (1 / inject_Z F32.UNITS))%Q as H0 by (vm_compute; reflexivity).
  lra.
Qed.

Lemma representable_int (z : Z) : Z.abs z <= 2 ^ 24 -> F32.representable (inject_Z z).
Proof.
  intros Hz. unfold F32.representable. pose proof units_pos as Hu.
  assert (forall m, 0 <= m <= 2 ^ 24 -> (F32.magnitude (inject_Z m) == inject_Z m)%Q) as Hm.
  { intros m Hm. unfold F32.magnitude.
    rewrite (nearest_comp _ (inject_Z (m * 2 ^ 149))).
    - rewrite nearest_on_grid by lia. rewrite inject_Z_mult.
      change (inject_Z (2 ^ 149)) with (inject_Z F32.UNITS). field. lra.
    - rewrite inject_Z_mult. reflexivity. }
  destruct (Z.lt_ge_cases z 0) as [Hn|Hp].
  - rewrite round_neg_eq by (change 0%Q with (inject_Z 0); rewrite <- Zlt_Qlt; lia).
    rewrite <- inject_Z_opp, Hm by lia. rewrite inject_Z_opp. ring.
  - rewrite round_nonneg_eq by (change 0%Q with (inject_Z 0); rewrite <- Zle_Qle; lia).
    apply Hm. lia.
Qed.

Lemma representable_comp (x y : Q) :
  (x == y)%Q -> F32.representable x -> F32.representable y.
Proof.
  unfold F32.representable. intros E Hx. rewrite <- E at 2. rewrite <- Hx.
  apply round_comp. now symmetry.
Qed.

Lemma representable_constrain (q lo hi : Q) :
  F32.representable q -> F32.representable lo -> F32.representable hi ->
  F32.representable (constrain q lo hi).
Proof. intros Hq Hl Hh. unfold constrain. fcases; done. Qed.

(** * Single precision: the operations *)

Lemma fadd_mono (x x' y y' : Q) :
  (x <= x')%Q -> (y <= y')%Q -> (F32.fadd x y <= F32.fadd x' y')%Q.
Proof. intros Hx Hy. apply round_mono. lra. Qed.

Lemma fsub_mono (x x' y y' : Q) :
  (x <= x')%Q -> (y' <= y)%Q -> (F32.fsub x y <= F32.fsub x' y')%Q.
Proof. intros Hx Hy. apply round_mono. lra. Qed.

Lemma fmul_mono_l (x x' c : Q) :
  (0 <= c)%Q -> (x <= x')%Q -> (F32.fmul x c <= F32.fmul x' c)%Q.
Proof. intros Hc Hx. apply round_mono. now apply Qmult_le_compat_r. Qed.

Lemma lit_nonneg (q : Q) : (0 <= q)%Q -> (0 <= F32.lit q)%Q.
Proof. apply round_nonneg. Qed.

Lemma fdiv32_Some (x y : Q) : ~ (y == 0)%Q -> F32.fdiv x y = Some (F32.round (x / y)).
Proof.
  intros Hy. unfold F32.fdiv. destruct (Qeq_bool y 0) eqn:E; [|done].
  apply Qeq_bool_iff in E. contradiction.
Qed.



Lemma fsub_pos (x y : Q) :
  F32.representable x -> F32.representable y -> (y < x)%Q -> (0 < F32.fsub x y)%Q.
Proof. intros Hx Hy Hxy. now apply round_gap. Qed.

(** ** The peak followers *)

(** A follower that rises at once and otherwise decays by
    [peak * rate + rest'] stays at or above any value the decay maps to
    itself or higher. *)
Lemma follower_rest (level peak rate bias rest : Q) :
  (0 <= rate)%Q ->
  (rest <= F32.fadd (F32.fmul rest rate) bias)%Q ->
  (rest <= peak)%Q ->
  (rest <= (if fgtb level peak then level else F32.fadd (F32.fmul peak rate) bias))%Q.
Proof.
  intros Hr Hfix Hp. destruct (fgtb_spec level peak); [lra|].
  eapply Qle_trans; [exact Hfix|]. apply fadd_mono; [|lra]. now apply fmul_mono_l.
Qed.

Lemma trailPeakStep_rest_200 (band peak : Q) :
  (13107159 # 65536 <= peak)%Q ->
  (13107159 # 65536 <= F32.trailPeakStep band 200 peak)%Q.
Proof.
  apply follower_rest; [apply lit_nonneg; lra|]. vm_compute. discriminate.
Qed.

Lemma trailPeakStep_rest_80 (band peak : Q) :
  (5242871 # 65536 <= peak)%Q ->
  (5242871 # 65536 <= F32.trailPeakStep band 80 peak)%Q.
Proof.
  apply follower_rest; [apply lit_nonneg; lra|]. vm_compute. discriminate.
Qed.

Lemma band_cases (b : Z) :
  0 <= b < TRAIL_NUM_BANDS ->
  b = 0 \/ b = 1 \/ b = 2 \/ b = 3 \/ b = 4 \/ b = 5 \/ b = 6 \/ b = 7.
Proof. consts. lia. Qed.

Lemma trailPeakStep_rest (b : Z) (band peak : Q) :
  0 <= b < TRAIL_NUM_BANDS ->
  (aget F32.TRAIL_PEAK_REST b <= peak)%Q ->
  (aget F32.TRAIL_PEAK_REST b
   <= F32.trailPeakStep band (aget TRAIL_BAND_NOISE b) peak)%Q.
Proof.
  intros Hb.
  destruct (band_cases b Hb) as [->|[->|[->|[->|[->|[->|[->| ->]]]]]]];
    [apply trailPeakStep_rest_200|apply trailPeakStep_rest_80..].
Qed.

Lemma lavaBandPeakStep_floor32 (level peak : Q) :
  (50 <= peak)%Q -> (50 <= F32.lavaBandPeakStep level peak)%Q.
Proof.
  apply follower_rest; [apply lit_nonneg; lra|]. vm_compute. discriminate.
Qed.

Lemma loudnessPeak_floor32 (level peak : Q) :
  (50 <= peak)%Q ->
  (50 <= (if fgtb level peak then level
          else F32.fadd (F32.fmul peak (F32.lit 0.99)) (F32.fmul 50 (F32.lit 0.01))))%Q.
Proof.
  apply follower_rest; [apply lit_nonneg; lra|]. vm_compute. discriminate.
Qed.

Lemma spectrumGetNoiseFloor32_cases (r : Q) :
  F32.spectrumGetNoiseFloor r = SPECTRUM_NOISE_LOW \/
  F32.spectrumGetNoiseFloor r = SPECTRUM_NOISE_MID \/
  F32.spectrumGetNoiseFloor r = SPECTRUM_NOISE_HIGH.
Proof.
  unfold F32.spectrumGetNoiseFloor.
  destruct (fltb _ _); [now left|]. destruct (fltb _ _); [right; now left|right; now right].
Qed.

Lemma spectrumPeakStep_floor32 (v peak r : Q) :
  (F32.spectrumGetNoiseFloor r <= peak)%Q ->
  (F32.spectrumGetNoiseFloor r <= F32.spectrumPeakStep v (F32.spectrumGetNoiseFloor r) peak)%Q.
Proof.
  destruct (spectrumGetNoiseFloor32_cases r) as [->|[->| ->]];
    (apply follower_rest; [apply lit_nonneg; lra|]); vm_compute; discriminate.
Qed.

(** ** The shared tracker *)

Lemma representable_50 : F32.representable 50.
Proof. apply (representable_int 50). vm_compute. discriminate. Qed.

Lemma meanSpectrum32_total (v : list Q) :
  exists a, F32.meanSpectrum v = Some a /\ F32.representable a.
Proof.
  unfold F32.meanSpectrum. rewrite fdiv32_Some by (apply itof_nonzero; consts; lia).
  eexists. split; [reflexivity|apply representable_round].
Qed.

Lemma updateGlobalAudioLevel32_inv (v : list Q) (g g' : Global) :
  F32.updateGlobalAudioLevel v g = Some g' ->
  exists a, F32.meanSpectrum v = Some a /\ F32.representable a /\
    globalLastAudioLevel g' = globalAudioLevel g /\
    globalAudioLevel g' =
      (if fgtb a (globalAudioLevel g) then a
       else F32.fadd (F32.fmul (globalAudioLevel g) (F32.lit 0.7)) (F32.fmul a (F32.lit 0.3))) /\
    globalAudioPeak g' =
      (if fgtb (globalAudioLevel g') (globalAudioPeak g) then globalAudioLevel g'
       else F32.fadd (F32.fmul (globalAudioPeak g) (F32.lit 0.99))
                     (F32.fmul 50 (F32.lit 0.01))).
Proof.
  unfold F32.updateGlobalAudioLevel.
  destruct (meanSpectrum32_total v) as (a & -> & Ha).
  cbn [mbind option_bind]. intros [= <-]. exists a.
  split; [reflexivity|]. split; [exact Ha|]. split; [reflexivity|].
  split; reflexivity.
Qed.

Lemma updateGlobalAudioLevel32_total (v : list Q) (g : Global) :
  exists g', F32.updateGlobalAudioLevel v g = Some g'.
Proof.
  unfold F32.updateGlobalAudioLevel.
  destruct (meanSpectrum32_total v) as (a & -> & _).
  cbn [mbind option_bind]. eauto.
Qed.

(** What the tracker holds after an update are binary32 values. *)
Lemma updateGlobalAudioLevel32_representable (v : list Q) (g g' : Global) :
  F32.updateGlobalAudioLevel v g = Some g' ->
  F32.representable (globalAudioLevel g') /\ F32.representable (globalAudioPeak g').
Proof.
  intros Hu.
  destruct (updateGlobalAudioLevel32_inv v g g' Hu) as (a & _ & Ha & _ & El & Ep).
  assert (F32.representable (globalAudioLevel g')) as Hl.
  { rewrite El. destruct (fgtb a (globalAudioLevel g)); [exact Ha|apply representable_round]. }
  split; [exact Hl|]. rewrite Ep.
  destruct (fgtb (globalAudioLevel g') (globalAudioPeak g));
    [exact Hl|apply representable_round].
Qed.

Lemma updateGlobalAudioLevel32_floor (v : list Q) (g g' : Global) :
  F32.updateGlobalAudioLevel v g = Some g' ->
  (50 <= globalAudioPeak g)%Q -> (50 <= globalAudioPeak g')%Q.
Proof.
  intros Hu Hp.
  destruct (updateGlobalAudioLevel32_inv v g g' Hu) as (a & _ & _ & _ & _ & ->).
  now apply loudnessPeak_floor32.
Qed.

Lemma detectAudioSpike32_floor (g : Global) :
  (globalAudioPeak g <= 50)%Q -> F32.detectAudioSpike g = Some false.
Proof.
  intros Hp. unfold F32.detectAudioSpike.
  destruct (fgeb_spec 50 (globalAudioPeak g)); [done|lra].
Qed.

Lemma detectAudioSpike32_eq (g : Global) :
  F32.representable (globalAudioPeak g) ->
  (50 < globalAudioPeak g)%Q ->
  F32.detectAudioSpike g =
  Some (fgtb (F32.normalized (globalAudioLevel g) (globalAudioPeak g)) F32.SPIKE_THRESHOLD
        && fgtb (F32.normalized (globalAudioLevel g) (globalAudioPeak g))
             (F32.fadd (F32.normalized (globalLastAudioLevel g) (globalAudioPeak g))
                       (F32.lit 0.25))).
Proof.
  intros Hr Hp. unfold F32.detectAudioSpike.
  destruct (fgeb_spec 50 (globalAudioPeak g)); [lra|].
  pose proof (fsub_pos _ _ Hr representable_50 Hp) as Hd.
  rewrite !fdiv32_Some by lra. reflexivity.
Qed.

Lemma detectAudioSpike32_total (g : Global) :
  F32.representable (globalAudioPeak g) -> exists b, F32.detectAudioSpike g = Some b.
Proof.
  intros Hr. destruct (Qlt_le_dec 50 (globalAudioPeak g)) as [Hp|Hp].
  - rewrite detectAudioSpike32_eq by done. eauto.
  - rewrite detectAudioSpike32_floor by done. eauto.
Qed.

(** ** Trail *)

Lemma trailAnalyzeBand32_total (v : list Q) (b : Z) (bands : list Q) :
  exists bands', F32.trailAnalyzeBand v b bands = Some bands' /\
    length bands' = length bands.
Proof.
  unfold F32.trailAnalyzeBand.
  match goal with
  | |- context [loop_range ?lo ?hi ?f ?x] =>
      pose proof (loop_up_inv (fun _ p => length (fst p) = length bands)
                    (Z.to_nat (hi - lo)) lo f x) as Hl;
      change (loop_up (Z.to_nat (hi - lo)) lo f x) with (loop_range lo hi f x) in Hl
  end.
  cbv beta in Hl. cbn [fst] in Hl. rewrite length_aset in Hl.
  specialize (Hl eq_refl).
  destruct (loop_range _ _ _ _) as [bands1 count]. cbn [fst] in Hl.
  assert (length bands1 = length bands) as Hlen.
  { apply Hl. intros j [bs c] _ E. cbn [fst] in *. now rewrite length_aset. }
  destruct (Z.ltb_spec 0 count); [|eauto].
  rewrite fdiv32_Some by (apply itof_nonzero; lia). cbn [mbind option_bind].
  eexists. split; [reflexivity|]. now rewrite length_aset.
Qed.

Lemma trailAnalyze32_total (v : list Q) (bands : list Q) :
  exists bands', F32.trailAnalyze v bands = Some bands' /\ length bands' = length bands.
Proof.
  unfold F32.trailAnalyze.
  destruct (for_range_inv (fun _ t => length t = length bands) 0 TRAIL_NUM_BANDS
              (F32.trailAnalyzeBand v) bands) as (t & Ht & Hl); [consts; lia|done| |eauto].
  intros j u _ Hu. destruct (trailAnalyzeBand32_total v j u) as (u' & Hu' & Hl).
  exists u'. split; [exact Hu'|congruence].
Qed.

(** Trail's divisor [peak - noise + 1] for a peak at or above its rest. *)
Lemma trailDivisor32 (b : Z) (peak : Q) :
  0 <= b < TRAIL_NUM_BANDS ->
  (aget F32.TRAIL_PEAK_REST b <= peak)%Q ->
  (0.999 <= F32.fadd (F32.fsub peak (aget TRAIL_BAND_NOISE b)) 1)%Q.
Proof.
  intros Hb Hp.
  eapply Qle_trans;
    [|apply fadd_mono; [apply fsub_mono; [exact Hp|apply Qle_refl]|apply Qle_refl]].
  destruct (band_cases b Hb) as [->|[->|[->|[->|[->|[->|[->| ->]]]]]]];
    vm_compute; discriminate.
Qed.

Lemma trailIntensity32_total (b : Z) (band peak : Q) :
  0 <= b < TRAIL_NUM_BANDS ->
  (aget F32.TRAIL_PEAK_REST b <= peak)%Q ->
  exists x, F32.trailIntensity band (aget TRAIL_BAND_NOISE b) peak = Some x.
Proof.
  intros Hb Hp. pose proof (trailDivisor32 b peak Hb Hp) as Hd.
  unfold F32.trailIntensity. rewrite fdiv32_Some by lra.
  cbn [mbind option_bind]. eauto.
Qed.

Lemma trailRealtime32_total (bands peaks : list Q) :
  (forall b, 0 <= b < TRAIL_NUM_BANDS ->
     (aget F32.TRAIL_PEAK_REST b <= aget peaks b)%Q) ->
  exists leds, F32.trailRealtime bands peaks = Some leds.
Proof.
  intros Hp. unfold F32.trailRealtime.
  destruct (for_range_inv (fun _ _ => True) 0
              (Z.min TRAIL_REALTIME_LEDS TRAIL_NUM_BANDS)
              (F32.trailRealtimeLed bands peaks) (replicate 8 0%Q)) as (t & Ht & _);
    [consts; lia|done| |eauto].
  intros j u Hj _. unfold F32.trailRealtimeLed.
  destruct (F32.trailActive _ _ _); [|eauto].
  destruct (trailIntensity32_total j (aget bands j) (aget peaks j)) as [x ->].
  { revert Hj. consts. lia. }
  { apply Hp. revert Hj. consts. lia. }
  cbn [mbind option_bind]. eauto.
Qed.

Lemma trailUpdatePeaks32_spec (bands peaks : list Q) :
  length peaks = 8%nat ->
  length (F32.trailUpdatePeaks bands peaks) = 8%nat /\
  forall b, 0 <= b < TRAIL_NUM_BANDS ->
    aget (F32.trailUpdatePeaks bands peaks) b =
    F32.trailPeakStep (aget bands b) (aget TRAIL_BAND_NOISE b) (aget peaks b).
Proof.
  intros Hlen. unfold F32.trailUpdatePeaks.
  destruct (map_loop
    (fun b x => F32.trailPeakStep (aget bands b) (aget TRAIL_BAND_NOISE b) x)
    TRAIL_NUM_BANDS peaks) as [Hl Hget].
  { consts. lia. }
  cbv zeta in Hl, Hget. split; [congruence|].
  intros b Hb. rewrite Hget by lia.
  destruct (Z.ltb_spec b TRAIL_NUM_BANDS); [done|lia].
Qed.

Lemma trailUpdate32_spec (v : list Q) (t : F32.Trail) :
  length (F32.trailBands t) = 8%nat ->
  length (F32.trailBandPeaks t) = 8%nat ->
  (forall b, 0 <= b < TRAIL_NUM_BANDS ->
     (aget F32.TRAIL_PEAK_REST b <= aget (F32.trailBandPeaks t) b)%Q) ->
  exists leds t',
    F32.trailUpdate v t = Some (leds, t') /\
    length (F32.trailBands t') = 8%nat /\
    length (F32.trailBandPeaks t') = 8%nat /\
    (forall b, 0 <= b < TRAIL_NUM_BANDS ->
       (aget F32.TRAIL_PEAK_REST b <= aget (F32.trailBandPeaks t') b)%Q).
Proof.
  intros Hlb Hlen Hp. unfold F32.trailUpdate.
  destruct (trailAnalyze32_total v (F32.trailBands t)) as (bands & -> & Hb).
  cbn [mbind option_bind].
  destruct (trailRealtime32_total bands (F32.trailBandPeaks t) Hp) as (leds & ->).
  cbn [mbind option_bind].
  destruct (trailUpdatePeaks32_spec bands (F32.trailBandPeaks t) Hlen) as [Hl Hget].
  eexists _, _. split; [reflexivity|]. cbn [F32.trailBands F32.trailBandPeaks].
  split; [congruence|]. split; [exact Hl|].
  intros b Hb'. rewrite Hget by exact Hb'. apply trailPeakStep_rest; [exact Hb'|].
  apply Hp, Hb'.
Qed.

(** ** Lava *)

Lemma lavaNormalize32_total (level peak : Q) :
  F32.representable peak ->
  exists x, F32.lavaNormalize level peak = Some x /\ F32.representable x /\ (0 <= x <= 1)%Q.
Proof.
  intros Hr. unfold F32.lavaNormalize. destruct (fgtb_spec peak 50) as [Hp|Hp].
  - pose proof (fsub_pos _ _ Hr representable_50 Hp) as Hd.
    rewrite fdiv32_Some by lra. cbn [mbind option_bind].
    eexists. split; [reflexivity|]. split.
    + apply representable_constrain; [apply representable_round|..];
        vm_compute; reflexivity.
    + apply constrain_bounds. lra.
  - exists 0%Q. split; [done|]. split; [vm_compute; reflexivity|lra].
Qed.

Lemma lavaBandPeakStep32_representable (level peak : Q) :
  F32.representable level -> F32.representable (F32.lavaBandPeakStep level peak).
Proof.
  intros Hl. unfold F32.lavaBandPeakStep.
  destruct (fgtb level peak); [exact Hl|apply representable_round].
Qed.

Lemma lavaAnalyzeBand32_spec (v : list Q) (b : Z) (s : BandScan) :
  0 <= b < LAVA_NUM_BANDS ->
  length (scanLevels s) = 6%nat -> length (scanPeaks s) = 6%nat ->
  exists s', F32.lavaAnalyzeBand v b s = Some s' /\
    length (scanLevels s') = 6%nat /\
    exists level, scanPeaks s' = aset (scanPeaks s) b
                    (F32.lavaBandPeakStep level (aget (scanPeaks s) b)).
Proof.
  intros Hb Hll Hlp. unfold F32.lavaAnalyzeBand.
  rewrite fdiv32_Some by (apply itof_nonzero, bandBins_width, Hb).
  cbn [mbind option_bind].
  match goal with
  | |- context [loop_range ?lo ?hi ?f ?x] =>
      pose proof (loop_up_inv (fun _ p => length p = 6%nat)
                    (Z.to_nat (hi - lo)) lo f x) as Hl;
      change (loop_up (Z.to_nat (hi - lo)) lo f x) with (loop_range lo hi f x) in Hl;
      cbv beta in Hl; rewrite length_aset in Hl; specialize (Hl Hll);
      generalize dependent (loop_range lo hi f x)
  end.
  intros levels Hl.
  assert (length levels = 6%nat) as Hlev.
  { apply Hl. intros j p _ E. now rewrite length_aset. }
  clear Hl.
  assert (0 <= b < Z.of_nat (length (aset levels b (F32.round
            (aget levels b / itof (aget bandBins (b + 1) - aget bandBins b)))))) as Hb1.
  { rewrite length_aset, Hlev. revert Hb. consts. lia. }
  rewrite (aget_aset_eq levels) by (rewrite Hlev; revert Hb; consts; lia).
  rewrite (aget_aset_eq (scanPeaks s)) by (rewrite Hlp; revert Hb; consts; lia).
  match goal with
  | |- context [F32.lavaNormalize ?x ?y] =>
      destruct (lavaNormalize32_total x y) as (n & -> & _)
  end.
  { apply lavaBandPeakStep32_representable, representable_round. }
  cbn [mbind option_bind].
  destruct (fgtb _ _); eexists; (split; [reflexivity|]);
    cbn [scanLevels scanPeaks]; (split; [now rewrite length_aset|]); eauto.
Qed.

Lemma lavaBandLoop32 (v : list Q) (l : F32.Lava) :
  length (F32.lavaBandLevels l) = 6%nat ->
  length (F32.lavaBandPeaks l) = 6%nat ->
  (forall b, 0 <= b < LAVA_NUM_BANDS -> (50 <= aget (F32.lavaBandPeaks l) b)%Q) ->
  exists s,
    for_range 0 LAVA_NUM_BANDS (F32.lavaAnalyzeBand v)
      {| scanLevels := F32.lavaBandLevels l; scanPeaks := F32.lavaBandPeaks l;
         maxBandLevel := 0; scanDominant := 0 |} = Some s /\
    length (scanLevels s) = 6%nat /\ length (scanPeaks s) = 6%nat /\
    forall b, 0 <= b < LAVA_NUM_BANDS -> (50 <= aget (scanPeaks s) b)%Q.
Proof.
  intros Hll Hlen Hp.
  apply (for_range_inv
    (fun _ s => length (scanLevels s) = 6%nat /\ length (scanPeaks s) = 6%nat /\
       forall b, 0 <= b < LAVA_NUM_BANDS -> (50 <= aget (scanPeaks s) b)%Q)).
  - consts. lia.
  - done.
  - intros j u Hj (Hul & Hup & Hu).
    destruct (lavaAnalyzeBand32_spec v j u Hj Hul Hup) as (u' & Hu' & Hl' & level & Hpk).
    exists u'. split; [exact Hu'|]. split; [exact Hl'|]. rewrite Hpk.
    split; [now rewrite length_aset|].
    intros b Hb. destruct (aget_aset_cases (scanPeaks u) j b
      (F32.lavaBandPeakStep level (aget (scanPeaks u) j))) as [[_ ->]| ->]; try lia.
    + apply lavaBandPeakStep_floor32, Hu, Hj.
    + apply Hu, Hb.
Qed.

Lemma lavaAnalyzeAudio32_spec (v : list Q) (l : F32.Lava) :
  length (F32.lavaBandLevels l) = 6%nat ->
  length (F32.lavaBandPeaks l) = 6%nat ->
  (forall b, 0 <= b < LAVA_NUM_BANDS -> (50 <= aget (F32.lavaBandPeaks l) b)%Q) ->
  (50 <= F32.lavaAudioPeak l)%Q ->
  exists l', F32.lavaAnalyzeAudio v l = Some l' /\
    length (F32.lavaBandLevels l') = 6%nat /\
    length (F32.lavaBandPeaks l') = 6%nat /\
    (forall b, 0 <= b < LAVA_NUM_BANDS -> (50 <= aget (F32.lavaBandPeaks l') b)%Q) /\
    (50 <= F32.lavaAudioPeak l')%Q /\
    F32.representable (F32.lavaAudioPeak l').
Proof.
  intros Hll Hlen Hp Ha.
  destruct (lavaBandLoop32 v l Hll Hlen Hp) as (s & Hfor & Hsl & Hl & Hs).
  destruct (meanSpectrum32_total v) as (a & Hmean & Hra).
  unfold F32.lavaAnalyzeAudio. rewrite Hfor, Hmean. cbn [mbind option_bind].
  eexists. split; [reflexivity|].
  cbn [F32.lavaBandLevels F32.lavaBandPeaks F32.lavaAudioPeak].
  split; [exact Hsl|]. split; [exact Hl|]. split; [exact Hs|].
  split; [apply loudnessPeak_floor32; exact Ha|].
  assert (F32.representable
            (if fgtb a (F32.lavaAudioLevel l) then a
             else F32.fadd (F32.fmul (F32.lavaAudioLevel l) (F32.lit 0.7))
                           (F32.fmul a (F32.lit 0.3)))) as Hlv.
  { destruct (fgtb a (F32.lavaAudioLevel l)); [exact Hra|apply representable_round]. }
  destruct (fgtb _ (F32.lavaAudioPeak l)); [exact Hlv|apply representable_round].
Qed.

Lemma lavaCheckTrigger32_total (l : F32.Lava) :
  F32.representable (F32.lavaAudioPeak l) ->
  exists r, F32.lavaCheckTrigger l = Some r.
Proof.
  intros Hr. unfold F32.lavaCheckTrigger.
  destruct (lavaNormalize32_total (F32.lavaAudioLevel l) (F32.lavaAudioPeak l) Hr)
    as (x & -> & _).
  destruct (lavaNormalize32_total (F32.lavaLastAudioLevel l) (F32.lavaAudioPeak l) Hr)
    as (y & -> & _).
  cbn [mbind option_bind]. destruct (_ && _); eauto.
Qed.

Lemma lavaUpdate32_spec (v : list Q) (l : F32.Lava) :
  length (F32.lavaBandLevels l) = 6%nat ->
  length (F32.lavaBandPeaks l) = 6%nat ->
  (forall b, 0 <= b < LAVA_NUM_BANDS -> (50 <= aget (F32.lavaBandPeaks l) b)%Q) ->
  (50 <= F32.lavaAudioPeak l)%Q ->
  exists spawn l', F32.lavaUpdate v l = Some (spawn, l') /\
    length (F32.lavaBandLevels l') = 6%nat /\
    length (F32.lavaBandPeaks l') = 6%nat /\
    (forall b, 0 <= b < LAVA_NUM_BANDS -> (50 <= aget (F32.lavaBandPeaks l') b)%Q) /\
    (50 <= F32.lavaAudioPeak l')%Q.
Proof.
  intros Hll Hlen Hp Ha. unfold F32.lavaUpdate.
  destruct (lavaAnalyzeAudio32_spec v l Hll Hlen Hp Ha)
    as (l' & -> & L1 & L2 & L3 & L4 & L5).
  cbn [mbind option_bind].
  destruct (lavaCheckTrigger32_total l' L5) as (r & ->).
  cbn [mbind option_bind]. exists r, l'. done.
Qed.

Lemma lavaSetup32_spec (l : F32.Lava) :
  length (F32.lavaBandPeaks l) = 6%nat ->
  length (F32.lavaBandPeaks (F32.lavaSetup l)) = 6%nat /\
  (forall b, 0 <= b < LAVA_NUM_BANDS ->
     aget (F32.lavaBandPeaks (F32.lavaSetup l)) b = 100%Q) /\
  F32.lavaAudioPeak (F32.lavaSetup l) = 100%Q /\
  F32.lavaAudioLevel (F32.lavaSetup l) = 0%Q /\
  F32.lavaBandLevels (F32.lavaSetup l) = F32.lavaBandLevels l.
Proof.
  intros Hp. unfold F32.lavaSetup.
  cbn [F32.lavaBandPeaks F32.lavaAudioPeak F32.lavaAudioLevel F32.lavaBandLevels].
  destruct (map_loop (fun _ _ => 100%Q) LAVA_NUM_BANDS (F32.lavaBandPeaks l))
    as [Hl2 Hg2]; [consts; lia|].
  cbv zeta in *. split; [congruence|]. split; [|done].
  intros b Hb'. rewrite Hg2 by lia.
  destruct (Z.ltb_spec b LAVA_NUM_BANDS); [done|lia].
Qed.

(** ** Spectrum *)

Lemma freqRatio32_Some (b : Z) :
  F32.fdiv (itof b) (itof (NUM_BINS - 1))
  = Some (F32.round (itof b / itof (NUM_BINS - 1))).
Proof. apply fdiv32_Some, itof_nonzero. consts. lia. Qed.

Lemma spectrumGetNoiseFloor32_representable (r : Q) :
  F32.representable (F32.spectrumGetNoiseFloor r).
Proof.
  destruct (spectrumGetNoiseFloor32_cases r) as [->|[->| ->]]; vm_compute; reflexivity.
Qed.

Lemma spectrumGetNoiseFloor32_doubled (r : Q) :
  (F32.spectrumGetNoiseFloor r <= F32.fmul (F32.spectrumGetNoiseFloor r) 2)%Q.
Proof.
  destruct (spectrumGetNoiseFloor32_cases r) as [->|[->| ->]]; vm_compute; discriminate.
Qed.

Lemma spectrumSetup32_spec (peaks : list Q) :
  length peaks = 32%nat ->
  exists peaks', F32.spectrumSetup peaks = Some peaks' /\
    length peaks' = 32%nat /\
    forall b, 0 <= b < NUM_BINS ->
      aget peaks' b = F32.fmul (F32.binNoiseFloor b) 2.
Proof.
  intros Hlen. unfold F32.spectrumSetup.
  destruct (for_range_inv
    (fun k p => length p = 32%nat /\
       forall b, 0 <= b < k -> aget p b = F32.fmul (F32.binNoiseFloor b) 2)
    0 NUM_BINS
    (fun i p =>
       freqRatio ← F32.fdiv (itof i) (itof (NUM_BINS - 1));
       Some (aset p i (F32.fmul (F32.spectrumGetNoiseFloor freqRatio) 2)))
    peaks) as (p' & Hp' & Hl & Hget).
  - consts. lia.
  - split; [done|]. intros b Hb. lia.
  - intros j u Hj [Hul Hu]. rewrite freqRatio32_Some. cbn [mbind option_bind].
    eexists. split; [reflexivity|]. split; [now rewrite length_aset|].
    intros b Hb. destruct (Z.eq_dec b j) as [->|Hne].
    + rewrite aget_aset_eq; [done|]. revert Hj. consts. lia.
    + rewrite aget_aset_ne by lia. apply Hu. lia.
  - eauto.
Qed.

Lemma spectrumUpdatePeaks32_spec (v peaks : list Q) :
  length peaks = 32%nat ->
  (forall b, 1 <= b < NUM_BINS -> (F32.binNoiseFloor b <= aget peaks b)%Q) ->
  exists peaks', F32.spectrumUpdatePeaks v peaks = Some peaks' /\
    length peaks' = 32%nat /\
    forall b, 1 <= b < NUM_BINS -> (F32.binNoiseFloor b <= aget peaks' b)%Q.
Proof.
  intros Hlen Hp. unfold F32.spectrumUpdatePeaks.
  destruct (for_range_inv
    (fun _ p => length p = 32%nat /\
       forall b, 1 <= b < NUM_BINS -> (F32.binNoiseFloor b <= aget p b)%Q)
    1 NUM_BINS
    (fun b p =>
       freqRatio ← F32.fdiv (itof b) (itof (NUM_BINS - 1));
       let noiseFloor := F32.spectrumGetNoiseFloor freqRatio in
       Some (aset p b (F32.spectrumPeakStep (aget v b) noiseFloor (aget p b))))
    peaks) as (p' & Hp' & Hl & Hget).
  - consts. lia.
  - done.
  - intros j u Hj [Hul Hu]. rewrite freqRatio32_Some. cbn [mbind option_bind]. cbv zeta.
    eexists. split; [reflexivity|]. split; [now rewrite length_aset|].
    intros b Hb.
    match goal with
    | |- context [aset u j ?x] =>
        destruct (aget_aset_cases u j b x) as [[<- ->]| ->]; try lia
    end.
    + apply spectrumPeakStep_floor32. apply (Hu j Hj).
    + apply Hu, Hb.
  - eauto.
Qed.

Lemma spectrumIntensity32_total (value peak noiseFloor : Q) :
  F32.representable peak -> F32.representable noiseFloor ->
  exists x, F32.spectrumIntensity value peak noiseFloor = Some x /\ (0 <= x <= 1)%Q.
Proof.
  intros Hp Hn. unfold F32.spectrumIntensity.
  destruct (fgtb_spec value noiseFloor), (fgtb_spec peak noiseFloor); cbn [andb];
    try (exists 0%Q; split; [done|lra]).
  pose proof (fsub_pos _ _ Hp Hn ltac:(done)) as Hd.
  rewrite fdiv32_Some by lra. cbn [mbind option_bind]. eexists. split; [reflexivity|].
  apply constrain_bounds. lra.
Qed.

Lemma spectrumRenderLed32_total (v peaks : list Q) (i : Z) (leds : list Q) :
  exists leds', F32.spectrumRenderLed v peaks i leds = Some leds'.
Proof.
  unfold F32.spectrumRenderLed.
  rewrite fdiv32_Some by (apply itof_nonzero; consts; lia). cbn [mbind option_bind].
  match goal with
  | |- context [F32.spectrumIntensity ?a ?b ?c] =>
      destruct (spectrumIntensity32_total a b c) as (x & -> & _)
  end.
  { apply representable_round. }
  { apply spectrumGetNoiseFloor32_representable. }
  cbn [mbind option_bind]. destruct (fgeb _ _); eauto.
Qed.

Lemma spectrumUpdate32_spec (v peaks : list Q) :
  length peaks = 32%nat ->
  (forall b, 1 <= b < NUM_BINS -> (F32.binNoiseFloor b <= aget peaks b)%Q) ->
  exists leds peaks', F32.spectrumUpdate v peaks = Some (leds, peaks') /\
    length peaks' = 32%nat /\
    forall b, 1 <= b < NUM_BINS -> (F32.binNoiseFloor b <= aget peaks' b)%Q.
Proof.
  intros Hlen Hp. unfold F32.spectrumUpdate.
  destruct (spectrumUpdatePeaks32_spec v peaks Hlen Hp) as (p' & -> & Hl & Hget).
  cbn [mbind option_bind].
  destruct (for_range_inv (fun _ _ => True) 0 SPECTRUM_ACTIVE_LEDS
              (F32.spectrumRenderLed v p') (replicate 30 0%Q)) as (t & -> & _);
    [consts; lia|done| |].
  - intros j u _ _. destruct (spectrumRenderLed32_total v p' j u) as (u' & Hu').
    exists u'. split; [exact Hu'|done].
  - cbn [mbind option_bind]. eauto 6.
Qed.

(** ** Mode switching, setup and loop *)


Ltac fw32_simpl :=
  cbn [F32.currentMode F32.lastSwitch F32.lastSpikeSwitch F32.global F32.trail F32.lava
       F32.spectrumBinPeaks F32.trailBands F32.trailBandPeaks F32.trailSetup
       F32.set_global F32.set_lastSpikeSwitch] in *.

(** The rest value of a Trail peak is less than a thousandth below its
    floor. *)
Lemma trail_rest_near_floor (b : Z) :
  0 <= b < TRAIL_NUM_BANDS ->
  (aget TRAIL_BAND_NOISE b - 0.001 <= aget F32.TRAIL_PEAK_REST b)%Q /\
  (aget F32.TRAIL_PEAK_REST b < aget TRAIL_BAND_NOISE b)%Q.
Proof.
  intros Hb.
  destruct (band_cases b Hb) as [->|[->|[->|[->|[->|[->|[->| ->]]]]]]];
    split; vm_compute; (discriminate || reflexivity).
Qed.

Lemma trailSetup32_spec (t : F32.Trail) :
  length (F32.trailBandPeaks t) = 8%nat ->
  length (F32.trailBandPeaks (F32.trailSetup t)) = 8%nat /\
  F32.trailBands (F32.trailSetup t) = F32.trailBands t /\
  forall b, 0 <= b < TRAIL_NUM_BANDS ->
    aget (F32.trailBandPeaks (F32.trailSetup t)) b = aget TRAIL_BAND_NOISE b.
Proof.
  intros Hlen. destruct (trailSetupPeaks_spec (F32.trailBandPeaks t) Hlen) as [T1 T2].
  unfold F32.trailSetup. cbn [F32.trailBandPeaks F32.trailBands]. done.
Qed.

Lemma nextMode32_total (now : Z) (s : F32.Firmware) :
  exists s', F32.nextMode now s = Some s'.
Proof.
  unfold F32.nextMode. rewrite next_mode_eq.
  destruct (F32.currentMode s); cbn [successor]; [eauto| |eauto].
  destruct (for_range_inv (fun _ _ => True) 0 NUM_BINS
    (fun i p =>
       freqRatio ← F32.fdiv (itof i) (itof (NUM_BINS - 1));
       Some (aset p i (F32.fmul (F32.spectrumGetNoiseFloor freqRatio) 2)))
    (F32.spectrumBinPeaks s)) as (p & Hp & _); [consts; lia|done| |].
  - intros j u _ _. rewrite freqRatio32_Some. cbn [mbind option_bind]. eauto.
  - unfold F32.spectrumSetup. rewrite Hp. cbn [mbind option_bind]. eauto.
Qed.

Lemma nextMode32_invariant (now : Z) (s s' : F32.Firmware) :
  F32.invariant s -> F32.nextMode now s = Some s' -> F32.invariant s'.
Proof.
  intros [[Hb Ht Hll Hl Hs] [Pt Pl Pa Pg Ps]].
  unfold F32.nextMode. rewrite next_mode_eq.
  destruct (F32.currentMode s); cbn [successor].
  - (* into Lava *)
    intros [= <-].
    destruct (lavaSetup32_spec (F32.lava s) Hl) as (L3 & L4 & L5 & _ & L6).
    split; split; fw32_simpl; try assumption;
      try (rewrite L6; exact Hll);
      try (intros b Hb'; rewrite L4 by exact Hb'; lra);
      try (rewrite L5; lra).
  - (* into Spectrum *)
    destruct (spectrumSetup32_spec (F32.spectrumBinPeaks s) Hs) as (p & -> & S1 & S2).
    cbn [mbind option_bind]. intros [= <-].
    split; split; fw32_simpl; try assumption.
    intros b Hb'. rewrite S2 by lia. apply spectrumGetNoiseFloor32_doubled.
  - (* into Trail *)
    destruct (trailSetup32_spec (F32.trail s) Ht) as (T1 & T0 & T2).
    intros [= <-].
    split; split; cbn [F32.currentMode F32.lastSwitch F32.lastSpikeSwitch F32.global
                       F32.trail F32.lava F32.spectrumBinPeaks]; try assumption;
      try (rewrite T0; exact Hb).
    intros b Hb'. rewrite T2 by exact Hb'.
    destruct (trail_rest_near_floor b Hb'). lra.
Qed.

Lemma checkModeSwitch32_invariant (now now' : Z) (s : F32.Firmware) :
  F32.invariant s ->
  F32.representable (globalAudioPeak (F32.global s)) ->
  exists s', F32.checkModeSwitch now now' s = Some s' /\ F32.invariant s'.
Proof.
  intros Hinv Hr. unfold F32.checkModeSwitch.
  destruct (_ && _).
  - destruct (nextMode32_total now' s) as (s' & Hs').
    exists s'. split; [done|]. eapply nextMode32_invariant; eauto.
  - destruct (_ && _); [|eauto].
    destruct (detectAudioSpike32_total (F32.global s) Hr) as [b ->].
    cbn [mbind option_bind].
    destruct b; [|eauto].
    destruct (nextMode32_total now' (F32.set_lastSpikeSwitch now s)) as (s' & Hs').
    exists s'. split; [done|]. eapply nextMode32_invariant; [|exact Hs'].
    destruct Hinv as [[] []]. split; split; assumption.
Qed.

Lemma runEngine32_invariant (i : Input) (s : F32.Firmware) :
  F32.invariant s ->
  exists s', F32.runEngine i s = Some s' /\ F32.invariant s'.
Proof.
  intros [[Hb Ht Hll Hl Hs] [Pt Pl Pa Pg Ps]]. unfold F32.runEngine.
  destruct (F32.currentMode s) eqn:Hmode.
  - destruct (trailUpdate32_spec (vReal i) (F32.trail s) Hb Ht Pt)
      as (leds & t' & -> & T0 & T1 & T2). cbn [mbind option_bind].
    eexists. split; [reflexivity|].
    split; split; fw32_simpl; assumption.
  - destruct (lavaUpdate32_spec (vReal i) (F32.lava s) Hll Hl Pl Pa)
      as (r & l' & -> & L0 & L1 & L2 & L3). cbn [mbind option_bind].
    eexists. split; [reflexivity|].
    split; split; fw32_simpl; assumption.
  - destruct (spectrumUpdate32_spec (vReal i) (F32.spectrumBinPeaks s) Hs Ps)
      as (leds & p' & -> & S1 & S2). cbn [mbind option_bind].
    eexists. split; [reflexivity|].
    split; split; fw32_simpl; assumption.
Qed.

Lemma set_global32_invariant (g : Global) (s : F32.Firmware) :
  F32.invariant s -> (50 <= globalAudioPeak g)%Q -> F32.invariant (F32.set_global g s).
Proof. intros [[] []] Hg. split; split; assumption. Qed.

(** One pass of [loop()] in single precision, step by step. *)
Lemma loop32_steps (i : Input) (s : F32.Firmware) :
  F32.invariant s ->
  exists g s1 s',
    F32.updateGlobalAudioLevel (vReal i) (F32.global s) = Some g /\
    F32.checkModeSwitch (now_check i) (now_switch i) (F32.set_global g s) = Some s1 /\
    F32.runEngine i s1 = Some s' /\
    F32.loop i s = Some s' /\ F32.invariant s'.
Proof.
  intros Hinv. unfold F32.loop.
  destruct (updateGlobalAudioLevel32_total (vReal i) (F32.global s)) as [g Hg].
  assert (F32.invariant (F32.set_global g s)) as Hinv1.
  { apply set_global32_invariant; [done|].
    eapply updateGlobalAudioLevel32_floor; [exact Hg|]. now destruct Hinv as [_ []]. }
  destruct (checkModeSwitch32_invariant (now_check i) (now_switch i) _ Hinv1)
    as (s1 & Hs1 & Hinv2).
  { apply (updateGlobalAudioLevel32_representable _ _ _ Hg). }
  destruct (runEngine32_invariant i s1 Hinv2) as (s' & Hs' & Hinv3).
  exists g, s1, s'. rewrite Hg. cbn [mbind option_bind]. rewrite Hs1.
  cbn [mbind option_bind]. done.
Qed.

Lemma loop32_invariant (i : Input) (s : F32.Firmware) :
  F32.invariant s -> exists s', F32.loop i s = Some s' /\ F32.invariant s'.
Proof.
  intros Hinv. destruct (loop32_steps i s Hinv) as (g & s1 & s' & _ & _ & _ & Hl & Hi).
  eauto.
Qed.

Lemma setup32_invariant (t1 t2 : Z) :
  exists s, F32.setup t1 t2 F32.boot = Some s /\ F32.invariant s /\
    F32.currentMode s = MODE_TRAIL.
Proof.
  unfold F32.setup.
  destruct (spectrumSetup32_spec (F32.spectrumBinPeaks F32.boot) eq_refl)
    as (p & -> & S1 & S2).
  destruct (trailSetup32_spec (F32.trail F32.boot) eq_refl) as (T1 & T0 & T2).
  destruct (lavaSetup32_spec (F32.lava F32.boot) eq_refl) as (L3 & L4 & L5 & _ & L6).
  cbn [mbind option_bind]. eexists. split; [reflexivity|]. split; [|done].
  split; split;
    cbn [F32.currentMode F32.lastSwitch F32.lastSpikeSwitch F32.global
         F32.trail F32.lava F32.spectrumBinPeaks]; try assumption;
    try (rewrite T0; reflexivity); try (rewrite L6; reflexivity);
    try (intros b Hb; rewrite T2 by exact Hb; destruct (trail_rest_near_floor b Hb); lra);
    try (intros b Hb; rewrite L4 by exact Hb; lra);
    try (rewrite L5; lra);
    try (intros b Hb; rewrite S2 by lia; apply spectrumGetNoiseFloor32_doubled).
  vm_compute. discriminate.
Qed.

Lemma reachable32_invariant (s : F32.Firmware) : F32.reachable s -> F32.invariant s.
Proof.
  induction 1 as [t1 t2 s Hs|i s s' _ IH Hl].
  - destruct (setup32_invariant t1 t2) as (s0 & Hs0 & Hinv & _). congruence.
  - destruct (loop32_invariant i s IH) as (s0 & Hs0 & Hinv). congruence.
Qed.

Lemma after_setup32_eq (t : Z) : F32.setup t t F32.boot = Some (F32.after_setup t).
Proof.
  unfold F32.after_setup. destruct (setup32_invariant t t) as (s & -> & _). done.
Qed.

Lemma after_setup32_reachable (t : Z) : F32.reachable (F32.after_setup t).
Proof. eapply F32.reach_setup, after_setup32_eq. Qed.

Lemma run32_invariant (ins : list Input) (s : F32.Firmware) :
  F32.invariant s -> exists s', F32.run ins s = Some s' /\ F32.invariant s'.
Proof.
  revert s. induction ins as [|i ins IH]; intros s Hinv; [eauto|].
  destruct (loop32_invariant i s Hinv) as (s1 & Hs1 & Hinv1).
  destruct (IH s1 Hinv1) as (s' & Hs' & Hinv').
  exists s'. cbn [F32.run]. rewrite Hs1. done.
Qed.

Lemma run32_reachable (ins : list Input) (s s' : F32.Firmware) :
  F32.reachable s -> F32.run ins s = Some s' -> F32.reachable s'.
Proof.
  revert s. induction ins as [|i ins IH]; intros s Hr.
  - cbn [F32.run]. now intros [= <-].
  - cbn [F32.run]. destruct (F32.loop i s) as [s1|] eqn:E; [|done].
    cbn [mbind option_bind]. apply IH. eapply F32.reach_loop; eauto.
Qed.

(** * Peaks and floors in single precision *)

Lemma below_nat (P : Z -> Prop) (n : nat) :
  (forall k, (k < n)%nat -> P (Z.of_nat k)) -> forall b, 0 <= b < Z.of_nat n -> P b.
Proof.
  intros H b Hb. replace b with (Z.of_nat (Z.to_nat b)) by lia. apply H. lia.
Qed.

(** The floors of the bins are those of exact arithmetic. *)
Lemma binNoiseFloor32_eq (b : Z) :
  0 <= b < NUM_BINS -> F32.binNoiseFloor b = binNoiseFloor b.
Proof.
  revert b. apply (below_nat _ 32). intros k Hk.
  do 32 (destruct k as [|k]; [vm_compute; reflexivity|]). lia.
Qed.

Lemma trail_rest_fixed (b : Z) :
  0 <= b < TRAIL_NUM_BANDS ->
  F32.trailPeakStep 0 (aget TRAIL_BAND_NOISE b) (aget F32.TRAIL_PEAK_REST b)
  = aget F32.TRAIL_PEAK_REST b.
Proof.
  intros Hb.
  destruct (band_cases b Hb) as [->|[->|[->|[->|[->|[->|[->| ->]]]]]]];
    vm_compute; reflexivity.
Qed.

(** C1, as the code has it in single precision.  Between any two passes of
    [loop()], and inside a pass after the loudness update and after the mode
    check (which may re-initialise an engine), the 6 Lava band peaks and
    both loudness peaks are at least 50 and every Spectrum bin peak from
    bin 1 on is at least its frequency-dependent floor.  A Trail band peak
    is at least the value its decay comes to rest at, which is below
    [TRAIL_BAND_NOISE] by less than 0.001: the rounded decay
    [peak * 0.993 + noise * 0.007] maps that value to itself and every
    higher peak to no less.  Each peak follower keeps its bound in its rise
    branch and in its decay branch.  The bound of the Trail peaks is
    reached: after 41 silent passes each stands at its rest value. *)
Theorem peaks_stay_near_floors :
  (forall s, F32.reachable s -> F32.peaks_near_floors s) /\
  (forall s i, F32.reachable s ->
     exists g s1 s',
       F32.updateGlobalAudioLevel (vReal i) (F32.global s) = Some g /\
       F32.peaks_near_floors (F32.set_global g s) /\
       F32.checkModeSwitch (now_check i) (now_switch i) (F32.set_global g s) = Some s1 /\
       F32.peaks_near_floors s1 /\
       F32.loop i s = Some s' /\
       F32.peaks_near_floors s') /\
  (forall now s s', F32.reachable s -> F32.nextMode now s = Some s' ->
     F32.peaks_near_floors s') /\
  (forall b, 0 <= b < TRAIL_NUM_BANDS ->
     (aget TRAIL_BAND_NOISE b - 0.001 <= aget F32.TRAIL_PEAK_REST b)%Q /\
     (aget F32.TRAIL_PEAK_REST b < aget TRAIL_BAND_NOISE b)%Q /\
     F32.trailPeakStep 0 (aget TRAIL_BAND_NOISE b) (aget F32.TRAIL_PEAK_REST b)
     = aget F32.TRAIL_PEAK_REST b /\
     forall band peak,
       (aget F32.TRAIL_PEAK_REST b <= peak)%Q ->
       (aget F32.TRAIL_PEAK_REST b
        <= F32.trailPeakStep band (aget TRAIL_BAND_NOISE b) peak)%Q) /\
  (forall b, 0 <= b < NUM_BINS -> F32.binNoiseFloor b = binNoiseFloor b) /\
  (forall level peak,
     (50 <= peak)%Q -> (50 <= F32.lavaBandPeakStep level peak)%Q) /\
  (forall v r peak,
     (F32.spectrumGetNoiseFloor r <= peak)%Q ->
     (F32.spectrumGetNoiseFloor r
      <= F32.spectrumPeakStep v (F32.spectrumGetNoiseFloor r) peak)%Q) /\
  (forall v g g',
     F32.updateGlobalAudioLevel v g = Some g' ->
     (50 <= globalAudioPeak g)%Q -> (50 <= globalAudioPeak g')%Q) /\
  (exists s,
     F32.run (replicate 41 (flat 0 100)) (F32.after_setup 0) = Some s /\
     F32.trailBandPeaks (F32.trail s) = F32.TRAIL_PEAK_REST).
Proof.
  split; [|split; [|split; [|split; [|split; [|split; [|split; [|split]]]]]]].
  - intros s Hr. apply reachable32_invariant in Hr. apply (F32.inv_peaks _ Hr).
  - intros s i Hr. apply reachable32_invariant in Hr.
    destruct (loop32_steps i s Hr) as (g & s1 & s' & Hg & Hc & _ & Hl & Hinv').
    assert (F32.invariant (F32.set_global g s)) as Hinv1.
    { apply set_global32_invariant; [exact Hr|].
      eapply updateGlobalAudioLevel32_floor; [exact Hg|]. now destruct Hr as [_ []]. }
    destruct (checkModeSwitch32_invariant (now_check i) (now_switch i) _ Hinv1)
      as (s1' & Hs1' & Hinv2).
    { apply (updateGlobalAudioLevel32_representable _ _ _ Hg). }
    assert (s1' = s1) as -> by congruence.
    exists g, s1, s'.
    split; [exact Hg|]. split; [apply (F32.inv_peaks _ Hinv1)|].
    split; [exact Hc|]. split; [apply (F32.inv_peaks _ Hinv2)|].
    split; [exact Hl|apply (F32.inv_peaks _ Hinv')].
  - intros now s s' Hr Hn. apply reachable32_invariant in Hr.
    apply (F32.inv_peaks _ (nextMode32_invariant now s s' Hr Hn)).
  - intros b Hb. destruct (trail_rest_near_floor b Hb) as [H1 H2].
    split; [exact H1|]. split; [exact H2|]. split; [now apply trail_rest_fixed|].
    intros band peak. now apply trailPeakStep_rest.
  - exact binNoiseFloor32_eq.
  - exact lavaBandPeakStep_floor32.
  - intros v r peak. apply spectrumPeakStep_floor32.
  - exact updateGlobalAudioLevel32_floor.
  - eexists. split; vm_compute; reflexivity.
Qed.

(** The state after setup, and a decay step taken at rest. *)
Lemma peaks_stay_near_floors_witness :
  F32.peaks_near_floors (F32.after_setup 0) /\
  (aget F32.TRAIL_PEAK_REST 1
   <= F32.trailPeakStep 0 (aget TRAIL_BAND_NOISE 1) (aget F32.TRAIL_PEAK_REST 1))%Q.
Proof.
  destruct peaks_stay_near_floors as (H1 & _ & _ & H4 & _).
  split.
  - apply H1. apply after_setup32_reachable.
  - destruct (H4 1) as (_ & _ & _ & H); [vm_compute; split; [discriminate|reflexivity]|].
    apply H. vm_compute. discriminate.
Defined.

(** C1 as stated fails in single precision: in the first pass after
    [setup()], on a silent spectrum, the decay of every Trail band peak
    rounds to the binary32 value just below its floor: 199.99998 for band 0
    and 79.99999 for the other bands. *)
Lemma trail_peaks_fall_below_floors :
  exists s,
    F32.run [flat 0 100] (F32.after_setup 0) = Some s /\
    F32.reachable s /\
    (forall b, 0 <= b < TRAIL_NUM_BANDS ->
       (aget (F32.trailBandPeaks (F32.trail s)) b < aget TRAIL_BAND_NOISE b)%Q) /\
    aget (F32.trailBandPeaks (F32.trail s)) 0 = (13107199 # 65536)%Q /\
    aget (F32.trailBandPeaks (F32.trail s)) 1 = (10485759 # 131072)%Q.
Proof.
  assert (exists s, F32.run [flat 0 100] (F32.after_setup 0) = Some s) as [s Hs].
  { destruct (run32_invariant [flat 0 100] (F32.after_setup 0)) as (s & Hs & _); [|eauto].
    apply reachable32_invariant, after_setup32_reachable. }
  exists s. split; [exact Hs|].
  split; [exact (run32_reachable _ _ _ (after_setup32_reachable 0) Hs)|].
  pose proof Hs as Hc. vm_compute in Hc. injection Hc as <-.
  split; [|split; vm_compute; reflexivity].
  intros b Hb.
  destruct (band_cases b Hb) as [->|[->|[->|[->|[->|[->|[->| ->]]]]]]];
    vm_compute; reflexivity.
Qed.

(** * Spike detection in single precision *)












(** * Divisions, in both arithmetics *)

Lemma lavaNormalize32_floor (level peak : Q) :
  (peak <= 50)%Q -> F32.lavaNormalize level peak = Some 0%Q.
Proof.
  intros Hp. unfold F32.lavaNormalize. destruct (fgtb_spec peak 50); [lra|reflexivity].
Qed.

Lemma lavaCheckTrigger32_floor (l : F32.Lava) :
  (F32.lavaAudioPeak l <= 50)%Q -> F32.lavaCheckTrigger l = Some None.
Proof.
  intros Hp. unfold F32.lavaCheckTrigger. rewrite !lavaNormalize32_floor by assumption.
  cbn [mbind option_bind].
  assert (fgtb 0 F32.LAVA_TRIGGER_THRESHOLD = false) as -> by (vm_compute; reflexivity).
  reflexivity.
Qed.

Lemma spectrumIntensity32_floor (value peak noiseFloor : Q) :
  (value <= noiseFloor)%Q \/ (peak <= noiseFloor)%Q ->
  F32.spectrumIntensity value peak noiseFloor = Some 0%Q.
Proof.
  intros Hvp. unfold F32.spectrumIntensity.
  destruct (fgtb_spec value noiseFloor), (fgtb_spec peak noiseFloor);
    cbn [andb]; try reflexivity. lra.
Qed.

Lemma spectrumIntensity32_quotient (value peak noiseFloor : Q) :
  F32.representable peak -> F32.representable noiseFloor ->
  (noiseFloor < value)%Q -> (noiseFloor < peak)%Q ->
  (0 < F32.fsub peak noiseFloor)%Q /\
  F32.spectrumIntensity value peak noiseFloor =
  Some (constrain
          (F32.fmul (F32.round (F32.fsub value noiseFloor / F32.fsub peak noiseFloor))
                    SPECTRUM_SENSITIVITY) 0 1).
Proof.
  intros Hrp Hrn Hv Hp. pose proof (fsub_pos _ _ Hrp Hrn Hp) as Hd.
  split; [exact Hd|]. unfold F32.spectrumIntensity.
  destruct (fgtb_spec value noiseFloor), (fgtb_spec peak noiseFloor);
    cbn [andb]; try lra.
  rewrite fdiv32_Some by lra. reflexivity.
Qed.

(** With the peak at the floor Trail's divisor is 1, and a band one or
    more above its floor is lit at full intensity. *)
Lemma trailIntensity_at_floor (band noise : Q) :
  (0 <= noise)%Q -> (noise + 1 <= band)%Q ->
  trailActive band noise noise = true /\
  exists x, trailIntensity band noise noise = Some x /\ (x == 1)%Q.
Proof.
  intros Hn Hb. split.
  - unfold trailActive, TRAIL_THRESHOLD.
    destruct (fgtb_spec band noise); [|lra].
    destruct (fgtb_spec band (noise * 0.70)); [reflexivity|lra].
  - unfold trailIntensity. rewrite fdiv_Some by lra. cbn [mbind option_bind].
    eexists. split; [reflexivity|].
    assert ((band - noise) / (noise - noise + 1) == band - noise)%Q as E by (field; lra).
    revert E. generalize ((band - noise) / (noise - noise + 1))%Q. intros q E.
    unfold constrain. fcases; lra.
Qed.

(** C8, as the code has it.  Every division of the sketch goes through
    [fdiv], which has no value on a zero divisor; so "the pass has a
    result" says that no division of the pass had a zero divisor.  In exact
    arithmetic, and in single precision for every normalisation of the
    sketch, [setup()] has a result, and so has every sequence of passes of
    [loop()] from any state the firmware reaches, whatever the spectra,
    clock readings and random draws.  With a
    peak at or below 50, [detectAudioSpike] answers false and Lava's
    normalised level is 0, so [lavaCheckTrigger] spawns nothing; Spectrum's
    intensity is 0 unless value and interpolated peak both exceed the noise
    floor, and only then is the quotient formed, over a positive divisor.
    Trail has no such guard: its divisor [peak - noise + 1] is at least
    0.999 in single precision, whose peaks fall just below their floors, and
    with the peak at the floor a band above its floor is lit, at full
    intensity from one above the floor on. *)
Theorem no_division_by_zero :
  (forall t1 t2, exists s, setup t1 t2 boot = Some s) /\
  (forall s ins, reachable s -> exists s', run ins s = Some s') /\
  (forall t1 t2, exists s, F32.setup t1 t2 F32.boot = Some s) /\
  (forall s ins, F32.reachable s -> exists s', F32.run ins s = Some s') /\
  (forall g, (globalAudioPeak g <= 50)%Q ->
     detectAudioSpike g = Some false /\ F32.detectAudioSpike g = Some false) /\
  (forall level peak, (peak <= 50)%Q ->
     lavaNormalize level peak = Some 0%Q /\ F32.lavaNormalize level peak = Some 0%Q) /\
  (forall d l, (lavaAudioPeak l <= 50)%Q -> lavaCheckTrigger d l = Some l) /\
  (forall l, (F32.lavaAudioPeak l <= 50)%Q -> F32.lavaCheckTrigger l = Some None) /\
  (forall value peak noiseFloor,
     (value <= noiseFloor)%Q \/ (peak <= noiseFloor)%Q ->
     spectrumIntensity value peak noiseFloor = Some 0%Q /\
     F32.spectrumIntensity value peak noiseFloor = Some 0%Q) /\
  (forall value peak noiseFloor,
     (noiseFloor < value)%Q -> (noiseFloor < peak)%Q ->
     (0 < peak - noiseFloor)%Q /\
     spectrumIntensity value peak noiseFloor =
     Some (constrain ((value - noiseFloor) / (peak - noiseFloor) * SPECTRUM_SENSITIVITY)
             0.0 1.0)) /\
  (forall value peak noiseFloor,
     F32.representable peak -> F32.representable noiseFloor ->
     (noiseFloor < value)%Q -> (noiseFloor < peak)%Q ->
     (0 < F32.fsub peak noiseFloor)%Q /\
     F32.spectrumIntensity value peak noiseFloor =
     Some (constrain
             (F32.fmul (F32.round (F32.fsub value noiseFloor / F32.fsub peak noiseFloor))
                       SPECTRUM_SENSITIVITY) 0 1)) /\
  (forall s b, F32.reachable s -> 0 <= b < TRAIL_NUM_BANDS ->
     (0.999 <= F32.fadd (F32.fsub (aget (F32.trailBandPeaks (F32.trail s)) b)
                                  (aget TRAIL_BAND_NOISE b)) 1)%Q /\
     forall band, exists x,
       F32.trailIntensity band (aget TRAIL_BAND_NOISE b)
         (aget (F32.trailBandPeaks (F32.trail s)) b) = Some x) /\
  (forall band noise peak,
     (noise - 1 < peak)%Q -> exists x, trailIntensity band noise peak = Some x) /\
  (forall band noise,
     (0 <= noise)%Q -> (noise + 1 <= band)%Q ->
     trailActive band noise noise = true /\
     exists x, trailIntensity band noise noise = Some x /\ (x == 1)%Q).
Proof.
  split; [|split; [|split; [|split; [|split; [|split; [|split; [|split; [|split;
    [|split; [|split; [|split; [|split]]]]]]]]]]]].
  - intros t1 t2. destruct (setup_invariant t1 t2) as (s & Hs & _). eauto.
  - intros s ins Hr. apply reachable_invariant in Hr.
    destruct (run_invariant ins s Hr) as (s' & Hs' & _). eauto.
  - intros t1 t2. destruct (setup32_invariant t1 t2) as (s & Hs & _). eauto.
  - intros s ins Hr. apply reachable32_invariant in Hr.
    destruct (run32_invariant ins s Hr) as (s' & Hs' & _). eauto.
  - intros g Hp. split; [now apply detectAudioSpike_floor|now apply detectAudioSpike32_floor].
  - intros level peak Hp.
    split; [now apply lavaNormalize_floor|now apply lavaNormalize32_floor].
  - exact lavaCheckTrigger_floor.
  - exact lavaCheckTrigger32_floor.
  - intros value peak noiseFloor H.
    split; [now apply spectrumIntensity_floor|now apply spectrumIntensity32_floor].
  - intros value peak noiseFloor Hv Hp. split; [lra|].
    now apply spectrumIntensity_quotient.
  - exact spectrumIntensity32_quotient.
  - intros s b Hr Hb. apply reachable32_invariant in Hr.
    destruct Hr as [_ [Pt _ _ _ _]]. specialize (Pt b Hb).
    split; [now apply trailDivisor32|].
    intros band. now apply trailIntensity32_total.
  - intros band noise peak Hp. unfold trailIntensity.
    rewrite fdiv_Some by lra. cbn [mbind option_bind]. eauto.
  - exact trailIntensity_at_floor.
Qed.

(** Two passes after setup in either arithmetic, a value under the floor,
    and band 1 of Trail. *)
Lemma no_division_by_zero_witness :
  (exists s', run [flat 300 100; flat 0 200] (after_setup 0) = Some s') /\
  (exists s', F32.run [flat 300 100; flat 0 200] (F32.after_setup 0) = Some s') /\
  spectrumIntensity 40 100 50 = Some 0%Q /\
  (0.999 <= F32.fadd (F32.fsub (aget (F32.trailBandPeaks (F32.trail (F32.after_setup 0))) 1)
                               (aget TRAIL_BAND_NOISE 1)) 1)%Q.
Proof.
  destruct no_division_by_zero
    as (_ & H2 & _ & H4 & _ & _ & _ & _ & H9 & _ & _ & H12 & _).
  split; [|split; [|split]].
  - apply H2. apply after_setup_reachable.
  - apply H4. apply after_setup32_reachable.
  - apply H9. left. vm_compute. discriminate.
  - apply (H12 (F32.after_setup 0) 1).
    + apply after_setup32_reachable.
    + vm_compute. split; [discriminate|reflexivity].
Defined.

(** C8 as stated fails twice.  With the peak of a band at its floor, as
    [setup()] leaves it, Trail does not degrade to intensity 0: on a flat
    spectrum of 300 the pixel of band 1 shows the full colour of the band.
    And in single precision the divisor [peak - noise + 1] is below 1 after
    a silent first pass. *)
Lemma trail_at_floor_not_degraded :
  aget (trailBandPeaks (trail (after_setup 0))) 1 = aget TRAIL_BAND_NOISE 1 /\
  trailIntensity 300 80 80 = Some 1.0%Q /\
  F32.trailIntensity 300 80 80 = Some 1%Q /\
  (exists s', loop (flat 300 100) (after_setup 0) = Some s' /\
     trailPixel (strip s') 1 = aget TRAIL_COLORS 1) /\
  (exists s, F32.run [flat 0 100] (F32.after_setup 0) = Some s /\
     F32.reachable s /\
     (F32.fadd (F32.fsub (aget (F32.trailBandPeaks (F32.trail s)) 1)
                         (aget TRAIL_BAND_NOISE 1)) 1 < 1)%Q).
Proof.
  split; [vm_compute; reflexivity|]. split; [vm_compute; reflexivity|].
  split; [vm_compute; reflexivity|]. split.
  - destruct (loop_invariant (flat 300 100) (after_setup 0)) as (s' & Hs' & _).
    { apply reachable_invariant, after_setup_reachable. }
    exists s'. split; [exact Hs'|].
    pose proof Hs' as Hc. vm_compute in Hc. injection Hc as <-.
    vm_compute. reflexivity.
  - destruct (run32_invariant [flat 0 100] (F32.after_setup 0)) as (s & Hs & _).
    { apply reachable32_invariant, after_setup32_reachable. }
    exists s. split; [exact Hs|].
    split; [exact (run32_reachable _ _ _ (after_setup32_reachable 0) Hs)|].
    pose proof Hs as Hc. vm_compute in Hc. injection Hc as <-.
    vm_compute. reflexivity.
Qed.

(** * Cross-check of the rounding *)

(** On the decimal literals of the followers and of the tests, and on the
    decay of the Trail peaks from their floors (the first 60 steps for
    each floor), [F32] computes what the Standard Library's specification
    of binary32 computes. *)
Lemma round_agrees_with_SpecFloat :
  Forall (fun q => SF2Q (b32lit (Qnum q) (Z.pos (Qden q))) = F32.lit q)
    [0.7; 0.3; 0.99; 0.01; 0.995; 0.005; 0.25; 0.5; 0.1; 0.2; 0.33; 0.66; 0.08]%Q /\
  SF2Q (b32lit 993 1000) = F32.lit 0.993 /\
  SF2Q (b32lit 7 1000) = F32.lit 0.007 /\
  (forall n, (n <= 60)%nat ->
     SF2Q (Nat.iter n (trailDecaySF (b32 200)) (b32 200))
     = Nat.iter n (F32.trailPeakStep 0 200) 200%Q) /\
  (forall n, (n <= 60)%nat ->
     SF2Q (Nat.iter n (trailDecaySF (b32 80)) (b32 80))
     = Nat.iter n (F32.trailPeakStep 0 80) 80%Q).
Proof.
  split; [repeat constructor; vm_compute; reflexivity|].
  split; [vm_compute; reflexivity|]. split; [vm_compute; reflexivity|].
  split; intros n Hn;
    do 61 (destruct n as [|n]; [vm_compute; reflexivity|]); lia.
Qed.

(** * Lava: every firing of the trigger assigns a blob *)




(** * Trail: the scroll step moves the history *)

(** C7, as the code has it.  On a strip of 24-bit colours and without fade,
    one scroll step leaves the realtime zone as it is and puts into every
    other Trail pixel [k] what pixel [k - 8] held, so it moves the history
    on by [TRAIL_REALTIME_LEDS] pixels; after [n] steps pixel [k] holds
    what pixel [k - 8 * min(n, k / 8)] held at the start, and the pattern of
    the realtime zone stands unchanged in each of the blocks 1 .. min(n, 14),
    that is [8 * k] pixels further for every
    [1 <= k < NUM_LEDS / TRAIL_REALTIME_LEDS] with [k <= n]. *)
Theorem scroll_moves_history (strip : list Z) :
  frame strip ->
  (forall k, 0 <= k < NUM_LEDS ->
     trailPixel (trailScroll 1 strip) k =
     if k <? TRAIL_REALTIME_LEDS then trailPixel strip k
     else trailPixel strip (k - TRAIL_REALTIME_LEDS)) /\
  (forall n k, 0 <= k < NUM_LEDS ->
     trailPixel (Nat.iter n (trailScroll 1) strip) k =
     trailPixel strip
       (k - TRAIL_REALTIME_LEDS * Z.min (Z.of_nat n) (k / TRAIL_REALTIME_LEDS))) /\
  (forall n k,
     1 <= k < NUM_LEDS / TRAIL_REALTIME_LEDS -> k <= Z.of_nat n ->
     pattern_shifted n (TRAIL_REALTIME_LEDS * k) strip).
Proof.
  intros Hf. split; [|split].
  - intros k Hk. apply trailScroll_one_pixel; [apply Hf|exact Hk|].
    apply getPixelColor_frame, Hf.
  - intros n k Hk. destruct (trailScroll_iter strip n Hf) as [_ Hp].
    apply Hp. exact Hk.
  - intros n k Hk Hn j Hj. destruct (trailScroll_iter strip n Hf) as [_ Hp].
    change (NUM_LEDS / TRAIL_REALTIME_LEDS) with 15 in Hk.
    rewrite Hp by (revert Hj; consts; lia). f_equal.
    revert Hj. consts. intros Hj. Z.to_euclidean_division_equations. lia.
Qed.

(** One step and fifteen steps on [one_lit]: the lit pixel is copied 8
    places on, and after 15 steps it stands in the last block. *)
Lemma scroll_moves_history_witness :
  trailPixel (trailScroll 1 one_lit) 8 = trailPixel one_lit 0 /\
  pattern_shifted 15 (TRAIL_REALTIME_LEDS * 14) one_lit.
Proof.
  destruct (scroll_moves_history one_lit one_lit_frame) as (H1 & _ & H3).
  split.
  - apply (H1 8). vm_compute. split; [discriminate|reflexivity].
  - apply (H3 15%nat 14).
    + vm_compute. split; [discriminate|reflexivity].
    + vm_compute. discriminate.
Defined.

(** * The loudness trackers: attack and release *)

Lemma track_cons (v : list Q) (vs : list (list Q)) (g g' : Global) :
  updateGlobalAudioLevel v g = Some g' -> track g (v :: vs) = track g' vs.
Proof. intros Hu. cbn [track]. now rewrite Hu. Qed.

(** Over a spectrum whose mean is not above the level, the level moves
    three tenths of the way down to the mean. *)
Lemma updateGlobalAudioLevel_release (v : list Q) (g g' : Global) (a : Q) :
  updateGlobalAudioLevel v g = Some g' -> meanSpectrum v = Some a ->
  (a <= globalAudioLevel g)%Q ->
  (globalAudioLevel g' - a == 0.7 * (globalAudioLevel g - a))%Q.
Proof.
  intros Hu Ha Hle.
  destruct (updateGlobalAudioLevel_inv v g g' Hu) as (a' & Ha' & _ & -> & _).
  assert (a' = a) as -> by congruence.
  destruct (fgtb_spec a (globalAudioLevel g)); [lra|ring].
Qed.

Lemma track_release (v : list Q) (a : Q) (n : nat) (g gn : Global) :
  meanSpectrum v = Some a -> (a <= globalAudioLevel g)%Q ->
  track g (replicate n v) = Some gn ->
  (globalAudioLevel gn - a == 0.7 ^ Z.of_nat n * (globalAudioLevel g - a))%Q.
Proof.
  intros Ha. revert g. induction n as [|n IH]; intros g Hle Ht.
  - cbn [replicate track] in Ht. injection Ht as <-.
    change (0.7 ^ Z.of_nat 0)%Q with 1%Q. ring.
  - cbn [replicate] in Ht.
    destruct (updateGlobalAudioLevel_total v g) as [g1 Hg1].
    rewrite (track_cons v _ g g1 Hg1) in Ht.
    pose proof (updateGlobalAudioLevel_release v g g1 a Hg1 Ha Hle) as H1.
    rewrite (IH g1) by (try exact Ht; nra).
    rewrite H1. rewrite Nat2Z.inj_succ, <- Z.add_1_r.
    rewrite Qpower_plus by (intros E; vm_compute in E; discriminate E).
    change (0.7 ^ 1)%Q with 0.7%Q. ring.
Qed.

(** X7.  Both loudness trackers attack at once and release slowly: the new
    level equals the mean of the spectrum when the mean exceeds the old
    level; otherwise it is the blend [0.7 * level + 0.3 * mean], so it stays
    at or above the mean, does not exceed the old level, and its excess
    over the mean is 0.7 times the old one.  Over [n] passes on the same
    spectrum the excess of the shared tracker shrinks by [0.7 ^ n].  The
    previous level is kept for the spike test.  So far in exact
    arithmetic; in single precision the shared tracker attacks the same
    way and releases by the same blend with both products and the sum
    rounded, which lies between that blend of the mean with itself and of
    the old level with itself, the two rounded weights adding up to 1. *)
Theorem level_follows_the_mean (v : list Q) :
  (forall g g', updateGlobalAudioLevel v g = Some g' ->
     exists a, meanSpectrum v = Some a /\
       (a <= globalAudioLevel g')%Q /\
       ((globalAudioLevel g < a)%Q -> globalAudioLevel g' = a) /\
       ((a <= globalAudioLevel g)%Q ->
          globalAudioLevel g' = (globalAudioLevel g * 0.7 + a * 0.3)%Q /\
          (globalAudioLevel g' <= globalAudioLevel g)%Q /\
          (globalAudioLevel g' - a == 0.7 * (globalAudioLevel g - a))%Q) /\
       globalLastAudioLevel g' = globalAudioLevel g) /\
  (forall l l', lavaAnalyzeAudio v l = Some l' ->
     exists a, meanSpectrum v = Some a /\
       (a <= lavaAudioLevel l')%Q /\
       ((lavaAudioLevel l < a)%Q -> lavaAudioLevel l' = a) /\
       ((a <= lavaAudioLevel l)%Q ->
          lavaAudioLevel l' = (lavaAudioLevel l * 0.7 + a * 0.3)%Q /\
          (lavaAudioLevel l' <= lavaAudioLevel l)%Q /\
          (lavaAudioLevel l' - a == 0.7 * (lavaAudioLevel l - a))%Q) /\
       lavaLastAudioLevel l' = lavaAudioLevel l) /\
  (forall a n g gn,
     meanSpectrum v = Some a -> (a <= globalAudioLevel g)%Q ->
     track g (replicate n v) = Some gn ->
     (globalAudioLevel gn - a == 0.7 ^ Z.of_nat n * (globalAudioLevel g - a))%Q) /\
  (forall g g', F32.updateGlobalAudioLevel v g = Some g' ->
     exists a, F32.meanSpectrum v = Some a /\
       ((globalAudioLevel g < a)%Q -> globalAudioLevel g' = a) /\
       ((a <= globalAudioLevel g)%Q ->
          globalAudioLevel g' =
          F32.fadd (F32.fmul (globalAudioLevel g) (F32.lit 0.7)) (F32.fmul a (F32.lit 0.3)) /\
          (F32.fadd (F32.fmul a (F32.lit 0.7)) (F32.fmul a (F32.lit 0.3))
           <= globalAudioLevel g')%Q /\
          (globalAudioLevel g'
           <= F32.fadd (F32.fmul (globalAudioLevel g) (F32.lit 0.7))
                       (F32.fmul (globalAudioLevel g) (F32.lit 0.3)))%Q) /\
       globalLastAudioLevel g' = globalAudioLevel g) /\
  (F32.lit 0.7 + F32.lit 0.3 == 1)%Q.
Proof.
  split; [|split; [|split; [|split]]].
  - intros g g' Hu.
    destruct (updateGlobalAudioLevel_inv v g g' Hu) as (a & Ha & -> & -> & _).
    exists a. split; [exact Ha|].
    destruct (fgtb_spec a (globalAudioLevel g)).
    + split; [lra|]. split; [reflexivity|]. split; [lra|reflexivity].
    + split; [lra|]. split; [lra|]. split; [|reflexivity].
      intros _. split; [reflexivity|]. split; [lra|ring].
  - intros l l' Hu.
    destruct (lavaAnalyzeAudio_inv v l l' Hu)
      as (s & a & _ & Ha & _ & _ & _ & _ & -> & -> & _).
    exists a. split; [exact Ha|].
    destruct (fgtb_spec a (lavaAudioLevel l)).
    + split; [lra|]. split; [reflexivity|]. split; [lra|reflexivity].
    + split; [lra|]. split; [lra|]. split; [|reflexivity].
      intros _. split; [reflexivity|]. split; [lra|ring].
  - intros a n g gn. apply track_release.
  - intros g g' Hu.
    destruct (updateGlobalAudioLevel32_inv v g g' Hu) as (a & Ha & _ & Hl & -> & _).
    exists a. split; [exact Ha|].
    destruct (fgtb_spec a (globalAudioLevel g)).
    + split; [reflexivity|]. split; [lra|exact Hl].
    + split; [lra|]. split; [|exact Hl]. intros Hle.
      split; [reflexivity|].
      split; (apply fadd_mono; [|]; try apply Qle_refl;
              apply fmul_mono_l; [apply lit_nonneg; lra|exact Hle]).
  - vm_compute. reflexivity.
Qed.

(** From silence one loud spectrum, then five silent ones. *)
Lemma level_follows_the_mean_witness :
  exists g1 g6 a,
    updateGlobalAudioLevel (replicate 64 1000%Q) (global boot) = Some g1 /\
    track g1 (replicate 5 (replicate 64 0%Q)) = Some g6 /\
    meanSpectrum (replicate 64 0%Q) = Some a /\
    (globalAudioLevel g6 - a == 0.7 ^ 5 * (globalAudioLevel g1 - a))%Q /\
    (globalAudioLevel g6 == 168.07)%Q.
Proof.
  destruct (updateGlobalAudioLevel_total (replicate 64 1000%Q) (global boot)) as [g1 Hg1].
  assert (exists g6, track g1 (replicate 5 (replicate 64 0%Q)) = Some g6) as [g6 Hg6].
  { pose proof Hg1 as Hc. vm_compute in Hc. injection Hc as <-.
    eexists. vm_compute. reflexivity. }
  destruct (meanSpectrum_total (replicate 64 0%Q)) as [a Ha].
  exists g1, g6, a. split; [exact Hg1|]. split; [exact Hg6|]. split; [exact Ha|]. split.
  - destruct (level_follows_the_mean (replicate 64 0%Q)) as (_ & _ & H & _).
    apply (H a 5%nat g1 g6); [exact Ha| |exact Hg6].
    pose proof Hg1 as Hc. vm_compute in Hc. injection Hc as <-.
    pose proof Ha as Hd. vm_compute in Hd. injection Hd as <-.
    vm_compute. discriminate.
  - pose proof Hg1 as Hc. vm_compute in Hc. injection Hc as <-.
    pose proof Hg6 as Hd. vm_compute in Hd. injection Hd as <-.
    vm_compute. reflexivity.
Defined.
